(** * Self-play tree search of GameSAT (baselines/MCTS/save_1/mct1.py)

    A shallow embedding of the module [mct1.py]: the numeric helpers
    ([softmax], [get_PI], [get_nrepeat_count]), the tree node [Pi_struct],
    the driver [MCT] and the training-example dump, followed by the
    properties established about them.

    Conventions of the embedding.
    - Python and numpy integers are [Z]; numpy arrays are lists; an index
      is resolved the way numpy does it (a negative index counts from the
      end, anything else out of range raises [IndexError]).
    - A call either returns a value, raises an exception or exhausts the
      iteration budget given to its loops: the type [res].
    - Python objects live in a store and are referred to by address, so
      that several references to one node see the same mutations; reading
      an address that was never allocated, which no Python program can do,
      is the result [Raise DanglingAddress]. *)

From Stdlib Require Import ZArith List Lia Bool Reals Lra QArith.
From stdpp Require Import base tactics option list numbers sorting.

Local Open Scope Z_scope.

(** ** Results of calls *)

Inductive exn : Type :=
| IndexError
| ValueError
| AttributeError
| AssertionError
| KeyError
| ZeroDivisionError
| DanglingAddress.

Inductive res (A : Type) : Type :=
| Ret (a : A)
| Raise (e : exn)
| OutOfFuel.

Arguments Ret {A} a.
Arguments Raise {A} e.
Arguments OutOfFuel {A}.

Global Instance res_ret : MRet res := fun A a => Ret a.
Global Instance res_bind : MBind res := fun A B k c =>
  match c with
  | Ret a => k a
  | Raise e => Raise e
  | OutOfFuel => OutOfFuel
  end.

Definition assert (b : bool) : res unit :=
  if b then Ret tt else Raise AssertionError.

(** Reading an attribute that has not been assigned yet. *)
Definition attr {A} (o : option A) : res A :=
  match o with
  | Some a => Ret a
  | None => Raise AttributeError
  end.

(** ** numpy arrays as lists *)

(** The position a numpy index designates in an array of the length of [l]. *)
Definition np_index {A} (l : list A) (i : Z) : res nat :=
  let n := Z.of_nat (length l) in
  if (0 <=? i) && (i <? n) then Ret (Z.to_nat i)
  else if (- n <=? i) && (i <? 0) then Ret (Z.to_nat (i + n))
  else Raise IndexError.

Definition np_get {A} (l : list A) (i : Z) : res A :=
  k ← np_index l i;
  match l !! k with
  | Some x => Ret x
  | None => Raise IndexError
  end.

Definition np_set {A} (l : list A) (i : Z) (x : A) : res (list A) :=
  k ← np_index l i;
  Ret (<[k := x]> l).

Definition np_zeros (n : Z) : res (list Z) :=
  if n <? 0 then Raise ValueError else Ret (replicate (Z.to_nat n) 0).

Definition zsum (l : list Z) : Z := foldr Z.add 0 l.

(** The [numpy.int64] that an operation on [numpy.int64] scalars yields
    when its result in the integers is [x]: the arithmetic of numpy's
    64-bit signed integers wraps around. *)
Definition wrap64 (x : Z) : Z := (x + 2 ^ 63) mod 2 ^ 64 - 2 ^ 63.

(** ** [get_nrepeat_count] *)

(** The body of [for i in range(action.shape[0])]; the loop state is
    [(counts, base, start)]. *)
Fixpoint count_loop (idx : list nat) (action counts : list Z) (base start : Z)
  : res (list Z * Z * Z) :=
  match idx with
  | [] => Ret (counts, base, start)
  | i :: idx' =>
      ai ← np_get action (Z.of_nat i);
      if base <? ai then
        counts' ← np_set counts base (Z.of_nat i - start);
        count_loop idx' action counts' ai (Z.of_nat i)
      else count_loop idx' action counts base start
  end.

Definition get_nrepeat_count (action : list Z) (nact : Z) : res (list Z) :=
  let action := merge_sort Z.le action in
  counts ← np_zeros nact;
  '(counts, base, start) ← count_loop (seq 0 (length action)) action counts 0 0;
  np_set counts base (Z.of_nat (length action) - start).

(** The bin an element is counted in: [base] starts at 0 and only moves to
    larger elements, so every element that is not positive lands in bin 0. *)
Definition bin (x : Z) : Z := Z.max 0 x.

Definition bin_count (l : list Z) (j : Z) : Z :=
  Z.of_nat (length (filter (fun x => bin x = j) l)).

Definition histogram (action : list Z) (nact : Z) : list Z :=
  map (bin_count action) (seqZ 0 nact).

(** The number of occurrences of [a] in [l]. *)
Definition occurrences (a : Z) (l : list Z) : Z :=
  Z.of_nat (length (filter (fun x => x = a) l)).

(** ** Scalar arithmetic

    The program computes on numpy floating-point scalars.  The embedding is
    parametric in that arithmetic: the running program instantiates it with
    IEEE binary64, the statements about exact arithmetic with the reals, and
    evaluation on test inputs with the rationals. *)

Class Arith (F : Type) : Type := {
  of_Z : Z -> F;                  (* conversion of an integer *)
  of_dec : Z -> Z -> F;           (* the literal [m * 10^e] *)
  fadd : F -> F -> F;
  fsub : F -> F -> F;
  fmul : F -> F -> F;
  fdiv : F -> F -> F;
  fpow : F -> F -> F;             (* np.power *)
  fexp : F -> F;                  (* np.exp *)
  ftanh : F -> F;                 (* np.tanh *)
  fmax : F -> F -> F;
  fsum : list F -> F;             (* ndarray.sum *)
  feq : F -> F -> bool;
  fge : F -> F -> bool;
  fgt : F -> F -> bool;
  ftruthy : F -> bool             (* truth value of a scalar *)
}.

(** Elementwise binary operation on one-dimensional arrays, with numpy's
    broadcasting of an array of length one. *)
Definition np_zip {A B C} (f : A -> B -> C) (xs : list A) (ys : list B)
  : res (list C) :=
  if (length xs =? length ys)%nat then Ret (zip_with f xs ys)
  else match xs, ys with
       | [x], _ => Ret (map (f x) ys)
       | _, [y] => Ret (map (fun x => f x y) xs)
       | _, _ => Raise ValueError
       end.

(** A three-dimensional array in row-major order. *)
Record ndarray3 (F : Type) : Type := {
  dim0 : nat;
  dim1 : nat;
  dim2 : nat;
  cells : list F
}.
Arguments dim0 {F} _.
Arguments dim1 {F} _.
Arguments dim2 {F} _.
Arguments cells {F} _.

(** [list_chunks w k l]: the first [k] consecutive rows of width [w] of [l]. *)
Fixpoint list_chunks {A} (w k : nat) (l : list A) : list (list A) :=
  match k with
  | O => []
  | S k' => take w l :: list_chunks w k' (drop w l)
  end.

Section Numeric.
Context {F : Type} `{Arith F}.

Definition of_bool (b : bool) : F := of_Z (Z.b2z b).

Definition np_max (x : list F) : res F :=
  match x with
  | [] => Raise ValueError
  | a :: l => Ret (foldl fmax a l)
  end.

Definition softmax (x : list F) : res (list F) :=
  m ← np_max x;
  let e_x := map (fun xi => fexp (fsub xi m)) x in
  Ret (map (fun e => fdiv e (fsum e_x)) e_x).

(** [counts / counts.sum()] *)
Definition normalize (v : list F) : list F :=
  map (fun x => fdiv x (fsum v)) v.

(** The loop [while p >= 10] of [get_PI]; the state is [(counts, p)]. *)
Fixpoint get_PI_loop (fuel : nat) (counts : list F) (p : F) : res (list F * F) :=
  if fge p (of_Z 10) then
    match fuel with
    | O => OutOfFuel
    | S fuel' =>
        let counts := map (fun x => fpow x (of_Z 10)) counts in
        let p := fdiv p (of_Z 10) in
        let counts := normalize counts in
        get_PI_loop fuel' counts p
    end
  else Ret (counts, p).

Definition get_PI (fuel : nat) (counts : list F) (tau : F) : res (list F) :=
  let p := fdiv (of_Z 1) tau in
  let counts := normalize counts in
  '(counts, p) ← get_PI_loop fuel counts p;
  let Pi := map (fun x => fpow x p) counts in
  let Pi := normalize Pi in
  Ret Pi.

(** [np.any(state, axis = 0)], flattened. *)
Definition np_any_axis0 (s : ndarray3 F) : list bool :=
  let w := (dim1 s * dim2 s)%nat in
  map (fun c => existsb (fun i => ftruthy (nth (i * w + c) (cells s) (of_Z 0)))
                        (seq 0 (dim0 s)))
      (seq 0 w).

End Numeric.

(** ** The tree node [Pi_struct] *)

(** Addresses of nodes in the store. *)
Definition addr : Type := nat.

(** A Python [dict] with integer keys, in insertion order. *)
Definition dict_get {V} (d : list (Z * V)) (k : Z) : res V :=
  match find (fun kv => fst kv =? k) d with
  | Some kv => Ret (snd kv)
  | None => Raise KeyError
  end.

Fixpoint dict_set {V} (d : list (Z * V)) (k : Z) (v : V) : list (Z * V) :=
  match d with
  | [] => [(k, v)]
  | kv :: d' => if fst kv =? k then (k, v) :: d' else kv :: dict_set d' k v
  end.

(** One call of [set_next], as it appears in the call trace. *)
Record call : Type := {
  caller : option addr;       (* [None]: called by the driver *)
  callee : addr;
  additional_score : Z
}.

(** One traversal from the root that ended at a terminal or resign event. *)
Record traversal : Type := {
  t_node : addr;              (* the node the last action was taken from *)
  t_action : Z;
  t_level : Z;
  t_repeats : Z               (* [nrepeats[next_act]] of that node *)
}.

Section Tree.
Context {F : Type} `{Arith F}.

Record Pi_struct : Type := {
  size : Z;
  repeat : Z;
  level : Z;
  file_no : Z;
  tau : Z -> F;
  parent : option addr;
  children : list (Z * addr);
  next : Z;
  score : Z;
  score_np : bool;            (* [score] is a numpy.int64, no longer the
                                 Python int 0 of [__init__] *)
  evaluated : bool;
  isValid : option (list bool);
  state : option (list (list F));
  Pi : option (list F);
  nrepeats : option (list Z)
}.

(** [Pi_struct.__init__] *)
Definition Pi_struct_init (size repeat level file_no : Z) (tau : Z -> F)
    (parent : option addr) : Pi_struct :=
  {| size := size; repeat := repeat; level := level; file_no := file_no;
     tau := tau; parent := parent; children := []; next := 0; score := 0;
     score_np := false; evaluated := false; isValid := None; state := None;
     Pi := None; nrepeats := None |}.

(** Assignments to one attribute. *)
Definition with_children (n : Pi_struct) (v : list (Z * addr)) : Pi_struct :=
  {| size := size n; repeat := repeat n; level := level n;
     file_no := file_no n; tau := tau n; parent := parent n; children := v;
     next := next n; score := score n;
     score_np := score_np n; evaluated := evaluated n;
     isValid := isValid n; state := state n; Pi := Pi n;
     nrepeats := nrepeats n |}.

Definition with_next (n : Pi_struct) (v : Z) : Pi_struct :=
  {| size := size n; repeat := repeat n; level := level n;
     file_no := file_no n; tau := tau n; parent := parent n;
     children := children n; next := v; score := score n;
     score_np := score_np n;
     evaluated := evaluated n; isValid := isValid n; state := state n;
     Pi := Pi n; nrepeats := nrepeats n |}.

(** The assignment of the [numpy.int64] [v] to [score]. *)
Definition with_score (n : Pi_struct) (v : Z) : Pi_struct :=
  {| size := size n; repeat := repeat n; level := level n;
     file_no := file_no n; tau := tau n; parent := parent n;
     children := children n; next := next n; score := v; score_np := true;
     evaluated := evaluated n; isValid := isValid n; state := state n;
     Pi := Pi n; nrepeats := nrepeats n |}.

Definition with_evaluated (n : Pi_struct) (v : bool) : Pi_struct :=
  {| size := size n; repeat := repeat n; level := level n;
     file_no := file_no n; tau := tau n; parent := parent n;
     children := children n; next := next n; score := score n;
     score_np := score_np n; evaluated := v;
     isValid := isValid n; state := state n; Pi := Pi n;
     nrepeats := nrepeats n |}.

Definition with_isValid (n : Pi_struct) (v : option (list bool)) : Pi_struct :=
  {| size := size n; repeat := repeat n; level := level n;
     file_no := file_no n; tau := tau n; parent := parent n;
     children := children n; next := next n; score := score n;
     score_np := score_np n;
     evaluated := evaluated n; isValid := v; state := state n; Pi := Pi n;
     nrepeats := nrepeats n |}.

Definition with_state (n : Pi_struct) (v : option (list (list F))) : Pi_struct :=
  {| size := size n; repeat := repeat n; level := level n;
     file_no := file_no n; tau := tau n; parent := parent n;
     children := children n; next := next n; score := score n;
     score_np := score_np n;
     evaluated := evaluated n; isValid := isValid n; state := v; Pi := Pi n;
     nrepeats := nrepeats n |}.

Definition with_Pi (n : Pi_struct) (v : option (list F)) : Pi_struct :=
  {| size := size n; repeat := repeat n; level := level n;
     file_no := file_no n; tau := tau n; parent := parent n;
     children := children n; next := next n; score := score n;
     score_np := score_np n;
     evaluated := evaluated n; isValid := isValid n; state := state n; Pi := v;
     nrepeats := nrepeats n |}.

Definition with_nrepeats (n : Pi_struct) (v : option (list Z)) : Pi_struct :=
  {| size := size n; repeat := repeat n; level := level n;
     file_no := file_no n; tau := tau n; parent := parent n;
     children := children n; next := next n; score := score n;
     score_np := score_np n;
     evaluated := evaluated n; isValid := isValid n; state := state n;
     Pi := Pi n; nrepeats := v |}.

(** The source of random draws, [np.random]. *)
Class Sampler (Rng : Type) : Type := {
  (* np.random.choice(range(size), repeat, p = Pi) *)
  random_choice : Rng -> Z -> Z -> list F -> res (list Z * Rng)
}.

Context {Rng : Type} `{Sampler Rng}.

(** The store: the nodes allocated so far, the random generator, and the
    trace of [set_next] calls and of finished traversals. *)
Record Store : Type := {
  heap : list Pi_struct;
  rng : Rng;
  calls : list call;
  traversals : list traversal
}.

Definition with_heap (st : Store) (h : list Pi_struct) : Store :=
  {| heap := h; rng := rng st; calls := calls st; traversals := traversals st |}.

Definition with_rng (st : Store) (g : Rng) : Store :=
  {| heap := heap st; rng := g; calls := calls st; traversals := traversals st |}.

Definition log_call (st : Store) (c : call) : Store :=
  {| heap := heap st; rng := rng st; calls := calls st ++ [c];
     traversals := traversals st |}.

Definition log_traversal (st : Store) (t : traversal) : Store :=
  {| heap := heap st; rng := rng st; calls := calls st;
     traversals := traversals st ++ [t] |}.

Definition load (st : Store) (a : addr) : res Pi_struct :=
  match heap st !! a with
  | Some n => Ret n
  | None => Raise DanglingAddress
  end.

Definition store (st : Store) (a : addr) (n : Pi_struct) : Store :=
  with_heap st (<[a := n]> (heap st)).

Definition alloc (st : Store) (n : Pi_struct) : addr * Store :=
  (length (heap st), with_heap st (heap st ++ [n])).

(** [Pi_struct.add_state] *)
Definition add_state_node (n : Pi_struct) (s : ndarray3 F) : res Pi_struct :=
  let w := (dim1 s * dim2 s)%nat in
  _ ← (if (size n =? -1) || (Z.of_nat w =? size n) then Ret tt
       else Raise ValueError);
  let n := with_isValid n (Some (np_any_axis0 s)) in
  _ ← (if (w =? 0)%nat then Raise ValueError else Ret tt);
  Ret (with_state n (Some (list_chunks w (dim0 s) (cells s)))).

Definition add_state (st : Store) (self : addr) (s : ndarray3 F) : res Store :=
  n ← load st self;
  n ← add_state_node n s;
  Ret (store st self n).

(** [x > 0.5] and [x < 0.5] for an integer [x]. *)
Definition gt_half (x : Z) : bool := 1 <? 2 * x.
Definition lt_half (x : Z) : bool := 2 * x <? 1.

(** The loop [for i in range(self.size)] of [add_counts]. *)
Fixpoint make_children (idx : list Z) (st : Store) (self : addr) : res Store :=
  match idx with
  | [] => Ret st
  | i :: idx' =>
      n ← load st self;
      r ← attr (nrepeats n);
      ri ← np_get r i;
      if gt_half ri then
        let '(c, st) :=
          alloc st (Pi_struct_init (size n) ri (level n + 1) (file_no n) (tau n)
                      (Some self)) in
        let st := store st self (with_children n (dict_set (children n) i c)) in
        make_children idx' st self
      else make_children idx' st self
  end.

(** [Pi_struct.add_counts]; [fuel] bounds the loop of [get_PI]. *)
Definition add_counts (fuel : nat) (st : Store) (self : addr) (counts : list F)
  : res Store :=
  n ← load st self;
  v ← attr (isValid n);
  masked ← np_zip (fun c b => fmul c (of_bool b)) counts v;
  _ ← assert (feq (fsum counts) (fsum masked));
  pi ← get_PI fuel counts (tau n (level n));
  let n := with_Pi n (Some pi) in
  mass ← np_zip (fun b p => fmul (of_bool b) p) v pi;
  _ ← assert (fgt (fsum mass) (of_dec 999999 (-6)));
  '(action, g) ← random_choice (rng st) (size n) (repeat n) pi;
  let st := with_rng st g in
  r ← get_nrepeat_count action (size n);
  let n := with_nrepeats n (Some r) in
  rv ← np_zip (fun x b => x * Z.b2z b) r v;
  _ ← assert (repeat n =? zsum rv);
  st ← make_children (seqZ 0 (size n)) (store st self n) self;
  n ← load st self;
  Ret (store st self (with_evaluated n true)).

(** The loop of [get_next]: at most [size - next] iterations. *)
Fixpoint get_next_loop (k : nat) (n : Pi_struct) : res Pi_struct :=
  if next n <? size n then
    r ← attr (nrepeats n);
    ri ← np_get r (next n);
    skip ← (if lt_half ri then Ret true
            else v ← attr (isValid n); vi ← np_get v (next n); Ret (negb vi));
    if skip : bool then
      match k with
      | O => OutOfFuel
      | S k' => get_next_loop k' (with_next n (next n + 1))
      end
    else Ret n
  else Ret n.

Definition get_next_node (n : Pi_struct) : res (Z * Pi_struct) :=
  n ← get_next_loop (Z.to_nat (size n - next n)) n;
  if size n <=? next n then Ret (-1, n) else Ret (next n, n).

(** [Pi_struct.get_next] *)
Definition get_next (st : Store) (self : addr) : res (Z * Store) :=
  n ← load st self;
  '(i, n) ← get_next_node n;
  Ret (i, store st self n).

(** [Pi_struct.set_next]; [depth] bounds the recursion along the parents.
    [additional] is a [numpy.int64], as every score that the program passes
    is: [level * nrepeats[next_act]] in [get_state], the score of a node
    in the recursive call.  The sum [self.score += additional_score] is a
    [numpy.int64] and wraps around. *)
Fixpoint set_next (depth : nat) (st : Store) (self : addr)
    (from : option addr) (additional : Z) : res (Z * Store) :=
  match depth with
  | O => OutOfFuel
  | S depth' =>
      let st := log_call st {| caller := from; callee := self;
                               additional_score := additional |} in
      n ← load st self;
      let st := store st self (with_score n (wrap64 (score n + additional))) in
      n ← load st self;
      let st := store st self (with_next n (next n + 1)) in
      '(nxt, st) ← get_next st self;
      '(nxt', st) ← get_next st self;
      n ← load st self;
      if nxt' <? 0 then
        match parent n with
        | Some p => set_next depth' st p (Some self) (score n)
        | None => Ret (nxt, st)
        end
      else Ret (nxt, st)
  end.

End Tree.

Arguments Pi_struct F : clear implicits.
Arguments Store F Rng : clear implicits.
Arguments Sampler F Rng : clear implicits.

(** ** The driver [MCT] *)

(** The decision environment ([minisat.gym.GymSolver.sat]), an external
    collaborator: the driver only calls these four methods. *)
Class Environment (F E : Type) : Type := {
  env_resetAt : E -> Z -> option (ndarray3 F) * E;
  env_simulate : E -> list F -> F -> (ndarray3 F * bool * bool) * E;
  env_get_visit_count : E -> list F * E;
  env_step : E -> Z -> (bool * ndarray3 F) * E
}.

(** A training example handed to [sl_Buffer.add]. *)
Record example (F : Type) : Type := {
  ex_file_no : Z;
  ex_state : list (list F);
  ex_Pi : list F;
  ex_score : F;
  ex_repeat : Z
}.
Arguments ex_file_no {F} _.
Arguments ex_state {F} _.
Arguments ex_Pi {F} _.
Arguments ex_score {F} _.
Arguments ex_repeat {F} _.

Section Driver.
Context {F : Type} `{Arith F}.
Context {Rng : Type} `{Sampler F Rng}.
Context {E : Type} `{Environment F E}.

(** The attributes of an [MCT] object.  The attributes that [__init__] does
    not assign for a trivially solved instance are optional; [phase] is
    [Some false] (running), [Some true] (paused) or [None] (finished). *)
Record MCT : Type := {
  env : E;
  mct_file_no : Z;
  mct_state : option (ndarray3 F);
  Pi_root : option addr;
  Pi_current : option addr;
  min_step : option Z;
  max_step : option Z;
  resign : option Z;
  phase : option bool
}.

Definition with_env (m : MCT) (e : E) : MCT :=
  {| env := e; mct_file_no := mct_file_no m; mct_state := mct_state m;
     Pi_root := Pi_root m; Pi_current := Pi_current m; min_step := min_step m;
     max_step := max_step m; resign := resign m; phase := phase m |}.

Definition with_mct_state (m : MCT) (s : option (ndarray3 F)) : MCT :=
  {| env := env m; mct_file_no := mct_file_no m; mct_state := s;
     Pi_root := Pi_root m; Pi_current := Pi_current m; min_step := min_step m;
     max_step := max_step m; resign := resign m; phase := phase m |}.

Definition with_Pi_current (m : MCT) (a : option addr) : MCT :=
  {| env := env m; mct_file_no := mct_file_no m; mct_state := mct_state m;
     Pi_root := Pi_root m; Pi_current := a; min_step := min_step m;
     max_step := max_step m; resign := resign m; phase := phase m |}.

Definition with_min_step (m : MCT) (v : option Z) : MCT :=
  {| env := env m; mct_file_no := mct_file_no m; mct_state := mct_state m;
     Pi_root := Pi_root m; Pi_current := Pi_current m; min_step := v;
     max_step := max_step m; resign := resign m; phase := phase m |}.

Definition with_max_step (m : MCT) (v : option Z) : MCT :=
  {| env := env m; mct_file_no := mct_file_no m; mct_state := mct_state m;
     Pi_root := Pi_root m; Pi_current := Pi_current m; min_step := min_step m;
     max_step := v; resign := resign m; phase := phase m |}.

Definition with_phase (m : MCT) (ph : option bool) : MCT :=
  {| env := env m; mct_file_no := mct_file_no m; mct_state := mct_state m;
     Pi_root := Pi_root m; Pi_current := Pi_current m; min_step := min_step m;
     max_step := max_step m; resign := resign m; phase := ph |}.

Definition empty_store (g : Rng) : Store F Rng :=
  {| heap := []; rng := g; calls := []; traversals := [] |}.

(** [MCT.__init__]; [e] is the environment object [sat(file_path, ...)] and
    [g] the state of the random generator. *)
Definition MCT_init (e : E) (g : Rng) (file_no max_var1 nrepeat : Z)
    (tau : Z -> F) (resign : Z) : res (MCT * Store F Rng) :=
  let '(s0, e) := env_resetAt e file_no in
  match s0 with
  | None =>
      Ret ({| env := e; mct_file_no := file_no; mct_state := None;
              Pi_root := None; Pi_current := None; min_step := None;
              max_step := None; resign := None; phase := None |},
           empty_store g)
  | Some s =>
      let '(root, st) :=
        alloc (empty_store g)
          (Pi_struct_init (max_var1 * 2) nrepeat 0 file_no tau None) in
      st ← add_state st root s;
      Ret ({| env := e; mct_file_no := file_no; mct_state := Some s;
              Pi_root := Some root; Pi_current := Some root;
              min_step := Some resign; max_step := Some 0;
              resign := Some resign; phase := Some false |}, st)
  end.

(** How the block [if not self.Pi_current.evaluated] ends: with the
    [return self.state] inside it, or past [add_counts]. *)
Inductive expansion : Type :=
| Paused (m : MCT)
| Expanded (m : MCT).

(** The loop [while needEnv or needSim]. *)
Fixpoint simulate_loop (fuel : nat) (m : MCT) (pi_array : list F) (v_value : F)
    (needEnv needSim : bool) : res expansion :=
  if needEnv || needSim then
    match fuel with
    | O => OutOfFuel
    | S fuel' =>
        let continue (m : MCT) :=
          p ← softmax pi_array;
          let '(s, needEnv, needSim, e) := env_simulate (env m) p v_value in
          let m := with_mct_state (with_env m e) (Some s) in
          simulate_loop fuel' m pi_array v_value needEnv needSim in
        if needEnv then
          ph ← attr (phase m);
          if negb ph then Ret (Paused (with_phase m (Some true)))
          else continue (with_phase m (Some false))
        else continue m
    end
  else Ret (Expanded m).

(** The block [if not self.Pi_current.evaluated] for the current node [n]
    stored at [cur]. *)
Definition expand_current (fuel : nat) (m : MCT) (st : Store F Rng)
    (cur : addr) (n : Pi_struct F) (pi_array : list F) (v_value : F)
  : res (expansion * Store F Rng) :=
  if negb (evaluated n) then
    x ← simulate_loop fuel m pi_array v_value true false;
    match x with
    | Paused m => Ret (Paused m, st)
    | Expanded m =>
        let '(counts, e) := env_get_visit_count (env m) in
        let m := with_env m e in
        st ← add_counts fuel st cur counts;
        Ret (Expanded m, st)
    end
  else Ret (Expanded m, st).

(** The branch [if isDone or self.Pi_current.level >= self.resign]; [loop]
    is the next iteration of [while True].  The score
    [level * nrepeats[next_act]] is the product of a Python int and a
    [numpy.int64]: a [numpy.int64], which wraps around. *)
Definition end_traversal
    (loop : MCT -> Store F Rng -> res (option (ndarray3 F) * MCT * Store F Rng))
    (m : MCT) (st : Store F Rng) (cur : addr) (n : Pi_struct F) (next_act : Z)
  : res (option (ndarray3 F) * MCT * Store F Rng) :=
  lo ← attr (min_step m);
  let m := if level n <? lo then with_min_step m (Some (level n)) else m in
  hi ← attr (max_step m);
  let m := if hi <? level n then with_max_step m (Some (level n)) else m in
  r ← attr (nrepeats n);
  ra ← np_get r next_act;
  let st := log_traversal st
              {| t_node := cur; t_action := next_act;
                 t_level := level n; t_repeats := ra |} in
  '(nxt, st) ← set_next (length (heap st)) st cur None (wrap64 (level n * ra));
  if nxt <? 0 then Ret (None, with_phase m None, st)
  else
    let m := with_Pi_current m (Pi_root m) in
    let '(s0, e) := env_resetAt (env m) (mct_file_no m) in
    let m := with_mct_state (with_env m e) s0 in
    loop m st.

(** The branch [else]: the driver moves to the child of the action taken. *)
Definition descend
    (loop : MCT -> Store F Rng -> res (option (ndarray3 F) * MCT * Store F Rng))
    (m : MCT) (st : Store F Rng) (n : Pi_struct F) (next_act : Z)
    (s : ndarray3 F) : res (option (ndarray3 F) * MCT * Store F Rng) :=
  c ← dict_get (children n) next_act;
  let m := with_Pi_current m (Some c) in
  st ← add_state st c s;
  loop m st.

(** The loop [while True] of [get_state]. *)
Fixpoint get_state_loop (fuel : nat) (m : MCT) (st : Store F Rng)
    (pi_array : list F) (v_value : F)
  : res (option (ndarray3 F) * MCT * Store F Rng) :=
  match fuel with
  | O => OutOfFuel
  | S fuel' =>
      cur ← attr (Pi_current m);
      n ← load st cur;
      x ← expand_current fuel' m st cur n pi_array v_value;
      match x with
      | (Paused m, st) => Ret (mct_state m, m, st)
      | (Expanded m, st) =>
          '(next_act, st) ← get_next st cur;
          _ ← assert (0 <=? next_act);
          let '(isDone, s, e) := env_step (env m) next_act in
          let m := with_mct_state (with_env m e) (Some s) in
          n ← load st cur;
          over ← (if isDone : bool then Ret true
                  else rs ← attr (resign m); Ret (rs <=? level n));
          if over : bool then
            end_traversal (fun m st => get_state_loop fuel' m st pi_array v_value)
              m st cur n next_act
          else
            descend (fun m st => get_state_loop fuel' m st pi_array v_value)
              m st n next_act s
      end
  end.

(** [MCT.get_state] *)
Definition get_state (fuel : nat) (m : MCT) (st : Store F Rng) (pi_array : list F)
    (v_value : F) : res (option (ndarray3 F) * MCT * Store F Rng) :=
  match phase m with
  | None => Ret (None, m, st)
  | Some _ => get_state_loop fuel m st pi_array v_value
  end.

(** The loop [for act in Pi_node.children] of the dump, [visit] being the
    recursive call. *)
Fixpoint dump_children {B} (visit : addr -> B -> res B)
    (kids : list (Z * addr)) (sl_Buffer : B) : res B :=
  match kids with
  | [] => Ret sl_Buffer
  | (_, c) :: kids' =>
      sl_Buffer ← visit c sl_Buffer;
      dump_children visit kids' sl_Buffer
  end.

(** [Pi_node.score / Pi_node.repeat], with the Python type of the result:
    [true] for a [numpy.float64], [false] for a [float] of Python.  [score]
    is a [numpy.int64] once [set_next] has added to it, and the Python int 0
    before; [repeat] is a [numpy.int64] entry of [nrepeats] in every node
    but the root, where it is the Python int [nrepeat].  Dividing two
    Python ints raises [ZeroDivisionError] on 0; numpy returns inf or nan. *)
Definition average_score (n : Pi_struct F) : res (bool * F) :=
  let repeat_np := match parent n with Some _ => true | None => false end in
  if score_np n || repeat_np
  then Ret (true, fdiv (of_Z (score n)) (of_Z (repeat n)))
  else if repeat n =? 0 then Raise ZeroDivisionError
  else Ret (false, fdiv (of_Z (score n)) (of_Z (repeat n))).

(** [np.tanh((standard[1] - av) * 3.0 / standard[1])]: the quotient is
    computed by Python, and raises [ZeroDivisionError] on 0, when neither
    [standard[1]] nor [av] is a [numpy.float64]. *)
Definition dump_score (mean av : bool * F) : res F :=
  let x := fmul (fsub (mean.2) (av.2)) (of_dec 3 0) in
  if mean.1 || av.1 then Ret (ftanh (fdiv x (mean.2)))
  else if ftruthy (mean.2) then Ret (ftanh (fdiv x (mean.2)))
  else Raise ZeroDivisionError.

(** [analyze_Pi_graph_dump]; the buffer is the list of the examples added
    so far and [depth] bounds the recursion. *)
Fixpoint analyze_Pi_graph_dump (depth : nat) (file_no : Z) (st : Store F Rng)
    (Pi_node : addr) (sl_Buffer : list (example F))
    (standard : Z * (bool * F) * Z)
  : res (list (example F)) :=
  match depth with
  | O => OutOfFuel
  | S depth' =>
      n ← load st Pi_node;
      if negb (evaluated n) then Ret sl_Buffer
      else
        sl_Buffer ← dump_children
          (fun c buf => analyze_Pi_graph_dump depth' file_no st c buf standard)
          (children n) sl_Buffer;
        av ← average_score n;
        sc ← dump_score (standard.1.2) av;
        s ← attr (state n);
        p ← attr (Pi n);
        Ret (sl_Buffer ++ [ {| ex_file_no := file_no; ex_state := s; ex_Pi := p;
                               ex_score := sc; ex_repeat := repeat n |} ])
  end.

(** [MCT.write_data_to_buffer] *)
Definition write_data_to_buffer (depth : nat) (m : MCT) (st : Store F Rng)
    (sl_Buffer : list (example F)) : res (list (example F)) :=
  match Pi_root m with
  | None => Ret sl_Buffer
  | Some root =>
      lo ← attr (min_step m);
      r ← load st root;
      mean ← average_score r;
      hi ← attr (max_step m);
      let standard := (lo, mean, hi) in
      analyze_Pi_graph_dump depth (mct_file_no m) st root sl_Buffer standard
  end.

(** [MCT.report_performance] *)
Definition report_performance (m : MCT) (st : Store F Rng) : res (Z * Z * Z) :=
  match Pi_root m with
  | None => Ret (mct_file_no m, 1, 1)
  | Some root =>
      r ← load st root;
      Ret (mct_file_no m, repeat r, score r)
  end.

End Driver.

Arguments MCT F E : clear implicits.
Arguments expansion F E : clear implicits.

(** The array [counts] once the elements [pre] have been read: the bins
    below [base] are final, the others still zero. *)
Definition prefix_histogram (pre : list Z) (base nact : Z) : list Z :=
  map (fun j => if j <? base then bin_count pre j else 0) (seqZ 0 nact).


(** ** Exact arithmetic

    The instance of the arithmetic on the reals.  [R_power] is [np.power]
    on a base that is not negative: [0 ** 0 = 1] and [0 ** y = 0]. *)

Definition R_power (x y : R) : R :=
  if Req_dec_T x 0 then (if Req_dec_T y 0 then 1%R else 0%R) else Rpower x y.

Definition R_sum (l : list R) : R := foldr Rplus 0%R l.

Global Instance R_arith : Arith R := {|
  of_Z := IZR;
  of_dec := fun m e => (IZR m * powerRZ 10 e)%R;
  fadd := Rplus;
  fsub := Rminus;
  fmul := Rmult;
  fdiv := Rdiv;
  fpow := R_power;
  fexp := exp;
  ftanh := tanh;
  fmax := Rmax;
  fsum := R_sum;
  feq := fun x y => if Req_dec_T x y then true else false;
  fge := fun x y => if Rge_dec x y then true else false;
  fgt := fun x y => if Rgt_dec x y then true else false;
  ftruthy := fun x => if Req_dec_T x 0 then false else true
|}.

(** An action index that is valid and has a positive repeat budget. *)
Definition actionable (r : list Z) (v : list bool) (i : Z) : Prop :=
  0 <= i /\ exists ri, r !! Z.to_nat i = Some ri /\ 0 < ri /\
                       v !! Z.to_nat i = Some true.


(** ** Instances for evaluation

    A test arithmetic: rational numbers where the result of an operation is
    rational, and a symbolic term where it is not (or not known to be).
    A comparison that involves a symbolic term answers [false]. *)

Inductive unop : Type := OpExp | OpTanh.
Inductive binop : Type := OpAdd | OpSub | OpMul | OpDiv | OpPow | OpMax.

Inductive num : Type :=
| Rat (q : Q)
| Un (f : unop) (x : num)
| Bin (f : binop) (x y : num).

Definition Q_is_int (q : Q) : bool := Pos.eqb (Qden (Qred q)) 1.

Definition num_bin (f : binop) (x y : num) : num :=
  match x, y with
  | Rat a, Rat b =>
      match f with
      | OpAdd => Rat (Qred (a + b))
      | OpSub => Rat (Qred (a - b))
      | OpMul => Rat (Qred (a * b))
      | OpDiv => if Qeq_bool b 0 then Bin f x y else Rat (Qred (a / b))
      | OpPow =>
          if Q_is_int b && (negb (Qeq_bool a 0) || (0 <=? Qnum b)%Z)
          then Rat (Qred (Qpower a (Qnum (Qred b))))
          else Bin f x y
      | OpMax => Rat (if Qle_bool a b then b else a)
      end
  | _, _ => Bin f x y
  end.

Definition num_un (f : unop) (x : num) : num :=
  match x with
  | Rat a => if Qeq_bool a 0
             then match f with OpExp => Rat 1 | OpTanh => Rat 0 end
             else Un f x
  | _ => Un f x
  end.

Definition num_cmp (c : Q -> Q -> bool) (x y : num) : bool :=
  match x, y with
  | Rat a, Rat b => c a b
  | _, _ => false
  end.

Global Instance num_arith : Arith num := {|
  of_Z := fun z => Rat (inject_Z z);
  of_dec := fun m e => Rat (Qred (inject_Z m * Qpower 10 e));
  fadd := num_bin OpAdd;
  fsub := num_bin OpSub;
  fmul := num_bin OpMul;
  fdiv := num_bin OpDiv;
  fpow := num_bin OpPow;
  fexp := num_un OpExp;
  ftanh := num_un OpTanh;
  fmax := num_bin OpMax;
  fsum := foldl (num_bin OpAdd) (Rat 0);
  feq := num_cmp Qeq_bool;
  fge := num_cmp (fun a b => Qle_bool b a);
  fgt := num_cmp (fun a b => negb (Qle_bool a b));
  ftruthy := fun x => negb (num_cmp Qeq_bool x (Rat 0))
|}.

(** A scripted random generator: the draws are read off a list; a draw that
    [np.random.choice(range(size), repeat)] cannot produce is refused. *)
Definition scripted_choice (g : list (list Z)) (size repeat : Z) (p : list num)
  : res (list Z * list (list Z)) :=
  match g with
  | [] => Raise ValueError
  | d :: g' =>
      if (Z.of_nat (length d) =? repeat)%Z
         && forallb (fun a => (0 <=? a)%Z && (a <? size)%Z) d
      then Ret (d, g') else Raise ValueError
  end.

Global Instance scripted_sampler : Sampler num (list (list Z)) := {|
  random_choice := scripted_choice
|}.

(** A scripted environment: the problem fixes, for every sequence of
    actions played since the last reset, whether a further action ends the
    episode, what is observed and what the visit counts are; [simulate]
    asks for [p_evals] evaluations before it has enough statistics. *)
Record problem : Type := {
  p_solved : bool;
  p_term : list Z -> Z -> bool;
  p_obs : list Z -> ndarray3 num;
  p_counts : list Z -> list num;
  p_evals : nat
}.

Record toy : Type := {
  toy_problem : problem;
  toy_path : list Z;
  toy_sims : nat
}.

Definition toy_at (e : toy) (path : list Z) (sims : nat) : toy :=
  {| toy_problem := toy_problem e; toy_path := path; toy_sims := sims |}.

Global Instance toy_env : Environment num toy := {|
  env_resetAt := fun e _ =>
    (if p_solved (toy_problem e) then None else Some (p_obs (toy_problem e) []),
     toy_at e [] 0);
  env_simulate := fun e _ _ =>
    (p_obs (toy_problem e) (toy_path e),
     (toy_sims e <? p_evals (toy_problem e))%nat, false,
     toy_at e (toy_path e) (S (toy_sims e)));
  env_get_visit_count := fun e => (p_counts (toy_problem e) (toy_path e), e);
  env_step := fun e a =>
    (p_term (toy_problem e) (toy_path e) a,
     p_obs (toy_problem e) (toy_path e ++ [a]),
     toy_at e (toy_path e ++ [a]) 0)
|}.

(** An observation over two actions, both valid. *)
Definition obs2 : ndarray3 num :=
  {| dim0 := 1; dim1 := 2; dim2 := 1; cells := [Rat 1; Rat 1] |}.

(** A problem with two actions in which the [d]-th action of an episode
    ends it; visit counts 3 and 1 everywhere. *)
Definition chain_problem (d : nat) (evals : nat) : problem :=
  {| p_solved := false;
     p_term := fun path _ => (d <=? S (length path))%nat;
     p_obs := fun _ => obs2;
     p_counts := fun _ => [Rat 3; Rat 1];
     p_evals := evals |}.

Definition chain_env (d evals : nat) : toy :=
  {| toy_problem := chain_problem d evals; toy_path := []; toy_sims := 0 |}.

(** An expanded node over three actions of which the middle one is invalid
    and only the last one has a repeat budget, and a store holding it. *)
Definition demo_node : Pi_struct num :=
  with_evaluated
    (with_nrepeats
       (with_isValid (Pi_struct_init 3 2 0 7 (fun _ => Rat 1) None)
          (Some [true; false; true]))
       (Some [0; 0; 2]%Z))
    true.

Definition demo_store : Store num (list (list Z)) :=
  {| heap := [demo_node]; rng := []; calls := []; traversals := [] |}.


(** ** Notions used in the statements about the tree *)

Section TreeNotions.
Context {F : Type} `{Arith F}.

(** The actions of [idx] to which [nrepeats = r] gives a repeat budget. *)
Definition budgeted (r : list Z) (idx : list Z) : list Z :=
  filter (fun i => 0 < nth (Z.to_nat i) r 0) idx.

(** The child that [add_counts] constructs for action [i] of the node [n]
    stored at [self]. *)
Definition child_of (n : Pi_struct F) (self : addr) (r : list Z) (i : Z)
  : Pi_struct F :=
  Pi_struct_init (size n) (nth (Z.to_nat i) r 0) (level n + 1) (file_no n)
    (tau n) (Some self).

(** The entries that [add_counts] adds to [children] when the next free
    address is [base]. *)
Definition child_entries (r : list Z) (idx : list Z) (base : nat)
  : list (Z * addr) :=
  zip (budgeted r idx) (seq base (length (budgeted r idx))).

(** [sum(nrepeats * isValid)] *)
Definition valid_budget (r : list Z) (v : list bool) : Z :=
  zsum (zip_with (fun x b => x * Z.b2z b) r v).

End TreeNotions.

(** The store in which the expansion of a root over two actions with
    repeat budget 4 is about to draw action 0 three times and action 1
    once. *)
Definition demo_root : Pi_struct num :=
  with_state
    (with_isValid (Pi_struct_init 2 4 0 7 (fun _ => Rat 1) None)
       (Some [true; true]))
    (Some [[Rat 1; Rat 1]]).

Definition demo_fresh : Store num (list (list Z)) :=
  {| heap := [demo_root]; rng := [[0; 1; 0; 0]]; calls := []; traversals := [] |}.


(** ** Runs and trees *)

Section Runs.
Context {F : Type} `{Arith F}.
Context {Rng : Type} `{Sampler F Rng}.
Context {E : Type} `{Environment F E}.

(** Successive calls of [get_state] by the caller, each with its iteration
    budget and the evaluator's output; the values returned are collected. *)
Fixpoint get_state_many (inputs : list (nat * list F * F)) (m : MCT F E)
    (st : Store F Rng) : res (list (option (ndarray3 F)) * MCT F E * Store F Rng) :=
  match inputs with
  | [] => Ret ([], m, st)
  | (fuel, pi_array, v_value) :: inputs' =>
      '(o, m, st) ← get_state fuel m st pi_array v_value;
      '(os, m, st) ← get_state_many inputs' m st;
      Ret (o :: os, m, st)
  end.

(** A forest of nodes: the first tree (its root [n] and the forest [kids]
    of its children, in the order of the [children] mapping) and the
    remaining trees. *)
Inductive forest : Type :=
| FNil
| FCons (n : Pi_struct F) (kids : forest) (rest : forest).

(** [represents st cs f]: the nodes stored at the addresses of the entries
    [cs], with everything below them, are the forest [f]. *)
Fixpoint represents (st : Store F Rng) (cs : list (Z * addr)) (f : forest)
  : Prop :=
  match f, cs with
  | FNil, [] => True
  | FCons n kids rest, (_, c) :: cs' =>
      heap st !! c = Some n /\
      represents st (children n) kids /\
      represents st cs' rest
  | _, _ => False
  end.

Fixpoint forest_depth (f : forest) : nat :=
  match f with
  | FNil => O
  | FCons _ kids rest => Nat.max (S (forest_depth kids)) (forest_depth rest)
  end.

(** Every expanded node of the forest holds a state and a policy, and
    has received a score if it has no parent. *)
Fixpoint populated (f : forest) : Prop :=
  match f with
  | FNil => True
  | FCons n kids rest =>
      (evaluated n = true ->
       is_Some (state n) /\ is_Some (Pi n) /\
       (parent n = None -> score_np n = true)) /\
      populated kids /\ populated rest
  end.

(** The training example of an expanded node, in the words of the
    specification: [averageOutcome = accumulatedScore / repeatBudget] and
    [score = tanh(3 * (meanScale - averageOutcome) / meanScale)]. *)
Definition spec_example (problemId : Z) (meanScale : F) (n : Pi_struct F)
  : example F :=
  let averageOutcome := fdiv (of_Z (score n)) (of_Z (repeat n)) in
  {| ex_file_no := problemId;
     ex_state := default [] (state n);
     ex_Pi := default [] (Pi n);
     ex_score :=
       ftanh (fdiv (fmul (of_dec 3 0) (fsub meanScale averageOutcome)) meanScale);
     ex_repeat := repeat n |}.

(** The post-order emission of the specification: the examples of the
    children before the example of their parent, nodes that are not
    expanded being skipped. *)
Fixpoint spec_postorder (problemId : Z) (meanScale : F) (f : forest)
  : list (example F) :=
  match f with
  | FNil => []
  | FCons n kids rest =>
      (if evaluated n
       then spec_postorder problemId meanScale kids
            ++ [spec_example problemId meanScale n]
       else [])
      ++ spec_postorder problemId meanScale rest
  end.

End Runs.

Arguments forest F : clear implicits.

(** A problem that simplification has already solved. *)
Definition solved_env : toy :=
  {| toy_problem :=
       {| p_solved := true; p_term := fun _ _ => true; p_obs := fun _ => obs2;
          p_counts := fun _ => []; p_evals := 0 |};
     toy_path := []; toy_sims := 0 |}.

Definition solved_driver : MCT num toy :=
  {| env := solved_env; mct_file_no := 7; mct_state := None; Pi_root := None;
     Pi_current := None; min_step := None; max_step := None; resign := None;
     phase := None |}.


(** A finished tree over the reals: a root with two children, the first
    expanded (and itself the parent of a leaf that was never expanded), the
    second never expanded. *)
Definition dump_node (level repeat score : Z) (parent : option addr)
    (children : list (Z * addr)) (evaluated : bool) : Pi_struct R :=
  {| size := 2; repeat := repeat; level := level; file_no := 7;
     tau := fun _ => 1%R; parent := parent; children := children;
     next := 2; score := score; score_np := evaluated;
     evaluated := evaluated;
     isValid := Some [true; true]; state := Some [[1%R; 1%R]];
     Pi := if evaluated then Some [(3 / 4)%R; (1 / 4)%R] else None;
     nrepeats := if evaluated then Some [3; 1] else None |}.

Definition dump_root : Pi_struct R :=
  dump_node 0 4 4 None [(0, 1%nat); (1, 2%nat)] true.
Definition dump_left : Pi_struct R :=
  dump_node 1 3 3 (Some 0%nat) [(0, 3%nat)] true.
Definition dump_right : Pi_struct R := dump_node 1 1 0 (Some 0%nat) [] false.
Definition dump_leaf : Pi_struct R := dump_node 2 3 0 (Some 1%nat) [] false.

Definition dump_store : Store R unit :=
  {| heap := [dump_root; dump_left; dump_right; dump_leaf]; rng := tt;
     calls := []; traversals := [] |}.

Definition dump_driver : MCT R unit :=
  {| env := tt; mct_file_no := 7; mct_state := None; Pi_root := Some 0%nat;
     Pi_current := Some 0%nat; min_step := Some 0; max_step := Some 1;
     resign := Some 1000000; phase := None |}.

Definition dump_forest_of_store : forest R :=
  FCons dump_root
    (FCons dump_left (FCons dump_leaf FNil FNil) (FCons dump_right FNil FNil))
    FNil.


(** ** A deterministic environment

    The statements about whole runs assume that the environment plays one
    fixed problem: what [step] reports depends only on the position
    reached since the last reset, and [simulate] and [get_visit_count] do
    not move that position.  [env_ok] singles out the environment states
    in question. *)

Class Deterministic {F E : Type} `{Environment F E} (Pos : Type) : Type := {
  env_ok : E -> Prop;
  pos : E -> Pos;
  pos0 : Z -> Pos;
  nextpos : Pos -> Z -> Pos;
  term_at : Pos -> Z -> bool;
  obs_at : Pos -> ndarray3 F;
  resetAt_ok : forall e f, env_ok e ->
    env_ok (env_resetAt e f).2 /\ pos (env_resetAt e f).2 = pos0 f;
  simulate_ok : forall e p v, env_ok e ->
    env_ok (env_simulate e p v).2 /\ pos (env_simulate e p v).2 = pos e;
  get_visit_count_ok : forall e, env_ok e ->
    env_ok (env_get_visit_count e).2 /\ pos (env_get_visit_count e).2 = pos e;
  step_ok : forall e a, env_ok e ->
    env_ok (env_step e a).2 /\
    pos (env_step e a).2 = nextpos (pos e) a /\
    (env_step e a).1 = (term_at (pos e) a, obs_at (nextpos (pos e) a))
}.

(** The scripted environment playing the problem [P] is deterministic. *)
Global Program Instance toy_deterministic (P : problem)
  : Deterministic (list Z) := {|
  env_ok := fun e => toy_problem e = P;
  pos := toy_path;
  pos0 := fun _ => [];
  nextpos := fun path a => path ++ [a];
  term_at := p_term P;
  obs_at := p_obs P
|}.
Next Obligation. intros P e f He. split; [exact He | reflexivity]. Qed.
Next Obligation. intros P e p v He. split; [exact He | reflexivity]. Qed.
Next Obligation. intros P e He. split; [exact He | reflexivity]. Qed.
Next Obligation.
  intros P e a He. split; [exact He |]. split; [reflexivity |].
  simpl. by rewrite He.
Qed.

(** ** The invariant of a run *)

Section Invariant.
Context {F : Type} `{Arith F}.
Context {Rng : Type} `{Sampler F Rng}.
Context {E : Type} `{Environment F E}.
Context {Pos : Type} `{!Deterministic Pos}.

(** A node all of whose budgeted valid actions have been explored. *)
Definition finished (n : Pi_struct F) : bool :=
  evaluated n && (size n <=? next n).

Definition is_root (n : Pi_struct F) : bool :=
  match parent n with None => true | Some _ => false end.

(** [nrepeats * isValid] *)
Definition masked (n : Pi_struct F) : list Z :=
  match nrepeats n, isValid n with
  | Some r, Some v => zip_with (fun x b => x * Z.b2z b) r v
  | _, _ => []
  end.

(** The repeat budget of the actions before the cursor. *)
Definition passed (n : Pi_struct F) : Z :=
  zsum (take (Z.to_nat (next n)) (masked n)).

(** Score held by nodes that have not handed it to their parent yet. *)
Definition score_weight (n : Pi_struct F) : Z :=
  if is_root n || negb (finished n) then score n else 0.

Definition phi_score (h : list (Pi_struct F)) : Z := zsum (map score_weight h).

(** Repeat budget used up at the nodes still in progress. *)
Definition repeat_weight (n : Pi_struct F) : Z :=
  if evaluated n && (is_root n || negb (finished n)) then passed n else 0.

Definition phi_repeat (h : list (Pi_struct F)) : Z := zsum (map repeat_weight h).

(** The calls of [set_next] made by the driver. *)
Definition driver_calls (cs : list call) : list call :=
  filter (fun c => caller c = None) cs.

(** The nodes that have propagated their score to their parent. *)
Definition propagators (cs : list call) : list addr :=
  omap caller cs.

(** In the trace [cs] every call made by a node, to hand its score to its
    parent, directly follows a call of [set_next] on that node. *)
Definition linked (cs : list call) : Prop :=
  forall (i : nat) c a, cs !! i = Some c -> caller c = Some a ->
    exists (j : nat) c', i = S j /\ cs !! j = Some c' /\ callee c' = a.

Record node_ok (n : Pi_struct F) : Prop := {
  ok_next : 0 <= next n;
  ok_fresh : evaluated n = false ->
             score n = 0 /\ next n = 0 /\ children n = [];
  ok_mask : forall v, isValid n = Some v -> 0 < size n ->
                      length v = Z.to_nat (size n);
  ok_eval : evaluated n = true ->
            exists r v,
              nrepeats n = Some r /\ isValid n = Some v /\ 0 < size n /\
              length r = Z.to_nat (size n) /\ Forall (fun x => 0 <= x) r /\
              valid_budget r v = repeat n /\
              (children n).*1 = budgeted r (seqZ 0 (size n)) /\
              NoDup (children n).*2 /\
              next n <= size n /\
              (next n < size n -> actionable r v (next n))
}.

(** How the node [n] stored at [a] hangs below its parent.  [front] is the
    current node of the driver, [pend] a node that is finished but whose
    parent has not moved its cursor past it yet. *)
Definition link_ok (pm : addr -> Pos) (rs : Z) (front pend : option addr)
    (h : list (Pi_struct F)) (a : addr) (n : Pi_struct F) : Prop :=
  match parent n with
  | None => a = 0%nat
  | Some p =>
      a <> 0%nat /\
      exists pn act r,
        (p < a)%nat /\ h !! p = Some pn /\ evaluated pn = true /\
        nrepeats pn = Some r /\ (act, a) ∈ children pn /\
        level n = level pn + 1 /\ repeat n = nth (Z.to_nat act) r 0 /\
        size n = size pn /\ pm a = nextpos (pm p) act /\
        (isValid n <> None -> add_state_node n (obs_at (pm a)) = Ret n) /\
        (evaluated n = true \/ front = Some a ->
         term_at (pm p) act = false /\ level pn < rs /\
         if finished n
         then (if decide (pend = Some a) then next pn = act else act < next pn)
         else next pn = act)
  end.

Definition kids_ok (h : list (Pi_struct F)) (a : addr) (n : Pi_struct F) : Prop :=
  forall act c, (act, c) ∈ children n ->
                exists cn, h !! c = Some cn /\ parent cn = Some a.

Definition heap_ok (pm : addr -> Pos) (rs : Z) (front pend : option addr)
    (h : list (Pi_struct F)) : Prop :=
  forall a n, h !! a = Some n ->
              node_ok n /\ link_ok pm rs front pend h a n /\ kids_ok h a n.

(** What the trace of calls records about propagation, [pend] being as in
    [link_ok]. *)
Record prop_ok (pend : option addr) (st : Store F Rng) : Prop := {
  log_propagation : forall c, c ∈ calls st -> forall a, caller c = Some a ->
                      exists n, heap st !! a = Some n /\ finished n = true /\
                                parent n = Some (callee c) /\
                                additional_score c = score n;
  log_once : NoDup (propagators (calls st));
  log_pend : forall a, pend = Some a -> a ∉ propagators (calls st);
  log_all : forall a n, heap st !! a = Some n -> finished n = true ->
                        parent n <> None -> pend <> Some a ->
                        a ∈ propagators (calls st);
  log_linked : linked (calls st);
  log_last : forall a, pend = Some a ->
                       exists c, last (calls st) = Some c /\ callee c = a
}.

(** What the traces record about the scores and repeats credited. *)
Record acct_ok (st : Store F Rng) : Prop := {
  log_score : wrap64 (phi_score (heap st))
              = wrap64 (zsum (map additional_score (driver_calls (calls st))));
  log_repeat : phi_repeat (heap st) = zsum (map t_repeats (traversals st));
  log_driver : Forall2 (fun c t => callee c = t_node t /\
                                   additional_score c
                                   = wrap64 (t_level t * t_repeats t))
                 (driver_calls (calls st)) (traversals st);
  log_visits : Forall (fun t => 1 <= t_repeats t /\
                            exists n, heap st !! t_node t = Some n /\
                                      evaluated n = true /\
                                      level n = t_level t /\
                                      0 <= t_action t /\
                                      exists r, nrepeats n = Some r /\
                                                r !! Z.to_nat (t_action t)
                                                = Some (t_repeats t))
                    (traversals st)
}.

(** The invariant that holds between two iterations of [get_state], for a
    run with [nrepeat = R] and [resign = rs]; [pm] maps every node to the
    position of the environment at which it is reached. *)
Record run_ok (pm : addr -> Pos) (R rs : Z) (m : MCT F E) (st : Store F Rng)
  : Prop := {
  run_root : Pi_root m = Some 0%nat;
  run_resign : resign m = Some rs;
  run_min : is_Some (min_step m);
  run_max : is_Some (max_step m);
  run_current : exists cur, Pi_current m = Some cur /\
                            (cur < length (heap st))%nat;
  run_heap : heap_ok pm rs (match phase m with
                            | Some _ => Pi_current m
                            | None => None
                            end) None (heap st);
  run_prop : prop_ok None st;
  run_acct : acct_ok st;
  run_env : env_ok (env m);
  run_pos0 : pm 0%nat = pos0 (mct_file_no m);
  run_top : exists r, heap st !! 0%nat = Some r /\ repeat r = R /\ level r = 0 /\
                      (finished r = true <-> phase m = None);
  run_pos : forall cur, phase m <> None -> Pi_current m = Some cur ->
                        pos (env m) = pm cur
}.

End Invariant.

Section Frames.
Context {F : Type} `{Arith F}.

(** [grows h h']: every node of [h] is still in [h'], with the attributes
    fixed at construction, an expanded node is still expanded, with the
    same repeat counts, and a finished node is unchanged. *)
Definition grows (h h' : list (Pi_struct F)) : Prop :=
  forall b nb, h !! b = Some nb ->
    exists nb', h' !! b = Some nb' /\
                (evaluated nb = true ->
                 evaluated nb' = true /\ nrepeats nb' = nrepeats nb) /\
                level nb' = level nb /\ repeat nb' = repeat nb /\
                parent nb' = parent nb /\ file_no nb' = file_no nb /\
                (finished nb = true -> nb' = nb).

End Frames.

Section ExpandedNode.
Context {F : Type} `{Arith F}.

(** The node [cn], stored at [self] in a heap of [base] nodes, once
    [add_counts] has expanded it with policy [pi] and repeat counts [r] and
    [get_next] has moved its cursor to [c]. *)
Definition expanded_node (cn : Pi_struct F) (base : nat) (pi : list F)
    (r : list Z) (c : Z) : Pi_struct F :=
  with_next
    (with_evaluated
       (with_children (with_nrepeats (with_Pi cn (Some pi)) (Some r))
          (child_entries r (seqZ 0 (size cn)) base))
       true)
    c.

End ExpandedNode.

Section ExtendPositions.
Context {Pos : Type}.

(** The positions of the nodes once the children for the actions [acts]
    have been allocated from address [base] on, below a node at position
    [here]. *)
Definition extend_positions (pm : addr -> Pos) (base : nat)
    (step : Z -> Pos) (acts : list Z) : addr -> Pos :=
  fun a => if decide (a < base)%nat then pm a
           else step (nth (a - base) acts 0).

End ExtendPositions.

Section DriverFrames.
Context {F : Type} `{Arith F}.
Context {Rng : Type} `{Sampler F Rng}.
Context {E : Type} `{Environment F E}.
Context {Pos : Type} `{!Deterministic Pos}.

(** [same_driver m m1]: the driver [m1] differs from [m] at most in the
    state of the environment, which has not moved, in the observation kept
    and in being paused or not. *)
Definition same_driver (m m1 : MCT F E) : Prop :=
  Pi_root m1 = Pi_root m /\ Pi_current m1 = Pi_current m /\
  min_step m1 = min_step m /\ max_step m1 = max_step m /\
  resign m1 = resign m /\ mct_file_no m1 = mct_file_no m /\
  phase m1 <> None /\ env_ok (env m1) /\ pos (env m1) = pos (env m).

(** The store right after the query [get_next] of an iteration has
    returned [next_act] for the current node [cur]. *)
Definition ready (pm : addr -> Pos) (R rs : Z) (cur : addr) (next_act : Z)
    (st : Store F Rng) : Prop :=
  heap_ok pm rs (Some cur) None (heap st) /\ prop_ok None st /\ acct_ok st /\
  (exists n, heap st !! cur = Some n /\ evaluated n = true /\
             next n = next_act /\ next_act < size n) /\
  (exists r0, heap st !! 0%nat = Some r0 /\ repeat r0 = R /\ level r0 = 0 /\
              finished r0 = false).

End DriverFrames.

Section DriverOk.
Context {F : Type} `{Arith F}.
Context {E : Type} `{Environment F E}.
Context {Pos : Type} `{!Deterministic Pos}.

(** What the invariant of a run says about the driver alone, while it is
    not finished. *)
Definition driver_ok (pm : addr -> Pos) (rs : Z) (m : MCT F E) : Prop :=
  Pi_root m = Some 0%nat /\ resign m = Some rs /\
  is_Some (min_step m) /\ is_Some (max_step m) /\
  env_ok (env m) /\ pm 0%nat = pos0 (mct_file_no m) /\ phase m <> None.

End DriverOk.

Section Play.
Context {F : Type} `{Arith F}.
Context {Rng : Type} `{Sampler F Rng}.
Context {E : Type} `{Environment F E}.

(** A run: the construction of the driver followed by successive calls of
    [get_state]. *)
Definition play (e : E) (g : Rng) (file_no max_var1 nrepeat : Z)
    (tau : Z -> F) (resign : Z) (inputs : list (nat * list F * F))
  : res (list (option (ndarray3 F)) * MCT F E * Store F Rng) :=
  '(m, st) ← MCT_init e g file_no max_var1 nrepeat tau resign;
  get_state_many inputs m st.

End Play.

(** The calls of [set_next] by which the node at [a] hands its score to its
    parent. *)
Definition propagations_of (a : addr) (cs : list call) : list call :=
  filter (fun c => caller c = Some a) cs.

Section Scenario.
Context {F : Type} `{Arith F}.
Context {Rng : Type} `{Sampler F Rng}.
Context {E : Type} `{Environment F E}.

(** The driver has not expanded its root yet: nothing has been written
    back. *)
Definition awaiting (m : MCT F E) (st : Store F Rng) : Prop :=
  phase m <> None /\ Pi_current m = Some 0%nat /\ calls st = [] /\
  exists n, heap st !! 0%nat = Some n /\ evaluated n = false.

(** The run is over after a single call of [set_next], on the root, with
    the score 0; [f] is the number of the problem. *)
Definition single_traversal (f : Z) (m : MCT F E) (st : Store F Rng) : Prop :=
  phase m = None /\
  calls st = [{| caller := None; callee := 0%nat; additional_score := 0 |}] /\
  (exists r, heap st !! 0%nat = Some r /\ score r = 0) /\
  report_performance m st = Ret (f, 1, 0).

End Scenario.

(** Runs of the scripted environment: every call of [get_state] comes with
    ten iterations and the same output of the evaluator. *)
Definition toy_input : nat * list num * num := (10%nat, [Rat 1; Rat 1], Rat 0).

(** [k] calls on the problem whose first action ends the episode, with one
    repeat, action 0 being drawn. *)
Definition one_step_run (k : nat)
  : res (list (option (ndarray3 num)) * MCT num toy * Store num (list (list Z))) :=
  play (chain_env 1 1) [[0]] 7 1 1 (fun _ => Rat 1) 1000000 (replicate k toy_input).

(** The same problem, without a second evaluation at a node, with two
    repeats, action 0 being drawn twice. *)
Definition two_repeats_run (k : nat)
  : res (list (option (ndarray3 num)) * MCT num toy * Store num (list (list Z))) :=
  play (chain_env 1 0) [[0; 0]] 7 1 2 (fun _ => Rat 1) 1000000
    (replicate k toy_input).

(** The problem whose second action ends the episode, with two repeats:
    actions 0 and 1 are drawn at the root, then action 0 below the first
    child and action 1 below the second. *)
Definition two_level_run (k : nat)
  : res (list (option (ndarray3 num)) * MCT num toy * Store num (list (list Z))) :=
  play (chain_env 2 0) [[0; 1]; [0]; [1]] 7 1 2 (fun _ => Rat 1) 1000000
    (replicate k toy_input).

(** An observation over three actions of which the middle one is masked:
    one plane of three rows of width one. *)
Definition obs3 : ndarray3 num :=
  {| dim0 := 1; dim1 := 3; dim2 := 1; cells := [Rat 1; Rat 0; Rat 1] |}.

(** A scripted random generator for the exact arithmetic: as
    [scripted_choice], the probabilities being ignored. *)
Global Instance scripted_sampler_R : Sampler R (list (list Z)) := {|
  random_choice := fun g size repeat _ =>
    match g with
    | [] => Raise ValueError
    | d :: g' =>
        if (Z.of_nat (length d) =? repeat)%Z
           && forallb (fun a => (0 <=? a)%Z && (a <? size)%Z) d
        then Ret (d, g') else Raise ValueError
    end
|}.

(** A root over three actions of which the middle one is invalid, with a
    repeat budget of 2, in exact arithmetic, and the store in which its
    expansion is about to draw action 0 and action 2. *)
Definition exact_root : Pi_struct R :=
  with_state
    (with_isValid (Pi_struct_init 3 2 0 7 (fun _ => 1%R) None)
       (Some [true; false; true]))
    (Some [[1%R; 0%R; 1%R]]).

Definition exact_fresh : Store R (list (list Z)) :=
  {| heap := [exact_root]; rng := [[0; 2]]; calls := []; traversals := [] |}.

Section Stocked.
Context {F : Type} `{Arith F}.

(** What the dump reads of a node is there: a node that is not expanded
    has no children, a node that has its mask [isValid] has its [state],
    an expanded node has its [state] and its policy [Pi], a node whose
    cursor is past the end has received a score, and every score is a
    64-bit value. *)
Definition stocked (n : Pi_struct F) : Prop :=
  (evaluated n = false -> children n = []) /\
  (is_Some (isValid n) -> is_Some (state n)) /\
  (evaluated n = true -> is_Some (state n) /\ is_Some (Pi n)) /\
  (0 < size n -> size n <= next n -> score_np n = true) /\
  - 2 ^ 63 <= score n < 2 ^ 63.

End Stocked.

Section Below.
Context {F : Type} `{Arith F}.

(** [below h a b]: following [parent] from the node at [b] leads to the
    node at [a]; the node at [b] is the node at [a] or below it. *)
Inductive below (h : list (Pi_struct F)) (a : addr) : addr -> Prop :=
| below_self : below h a a
| below_child (b p : addr) (nb : Pi_struct F) :
    below h a p -> h !! b = Some nb -> parent nb = Some p -> below h a b.

(** [x] is the example that [analyze_Pi_graph_dump] adds for the expanded
    node [n], [mean] being [standard[1]]. *)
Definition emitted (file_no : Z) (mean : F) (n : Pi_struct F) (x : example F)
  : Prop :=
  evaluated n = true /\ ex_file_no x = file_no /\
  state n = Some (ex_state x) /\ Pi n = Some (ex_Pi x) /\
  ex_repeat x = repeat n /\
  ex_score x
  = ftanh (fdiv (fmul (fsub mean (fdiv (of_Z (score n)) (of_Z (repeat n))))
                   (of_dec 3 0))
             mean).

End Below.

Section Unchecked.
Context {F : Type} `{Arith F}.
Context {Rng : Type} `{Sampler F Rng}.
Context {E : Type} `{Environment F E}.

(** The loop [while True] of [get_state] with the assertion
    [next_act >= 0] left out, everything else being as in
    [get_state_loop]. *)
Fixpoint get_state_loop_unchecked (fuel : nat) (m : MCT F E) (st : Store F Rng)
    (pi_array : list F) (v_value : F)
  : res (option (ndarray3 F) * MCT F E * Store F Rng) :=
  match fuel with
  | O => OutOfFuel
  | S fuel' =>
      cur ← attr (Pi_current m);
      n ← load st cur;
      x ← expand_current fuel' m st cur n pi_array v_value;
      match x with
      | (Paused m, st) => Ret (mct_state m, m, st)
      | (Expanded m, st) =>
          '(next_act, st) ← get_next st cur;
          let '(isDone, s, e) := env_step (env m) next_act in
          let m := with_mct_state (with_env m e) (Some s) in
          n ← load st cur;
          over ← (if isDone : bool then Ret true
                  else rs ← attr (resign m); Ret (rs <=? level n));
          if over : bool then
            end_traversal
              (fun m st => get_state_loop_unchecked fuel' m st pi_array v_value)
              m st cur n next_act
          else
            descend
              (fun m st => get_state_loop_unchecked fuel' m st pi_array v_value)
              m st n next_act s
      end
  end.

(** [MCT.get_state] without that assertion. *)
Definition get_state_unchecked (fuel : nat) (m : MCT F E) (st : Store F Rng)
    (pi_array : list F) (v_value : F)
  : res (option (ndarray3 F) * MCT F E * Store F Rng) :=
  match phase m with
  | None => Ret (None, m, st)
  | Some _ => get_state_loop_unchecked fuel m st pi_array v_value
  end.

End Unchecked.

(** * Properties *)

(** ** Reasoning about results *)

Lemma bind_Ret_inv {A B} (c : res A) (k : A -> res B) (b : B) :
  c ≫= k = Ret b -> exists a, c = Ret a /\ k a = Ret b.
Proof. destruct c; simpl; intros Hk; try discriminate; eauto. Qed.

Lemma assert_Ret_inv (b : bool) (u : unit) : assert b = Ret u -> b = true.
Proof. destruct b; simpl; [reflexivity | discriminate]. Qed.

Lemma attr_Ret_inv {A} (o : option A) (a : A) : attr o = Ret a -> o = Some a.
Proof. destruct o; simpl; intros Ha; inversion Ha; reflexivity. Qed.

(** ** 64-bit integers *)

Lemma wrap64_spec (x : Z) : exists k, wrap64 x = x + k * 2 ^ 64.
Proof.
  unfold wrap64. exists (- ((x + 2 ^ 63) / 2 ^ 64)).
  pose proof (Z.div_mod (x + 2 ^ 63) (2 ^ 64) ltac:(lia)). lia.
Qed.

Lemma wrap64_range (x : Z) : - 2 ^ 63 <= wrap64 x < 2 ^ 63.
Proof.
  unfold wrap64. pose proof (Z.mod_pos_bound (x + 2 ^ 63) (2 ^ 64) ltac:(lia)). lia.
Qed.

Lemma wrap64_small (x : Z) : - 2 ^ 63 <= x < 2 ^ 63 -> wrap64 x = x.
Proof. intros Hx. unfold wrap64. rewrite Z.mod_small by lia. lia. Qed.

Lemma wrap64_congr (a b k : Z) : a = b + k * 2 ^ 64 -> wrap64 a = wrap64 b.
Proof.
  intros ->. unfold wrap64.
  replace (b + k * 2 ^ 64 + 2 ^ 63) with (b + 2 ^ 63 + k * 2 ^ 64) by lia.
  by rewrite Z_mod_plus_full.
Qed.

Lemma wrap64_inv (a b : Z) : wrap64 a = wrap64 b -> exists k, a = b + k * 2 ^ 64.
Proof.
  intros Hab. destruct (wrap64_spec a) as [ka Ha]. destruct (wrap64_spec b) as [kb Hb].
  exists (kb - ka). lia.
Qed.

(** Decompose a hypothesis [c ≫= k = Ret b] into its steps. *)
Ltac inv_bind Hx :=
  let a := fresh "x" in
  let H1 := fresh "Hstep" in
  apply bind_Ret_inv in Hx; destruct Hx as (a & H1 & Hx).

(** ** Array accesses *)

Lemma np_index_nonneg {A} (l : list A) (i : Z) :
  0 <= i < Z.of_nat (length l) -> np_index l i = Ret (Z.to_nat i).
Proof.
  intros Hi. unfold np_index.
  destruct (0 <=? i) eqn:E1; [| lia].
  destruct (i <? Z.of_nat (length l)) eqn:E2; [reflexivity | lia].
Qed.

Lemma np_index_above {A} (l : list A) (i : Z) :
  Z.of_nat (length l) <= i -> np_index l i = Raise IndexError.
Proof.
  intros Hi. unfold np_index.
  destruct (i <? Z.of_nat (length l)) eqn:E2; [lia |].
  destruct (i <? 0) eqn:E3; [lia |].
  rewrite !andb_false_r. reflexivity.
Qed.

Lemma np_index_Ret_lt {A} (l : list A) (i : Z) (k : nat) :
  np_index l i = Ret k -> (k < length l)%nat.
Proof.
  unfold np_index. intros Hk.
  destruct ((0 <=? i) && (i <? Z.of_nat (length l))) eqn:E1.
  - inversion Hk; subst. apply andb_true_iff in E1. lia.
  - destruct ((- Z.of_nat (length l) <=? i) && (i <? 0)) eqn:E2; [| discriminate].
    inversion Hk; subst. apply andb_true_iff in E2. lia.
Qed.

Lemma np_get_nonneg {A} (l : list A) (k : nat) (x : A) :
  l !! k = Some x -> np_get l (Z.of_nat k) = Ret x.
Proof.
  intros Hk. unfold np_get.
  rewrite np_index_nonneg by (apply lookup_lt_Some in Hk; lia).
  simpl. rewrite Nat2Z.id, Hk. reflexivity.
Qed.

Lemma np_get_Ret_nonneg {A} (l : list A) (i : Z) (x : A) :
  0 <= i -> np_get l i = Ret x -> l !! Z.to_nat i = Some x /\ i < Z.of_nat (length l).
Proof.
  intros Hi Hg. unfold np_get in Hg.
  destruct (Z_lt_ge_dec i (Z.of_nat (length l))) as [Hlt | Hge].
  - rewrite np_index_nonneg in Hg by lia. simpl in Hg.
    destruct (l !! Z.to_nat i); inversion Hg; auto.
  - rewrite np_index_above in Hg by lia. discriminate.
Qed.

Lemma np_set_nonneg {A} (l : list A) (i : Z) (x : A) :
  0 <= i < Z.of_nat (length l) -> np_set l i x = Ret (<[Z.to_nat i := x]> l).
Proof. intros Hi. unfold np_set. rewrite np_index_nonneg by lia. reflexivity. Qed.

Lemma np_set_above {A} (l : list A) (i : Z) (x : A) :
  Z.of_nat (length l) <= i -> np_set l i x = Raise IndexError.
Proof. intros Hi. unfold np_set. rewrite np_index_above by lia. reflexivity. Qed.


(** ** [get_nrepeat_count] computes the histogram *)

Lemma bin_count_app (l1 l2 : list Z) (j : Z) :
  bin_count (l1 ++ l2) j = bin_count l1 j + bin_count l2 j.
Proof. unfold bin_count. rewrite filter_app, length_app. lia. Qed.

Lemma bin_count_single (a j : Z) :
  bin_count [a] j = if decide (bin a = j) then 1 else 0.
Proof.
  unfold bin_count. rewrite filter_cons, filter_nil.
  destruct (decide (bin a = j)); reflexivity.
Qed.

Lemma bin_count_nonneg (l : list Z) (j : Z) : 0 <= bin_count l j.
Proof. unfold bin_count. lia. Qed.

Lemma bin_count_above (l : list Z) (b j : Z) :
  Forall (fun x => bin x <= b) l -> b < j -> bin_count l j = 0.
Proof.
  intros Hl Hj. unfold bin_count.
  induction Hl as [| x l Hx Hl IH]; [reflexivity |].
  rewrite filter_cons. destruct (decide (bin x = j)); [lia | exact IH].
Qed.

Lemma below_count_split (l : list Z) (b : Z) :
  Forall (fun x => bin x <= b) l ->
  Z.of_nat (length l)
  = Z.of_nat (length (filter (fun x => bin x < b) l)) + bin_count l b.
Proof.
  intros Hl. unfold bin_count.
  induction Hl as [| x l Hx Hl IH]; [reflexivity |].
  rewrite !filter_cons.
  destruct (decide (bin x < b)), (decide (bin x = b)); simpl length; lia.
Qed.

Lemma below_count_all (l : list Z) (b : Z) :
  Forall (fun x => bin x < b) l -> filter (fun x => bin x < b) l = l.
Proof.
  intros Hl. induction Hl as [| x l Hx Hl IH]; [reflexivity |].
  rewrite filter_cons. destruct (decide (bin x < b)); [| lia]. by rewrite IH.
Qed.

Lemma map_seqZ_ext (f g : Z -> Z) (n : Z) :
  (forall j, 0 <= j < n -> f j = g j) -> map f (seqZ 0 n) = map g (seqZ 0 n).
Proof.
  intros Hfg. apply map_ext_in. intros j Hj.
  apply list_elem_of_In, elem_of_seqZ in Hj. apply Hfg. lia.
Qed.

Lemma insert_map_seqZ (f : Z -> Z) (n b v : Z) :
  0 <= b < n ->
  <[Z.to_nat b := v]> (map f (seqZ 0 n))
  = map (fun j => if decide (j = b) then v else f j) (seqZ 0 n).
Proof.
  intros Hb. apply list_eq. intros i.
  destruct (decide (i = Z.to_nat b)) as [-> | Hne].
  - rewrite list_lookup_insert_eq by (rewrite length_map, length_seqZ; lia).
    change (map ?g ?l) with (g <$> l). rewrite list_lookup_fmap.
    rewrite (proj2 (lookup_seqZ 0 n (Z.to_nat b) b)) by lia.
    simpl. destruct (decide (b = b)); congruence.
  - rewrite list_lookup_insert_ne by congruence.
    change (map ?g ?l) with (g <$> l). rewrite !list_lookup_fmap.
    destruct (seqZ 0 n !! i) as [j |] eqn:E; [| reflexivity].
    apply lookup_seqZ in E. simpl.
    destruct (decide (j = b)); [lia | reflexivity].
Qed.

Lemma length_prefix_histogram (pre : list Z) (base nact : Z) :
  length (prefix_histogram pre base nact) = Z.to_nat nact.
Proof. unfold prefix_histogram. by rewrite length_map, length_seqZ. Qed.

Lemma count_loop_sorted (rest : list Z) :
  forall (pre : list Z) (base nact : Z),
    StronglySorted Z.le rest ->
    Forall (fun x => base <= bin x) rest ->
    Forall (fun x => x < nact) rest ->
    0 <= base < nact ->
    Forall (fun x => bin x <= base) pre ->
    count_loop (seq (length pre) (length rest)) (pre ++ rest)
      (prefix_histogram pre base nact) base
      (Z.of_nat (length (filter (fun x => bin x < base) pre)))
    ≫= (fun '(counts, base, start) =>
          np_set counts base (Z.of_nat (length (pre ++ rest)) - start))
    = Ret (histogram (pre ++ rest) nact).
Proof.
  induction rest as [| a rest IH]; intros pre base nact Hs Hlo Hhi Hb Hpre.
  - simpl. rewrite app_nil_r.
    rewrite np_set_nonneg by (rewrite length_prefix_histogram; lia).
    f_equal. unfold prefix_histogram. rewrite insert_map_seqZ by lia.
    apply map_seqZ_ext. intros j Hj.
    rewrite (below_count_split pre base Hpre).
    destruct (decide (j = base)) as [-> | Hne]; [lia |].
    destruct (j <? base) eqn:E; [reflexivity |].
    symmetry. apply (bin_count_above pre base); [exact Hpre | lia].
  - inversion Hs as [| ? ? Hs' Hle]; subst.
    inversion Hlo as [| ? ? Hlo1 Hlo']; subst.
    inversion Hhi as [| ? ? Hhi1 Hhi']; subst.
    simpl count_loop.
    rewrite (np_get_nonneg (pre ++ a :: rest) (length pre) a)
      by (rewrite lookup_app_r by lia; by rewrite Nat.sub_diag).
    simpl.
    assert (Happ : pre ++ a :: rest = (pre ++ [a]) ++ rest)
      by (by rewrite <- app_assoc).
    assert (Hlen : S (length pre) = length (pre ++ [a]))
      by (rewrite length_app; simpl; lia).
    destruct (base <? a) eqn:E.
    + apply Z.ltb_lt in E.
      rewrite np_set_nonneg by (rewrite length_prefix_histogram; lia).
      simpl.
      assert (Hbin : bin a = a) by (unfold bin; lia).
      specialize (IH (pre ++ [a]) a nact Hs').
      rewrite Happ, Hlen.
      replace (<[Z.to_nat base := _]> (prefix_histogram pre base nact))
        with (prefix_histogram (pre ++ [a]) a nact).
      2:{ unfold prefix_histogram. rewrite insert_map_seqZ by lia.
          apply map_seqZ_ext. intros j Hj.
          rewrite bin_count_app, bin_count_single, Hbin.
          rewrite (below_count_split pre base Hpre).
          destruct (decide (j = base)) as [-> | Hne].
          - destruct (base <? a) eqn:E'; [| lia].
            destruct (decide (a = base)); lia.
          - destruct (j <? a) eqn:E1; destruct (j <? base) eqn:E2;
              destruct (decide (a = j)); try lia.
            rewrite (bin_count_above pre base j Hpre); lia. }
      replace (Z.of_nat (length pre))
        with (Z.of_nat (length (filter (fun x => bin x < a) (pre ++ [a])))).
      2:{ rewrite filter_app, filter_cons, filter_nil.
          destruct (decide (bin a < a)); [lia |].
          rewrite app_nil_r, below_count_all; [reflexivity |].
          eapply Forall_impl; [exact Hpre | simpl; intros; lia]. }
      apply IH.
      * eapply Forall_impl; [exact Hle |]. simpl. unfold bin. intros; lia.
      * exact Hhi'.
      * lia.
      * apply Forall_app. split.
        -- eapply Forall_impl; [exact Hpre | simpl; intros; lia].
        -- constructor; [lia | constructor].
    + apply Z.ltb_ge in E.
      assert (Hbin : bin a = base) by (unfold bin in *; lia).
      specialize (IH (pre ++ [a]) base nact Hs' Hlo' Hhi' Hb).
      rewrite Happ, Hlen.
      replace (prefix_histogram pre base nact)
        with (prefix_histogram (pre ++ [a]) base nact).
      2:{ unfold prefix_histogram. apply map_seqZ_ext. intros j Hj.
          rewrite bin_count_app, bin_count_single.
          destruct (j <? base) eqn:E1; [| reflexivity].
          destruct (decide (bin a = j)); lia. }
      replace (filter (fun x => bin x < base) pre)
        with (filter (fun x => bin x < base) (pre ++ [a])).
      2:{ rewrite filter_app, filter_cons, filter_nil.
          destruct (decide (bin a < base)); [lia | by rewrite app_nil_r]. }
      apply IH. apply Forall_app. split; [exact Hpre |].
      constructor; [lia | constructor].
Qed.

Lemma count_loop_length (idx : list nat) :
  forall (action counts : list Z) (base start : Z) (r : list Z * Z * Z),
    count_loop idx action counts base start = Ret r ->
    length r.1.1 = length counts.
Proof.
  induction idx as [| i idx IH]; intros action counts base start r Hr; simpl in Hr.
  - by inversion Hr.
  - inv_bind Hr. destruct (base <? x).
    + inv_bind Hr. apply IH in Hr. rewrite Hr.
      unfold np_set in Hstep0. inv_bind Hstep0. inversion Hstep0.
      by rewrite length_insert.
    + by apply IH in Hr.
Qed.

Lemma count_loop_overflow (rest : list Z) :
  forall (pre counts : list Z) (base start nact : Z),
    length counts = Z.to_nat nact -> 0 <= nact -> 0 <= base ->
    ~ Forall (fun x => x < nact) rest \/ nact <= base ->
    count_loop (seq (length pre) (length rest)) (pre ++ rest) counts base start
    ≫= (fun '(counts, base, start) =>
          np_set counts base (Z.of_nat (length (pre ++ rest)) - start))
    = Raise IndexError.
Proof.
  induction rest as [| a rest IH]; intros pre counts base start nact Hlen Hn Hb Hbad.
  - simpl. destruct Hbad as [Hbad | Hbad]; [destruct Hbad; constructor |].
    rewrite np_set_above by lia. reflexivity.
  - simpl count_loop.
    rewrite (np_get_nonneg (pre ++ a :: rest) (length pre) a)
      by (rewrite lookup_app_r by lia; by rewrite Nat.sub_diag).
    simpl.
    assert (Happ : pre ++ a :: rest = (pre ++ [a]) ++ rest)
      by (by rewrite <- app_assoc).
    assert (Hlen' : S (length pre) = length (pre ++ [a]))
      by (rewrite length_app; simpl; lia).
    assert (Hcases : nact <= a \/ ~ Forall (fun x => x < nact) rest \/ nact <= base).
    { destruct Hbad as [Hbad | Hbad]; [| tauto].
      destruct (Z_lt_ge_dec a nact) as [Hlt | Hge]; [| lia].
      right. left. intros Hr. apply Hbad. by constructor. }
    destruct (base <? a) eqn:E.
    + apply Z.ltb_lt in E.
      destruct (Z_lt_ge_dec base nact) as [Hlt | Hge].
      * rewrite np_set_nonneg by lia. simpl. rewrite Happ, Hlen'.
        apply IH with (nact := nact); [by rewrite length_insert | lia | lia |].
        destruct Hcases as [? | [? | ?]]; [right; lia | by left | lia].
      * rewrite np_set_above by lia. reflexivity.
    + apply Z.ltb_ge in E. rewrite Happ, Hlen'.
      apply IH with (nact := nact); [exact Hlen | lia | lia |].
      destruct Hcases as [? | [? | ?]]; [right; lia | by left | by right].
Qed.

Lemma bin_count_Permutation (l1 l2 : list Z) (j : Z) :
  l1 ≡ₚ l2 -> bin_count l1 j = bin_count l2 j.
Proof. intros Hp. unfold bin_count. by rewrite Hp. Qed.

Lemma histogram_Permutation (l1 l2 : list Z) (nact : Z) :
  l1 ≡ₚ l2 -> histogram l1 nact = histogram l2 nact.
Proof.
  intros Hp. unfold histogram. apply map_ext. intros j.
  by apply bin_count_Permutation.
Qed.

Lemma prefix_histogram_nil (nact : Z) :
  prefix_histogram [] 0 nact = replicate (Z.to_nat nact) 0.
Proof.
  unfold prefix_histogram. apply list_eq. intros i.
  change (map ?g ?l) with (g <$> l). rewrite list_lookup_fmap.
  destruct (decide (i < Z.to_nat nact)%nat) as [Hlt | Hge].
  - rewrite (proj2 (lookup_seqZ 0 nact i (Z.of_nat i))) by lia. simpl.
    rewrite lookup_replicate_2 by lia.
    destruct (Z.of_nat i <? 0) eqn:E; [lia | reflexivity].
  - rewrite (proj1 (lookup_replicate_None _ _ _)) by lia.
    rewrite lookup_seqZ_ge by lia. reflexivity.
Qed.

(** What [get_nrepeat_count] does on every input. *)
Lemma get_nrepeat_count_cases (action : list Z) (nact : Z) :
  get_nrepeat_count action nact
  = if nact <? 0 then Raise ValueError
    else if decide (0 < nact /\ Forall (fun x => x < nact) action)
         then Ret (histogram action nact)
         else Raise IndexError.
Proof.
  unfold get_nrepeat_count, np_zeros.
  destruct (nact <? 0) eqn:En; [reflexivity |]. apply Z.ltb_ge in En.
  simpl.
  pose proof (merge_sort_Permutation Z.le action) as Hperm.
  set (s := merge_sort Z.le action) in *.
  destruct (decide (0 < nact /\ Forall (fun x => x < nact) action)) as [[Hpos Hall] | Hno].
  - rewrite <- prefix_histogram_nil.
    pose proof (count_loop_sorted s [] 0 nact) as Hl. simpl in Hl.
    change (Z.of_nat 0) with 0 in Hl.
    rewrite Hl; [f_equal; by apply histogram_Permutation | | | | lia | constructor].
    + apply StronglySorted_merge_sort; apply _.
    + apply Forall_forall. intros x _. unfold bin. lia.
    + by rewrite Hperm.
  - pose proof (count_loop_overflow s [] (replicate (Z.to_nat nact) 0) 0 0 nact) as Hl.
    simpl in Hl. apply Hl; [by rewrite length_replicate | lia | lia |].
    destruct (Z_lt_ge_dec 0 nact) as [Hpos | Hz]; [left | right; lia].
    intros Hall. apply Hno. split; [exact Hpos |]. by rewrite <- Hperm.
Qed.

Lemma zsum_app (l1 l2 : list Z) : zsum (l1 ++ l2) = zsum l1 + zsum l2.
Proof. unfold zsum. induction l1 as [| x l1 IH]; simpl; lia. Qed.

Lemma zsum_cons (x : Z) (l : list Z) : zsum (x :: l) = x + zsum l.
Proof. reflexivity. Qed.

Lemma zsum_map_add {A} (f g : A -> Z) (l : list A) :
  zsum (map (fun j => f j + g j) l) = zsum (map f l) + zsum (map g l).
Proof. unfold zsum. induction l as [| x l IH]; simpl; lia. Qed.

Lemma zsum_indicator (b : Z) (len : nat) :
  forall m : Z,
    zsum (map (fun j => if decide (b = j) then 1 else 0) (seqZ m (Z.of_nat len)))
    = if decide (m <= b < m + Z.of_nat len) then 1 else 0.
Proof.
  induction len as [| len IH]; intros m.
  - simpl. destruct (decide (m <= b < m + Z.of_nat 0)); [lia | reflexivity].
  - rewrite seqZ_cons by lia.
    replace (Z.pred (Z.of_nat (S len))) with (Z.of_nat len) by lia.
    simpl map. unfold zsum in *. simpl foldr. rewrite IH.
    destruct (decide (b = m)), (decide (Z.succ m <= b < Z.succ m + Z.of_nat len)),
      (decide (m <= b < m + Z.of_nat (S len))); lia.
Qed.

Lemma zsum_histogram (action : list Z) (nact : Z) :
  0 < nact -> Forall (fun x => x < nact) action ->
  zsum (histogram action nact) = Z.of_nat (length action).
Proof.
  intros Hn Hall. unfold histogram.
  induction Hall as [| x l Hx Hall IH]; simpl.
  - unfold bin_count. simpl. unfold zsum.
    induction (seqZ 0 nact) as [| j js IHj]; simpl; lia.
  - transitivity
      (zsum (map (fun j => (if decide (bin x = j) then 1 else 0) + bin_count l j)
                 (seqZ 0 nact))).
    { f_equal. apply map_ext. intros j.
      change (x :: l) with ([x] ++ l). by rewrite bin_count_app, bin_count_single. }
    rewrite zsum_map_add, IH.
    replace nact with (Z.of_nat (Z.to_nat nact)) at 1 by lia.
    rewrite zsum_indicator.
    destruct (decide (0 <= bin x < 0 + Z.of_nat (Z.to_nat nact))); unfold bin in *.
    all: lia.
Qed.

Lemma histogram_lookup (action : list Z) (nact a : Z) :
  0 <= a < nact -> histogram action nact !! Z.to_nat a = Some (bin_count action a).
Proof.
  intros Ha. unfold histogram.
  change (map ?g ?l) with (g <$> l). rewrite list_lookup_fmap.
  rewrite (proj2 (lookup_seqZ 0 nact (Z.to_nat a) a)) by lia. reflexivity.
Qed.

Lemma bin_count_occurrences (action : list Z) (a : Z) :
  Forall (fun x => 0 <= x) action -> bin_count action a = occurrences a action.
Proof.
  intros Hall. unfold bin_count, occurrences.
  induction Hall as [| x l Hx Hall IH]; [reflexivity |].
  rewrite !filter_cons.
  destruct (decide (bin x = a)), (decide (x = a)); unfold bin in *; simpl; lia.
Qed.

(** C6 as stated fails for an empty action space: the entries of the empty
    input all lie in [0, 0), and the final write [counts[base]] with
    [base = 0] is out of bounds in the array of length 0. *)
Lemma get_nrepeat_count_empty_space :
  Forall (fun a => 0 <= a < 0) ([] : list Z) /\
  get_nrepeat_count [] 0 = Raise IndexError /\
  ~ exists counts, get_nrepeat_count [] 0 = Ret counts.
Proof.
  split; [constructor |]. split; [reflexivity |].
  intros [counts Hc]. vm_compute in Hc. discriminate.
Qed.

(** C6 (amended): for an action space of size [nact >= 1] and every input
    array whose entries lie in [0, nact), in any order and with
    repetitions, [get_nrepeat_count] returns an integer vector of length
    [nact] whose entries sum to the length of the input and whose entry [a]
    is the number of occurrences of [a] in the input, for every [a]. *)
Theorem get_nrepeat_count_histogram (action : list Z) (nact : Z) :
  0 < nact ->
  Forall (fun a => 0 <= a < nact) action ->
  exists counts,
    get_nrepeat_count action nact = Ret counts /\
    length counts = Z.to_nat nact /\
    zsum counts = Z.of_nat (length action) /\
    forall a, 0 <= a < nact -> counts !! Z.to_nat a = Some (occurrences a action).
Proof.
  intros Hn Hall.
  assert (Hlt : Forall (fun x => x < nact) action)
    by (eapply Forall_impl; [exact Hall | simpl; intros; lia]).
  assert (Hge : Forall (fun x => 0 <= x) action)
    by (eapply Forall_impl; [exact Hall | simpl; intros; lia]).
  exists (histogram action nact). rewrite get_nrepeat_count_cases.
  destruct (nact <? 0) eqn:E; [lia |].
  destruct (decide (0 < nact /\ Forall (fun x => x < nact) action)) as [_ | Hno];
    [| tauto].
  split; [reflexivity |]. split; [| split].
  - unfold histogram. by rewrite length_map, length_seqZ.
  - apply zsum_histogram; [lia | exact Hlt].
  - intros a Ha. rewrite histogram_lookup by exact Ha.
    by rewrite bin_count_occurrences.
Qed.

Lemma get_nrepeat_count_histogram_witness :
  exists counts,
    get_nrepeat_count [2; 0; 2; 1; 2] 4 = Ret counts /\
    length counts = Z.to_nat 4 /\
    zsum counts = Z.of_nat (length [2; 0; 2; 1; 2]) /\
    forall a, 0 <= a < 4 ->
      counts !! Z.to_nat a = Some (occurrences a [2; 0; 2; 1; 2]).
Proof.
  apply (get_nrepeat_count_histogram [2; 0; 2; 1; 2] 4); [lia |].
  repeat constructor; lia.
Defined.

(** C10 as stated fails in both directions: a negative element violates
    the precondition and yet the call returns normally (the element is
    counted in entry 0), and with [nact = 0] the empty input satisfies the
    precondition and yet the write [counts[base]] is out of bounds. *)
Lemma get_nrepeat_count_not_exactly_total :
  (~ Forall (fun a => 0 <= a < 1) [-1] /\ get_nrepeat_count [-1] 1 = Ret [1]) /\
  (Forall (fun a => 0 <= a < 0) ([] : list Z) /\
   get_nrepeat_count [] 0 = Raise IndexError).
Proof.
  split; split.
  - intros Hall. inversion Hall; subst. lia.
  - reflexivity.
  - constructor.
  - reflexivity.
Qed.

(** C10 (amended): [get_nrepeat_count(action, nact)] returns normally
    exactly when [nact >= 1] and every element of the input is below
    [nact]; it then returns the histogram in which an element that is not
    positive is counted in entry 0 (the all-zero vector on an empty
    input).  When that condition fails with [nact >= 0], a write
    [counts[base]] is out of bounds and the call raises [IndexError]. *)
Theorem get_nrepeat_count_total_iff (action : list Z) (nact : Z) :
  ((exists counts, get_nrepeat_count action nact = Ret counts)
   <-> 0 < nact /\ Forall (fun a => a < nact) action) /\
  (0 < nact /\ Forall (fun a => a < nact) action ->
   get_nrepeat_count action nact = Ret (histogram action nact)) /\
  (0 < nact -> get_nrepeat_count [] nact = Ret (replicate (Z.to_nat nact) 0)) /\
  (0 <= nact -> ~ (0 < nact /\ Forall (fun a => a < nact) action) ->
   get_nrepeat_count action nact = Raise IndexError).
Proof.
  assert (Hempty : 0 < nact ->
            get_nrepeat_count [] nact = Ret (replicate (Z.to_nat nact) 0)).
  { intros Hpos. rewrite get_nrepeat_count_cases.
    destruct (nact <? 0) eqn:E; [lia |].
    destruct (decide (0 < nact /\ Forall (fun x => x < nact) [])) as [_ | Hn];
      [| destruct Hn; split; [lia | constructor]].
    f_equal. rewrite <- prefix_histogram_nil. unfold histogram, prefix_histogram.
    apply map_ext. intros j. destruct (j <? 0); reflexivity. }
  rewrite get_nrepeat_count_cases.
  destruct (nact <? 0) eqn:E; [apply Z.ltb_lt in E | apply Z.ltb_ge in E].
  - split; [split |].
    + intros [counts Hc]. discriminate.
    + intros [? _]. lia.
    + split; [intros [? _]; lia |]. split; [exact Hempty | lia].
  - destruct (decide (0 < nact /\ Forall (fun x => x < nact) action)) as [Hyes | Hno].
    + split; [split |].
      * intros _. exact Hyes.
      * intros _. eauto.
      * split; [reflexivity |]. split; [exact Hempty | tauto].
    + split; [split |].
      * intros [counts Hc]. discriminate.
      * tauto.
      * split; [tauto |]. split; [exact Hempty | reflexivity].
Qed.

Lemma get_nrepeat_count_total_iff_witness :
  get_nrepeat_count [3; -2; 1; 3] 4 = Ret (histogram [3; -2; 1; 3] 4) /\
  get_nrepeat_count [] 4 = Ret (replicate (Z.to_nat 4) 0) /\
  get_nrepeat_count [1; 4] 4 = Raise IndexError.
Proof.
  split; [| split].
  - apply (get_nrepeat_count_total_iff [3; -2; 1; 3] 4).
    split; [lia | repeat constructor; lia].
  - apply (get_nrepeat_count_total_iff [] 4). lia.
  - apply (get_nrepeat_count_total_iff [1; 4] 4); [lia |].
    intros [_ Hall]. inversion Hall as [| ? ? _ Hall']; subst.
    inversion Hall'; subst. lia.
Defined.


(** ** [get_PI] in exact arithmetic *)

Section ExactPI.
Local Open Scope R_scope.

Lemma R_power_nonneg (x e : R) : 0 <= R_power x e.
Proof.
  unfold R_power. destruct (Req_dec_T x 0); [destruct (Req_dec_T e 0); lra |].
  left. unfold Rpower. apply exp_pos.
Qed.

Lemma R_power_pos (x e : R) : 0 < x -> 0 < R_power x e.
Proof.
  intros Hx. unfold R_power. destruct (Req_dec_T x 0); [lra |].
  unfold Rpower. apply exp_pos.
Qed.

Lemma R_power_1 (x : R) : 0 <= x -> R_power x 1 = x.
Proof.
  intros Hx. unfold R_power. destruct (Req_dec_T x 0) as [-> | Hne].
  - destruct (Req_dec_T 1 0); lra.
  - apply Rpower_1. lra.
Qed.

Lemma R_power_mult (x a b : R) :
  0 <= x -> 0 < a -> 0 < b -> R_power (R_power x a) b = R_power x (a * b).
Proof.
  intros Hx Ha Hb. unfold R_power at 2 3.
  destruct (Req_dec_T x 0) as [-> | Hne].
  - destruct (Req_dec_T a 0); [lra |]. destruct (Req_dec_T (a * b) 0) as [E | _].
    + apply Rmult_integral in E. lra.
    + unfold R_power. destruct (Req_dec_T 0 0); [| lra].
      destruct (Req_dec_T b 0); lra.
  - unfold R_power. destruct (Req_dec_T (Rpower x a) 0) as [E | _].
    + exfalso. unfold Rpower in E. pose proof (exp_pos (a * ln x)). lra.
    + apply Rpower_mult.
Qed.

Lemma R_power_div (x s e : R) :
  0 <= x -> 0 < s -> 0 < e -> R_power (x / s) e = R_power x e / R_power s e.
Proof.
  intros Hx Hs He. unfold R_power.
  destruct (Req_dec_T s 0); [lra |].
  destruct (Req_dec_T x 0) as [-> | Hne].
  - replace (0 / s) with 0 by (field; lra).
    destruct (Req_dec_T 0 0); [| lra]. destruct (Req_dec_T e 0); [lra |].
    unfold Rdiv. lra.
  - assert (Hxs : 0 < x / s) by (apply Rdiv_lt_0_compat; lra).
    destruct (Req_dec_T (x / s) 0); [lra |].
    unfold Rdiv. rewrite <- Rpower_mult_distr by (try lra; apply Rinv_0_lt_compat; lra).
    f_equal. unfold Rpower. rewrite ln_Rinv by lra.
    replace (e * - ln s) with (- (e * ln s)) by lra. apply exp_Ropp.
Qed.

Lemma R_sum_nonneg (v : list R) : Forall (fun x => 0 <= x) v -> 0 <= R_sum v.
Proof. induction 1 as [| x v Hx Hv IH]; simpl; lra. Qed.

Lemma R_sum_pos (v : list R) :
  Forall (fun x => 0 <= x) v -> Exists (fun x => 0 < x) v -> 0 < R_sum v.
Proof.
  intros Hv Hex. induction Hv as [| x v Hx Hv IH]; [inversion Hex |].
  simpl. pose proof (R_sum_nonneg v Hv).
  inversion Hex; subst; [lra |]. specialize (IH ltac:(assumption)). lra.
Qed.

Lemma R_sum_pos_inv (v : list R) :
  Forall (fun x => 0 <= x) v -> 0 < R_sum v -> Exists (fun x => 0 < x) v.
Proof.
  intros Hv. induction Hv as [| x v Hx Hv IH]; simpl; intros Hs; [lra |].
  destruct (Rlt_dec 0 x) as [Hlt | Hnlt]; [by left |].
  right. apply IH. lra.
Qed.

Lemma R_sum_map_div (v : list R) (k : R) :
  R_sum (map (fun x => x / k) v) = R_sum v / k.
Proof. induction v as [| x v IH]; simpl; [| rewrite IH]; unfold Rdiv; lra. Qed.

Lemma normalize_R (v : list R) : normalize v = map (fun x => x / R_sum v) v.
Proof. reflexivity. Qed.

Lemma R_sum_normalize (v : list R) : R_sum v <> 0 -> R_sum (normalize v) = 1.
Proof. intros Hv. rewrite normalize_R, R_sum_map_div. by field. Qed.

Lemma normalize_scale (v : list R) (k : R) :
  k <> 0 -> R_sum v <> 0 -> normalize (map (fun x => x / k) v) = normalize v.
Proof.
  intros Hk Hv. rewrite !normalize_R, R_sum_map_div, map_map.
  apply map_ext. intros x. by field.
Qed.

Lemma powers_nonneg (v : list R) (e : R) :
  Forall (fun x => 0 <= x) (map (fun x => R_power x e) v).
Proof. apply Forall_forall. intros y Hy. apply list_elem_of_In, in_map_iff in Hy.
  destruct Hy as (x & <- & _). apply R_power_nonneg. Qed.

Lemma R_sum_powers_pos (v : list R) (e : R) :
  Forall (fun x => 0 <= x) v -> 0 < R_sum v ->
  0 < R_sum (map (fun x => R_power x e) v).
Proof.
  intros Hv Hs. apply R_sum_pos; [apply powers_nonneg |].
  apply R_sum_pos_inv in Hs; [| exact Hv].
  apply Exists_exists in Hs. destruct Hs as (x & Hin & Hx).
  apply Exists_exists. exists (R_power x e). split; [| by apply R_power_pos].
  apply list_elem_of_In, in_map_iff. exists x. split; [reflexivity |].
  by apply list_elem_of_In.
Qed.

Lemma powers_normalize (v : list R) (e : R) :
  Forall (fun x => 0 <= x) v -> 0 < R_sum v -> 0 < e ->
  normalize (map (fun x => R_power x e) (normalize v))
  = normalize (map (fun x => R_power x e) v).
Proof.
  intros Hv Hs He.
  rewrite (normalize_R v), map_map.
  transitivity (normalize (map (fun y => y / R_power (R_sum v) e)
                               (map (fun x => R_power x e) v))).
  - f_equal. rewrite map_map. apply map_ext_in. intros x Hx.
    apply R_power_div; [| exact Hs | exact He].
    rewrite Forall_forall in Hv. apply Hv. by apply list_elem_of_In.
  - apply normalize_scale.
    + pose proof (R_power_pos (R_sum v) e Hs). lra.
    + pose proof (R_sum_powers_pos v e Hv Hs). lra.
Qed.

Lemma powers_powers (v : list R) (a b : R) :
  Forall (fun x => 0 <= x) v -> 0 < a -> 0 < b ->
  map (fun x => R_power x b) (map (fun x => R_power x a) v)
  = map (fun x => R_power x (a * b)) v.
Proof.
  intros Hv Ha Hb. rewrite map_map. apply map_ext_in. intros x Hx.
  apply R_power_mult; [| exact Ha | exact Hb].
  rewrite Forall_forall in Hv. apply Hv. by apply list_elem_of_In.
Qed.

Lemma get_PI_loop_exact (c0 : list R) :
  Forall (fun x => 0 <= x) c0 -> 0 < R_sum c0 ->
  forall (fuel : nat) (q p : R),
    0 < q -> 0 < p -> p < 10 * 10 ^ fuel ->
    exists q' p',
      get_PI_loop fuel (normalize (map (fun x => R_power x q) c0)) p
      = Ret (normalize (map (fun x => R_power x q') c0), p') /\
      0 < q' /\ 0 < p' /\ q' * p' = q * p.
Proof.
  intros Hc Hs. induction fuel as [| fuel IH]; intros q p Hq Hp Hlt.
  - simpl in *. destruct (Rge_dec p 10) as [Hge | Hnge]; [lra |].
    exists q, p. auto.
  - simpl get_PI_loop. destruct (Rge_dec p 10) as [Hge | Hnge].
    + rewrite powers_normalize;
        [| apply powers_nonneg | by apply R_sum_powers_pos | lra].
      rewrite powers_powers by (try lra; exact Hc).
      destruct (IH (q * 10) (p / 10)) as (q' & p' & Hrun & Hq' & Hp' & Hqp).
      * lra.
      * lra.
      * simpl in Hlt. lra.
      * exists q', p'. split; [exact Hrun |]. split; [exact Hq' |].
        split; [exact Hp' |]. rewrite Hqp. field.
    + exists q, p. auto.
Qed.

Lemma get_PI_fuel_exists (p : R) :
  exists fuel0 : nat, forall fuel, (fuel0 <= fuel)%nat -> p < 10 * 10 ^ fuel.
Proof.
  destruct (Pow_x_infinity 10) with (b := p) as [N HN].
  - rewrite Rabs_pos_eq; lra.
  - exists N. intros fuel Hf. specialize (HN fuel Hf).
    rewrite Rabs_pos_eq in HN by (apply pow_le; lra).
    pose proof (pow_lt 10 fuel ltac:(lra)). lra.
Qed.

(** C2: in exact real arithmetic, for every count vector without negative
    entries and with a positive sum and every temperature [tau > 0],
    [get_PI(counts, tau)] returns (its loop terminates) a vector that sums
    to 1 and whose entry for a count [c] is [c^(1/tau)] divided by the sum
    of the [c^(1/tau)]: the loop that raises to the 10th power and
    renormalizes, followed by the final exponentiation, computes the same
    distribution as one exponentiation by [1/tau] and one normalization. *)
Theorem get_PI_exact (counts : list R) (tau : R) :
  Forall (fun c => 0 <= c) counts -> 0 < R_sum counts -> 0 < tau ->
  exists fuel0 : nat, forall fuel, (fuel0 <= fuel)%nat ->
    exists Pi : list R,
      get_PI fuel counts tau = Ret Pi /\
      R_sum Pi = 1 /\
      Pi = map (fun c => R_power c (1 / tau)
                         / R_sum (map (fun x => R_power x (1 / tau)) counts))
               counts /\
      (forall c, 0 < c -> R_power c (1 / tau) = Rpower c (1 / tau)) /\
      R_power 0 (1 / tau) = 0.
Proof.
  intros Hc Hs Htau.
  assert (Hp : 0 < 1 / tau) by (apply Rdiv_lt_0_compat; lra).
  destruct (get_PI_fuel_exists (1 / tau)) as [fuel0 Hfuel].
  exists fuel0. intros fuel Hf.
  destruct (get_PI_loop_exact counts Hc Hs fuel 1 (1 / tau))
    as (q' & p' & Hrun & Hq' & Hp' & Hqp); [lra | exact Hp | by apply Hfuel |].
  assert (Hone : map (fun x => R_power x 1) counts = counts).
  { rewrite <- (map_id counts) at 2. apply map_ext_in. intros x Hx.
    apply R_power_1. rewrite Forall_forall in Hc. apply Hc.
    by apply list_elem_of_In. }
  rewrite Hone in Hrun.
  exists (normalize (map (fun x => R_power x (1 / tau)) counts)).
  split; [| split; [| split; [| split]]].
  - unfold get_PI. change (fdiv (of_Z 1) tau) with (1 / tau). rewrite Hrun. simpl.
    f_equal. rewrite powers_normalize;
      [| apply powers_nonneg | by apply R_sum_powers_pos | exact Hp'].
    rewrite powers_powers by (try lra; exact Hc).
    rewrite Hqp. by rewrite Rmult_1_l.
  - apply R_sum_normalize. pose proof (R_sum_powers_pos counts (1 / tau) Hc Hs). lra.
  - rewrite normalize_R, map_map. reflexivity.
  - intros c Hc0. unfold R_power. destruct (Req_dec_T c 0); [lra | reflexivity].
  - unfold R_power. destruct (Req_dec_T 0 0); [| lra].
    destruct (Req_dec_T (1 / tau) 0); [lra | reflexivity].
Qed.

Lemma get_PI_exact_witness :
  exists fuel0 : nat, forall fuel, (fuel0 <= fuel)%nat ->
    exists Pi : list R,
      get_PI fuel [3; 1] 1 = Ret Pi /\
      R_sum Pi = 1 /\
      Pi = map (fun c => R_power c (1 / 1)
                         / R_sum (map (fun x => R_power x (1 / 1)) [3; 1]))
               [3; 1] /\
      (forall c, 0 < c -> R_power c (1 / 1) = Rpower c (1 / 1)) /\
      R_power 0 (1 / 1) = 0.
Proof.
  apply (get_PI_exact [3; 1] 1).
  - repeat constructor; lra.
  - simpl. lra.
  - lra.
Defined.

End ExactPI.


(** ** The exploration cursor: [get_next] *)

Section Cursor.
Context {F : Type} `{Arith F}.
Context {Rng : Type} `{Sampler F Rng}.

Lemma with_next_id (n : Pi_struct F) : with_next n (next n) = n.
Proof. by destruct n. Qed.

Lemma with_next_twice (n : Pi_struct F) (a b : Z) :
  with_next (with_next n a) b = with_next n b.
Proof. reflexivity. Qed.

Lemma lt_half_spec (x : Z) : lt_half x = true <-> x <= 0.
Proof. unfold lt_half. rewrite Z.ltb_lt. lia. Qed.

Lemma gt_half_spec (x : Z) : gt_half x = true <-> 0 < x.
Proof. unfold gt_half. rewrite Z.ltb_lt. lia. Qed.

Lemma get_next_loop_spec (r : list Z) (v : list bool) (k : nat) :
  forall n : Pi_struct F,
    nrepeats n = Some r -> isValid n = Some v ->
    length r = Z.to_nat (size n) -> length v = Z.to_nat (size n) ->
    0 <= next n -> (Z.to_nat (size n - next n) <= k)%nat ->
    exists c,
      get_next_loop k n = Ret (with_next n c) /\
      next n <= c /\
      (forall j, next n <= j < c -> ~ actionable r v j) /\
      (c < size n -> actionable r v c) /\
      (size n <= c -> c = Z.max (next n) (size n)).
Proof.
  induction k as [| k IH]; intros n Hr Hv Hlr Hlv Hnext Hk.
  - exists (next n). simpl. destruct (next n <? size n) eqn:E; [lia |].
    rewrite with_next_id. repeat split; try lia.
  - simpl. destruct (next n <? size n) eqn:E.
    2:{ exists (next n). rewrite with_next_id. repeat split; lia. }
    apply Z.ltb_lt in E. rewrite Hr. simpl.
    destruct (lookup_lt_is_Some_2 r (Z.to_nat (next n))) as [ri Hri]; [lia |].
    destruct (lookup_lt_is_Some_2 v (Z.to_nat (next n))) as [vi Hvi]; [lia |].
    assert (Hgr : np_get r (next n) = Ret ri).
    { rewrite <- (Z2Nat.id (next n)) by lia. by apply np_get_nonneg. }
    assert (Hgv : np_get v (next n) = Ret vi).
    { rewrite <- (Z2Nat.id (next n)) by lia. by apply np_get_nonneg. }
    rewrite Hgr. simpl.
    assert (Hskip : forall c,
      (ri <= 0 \/ vi = false) ->
      get_next_loop k (with_next n (next n + 1)) = Ret (with_next n c) /\
      next n + 1 <= c /\
      (forall j, next n + 1 <= j < c -> ~ actionable r v j) /\
      (c < size n -> actionable r v c) /\
      (size n <= c -> c = Z.max (next n + 1) (size n)) ->
      get_next_loop k (with_next n (next n + 1)) = Ret (with_next n c) /\
      next n <= c /\
      (forall j, next n <= j < c -> ~ actionable r v j) /\
      (c < size n -> actionable r v c) /\
      (size n <= c -> c = Z.max (next n) (size n))).
    { intros c Hdead (Hrun & Hle & Hpast & Hact & Hend).
      split; [exact Hrun |]. split; [lia |]. split; [| split; [exact Hact | lia]].
      intros j Hj. destruct (decide (j = next n)) as [-> | Hne]; [| apply Hpast; lia].
      intros (_ & ri' & Hri' & Hpos & Hvt). rewrite Hri in Hri'. rewrite Hvi in Hvt.
      destruct Hdead; [inversion Hri'; lia | congruence]. }
    destruct (IH (with_next n (next n + 1))) as (c & Hc); simpl; auto; try lia.
    destruct (lt_half ri) eqn:El.
    + simpl. exists c. apply Hskip; [| exact Hc].
      left. by apply lt_half_spec.
    + rewrite Hv. simpl. rewrite Hgv. simpl. destruct vi; simpl.
      * exists (next n). rewrite with_next_id. repeat split; try lia.
        exists ri. split; [exact Hri |]. split; [| exact Hvi].
        destruct (Z_le_gt_dec ri 0) as [Hle | Hgt]; [| lia].
        apply lt_half_spec in Hle. congruence.
      * exists c. apply Hskip; [by right | exact Hc].
Qed.

Lemma get_next_node_spec (n : Pi_struct F) (r : list Z) (v : list bool) :
  nrepeats n = Some r -> isValid n = Some v ->
  length r = Z.to_nat (size n) -> length v = Z.to_nat (size n) ->
  0 <= next n ->
  exists i c,
    get_next_node n = Ret (i, with_next n c) /\
    next n <= c /\
    (forall j, next n <= j < c -> ~ actionable r v j) /\
    ((i = c /\ c < size n /\ actionable r v c) \/
     (i = -1 /\ size n <= c /\ c = Z.max (next n) (size n))).
Proof.
  intros Hr Hv Hlr Hlv Hnext.
  destruct (get_next_loop_spec r v (Z.to_nat (size n - next n)) n)
    as (c & Hrun & Hle & Hpast & Hact & Hend); auto.
  unfold get_next_node. rewrite Hrun. simpl.
  destruct (size n <=? c) eqn:E.
  - apply Z.leb_le in E. exists (-1), c. repeat split; auto.
  - apply Z.leb_gt in E. exists c, c. repeat split; auto.
Qed.

Lemma load_store_same (st : Store F Rng) (a : addr) (n n' : Pi_struct F) :
  heap st !! a = Some n -> load (store st a n') a = Ret n'.
Proof.
  intros Hn. unfold load, store. simpl.
  rewrite list_lookup_insert_eq by (by apply lookup_lt_Some in Hn). reflexivity.
Qed.

Lemma store_store (st : Store F Rng) (a : addr) (n n' : Pi_struct F) :
  store (store st a n) a n' = store st a n'.
Proof. unfold store, with_heap. simpl. by rewrite list_insert_insert_eq. Qed.

Lemma load_Some (st : Store F Rng) (a : addr) (n : Pi_struct F) :
  heap st !! a = Some n -> load st a = Ret n.
Proof. intros Hn. unfold load. by rewrite Hn. Qed.

(** C7: on an expanded node (its [nrepeats] and [isValid] arrays have the
    length of the action space and its cursor is not negative),
    [get_next()] returns the smallest action index at or after the cursor
    that is valid and has a positive repeat budget, or -1 if no such index
    remains.  The call changes nothing but the cursor, which it moves only
    past indices that are invalid or have no repeat budget, and it is
    idempotent: a second consecutive call returns the same index and
    leaves the store as the first call left it. *)
Theorem get_next_idempotent (st : Store F Rng) (self : addr) (n : Pi_struct F)
    (r : list Z) (v : list bool) :
  heap st !! self = Some n ->
  evaluated n = true ->
  nrepeats n = Some r -> isValid n = Some v ->
  length r = Z.to_nat (size n) -> length v = Z.to_nat (size n) ->
  0 <= next n ->
  exists i c,
    get_next st self = Ret (i, store st self (with_next n c)) /\
    next n <= c /\
    (forall j, next n <= j < c -> ~ actionable r v j) /\
    ((i = c /\ c < size n /\ actionable r v i) \/
     (i = -1 /\ forall j, next n <= j -> ~ actionable r v j)) /\
    get_next (store st self (with_next n c)) self
    = Ret (i, store st self (with_next n c)).
Proof.
  intros Hn _ Hr Hv Hlr Hlv Hnext.
  destruct (get_next_node_spec n r v) as (i & c & Hrun & Hle & Hpast & Hres); auto.
  exists i, c. split; [| split; [exact Hle | split; [exact Hpast | split]]].
  - unfold get_next. rewrite (load_Some st self n Hn). simpl. by rewrite Hrun.
  - destruct Hres as [(-> & Hlt & Hact) | (-> & Hge & Hc)]; [left; auto | right].
    split; [reflexivity |]. intros j Hj Hact.
    destruct (Z_lt_ge_dec j c) as [Hlt | Hge']; [apply (Hpast j); [lia | exact Hact] |].
    destruct Hact as (_ & ri & Hri & _). apply lookup_lt_Some in Hri. lia.
  - unfold get_next. rewrite (load_store_same st self n _ Hn). simpl.
    destruct (get_next_node_spec (with_next n c) r v)
      as (i' & c' & Hrun' & Hle' & Hpast' & Hres'); auto; [simpl; lia |].
    simpl in *. rewrite Hrun'. simpl. rewrite store_store.
    assert (Hcc : c' = c /\ i' = i).
    { destruct Hres as [(-> & Hlt & Hact) | (-> & Hge & Hc)].
      - destruct (Z.eq_dec c' c) as [-> | Hne].
        + destruct Hres' as [(-> & _) | (_ & ? & _)]; [auto | lia].
        + exfalso. apply (Hpast' c); [lia | exact Hact].
      - destruct Hres' as [(_ & ? & _) | (-> & _ & ->)]; [lia |]. split; lia. }
    destruct Hcc as [-> ->]. reflexivity.
Qed.

End Cursor.


Lemma get_next_idempotent_witness :
  exists i c,
    get_next demo_store 0%nat = Ret (i, store demo_store 0%nat (with_next demo_node c)) /\
    next demo_node <= c /\
    (forall j, next demo_node <= j < c ->
               ~ actionable [0; 0; 2] [true; false; true] j) /\
    ((i = c /\ c < size demo_node /\ actionable [0; 0; 2] [true; false; true] i) \/
     (i = -1 /\ forall j, next demo_node <= j ->
                          ~ actionable [0; 0; 2] [true; false; true] j)) /\
    get_next (store demo_store 0%nat (with_next demo_node c)) 0%nat
    = Ret (i, store demo_store 0%nat (with_next demo_node c)).
Proof.
  apply (get_next_idempotent demo_store 0%nat demo_node [0; 0; 2] [true; false; true]);
    (reflexivity || (simpl; lia)).
Defined.


(** ** Expansion: [add_counts] *)

Section Expansion.
Context {F : Type} `{Arith F}.
Context {Rng : Type} `{Sampler F Rng}.

Lemma with_children_id (n : Pi_struct F) : with_children n (children n) = n.
Proof. by destruct n. Qed.

Lemma with_heap_id (st : Store F Rng) : with_heap st (heap st) = st.
Proof. by destruct st. Qed.

Lemma dict_set_fresh {V} (d : list (Z * V)) (k : Z) (x : V) :
  k ∉ d.*1 -> dict_set d k x = d ++ [(k, x)].
Proof.
  induction d as [| [k' x'] d IH]; intros Hk; [reflexivity |].
  simpl in *. rewrite not_elem_of_cons in Hk. destruct Hk as [Hne Hk].
  destruct (k' =? k) eqn:E; [apply Z.eqb_eq in E; congruence |].
  by rewrite IH.
Qed.

Lemma make_children_run (self : addr) (r : list Z) (idx : list Z) :
  forall (st : Store F Rng) (n : Pi_struct F),
    heap st !! self = Some n ->
    nrepeats n = Some r ->
    Forall (fun i => 0 <= i < Z.of_nat (length r)) idx ->
    NoDup idx ->
    (forall i, i ∈ idx -> i ∉ (children n).*1) ->
    make_children idx st self
    = Ret (with_heap st
             (<[self := with_children n
                          (children n ++ child_entries r idx (length (heap st)))]>
                (heap st)
              ++ map (child_of n self r) (budgeted r idx))).
Proof.
  induction idx as [| i idx IH]; intros st n Hn Hr Hidx Hnd Hfresh.
  - simpl. unfold child_entries, budgeted. rewrite filter_nil. simpl.
    rewrite !app_nil_r, with_children_id, list_insert_id by exact Hn.
    by rewrite with_heap_id.
  - inversion Hidx as [| ? ? Hi Hidx']; subst.
    inversion Hnd as [| ? ? Hni Hnd']; subst.
    simpl make_children. rewrite (load_Some st self n Hn). simpl.
    rewrite Hr. simpl.
    assert (Hlt : (self < length (heap st))%nat) by (by apply lookup_lt_Some in Hn).
    destruct (lookup_lt_is_Some_2 r (Z.to_nat i)) as [ri Hri]; [lia |].
    assert (Hnth : nth (Z.to_nat i) r 0 = ri) by (by apply nth_lookup_Some).
    assert (Hg : np_get r i = Ret ri).
    { rewrite <- (Z2Nat.id i) by lia. by apply np_get_nonneg. }
    rewrite Hg. simpl.
    unfold child_entries, budgeted. rewrite filter_cons. fold (budgeted r idx).
    destruct (gt_half ri) eqn:Eg.
    + apply gt_half_spec in Eg.
      destruct (decide (0 < nth (Z.to_nat i) r 0)) as [_ | Hno]; [| lia].
      rewrite dict_set_fresh by (apply Hfresh; left).
      set (n2 := with_children n (children n ++ [(i, length (heap st))])).
      match goal with |- make_children _ ?s _ = _ => set (st2 := s) end.
      assert (Hn2 : heap st2 !! self = Some n2).
      { unfold st2, store. simpl. apply list_lookup_insert_eq.
        rewrite length_app. simpl. lia. }
      rewrite (IH st2 n2 Hn2 Hr Hidx' Hnd').
      2:{ intros j Hj. unfold n2. simpl. rewrite fmap_app. simpl.
          rewrite elem_of_app, list_elem_of_singleton.
          intros [Hin | ->]; [| contradiction].
          revert Hin. apply Hfresh. by right. }
      f_equal. unfold st2, store, with_heap, n2. simpl. f_equal.
      rewrite list_insert_insert_eq, length_insert, length_app. simpl.
      rewrite insert_app_l by exact Hlt.
      rewrite <- !app_assoc. simpl.
      replace (length (heap st) + 1)%nat with (S (length (heap st))) by lia.
      f_equal. f_equal. unfold child_of. simpl. by rewrite Hnth.
    + destruct (decide (0 < nth (Z.to_nat i) r 0)) as [Hyes | _].
      { rewrite Hnth in Hyes. apply gt_half_spec in Hyes. congruence. }
      apply (IH st n Hn Hr Hidx' Hnd').
      intros j Hj. apply Hfresh. by right.
Qed.

Lemma np_zip_same_length {A B C} (f : A -> B -> C) (xs : list A) (ys : list B) :
  length xs = length ys -> np_zip f xs ys = Ret (zip_with f xs ys).
Proof. intros Hl. unfold np_zip. by rewrite Hl, Nat.eqb_refl. Qed.

Lemma histogram_length (action : list Z) (nact : Z) :
  length (histogram action nact) = Z.to_nat nact.
Proof. unfold histogram. by rewrite length_map, length_seqZ. Qed.

Lemma histogram_nonneg (action : list Z) (nact : Z) :
  Forall (fun x => 0 <= x) (histogram action nact).
Proof.
  unfold histogram. apply Forall_forall. intros x Hx.
  apply list_elem_of_In, in_map_iff in Hx. destruct Hx as (j & <- & _).
  apply bin_count_nonneg.
Qed.

Lemma get_nrepeat_count_Ret (action : list Z) (nact : Z) (r : list Z) :
  get_nrepeat_count action nact = Ret r ->
  r = histogram action nact /\ 0 < nact /\ Forall (fun a => a < nact) action.
Proof.
  rewrite get_nrepeat_count_cases. destruct (nact <? 0); [discriminate |].
  destruct (decide (0 < nact /\ Forall (fun x => x < nact) action)) as [[? ?] | ?];
    [| discriminate].
  intros Hr. inversion Hr. auto.
Qed.

(** The node that [add_counts] leaves at [self]. *)
Lemma add_counts_inv (fuel : nat) (st st' : Store F Rng) (self : addr)
    (counts : list F) (n : Pi_struct F) :
  heap st !! self = Some n ->
  children n = [] ->
  add_counts fuel st self counts = Ret st' ->
  exists v pi action g r rv,
    isValid n = Some v /\
    get_PI fuel counts (tau n (level n)) = Ret pi /\
    random_choice (rng st) (size n) (repeat n) pi = Ret (action, g) /\
    r = histogram action (size n) /\ 0 < size n /\
    np_zip (fun x b => x * Z.b2z b) r v = Ret rv /\
    repeat n = zsum rv /\
    st' = {| heap :=
               <[self := with_evaluated
                           (with_children
                              (with_nrepeats (with_Pi n (Some pi)) (Some r))
                              (child_entries r (seqZ 0 (size n)) (length (heap st))))
                           true]> (heap st)
               ++ map (child_of n self r) (budgeted r (seqZ 0 (size n)));
             rng := g; calls := calls st; traversals := traversals st |}.
Proof.
  intros Hn Hkids Hrun. unfold add_counts in Hrun.
  rewrite (load_Some st self n Hn) in Hrun. simpl in Hrun.
  inv_bind Hrun. apply attr_Ret_inv in Hstep. rename x into v.
  inv_bind Hrun. rename x into masked. inv_bind Hrun. clear Hstep1.
  inv_bind Hrun. rename x0 into pi. inv_bind Hrun. rename x0 into mass.
  inv_bind Hrun. clear Hstep3.
  inv_bind Hrun. destruct x1 as [action g]. inv_bind Hrun. rename x1 into r.
  apply get_nrepeat_count_Ret in Hstep4. destruct Hstep4 as (Hr & Hsize & _).
  inv_bind Hrun. rename x1 into rv. inv_bind Hrun. apply assert_Ret_inv in Hstep5.
  apply Z.eqb_eq in Hstep5. simpl in Hstep5.
  inv_bind Hrun. rename x2 into st1.
  set (n1 := with_nrepeats (with_Pi n (Some pi)) (Some r)) in *.
  assert (Hlt : (self < length (heap st))%nat) by (by apply lookup_lt_Some in Hn).
  rewrite (make_children_run self r (seqZ 0 (size n)) _ n1) in Hstep6.
  - inversion Hstep6; subst st1; clear Hstep6.
    unfold load in Hrun. simpl in Hrun.
    rewrite lookup_app_l in Hrun by (rewrite !length_insert; exact Hlt).
    rewrite list_lookup_insert_eq in Hrun by (rewrite length_insert; exact Hlt).
    simpl in Hrun. inversion Hrun; subst st'; clear Hrun.
    exists v, pi, action, g, r, rv. repeat (split; [assumption || reflexivity |]).
    unfold store, with_heap. simpl. f_equal.
    rewrite insert_app_l by (rewrite !length_insert; exact Hlt).
    rewrite !list_insert_insert_eq, length_insert. unfold n1. simpl.
    by rewrite Hkids.
  - unfold store. simpl. apply list_lookup_insert_eq. exact Hlt.
  - reflexivity.
  - apply Forall_forall. intros i Hi. apply elem_of_seqZ in Hi.
    rewrite Hr, histogram_length. lia.
  - apply NoDup_seqZ.
  - intros i _. unfold n1. simpl. rewrite Hkids. apply not_elem_of_nil.
Qed.

Lemma elem_of_budgeted (r : list Z) (idx : list Z) (a : Z) :
  a ∈ budgeted r idx <-> a ∈ idx /\ 0 < nth (Z.to_nat a) r 0.
Proof. unfold budgeted. rewrite list_elem_of_filter. tauto. Qed.

Lemma child_entries_keys (r : list Z) (idx : list Z) (base : nat) :
  (child_entries r idx base).*1 = budgeted r idx.
Proof. unfold child_entries. apply fst_zip. by rewrite length_seq. Qed.

Lemma child_entries_lookup (r : list Z) (idx : list Z) (base : nat) (a : Z) (c : addr) :
  (a, c) ∈ child_entries r idx base ->
  exists k, budgeted r idx !! k = Some a /\ c = (base + k)%nat.
Proof.
  unfold child_entries. intros Hin. apply list_elem_of_lookup in Hin.
  destruct Hin as [k Hk]. apply lookup_zip_with_Some in Hk.
  destruct Hk as (a' & c' & Heq & Ha & Hc). inversion Heq; subst.
  exists k. split; [exact Ha |]. apply lookup_seq in Hc. lia.
Qed.

(** C1: if [add_counts] returns normally on a node that has not been
    expanded before (its [children] mapping is still empty), then
    afterwards the node is expanded, [sum(nrepeats * isValid)] equals the
    node's [repeat] exactly, the keys of [children] are exactly the actions
    [a] with [nrepeats[a] > 0] (in increasing order), and the child of
    every such action is a fresh node constructed with repeat budget
    [nrepeats[a]], a level one greater than the parent's and the same
    [size], [file_no] and [tau], its parent being the expanded node.  The
    conclusion needs no assumption on [counts]; in particular it holds
    whenever [sum(counts) == sum(counts * isValid) > 0]. *)
Theorem add_counts_children (fuel : nat) (st st' : Store F Rng) (self : addr)
    (counts : list F) (n : Pi_struct F) :
  heap st !! self = Some n ->
  children n = [] ->
  add_counts fuel st self counts = Ret st' ->
  exists (n' : Pi_struct F) (r : list Z) (v : list bool) (rv : list Z),
    heap st' !! self = Some n' /\
    evaluated n' = true /\
    nrepeats n' = Some r /\ isValid n' = Some v /\
    length r = Z.to_nat (size n') /\
    np_zip (fun x b => x * Z.b2z b) r v = Ret rv /\
    zsum rv = repeat n' /\
    (forall a, a ∈ (children n').*1
               <-> 0 <= a /\ exists ra, r !! Z.to_nat a = Some ra /\ 0 < ra) /\
    (children n').*1 = budgeted r (seqZ 0 (size n')) /\
    (forall a c, (a, c) ∈ children n' ->
       (length (heap st) <= c)%nat /\
       exists ra, r !! Z.to_nat a = Some ra /\
         heap st' !! c = Some (Pi_struct_init (size n') ra (level n' + 1)
                                 (file_no n') (tau n') (Some self))) /\
    size n' = size n /\ repeat n' = repeat n /\ level n' = level n /\
    file_no n' = file_no n /\ tau n' = tau n /\ parent n' = parent n.
Proof.
  intros Hn Hkids Hrun.
  destruct (add_counts_inv fuel st st' self counts n Hn Hkids Hrun)
    as (v & pi & action & g & r & rv & Hv & _ & _ & Hr & Hsize & Hrv & Hsum & ->).
  assert (Hlt : (self < length (heap st))%nat) by (by apply lookup_lt_Some in Hn).
  assert (Hlen : length r = Z.to_nat (size n)) by (by rewrite Hr, histogram_length).
  eexists _, r, v, rv. split.
  { simpl. rewrite lookup_app_l by (rewrite length_insert; exact Hlt).
    apply list_lookup_insert_eq. exact Hlt. }
  simpl. repeat (split; [by auto |]).
  split; [| split; [apply child_entries_keys | split; [| by auto 10]]].
  - intros a. rewrite child_entries_keys, elem_of_budgeted, elem_of_seqZ. split.
    + intros [Ha Hpos]. split; [lia |].
      destruct (lookup_lt_is_Some_2 r (Z.to_nat a)) as [ra Hra]; [lia |].
      exists ra. split; [exact Hra |]. by rewrite (nth_lookup_Some _ _ _ _ Hra) in Hpos.
    + intros (Ha & ra & Hra & Hpos). rewrite (nth_lookup_Some _ _ _ _ Hra).
      split; [| exact Hpos]. apply lookup_lt_Some in Hra. lia.
  - intros a c Hin. apply child_entries_lookup in Hin.
    destruct Hin as (k & Hk & ->). split; [lia |].
    assert (Ha : a ∈ budgeted r (seqZ 0 (size n)))
      by (apply list_elem_of_lookup; eauto).
    apply elem_of_budgeted in Ha. destruct Ha as [Ha Hpos].
    apply elem_of_seqZ in Ha.
    destruct (lookup_lt_is_Some_2 r (Z.to_nat a)) as [ra Hra]; [lia |].
    exists ra. split; [exact Hra |].
    rewrite lookup_app_r by (rewrite length_insert; lia).
    rewrite length_insert.
    replace (length (heap st) + k - length (heap st))%nat with k by lia.
    change (map ?g ?l) with (g <$> l). rewrite list_lookup_fmap, Hk. simpl.
    unfold child_of. by rewrite (nth_lookup_Some _ _ _ _ Hra).
Qed.

End Expansion.

Lemma add_counts_children_witness :
  exists st',
    add_counts 1 demo_fresh 0%nat [Rat 3; Rat 1] = Ret st' /\
    exists (n' : Pi_struct num) (r : list Z) (v : list bool) (rv : list Z),
      heap st' !! 0%nat = Some n' /\
      evaluated n' = true /\
      nrepeats n' = Some r /\ isValid n' = Some v /\
      length r = Z.to_nat (size n') /\
      np_zip (fun x b => x * Z.b2z b) r v = Ret rv /\
      zsum rv = repeat n' /\
      (forall a, a ∈ (children n').*1
                 <-> 0 <= a /\ exists ra, r !! Z.to_nat a = Some ra /\ 0 < ra) /\
      (children n').*1 = budgeted r (seqZ 0 (size n')) /\
      (forall a c, (a, c) ∈ children n' ->
         (length (heap demo_fresh) <= c)%nat /\
         exists ra, r !! Z.to_nat a = Some ra /\
           heap st' !! c = Some (Pi_struct_init (size n') ra (level n' + 1)
                                   (file_no n') (tau n') (Some 0%nat))) /\
      size n' = size demo_root /\ repeat n' = repeat demo_root /\
      level n' = level demo_root /\ file_no n' = file_no demo_root /\
      tau n' = tau demo_root /\ parent n' = parent demo_root.
Proof.
  eexists. split; [vm_compute; reflexivity |].
  apply (add_counts_children 1 demo_fresh _ 0%nat [Rat 3; Rat 1] demo_root);
    [reflexivity | reflexivity | vm_compute; reflexivity].
Defined.


(** ** The finished phase *)

Section Finished.
Context {F : Type} `{Arith F}.
Context {Rng : Type} `{Sampler F Rng}.
Context {E : Type} `{Environment F E}.

(** C9: once [phase] is [None], every call of [get_state], whatever the
    policy and value arguments (and whatever the iteration budget),
    immediately returns [None] and leaves the driver and the store with
    the tree unchanged; hence the driver never leaves the finished phase,
    however many calls follow.  A trivially solved instance is in that
    phase from its construction. *)
Theorem finished_is_terminal (m : MCT F E) (st : Store F Rng) :
  phase m = None ->
  (forall fuel pi_array v_value,
      get_state fuel m st pi_array v_value = Ret (None, m, st)) /\
  (forall inputs,
      get_state_many inputs m st = Ret (map (fun _ => None) inputs, m, st)).
Proof.
  intros Hph.
  assert (Hone : forall fuel pi_array v_value,
             get_state fuel m st pi_array v_value = Ret (None, m, st)).
  { intros fuel pi_array v_value. unfold get_state. by rewrite Hph. }
  split; [exact Hone |].
  induction inputs as [| [[fuel pi_array] v_value] inputs IH]; [reflexivity |].
  simpl. rewrite Hone. simpl. rewrite IH. reflexivity.
Qed.

Lemma MCT_init_trivial (e e' : E) (g : Rng) (file_no max_var1 nrepeat : Z)
    (tau : Z -> F) (resign : Z) :
  env_resetAt e file_no = (None, e') ->
  exists m, MCT_init e g file_no max_var1 nrepeat tau resign = Ret (m, empty_store g)
            /\ phase m = None /\ Pi_root m = None.
Proof. intros He. unfold MCT_init. rewrite He. eexists. split; reflexivity || auto. Qed.

End Finished.

Lemma finished_is_terminal_witness :
  MCT_init solved_env ([] : list (list Z)) 7 1 4 (fun _ => Rat 1) 1000000
  = Ret (solved_driver, empty_store []) /\
  (forall fuel pi_array v_value,
      get_state fuel solved_driver (empty_store ([] : list (list Z)))
        pi_array v_value
      = Ret (None, solved_driver, empty_store [])) /\
  (forall inputs,
      get_state_many inputs solved_driver (empty_store ([] : list (list Z)))
      = Ret (map (fun _ => None) inputs, solved_driver, empty_store [])).
Proof.
  split; [reflexivity |].
  apply (finished_is_terminal solved_driver (empty_store ([] : list (list Z)))).
  reflexivity.
Defined.

(** ** Emission of the training examples *)

Section Dump.
Context {F : Type} `{Arith F}.
Context {Rng E : Type}.

Hypothesis fmul_three_comm :
  forall x : F, fmul x (of_dec 3 0) = fmul (of_dec 3 0) x.

Lemma average_score_np (n : Pi_struct F) :
  (parent n = None -> score_np n = true) ->
  average_score n = Ret (true, fdiv (of_Z (score n)) (of_Z (repeat n))).
Proof.
  intros Hnp. unfold average_score. destruct (parent n).
  - by rewrite orb_true_r.
  - by rewrite (Hnp eq_refl).
Qed.

Lemma dump_forest (file_no : Z) (st : Store F Rng) (lo hi : Z) (mean : F)
    (f : forest F) :
  forall (depth : nat) (cs : list (Z * addr)) (buf : list (example F)),
    represents st cs f -> populated f -> (forest_depth f <= depth)%nat ->
    dump_children
      (fun c b => analyze_Pi_graph_dump depth file_no st c b (lo, (true, mean), hi))
      cs buf
    = Ret (buf ++ spec_postorder file_no mean f).
Proof.
  induction f as [| n kids IHkids rest IHrest]; intros depth cs buf Hrep Hpop Hd.
  - destruct cs; [| contradiction]. simpl. by rewrite app_nil_r.
  - destruct cs as [| [k c] cs]; [contradiction |].
    simpl in Hrep, Hpop, Hd. destruct Hrep as (Hn & Hkids & Hrest).
    destruct Hpop as (Hattr & Hpk & Hpr).
    destruct depth as [| depth]; [lia |].
    simpl dump_children. simpl analyze_Pi_graph_dump.
    unfold load. rewrite Hn. simpl.
    destruct (evaluated n) eqn:Ev; simpl.
    + rewrite (IHkids depth (children n) buf Hkids Hpk) by lia. simpl.
      destruct (Hattr eq_refl) as ([s Hs] & [p Hp] & Hnp).
      rewrite (average_score_np n Hnp). simpl. rewrite Hs, Hp. simpl.
      rewrite (IHrest (S depth) cs _ Hrest Hpr) by lia.
      f_equal. rewrite <- !app_assoc. f_equal. f_equal. simpl. f_equal.
      unfold spec_example. rewrite Hs, Hp. simpl.
      by rewrite fmul_three_comm.
    + rewrite (IHrest (S depth) cs _ Hrest Hpr) by lia. reflexivity.
Qed.

(** C8 (amended): [write_data_to_buffer] appends to the buffer the post-order
    emission of the tree below the root, when the root has received a
    score (its [score] is a [numpy.int64]) or is not expanded and has a
    repeat budget other than 0: the examples of a node's children come
    before the example of the node, a node that is not expanded is
    skipped, and the example of an expanded node is
    [(file_no, state, Pi, score, repeat)] with
    [score = tanh(3 * (meanScale - averageOutcome) / meanScale)],
    [averageOutcome = score / repeat] of the node and
    [meanScale = score / repeat] of the root. *)
Theorem dump_is_postorder (m : MCT F E) (st : Store F Rng) (root : addr)
    (r : Pi_struct F) (lo hi : Z) (f : forest F) (depth : nat)
    (sl_Buffer : list (example F)) :
  Pi_root m = Some root -> heap st !! root = Some r ->
  min_step m = Some lo -> max_step m = Some hi ->
  represents st [(0, root)] f -> populated f -> (forest_depth f <= depth)%nat ->
  score_np r = true \/ (evaluated r = false /\ repeat r <> 0) ->
  write_data_to_buffer depth m st sl_Buffer
  = Ret (sl_Buffer
         ++ spec_postorder (mct_file_no m)
              (fdiv (of_Z (score r)) (of_Z (repeat r))) f).
Proof.
  intros Hroot Hr Hlo Hhi Hrep Hpop Hd Hscore.
  unfold write_data_to_buffer. rewrite Hroot, Hlo. simpl.
  unfold load. rewrite Hr. simpl.
  assert (Hnumpy :
            analyze_Pi_graph_dump depth (mct_file_no m) st root sl_Buffer
              (lo, (true, fdiv (of_Z (score r)) (of_Z (repeat r))), hi)
            = Ret (sl_Buffer
                   ++ spec_postorder (mct_file_no m)
                        (fdiv (of_Z (score r)) (of_Z (repeat r))) f)).
  { pose proof (dump_forest (mct_file_no m) st lo hi
                  (fdiv (of_Z (score r)) (of_Z (repeat r)))
                  f depth [(0, root)] sl_Buffer Hrep Hpop Hd) as Hdump.
    simpl in Hdump.
    destruct (analyze_Pi_graph_dump depth (mct_file_no m) st root sl_Buffer
                (lo, (true, fdiv (of_Z (score r)) (of_Z (repeat r))), hi));
      simpl in Hdump; congruence. }
  unfold average_score.
  destruct (score_np r) eqn:Hnp; simpl; [by rewrite Hhi |].
  destruct (parent r) eqn:Hpar; simpl; [by rewrite Hhi |].
  destruct Hscore as [Hcontra | [Hev Hne]]; [discriminate |].
  apply Z.eqb_neq in Hne. rewrite Hne. simpl. rewrite Hhi. simpl.
  destruct f as [| n kids rest]; [contradiction |].
  simpl in Hrep. destruct Hrep as (Hn & _ & Hrest).
  destruct rest; [| contradiction].
  assert (Hq : Some n = Some r) by (rewrite <- Hn; exact Hr).
  injection Hq as ->.
  destruct depth as [| depth]; [simpl in Hd; lia |].
  simpl. unfold load. rewrite Hr. simpl. rewrite Hev. simpl.
  by rewrite !app_nil_r.
Qed.

End Dump.

Lemma dump_is_postorder_witness :
  write_data_to_buffer 3 dump_driver dump_store []
  = Ret ([] ++ spec_postorder 7 (fdiv (of_Z 4) (of_Z 4)) dump_forest_of_store) /\
  spec_postorder 7 (fdiv (of_Z 4) (of_Z 4)) dump_forest_of_store
  = [spec_example 7 (fdiv (of_Z 4) (of_Z 4)) dump_left;
     spec_example 7 (fdiv (of_Z 4) (of_Z 4)) dump_root].
Proof.
  split; [| reflexivity].
  assert (Hcomm : forall x : R, fmul x (of_dec 3 0) = fmul (of_dec 3 0) x)
    by (intros x; apply Rmult_comm).
  apply (dump_is_postorder Hcomm dump_driver dump_store 0%nat
           dump_root 0 1 dump_forest_of_store 3 []); try reflexivity.
  - simpl. tauto.
  - simpl. repeat split; intros; discriminate || eauto.
  - left. reflexivity.
Defined.

(** C8, as stated, fails: after two calls of [get_state] on the problem
    whose second action ends the episode, the root is expanded and its
    score is still the Python int 0 of [__init__].  [meanScale] is then the
    Python float [0 / 2], and so is [averageOutcome] of the root: the
    division by [meanScale] raises [ZeroDivisionError], and the example of
    the root is not emitted. *)
Lemma dump_raises_before_first_score :
  exists outs m st r,
    two_level_run 2 = Ret (outs, m, st) /\
    Pi_root m = Some 0%nat /\ heap st !! 0%nat = Some r /\
    evaluated r = true /\ score_np r = false /\
    write_data_to_buffer 5 m st [] = Raise ZeroDivisionError.
Proof.
  do 4 eexists. split; [vm_compute; reflexivity |].
  vm_compute. repeat split.
Qed.


(** ** Whole runs *)

Section RunProofs.
Context {F : Type} `{Arith F}.
Context {Rng : Type} `{Sampler F Rng}.
Context {E : Type} `{Environment F E}.
Context {Pos : Type} `{!Deterministic Pos}.

Implicit Types (n : Pi_struct F) (h : list (Pi_struct F)) (st : Store F Rng).

Lemma zsum_map_insert {A} (f : A -> Z) (l : list A) (i : nat) (x y : A) :
  l !! i = Some x ->
  zsum (map f (<[i := y]> l)) = zsum (map f l) - f x + f y.
Proof.
  revert i. induction l as [| z l IH]; intros i Hi; [done |].
  destruct i as [| i]; simpl in *.
  - inversion Hi; subst. unfold zsum. simpl. lia.
  - specialize (IH i Hi). unfold zsum in *. simpl. lia.
Qed.

Lemma zsum_map_zero {A} (f : A -> Z) (l : list A) :
  Forall (fun x => f x = 0) l -> zsum (map f l) = 0.
Proof. induction 1 as [| x l Hx Hl IH]; unfold zsum in *; simpl; lia. Qed.

Lemma zsum_nonneg (l : list Z) : Forall (fun x => 0 <= x) l -> 0 <= zsum l.
Proof. induction 1 as [| x l Hx Hl IH]; unfold zsum in *; simpl; lia. Qed.

Lemma bind_Ret {A B} (x : A) (k : A -> res B) : Ret x ≫= k = k x.
Proof. reflexivity. Qed.

Lemma get_next_store st (a : addr) n n' (i : Z) n'' :
  heap st !! a = Some n -> get_next_node n' = Ret (i, n'') ->
  get_next (store st a n') a = Ret (i, store st a n'').
Proof.
  intros Hn Hrun. unfold get_next.
  rewrite (load_store_same st a n n' Hn), bind_Ret, Hrun, bind_Ret.
  by rewrite store_store.
Qed.

Lemma finished_false_live n :
  evaluated n = true -> finished n = false -> next n < size n.
Proof.
  unfold finished. intros -> Hf. simpl in Hf. by apply Z.leb_gt in Hf.
Qed.

Lemma finished_false_live_conv n :
  evaluated n = true -> next n < size n -> finished n = false.
Proof.
  unfold finished. intros -> Hlt. simpl. by apply Z.leb_gt.
Qed.

Lemma finished_true n :
  finished n = true <-> evaluated n = true /\ size n <= next n.
Proof. unfold finished. rewrite andb_true_iff, Z.leb_le. tauto. Qed.

Lemma finished_unevaluated n : evaluated n = false -> finished n = false.
Proof. unfold finished. by intros ->. Qed.

(** On a node in normal form [get_next] changes nothing. *)
Lemma get_next_node_normal n :
  node_ok n -> evaluated n = true ->
  get_next_node n = Ret (if next n <? size n then next n else -1, n).
Proof.
  intros Hok Hev. destruct (ok_eval n Hok Hev)
    as (r & v & Hr & Hv & Hsz & Hlr & Hpos & Hbud & Hkeys & Hnd & Hle & Hact).
  assert (Hlv : length v = Z.to_nat (size n)) by (by apply (ok_mask n Hok)).
  destruct (get_next_node_spec n r v Hr Hv Hlr Hlv (ok_next n Hok))
    as (i & c & Hrun & Hnc & Hpast & Hres).
  rewrite Hrun.
  assert (Hc : c = next n).
  { destruct (Z.eq_dec c (next n)) as [-> | Hne]; [reflexivity |].
    destruct (Z_lt_ge_dec (next n) (size n)) as [Hlt | Hge].
    - exfalso. apply (Hpast (next n)); [lia | by apply Hact].
    - destruct Hres as [(_ & ? & _) | (_ & _ & ->)]; lia. }
  subst c. rewrite with_next_id. f_equal. f_equal.
  destruct Hres as [(-> & Hlt & _) | (-> & Hge & _)].
  - destruct (next n <? size n) eqn:Ec; [reflexivity | lia].
  - destruct (next n <? size n) eqn:Ec; [lia | reflexivity].
Qed.

Lemma node_ok_advance n (r : list Z) (v : list bool) (s c : Z) :
  node_ok n -> evaluated n = true ->
  nrepeats n = Some r -> isValid n = Some v ->
  next n <= c -> c <= size n -> (c < size n -> actionable r v c) ->
  node_ok (with_next (with_score n s) c).
Proof.
  intros Hok Hev Hr Hv Hnc Hcs Hact.
  pose proof (ok_next n Hok) as Hnext.
  destruct (ok_eval n Hok Hev)
    as (r' & v' & Hr' & Hv' & Hsz & Hlr & Hpos & Hbud & Hkeys & Hnd & Hle & _).
  rewrite Hr in Hr'. rewrite Hv in Hv'. inversion Hr'; inversion Hv'; subst r' v'.
  constructor; simpl.
  - lia.
  - intros Hne. congruence.
  - apply (ok_mask n Hok).
  - intros _. exists r, v. repeat (split; [assumption |]). assumption.
Qed.

Lemma set_next_unfold (d : nat) st (a : addr) (from : option addr) (s : Z) n :
  heap st !! a = Some n -> node_ok n -> evaluated n = true ->
  next n < size n ->
  exists r v c,
    nrepeats n = Some r /\ isValid n = Some v /\
    next n < c /\ c <= size n /\
    (forall j, next n < j < c -> ~ actionable r v j) /\
    (c < size n -> actionable r v c) /\
    set_next (S d) st a from s
    = (let st1 := store (log_call st {| caller := from; callee := a;
                                       additional_score := s |})
                    a (with_next (with_score n (wrap64 (score n + s))) c) in
       if c <? size n then Ret (c, st1)
       else match parent n with
            | Some p => set_next d st1 p (Some a) (wrap64 (score n + s))
            | None => Ret (-1, st1)
            end).
Proof.
  intros Hn Hok Hev Hlive.
  pose proof (ok_next n Hok) as Hnext.
  destruct (ok_eval n Hok Hev)
    as (r & v & Hr & Hv & Hsz & Hlr & Hpos & Hbud & Hkeys & Hnd & Hle & Hact).
  assert (Hlv : length v = Z.to_nat (size n)) by (by apply (ok_mask n Hok)).
  set (n1 := with_next (with_score n (wrap64 (score n + s))) (next n + 1)).
  destruct (get_next_node_spec n1 r v) as (i & c & Hrun & Hnc & Hpast & Hres);
    try assumption; [simpl; lia |].
  simpl in Hrun, Hnc, Hpast, Hres.
  assert (Hcs : c <= size n) by (destruct Hres as [(_ & ? & _) | (_ & _ & ->)]; lia).
  assert (Hcact : c < size n -> actionable r v c)
    by (intros Hlt; destruct Hres as [(_ & _ & ?) | (_ & ? & _)]; [assumption | lia]).
  exists r, v, c. split; [exact Hr |]. split; [exact Hv |].
  split; [lia |]. split; [exact Hcs |].
  split; [intros j Hj; apply Hpast; lia |]. split; [exact Hcact |].
  set (n2 := with_next (with_score n (wrap64 (score n + s))) c).
  assert (Hok2 : node_ok n2) by (apply (node_ok_advance n r v); auto; lia).
  assert (Hlt : (a < length (heap st))%nat) by (by apply lookup_lt_Some in Hn).
  set (st0 := log_call st {| caller := from; callee := a; additional_score := s |}).
  assert (Hn0 : heap st0 !! a = Some n) by exact Hn.
  simpl set_next. fold st0.
  rewrite (load_Some st0 a n Hn0), bind_Ret.
  rewrite (load_store_same st0 a n _ Hn0), bind_Ret.
  rewrite store_store. simpl score. simpl next. fold n1.
  rewrite (get_next_store st0 a n n1 i n2 Hn0 Hrun), bind_Ret.
  rewrite (get_next_store st0 a n n2 _ n2 Hn0 (get_next_node_normal n2 Hok2 Hev)),
    bind_Ret.
  rewrite (load_store_same st0 a n _ Hn0), bind_Ret.
  simpl.
  destruct (c <? size n) eqn:Ec.
  - destruct Hres as [(-> & _ & _) | (_ & ? & _)]; [| apply Z.ltb_lt in Ec; lia].
    destruct (c <? 0) eqn:Ec0; [apply Z.ltb_lt in Ec0; lia | reflexivity].
  - destruct Hres as [(_ & ? & _) | (-> & _ & _)]; [apply Z.ltb_ge in Ec; lia |].
    reflexivity.
Qed.

Lemma add_state_node_fixed n (s : ndarray3 F) :
  add_state_node n s = Ret n <->
  ((size n =? -1) || (Z.of_nat (dim1 s * dim2 s) =? size n) = true /\
   (dim1 s * dim2 s =? 0)%nat = false /\
   isValid n = Some (np_any_axis0 s) /\
   state n = Some (list_chunks (dim1 s * dim2 s) (dim0 s) (cells s))).
Proof.
  unfold add_state_node. simpl.
  destruct ((size n =? -1) || (Z.of_nat (dim1 s * dim2 s) =? size n)); simpl;
    [| split; [discriminate | intros [? _]; discriminate]].
  destruct (dim1 s * dim2 s =? 0)%nat; simpl;
    [split; [discriminate | intros (_ & ? & _); discriminate] |].
  split.
  - intros Heq. inversion Heq as [Hn]. destruct n; simpl in *.
    inversion Hn. repeat split; congruence.
  - intros (_ & _ & Hv & Hs). destruct n; simpl in *. subst. reflexivity.
Qed.

Lemma add_state_node_advance n (obs : ndarray3 F) (s c : Z) :
  add_state_node n obs = Ret n ->
  add_state_node (with_next (with_score n s) c) obs
  = Ret (with_next (with_score n s) c).
Proof. rewrite !add_state_node_fixed. simpl. tauto. Qed.

Lemma finished_advance n (s c : Z) :
  evaluated n = true ->
  finished (with_next (with_score n s) c) = (size n <=? c).
Proof. intros Hev. unfold finished. simpl. by rewrite Hev. Qed.

(** The node at [a], still in progress, moves its cursor from [next n] to
    [c]: the heap invariant survives, the node becoming the pending one if
    that finishes it below a parent. *)
Lemma heap_ok_advance (pm : addr -> Pos) (rs : Z) (pend : option addr) h
    (a : addr) n (r : list Z) (v : list bool) (s c : Z) :
  heap_ok pm rs None pend h ->
  h !! a = Some n -> evaluated n = true -> next n < size n ->
  nrepeats n = Some r -> isValid n = Some v ->
  next n < c -> c <= size n -> (c < size n -> actionable r v c) ->
  (forall c0, pend = Some c0 ->
     exists n0, h !! c0 = Some n0 /\ parent n0 = Some a) ->
  (forall b nb, h !! b = Some nb -> (next n, b) ∈ children n ->
                evaluated nb = true -> finished nb = true) ->
  heap_ok pm rs None
    (if (size n <=? c) && negb (is_root n) then Some a else None)
    (<[a := with_next (with_score n s) c]> h).
Proof.
  intros Hheap Hn Hev Hlive Hr Hv Hnc Hcs Hact Hpend Hdone.
  set (n' := with_next (with_score n s) c).
  set (pend' := if (size n <=? c) && negb (is_root n) then Some a else None).
  assert (Hlt : (a < length h)%nat) by (by apply lookup_lt_Some in Hn).
  destruct (Hheap a n Hn) as (Hokn & Hlinkn & Hkidsn).
  assert (Hok' : node_ok n') by (apply (node_ok_advance n r v); auto; lia).
  assert (Hkeys : NoDup (children n).*1).
  { destruct (ok_eval n Hokn Hev) as (r0 & v0 & _ & _ & _ & _ & _ & _ & -> & _).
    unfold budgeted. apply NoDup_filter, NoDup_seqZ. }
  intros b nb' Hb.
  destruct (decide (b = a)) as [-> | Hne].
  - rewrite list_lookup_insert_eq in Hb by exact Hlt. inversion Hb; subst nb'.
    split; [exact Hok' |]. split.
    + unfold link_ok in *. simpl. destruct (parent n) as [p |] eqn:Hp; [| exact Hlinkn].
      destruct Hlinkn as (Ha0 & pn & act & rp & Hpa & Hpn & Hevp & Hrp & Hin & Hlev
                          & Hrep & Hsz & Hpm & Hst & Hvis).
      split; [exact Ha0 |]. exists pn, act, rp.
      split; [exact Hpa |].
      split; [rewrite list_lookup_insert_ne by lia; exact Hpn |].
      do 7 (split; [assumption |]).
      split; [intros Hiv; apply add_state_node_advance; auto |].
      intros _. destruct (Hvis (or_introl Hev)) as (Hterm & Hrs & Hcur).
      split; [exact Hterm |]. split; [exact Hrs |].
      rewrite (finished_false_live_conv n Hev Hlive) in Hcur.
      fold n'. unfold n' at 1. rewrite finished_advance by exact Hev.
      unfold pend', is_root. rewrite Hp. simpl. rewrite andb_true_r.
      destruct (size n <=? c); [| exact Hcur].
      destruct (decide (Some a = Some a)); [exact Hcur | congruence].
    + intros act c1 Hin. simpl in Hin. destruct (Hkidsn act c1 Hin) as (cn & Hcn & Hpc).
      destruct (decide (c1 = a)) as [-> | Hc1].
      * exists n'. split; [by apply list_lookup_insert_eq |].
        rewrite Hn in Hcn. inversion Hcn; subst cn. exact Hpc.
      * exists cn. split; [by rewrite list_lookup_insert_ne | exact Hpc].
  - rewrite list_lookup_insert_ne in Hb by congruence.
    destruct (Hheap b nb' Hb) as (Hokb & Hlinkb & Hkidsb).
    split; [exact Hokb |]. split.
    + unfold link_ok in *. destruct (parent nb') as [p |] eqn:Hp; [| exact Hlinkb].
      destruct Hlinkb as (Hb0 & pn & act & rp & Hpb & Hpn & Hevp & Hrp & Hin & Hlev
                          & Hrep & Hsz & Hpm & Hst & Hvis).
      split; [exact Hb0 |].
      destruct (decide (p = a)) as [-> | Hpa].
      * rewrite Hn in Hpn. inversion Hpn; subst pn.
        exists n', act, rp. split; [exact Hpb |].
        split; [by apply list_lookup_insert_eq |].
        do 7 (split; [assumption |]). split; [exact Hst |].
        intros [Hevb | Hfront]; [| discriminate].
        destruct (Hvis (or_introl Hevb)) as (Hterm & Hrs & Hcur).
        split; [exact Hterm |]. split; [exact Hrs |].
        assert (Hpb' : pend' <> Some b).
        { unfold pend'. destruct ((size n <=? c) && negb (is_root n)); congruence. }
        destruct (decide (pend' = Some b)) as [? | _]; [contradiction |].
        simpl. destruct (finished nb') eqn:Hfb.
        -- destruct (decide (pend = Some b)); lia.
        -- exfalso. rewrite <- Hcur in Hin.
           specialize (Hdone b nb' Hb Hin Hevb). congruence.
      * exists pn, act, rp. split; [exact Hpb |].
        split; [by rewrite list_lookup_insert_ne |].
        do 7 (split; [assumption |]). split; [exact Hst |].
        intros Hevb. destruct (Hvis Hevb) as (Hterm & Hrs & Hcur).
        split; [exact Hterm |]. split; [exact Hrs |].
        assert (Hpb' : pend' <> Some b).
        { unfold pend'. destruct ((size n <=? c) && negb (is_root n)); congruence. }
        assert (Hpb0 : pend <> Some b).
        { intros Heq. destruct (Hpend b Heq) as (n0 & Hn0 & Hp0).
          pose proof (eq_trans (eq_sym Hn0) Hb) as Hq. inversion Hq; subst n0.
          congruence. }
        destruct (decide (pend' = Some b)); [contradiction |].
        destruct (decide (pend = Some b)); [contradiction |]. exact Hcur.
    + intros act c1 Hin. destruct (Hkidsb act c1 Hin) as (cn & Hcn & Hpc).
      destruct (decide (c1 = a)) as [-> | Hc1].
      * exists n'. split; [by apply list_lookup_insert_eq |].
        rewrite Hn in Hcn. inversion Hcn; subst cn. exact Hpc.
      * exists cn. split; [by rewrite list_lookup_insert_ne | exact Hpc].
Qed.

End RunProofs.


Section Accounting.
Context {F : Type} `{Arith F}.
Context {Rng : Type} `{Sampler F Rng}.
Context {E : Type} `{Environment F E}.
Context {Pos : Type} `{!Deterministic Pos}.

Implicit Types (n : Pi_struct F) (h : list (Pi_struct F)) (st : Store F Rng).

Lemma elem_of_propagators (cs : list call) (a : addr) :
  a ∈ propagators cs <-> exists c, c ∈ cs /\ caller c = Some a.
Proof. unfold propagators. apply list_elem_of_omap. Qed.

Lemma propagators_app (cs1 cs2 : list call) :
  propagators (cs1 ++ cs2) = propagators cs1 ++ propagators cs2.
Proof. unfold propagators. apply omap_app. Qed.

Lemma driver_calls_app (cs1 cs2 : list call) :
  driver_calls (cs1 ++ cs2) = driver_calls cs1 ++ driver_calls cs2.
Proof. unfold driver_calls. apply filter_app. Qed.

Lemma zsum_take_step (m : list Z) (k : nat) :
  (k < length m)%nat -> zsum (take (S k) m) = zsum (take k m) + nth k m 0.
Proof.
  revert k. induction m as [| x m IH]; intros k Hk; simpl in Hk; [lia |].
  destruct k as [| k]; simpl.
  - unfold zsum. simpl. lia.
  - specialize (IH k ltac:(lia)). unfold zsum in *. simpl in *. lia.
Qed.

Lemma zsum_take_zeros (m : list Z) (k c : nat) :
  (k <= c)%nat -> (c <= length m)%nat ->
  (forall j, (k <= j < c)%nat -> nth j m 0 = 0) ->
  zsum (take c m) = zsum (take k m).
Proof.
  intros Hkc. induction Hkc as [| c Hkc IH]; intros Hc Hz; [reflexivity |].
  rewrite zsum_take_step by lia. rewrite IH; [| lia | intros j Hj; apply Hz; lia].
  rewrite (Hz c) by lia. lia.
Qed.

Lemma masked_nth (r : list Z) (v : list bool) (j : nat) :
  Forall (fun x => 0 <= x) r -> length r = length v -> (j < length r)%nat ->
  ~ actionable r v (Z.of_nat j) ->
  nth j (zip_with (fun x b => x * Z.b2z b) r v) 0 = 0.
Proof.
  intros Hpos Hlen Hj Hna.
  destruct (lookup_lt_is_Some_2 r j Hj) as [x Hx].
  destruct (lookup_lt_is_Some_2 v j ltac:(lia)) as [b Hb].
  apply nth_lookup_Some with (d := 0).
  rewrite lookup_zip_with, Hx, Hb. simpl. f_equal.
  destruct b; simpl; [| lia].
  destruct (Z_le_gt_dec x 0) as [Hle | Hgt].
  - rewrite Forall_forall in Hpos. specialize (Hpos x).
    assert (0 <= x) by (apply Hpos, list_elem_of_lookup; eauto). lia.
  - exfalso. apply Hna. split; [lia |]. exists x. rewrite Nat2Z.id. auto with lia.
Qed.

Lemma masked_nth_actionable (r : list Z) (v : list bool) (j : Z) :
  actionable r v j ->
  nth (Z.to_nat j) (zip_with (fun x b => x * Z.b2z b) r v) 0
  = nth (Z.to_nat j) r 0.
Proof.
  intros (Hj & x & Hx & Hpos & Hb).
  rewrite (nth_lookup_Some _ _ _ _ Hx).
  apply nth_lookup_Some. rewrite lookup_zip_with, Hx, Hb. simpl. f_equal. lia.
Qed.

(** The budget before the cursor grows by the budget of the action left
    behind; the actions skipped have none. *)
Lemma passed_advance n (r : list Z) (v : list bool) (s c : Z) :
  node_ok n -> evaluated n = true -> next n < size n ->
  nrepeats n = Some r -> isValid n = Some v ->
  next n < c -> c <= size n ->
  (forall j, next n < j < c -> ~ actionable r v j) ->
  passed (with_next (with_score n s) c)
  = passed n + nth (Z.to_nat (next n)) r 0.
Proof.
  intros Hok Hev Hlive Hr Hv Hnc Hcs Hpast.
  pose proof (ok_next n Hok) as Hnext.
  destruct (ok_eval n Hok Hev)
    as (r' & v' & Hr' & Hv' & Hsz & Hlr & Hpos & Hbud & Hkeys & Hnd & Hle & Hact).
  rewrite Hr in Hr'. rewrite Hv in Hv'. inversion Hr'; inversion Hv'; subst r' v'.
  assert (Hlv : length v = Z.to_nat (size n)) by (by apply (ok_mask n Hok)).
  unfold passed, masked. simpl. rewrite Hr, Hv.
  set (m := zip_with (fun x b => x * Z.b2z b) r v).
  assert (Hlm : length m = Z.to_nat (size n)).
  { unfold m. rewrite length_zip_with. lia. }
  rewrite (zsum_take_zeros m (S (Z.to_nat (next n))) (Z.to_nat c)); [| lia | lia |].
  - rewrite zsum_take_step by lia. f_equal.
    apply masked_nth_actionable, Hact. exact Hlive.
  - intros j Hj. apply masked_nth; [exact Hpos | lia | lia |].
    apply Hpast. lia.
Qed.

Lemma passed_finished n (r : list Z) (v : list bool) :
  node_ok n -> nrepeats n = Some r -> isValid n = Some v ->
  finished n = true -> passed n = repeat n.
Proof.
  intros Hok Hr Hv Hfin. apply finished_true in Hfin. destruct Hfin as [Hev Hge].
  destruct (ok_eval n Hok Hev)
    as (r' & v' & Hr' & Hv' & Hsz & Hlr & Hpos & Hbud & Hkeys & Hnd & Hle & Hact).
  rewrite Hr in Hr'. rewrite Hv in Hv'. inversion Hr'; inversion Hv'; subst r' v'.
  assert (Hlv : length v = Z.to_nat (size n)) by (by apply (ok_mask n Hok)).
  unfold passed, masked. rewrite Hr, Hv, <- Hbud. unfold valid_budget.
  rewrite take_ge; [reflexivity |]. rewrite length_zip_with. lia.
Qed.

Lemma fst_unique {A B} (l : list (A * B)) (k : A) (x y : B) :
  NoDup l.*1 -> (k, x) ∈ l -> (k, y) ∈ l -> x = y.
Proof.
  induction l as [| [k' z] l IH]; intros Hnd Hx Hy; [by apply elem_of_nil in Hx |].
  simpl in Hnd. apply NoDup_cons in Hnd. destruct Hnd as [Hnin Hnd].
  apply elem_of_cons in Hx. apply elem_of_cons in Hy.
  destruct Hx as [Hx | Hx], Hy as [Hy | Hy].
  - congruence.
  - inversion Hx; subst. destruct Hnin.
    apply list_elem_of_fmap. by exists (k', y).
  - inversion Hy; subst. destruct Hnin.
    apply list_elem_of_fmap. by exists (k', x).
  - by apply IH.
Qed.

Lemma snd_unique {A B} (l : list (A * B)) (k1 k2 : A) (x : B) :
  NoDup l.*2 -> (k1, x) ∈ l -> (k2, x) ∈ l -> k1 = k2.
Proof.
  induction l as [| [k' z] l IH]; intros Hnd Hx Hy; [by apply elem_of_nil in Hx |].
  simpl in Hnd. apply NoDup_cons in Hnd. destruct Hnd as [Hnin Hnd].
  apply elem_of_cons in Hx. apply elem_of_cons in Hy.
  destruct Hx as [Hx | Hx], Hy as [Hy | Hy].
  - congruence.
  - inversion Hx; subst. destruct Hnin.
    apply list_elem_of_fmap. by exists (k2, z).
  - inversion Hy; subst. destruct Hnin.
    apply list_elem_of_fmap. by exists (k1, z).
  - by apply IH.
Qed.

Lemma grows_refl h : grows h h.
Proof. intros b nb Hb. exists nb. auto 10. Qed.

Lemma grows_trans h1 h2 h3 : grows h1 h2 -> grows h2 h3 -> grows h1 h3.
Proof.
  intros H12 H23 b nb Hb.
  destruct (H12 b nb Hb) as (nb2 & Hb2 & Hev2 & Hl2 & Hr2 & Hp2 & Hf2 & Hfin2).
  destruct (H23 b nb2 Hb2) as (nb3 & Hb3 & Hev3 & Hl3 & Hr3 & Hp3 & Hf3 & Hfin3).
  exists nb3. split; [exact Hb3 |]. split.
  { intros He. destruct (Hev2 He) as [He2 Hn2]. destruct (Hev3 He2) as [He3 Hn3].
    split; [exact He3 | congruence]. }
  do 4 (split; [congruence |]).
  intros Hfin. specialize (Hfin2 Hfin). subst nb2. auto.
Qed.

Lemma grows_advance h (a : addr) n (s c : Z) :
  h !! a = Some n -> finished n = false ->
  grows h (<[a := with_next (with_score n s) c]> h).
Proof.
  intros Hn Hfin b nb Hb. destruct (decide (b = a)) as [-> | Hne].
  - pose proof (eq_trans (eq_sym Hn) Hb) as Hq. inversion Hq; subst nb.
    exists (with_next (with_score n s) c).
    split; [apply list_lookup_insert_eq; by apply lookup_lt_Some in Hn |].
    simpl. repeat (split; [auto |]). congruence.
  - exists nb. split; [by rewrite list_lookup_insert_ne |]. auto 10.
Qed.

(** The trace of propagations after the node at [a] has moved its cursor. *)
Lemma prop_ok_advance (from : option addr) st (a : addr) n (s c : Z) :
  prop_ok from st ->
  heap st !! a = Some n -> finished n = false -> evaluated n = true ->
  (forall c0, from = Some c0 ->
     exists n0, heap st !! c0 = Some n0 /\ finished n0 = true /\
                parent n0 = Some a /\ s = score n0) ->
  prop_ok (if (size n <=? c) && negb (is_root n) then Some a else None)
    (store (log_call st {| caller := from; callee := a; additional_score := s |})
       a (with_next (with_score n (wrap64 (score n + s))) c)).
Proof.
  intros Hprop Hn Hfin Hev Hfrom.
  destruct Hprop as [Hlp Honce Hpend Hall Hlink Hlast].
  assert (Hlt : (a < length (heap st))%nat) by (by apply lookup_lt_Some in Hn).
  assert (Hnota : a ∉ propagators (calls st)).
  { intros Hin. apply elem_of_propagators in Hin. destruct Hin as (c1 & Hc1 & Hca).
    destruct (Hlp c1 Hc1 a Hca) as (n1 & Hn1 & Hf1 & _). congruence. }
  constructor; simpl.
  - intros c1 Hc1 b Hcb. apply elem_of_app in Hc1. destruct Hc1 as [Hc1 | Hc1].
    + destruct (Hlp c1 Hc1 b Hcb) as (nb & Hnb & Hfb & Hpb & Hsb).
      exists nb. split; [| auto].
      rewrite list_lookup_insert_ne; [exact Hnb | congruence].
    + apply list_elem_of_singleton in Hc1. subst c1. simpl in *.
      destruct (Hfrom b Hcb) as (n0 & Hn0 & Hf0 & Hp0 & Hs0).
      exists n0. split; [| auto].
      rewrite list_lookup_insert_ne; [exact Hn0 | congruence].
  - rewrite propagators_app. apply NoDup_app. split; [exact Honce |].
    split; [| unfold propagators; simpl; destruct from; constructor;
              [apply not_elem_of_nil | constructor]].
    intros b Hb Hb'. unfold propagators in Hb'. simpl in Hb'.
    destruct from as [c0 |]; [| by apply elem_of_nil in Hb'].
    apply list_elem_of_singleton in Hb'. subst b. by apply (Hpend c0).
  - intros b Hb. destruct ((size n <=? c) && negb (is_root n)); [| discriminate].
    inversion Hb; subst b. rewrite propagators_app. intros Hin.
    apply elem_of_app in Hin. destruct Hin as [Hin | Hin]; [contradiction |].
    unfold propagators in Hin. simpl in Hin.
    destruct from as [c0 |]; [| by apply elem_of_nil in Hin].
    apply list_elem_of_singleton in Hin. subst c0.
    destruct (Hfrom a eq_refl) as (n0 & Hn0 & Hf0 & _). congruence.
  - intros b nb Hb Hfb Hpb Hnpend. rewrite propagators_app.
    destruct (decide (b = a)) as [-> | Hne].
    + rewrite list_lookup_insert_eq in Hb by exact Hlt. inversion Hb; subst nb.
      rewrite finished_advance in Hfb by exact Hev. simpl in Hpb.
      exfalso. apply Hnpend. rewrite Hfb. unfold is_root.
      destruct (parent n); [reflexivity | contradiction].
    + rewrite list_lookup_insert_ne in Hb by congruence.
      destruct (decide (from = Some b)) as [-> | Hfb'].
      * apply elem_of_app. right. unfold propagators. simpl. by left.
      * apply elem_of_app. left. by apply (Hall b nb).
  - intros i c1 b Hi Hb. apply lookup_app_Some in Hi.
    destruct Hi as [Hi | [Hle Hi]].
    + destruct (Hlink i c1 b Hi Hb) as (j & c' & -> & Hj & Hc').
      exists j, c'. split; [reflexivity |]. split; [| exact Hc'].
      by apply lookup_app_l_Some.
    + apply list_lookup_singleton_Some in Hi. destruct Hi as [Hi <-].
      simpl in Hb. destruct (Hlast b Hb) as (c' & Hc' & Hb').
      rewrite last_lookup in Hc'.
      assert (Hpos : (0 < length (calls st))%nat).
      { destruct (calls st); [discriminate | simpl; lia]. }
      exists (pred (length (calls st))), c'. split; [lia |].
      split; [by apply lookup_app_l_Some | exact Hb'].
  - intros b Hb. destruct ((size n <=? c) && negb (is_root n)); [| discriminate].
    inversion Hb; subst b. eexists. split; [apply last_snoc | reflexivity].
Qed.

Lemma score_weight_live n : finished n = false -> score_weight n = score n.
Proof. unfold score_weight. intros ->. by rewrite orb_true_r. Qed.

Lemma repeat_weight_live n :
  evaluated n = true -> finished n = false -> repeat_weight n = passed n.
Proof. unfold repeat_weight. intros -> ->. by rewrite orb_true_r. Qed.

Lemma score_weight_advance n (s c : Z) :
  evaluated n = true ->
  score_weight (with_next (with_score n s) c)
  = if (size n <=? c) && negb (is_root n) then 0 else s.
Proof.
  intros Hev. unfold score_weight. rewrite finished_advance by exact Hev.
  unfold is_root. simpl. destruct (parent n), (size n <=? c); reflexivity.
Qed.

Lemma repeat_weight_advance n (s c : Z) :
  evaluated n = true ->
  repeat_weight (with_next (with_score n s) c)
  = if (size n <=? c) && negb (is_root n) then 0
    else passed (with_next (with_score n s) c).
Proof.
  intros Hev. unfold repeat_weight. rewrite finished_advance by exact Hev.
  unfold is_root. simpl. rewrite Hev.
  destruct (parent n), (size n <=? c); reflexivity.
Qed.

End Accounting.


Section Backpropagation.
Context {F : Type} `{Arith F}.
Context {Rng : Type} `{Sampler F Rng}.
Context {E : Type} `{Environment F E}.
Context {Pos : Type} `{!Deterministic Pos}.

Implicit Types (n : Pi_struct F) (h : list (Pi_struct F)) (st : Store F Rng).

Lemma driver_calls_single (from : option addr) (a : addr) (s : Z) :
  driver_calls [{| caller := from; callee := a; additional_score := s |}]
  = match from with
    | None => [{| caller := None; callee := a; additional_score := s |}]
    | Some _ => []
    end.
Proof.
  unfold driver_calls. destruct from; reflexivity.
Qed.

Lemma key_in_range n (act : Z) (c : addr) :
  node_ok n -> evaluated n = true -> (act, c) ∈ children n ->
  0 <= act < size n.
Proof.
  intros Hok Hev Hin.
  destruct (ok_eval n Hok Hev) as (r & v & _ & _ & _ & _ & _ & _ & Hkeys & _).
  assert (Hk : act ∈ (children n).*1)
    by (apply list_elem_of_fmap; by exists (act, c)).
  rewrite Hkeys in Hk. apply elem_of_budgeted in Hk. destruct Hk as [Hk _].
  apply elem_of_seqZ in Hk. lia.
Qed.

Lemma keys_NoDup n :
  node_ok n -> evaluated n = true -> NoDup (children n).*1.
Proof.
  intros Hok Hev.
  destruct (ok_eval n Hok Hev) as (r & v & _ & _ & _ & _ & _ & _ & -> & _).
  unfold budgeted. apply NoDup_filter, NoDup_seqZ.
Qed.

(** [set_next] along the chain of parents, started at a node in progress
    whose child at the cursor is done with. *)
Lemma set_next_chain (pm : addr -> Pos) (rs : Z) (d : nat) :
  forall st (a : addr) (from : option addr) (s : Z) n (r : list Z)
         (res : Z) st',
    heap_ok pm rs None from (heap st) -> prop_ok from st ->
    heap st !! a = Some n -> evaluated n = true -> next n < size n ->
    nrepeats n = Some r ->
    (forall c0, from = Some c0 ->
       exists n0, heap st !! c0 = Some n0 /\ finished n0 = true /\
                  parent n0 = Some a /\ s = score n0) ->
    (forall b nb, heap st !! b = Some nb -> (next n, b) ∈ children n ->
                  evaluated nb = true -> finished nb = true) ->
    (a <> 0%nat -> exists r0, heap st !! 0%nat = Some r0 /\ finished r0 = false) ->
    set_next d st a from s = Ret (res, st') ->
    heap_ok pm rs None None (heap st') /\ prop_ok None st' /\
    grows (heap st) (heap st') /\
    length (heap st') = length (heap st) /\
    rng st' = rng st /\ traversals st' = traversals st /\
    driver_calls (calls st')
    = driver_calls (calls st)
      ++ match from with
         | None => [{| caller := None; callee := a; additional_score := s |}]
         | Some _ => []
         end /\
    wrap64 (phi_score (heap st')) = wrap64 (phi_score (heap st) + s) /\
    phi_repeat (heap st') = phi_repeat (heap st) + nth (Z.to_nat (next n)) r 0 /\
    exists r0', heap st' !! 0%nat = Some r0' /\ (finished r0' = true <-> res < 0).
Proof.
  induction d as [| d IH];
    intros st a from s n r res st' Hheap Hprop Hn Hev Hlive Hr Hfrom Hdone Hroot Hrun;
    [discriminate |].
  destruct (Hheap a n Hn) as (Hokn & Hlinkn & Hkidsn).
  destruct (set_next_unfold d st a from s n Hn Hokn Hev Hlive)
    as (r' & v & c & Hr' & Hv & Hnc & Hcs & Hpast & Hact & Heq).
  rewrite Hr in Hr'. inversion Hr'; subst r'. clear Hr'.
  rewrite Heq in Hrun. clear Heq. cbv zeta in Hrun.
  set (n' := with_next (with_score n (wrap64 (score n + s))) c) in *.
  set (st1 := store _ a n') in *.
  assert (Hfin : finished n = false) by (by apply finished_false_live_conv).
  assert (Hlt : (a < length (heap st))%nat) by (by apply lookup_lt_Some in Hn).
  assert (Hh1 : heap st1 = <[a := n']> (heap st)) by reflexivity.
  assert (Hn1 : heap st1 !! a = Some n')
    by (rewrite Hh1; by apply list_lookup_insert_eq).
  assert (Hheap1' : heap_ok pm rs None
            (if (size n <=? c) && negb (is_root n) then Some a else None)
            (heap st1)).
  { rewrite Hh1. unfold n'.
    apply (heap_ok_advance pm rs from (heap st) a n r v (wrap64 (score n + s)) c);
      try assumption.
    intros c0 Hc0. destruct (Hfrom c0 Hc0) as (n0 & Hn0 & _ & Hp0 & _). eauto. }
  pose proof (prop_ok_advance from st a n s c Hprop Hn Hfin Hev Hfrom) as Hprop1.
  fold n' in Hprop1. fold st1 in Hprop1.
  assert (Hgrow1 : grows (heap st) (heap st1))
    by (rewrite Hh1; by apply grows_advance).
  assert (Hlen1 : length (heap st1) = length (heap st))
    by (rewrite Hh1; apply length_insert).
  assert (Hdrv1 : driver_calls (calls st1)
            = driver_calls (calls st)
              ++ match from with
                 | None => [{| caller := None; callee := a; additional_score := s |}]
                 | Some _ => []
                 end).
  { unfold st1. simpl. by rewrite driver_calls_app, driver_calls_single. }
  assert (Hps1 : phi_score (heap st1)
            = phi_score (heap st) - score n
              + (if (size n <=? c) && negb (is_root n) then 0
                 else wrap64 (score n + s))).
  { rewrite Hh1. unfold phi_score. rewrite (zsum_map_insert _ _ _ n) by exact Hn.
    rewrite score_weight_live by exact Hfin. unfold n'.
    by rewrite score_weight_advance. }
  assert (Hpassed : passed n' = passed n + nth (Z.to_nat (next n)) r 0)
    by (by apply (passed_advance n r v)).
  assert (Hpr1 : phi_repeat (heap st1)
            = phi_repeat (heap st) - passed n
              + (if (size n <=? c) && negb (is_root n) then 0
                 else passed n + nth (Z.to_nat (next n)) r 0)).
  { rewrite Hh1. unfold phi_repeat. rewrite (zsum_map_insert _ _ _ n) by exact Hn.
    rewrite repeat_weight_live by assumption. unfold n'.
    rewrite repeat_weight_advance by exact Hev. fold n'. by rewrite Hpassed. }
  assert (Hroot1 : a <> 0%nat ->
            exists r0, heap st1 !! 0%nat = Some r0 /\ finished r0 = false).
  { intros Ha. destruct (Hroot Ha) as (r0 & Hr0 & Hf0). exists r0.
    split; [| exact Hf0]. rewrite Hh1. by rewrite list_lookup_insert_ne. }
  destruct (c <? size n) eqn:Ec.
  - (* the node is still in progress *)
    apply Z.ltb_lt in Ec. inversion Hrun; subst res st'. clear Hrun.
    assert (Ele : (size n <=? c) = false) by (apply Z.leb_gt; lia).
    rewrite Ele in Hheap1', Hprop1, Hps1, Hpr1.
    cbn [andb] in Hheap1', Hprop1, Hps1, Hpr1.
    split; [exact Hheap1' |]. split; [exact Hprop1 |]. split; [exact Hgrow1 |].
    split; [exact Hlen1 |]. split; [reflexivity |]. split; [reflexivity |].
    split; [exact Hdrv1 |].
    split; [destruct (wrap64_spec (score n + s)) as [k Hk];
            apply (wrap64_congr _ _ k); lia |].
    split; [lia |].
    destruct (decide (a = 0%nat)) as [-> | Ha].
    + exists n'. split; [exact Hn1 |]. unfold n'. rewrite finished_advance by exact Hev.
      rewrite Ele. pose proof (ok_next n Hokn). split; [discriminate | lia].
    + destruct (Hroot1 Ha) as (r0 & Hr0 & Hf0). exists r0. split; [exact Hr0 |].
      rewrite Hf0. pose proof (ok_next n Hokn). split; [discriminate | lia].
  - apply Z.ltb_ge in Ec. assert (c = size n) by lia. subst c.
    assert (Ele : (size n <=? size n) = true) by (apply Z.leb_le; lia).
    rewrite Ele in Hheap1', Hprop1, Hps1, Hpr1.
    assert (Hfin' : finished n' = true)
      by (unfold n'; rewrite finished_advance by exact Hev; exact Ele).
    unfold link_ok in Hlinkn. unfold is_root in Hheap1', Hprop1, Hps1, Hpr1.
    destruct (parent n) as [p |] eqn:Hp.
    + (* the node is finished: its score goes to the parent *)
      cbn [andb negb] in Hheap1', Hprop1, Hps1, Hpr1.
      destruct Hlinkn as (Ha0 & pn & act & rp & Hpa & Hpn & Hevp & Hrp & Hin & Hlev
                          & Hrep & Hsz & Hpm & Hst & Hvis).
      destruct (Hvis (or_introl Hev)) as (_ & _ & Hcur). rewrite Hfin in Hcur.
      destruct (Hheap p pn Hpn) as (Hokp & _ & _).
      pose proof (key_in_range pn act a Hokp Hevp Hin) as Hactr.
      assert (Hpn1 : heap st1 !! p = Some pn)
        by (rewrite Hh1; rewrite list_lookup_insert_ne by lia; exact Hpn).
      specialize (IH st1 p (Some a) (wrap64 (score n + s)) pn rp res st' Hheap1' Hprop1
                    Hpn1 Hevp ltac:(lia) Hrp).
      destruct IH as (Hheap' & Hprop' & Hgrow' & Hlen' & Hrng' & Htr' & Hdrv' & Hps'
                      & Hpr' & Hroot').
      * intros c0 Hc0. inversion Hc0; subst c0. exists n'.
        split; [exact Hn1 |]. split; [exact Hfin' |]. split; [exact Hp | reflexivity].
      * intros b nb Hb Hinb Hevb. rewrite Hcur in Hinb.
        assert (b = a) by (eapply fst_unique; eauto using keys_NoDup).
        subst b. pose proof (eq_trans (eq_sym Hn1) Hb) as Hq.
        inversion Hq; subst nb. exact Hfin'.
      * intros _. apply Hroot1. exact Ha0.
      * exact Hrun.
      * split; [exact Hheap' |]. split; [exact Hprop' |].
        split; [by apply (grows_trans _ (heap st1)) |].
        split; [lia |]. split; [by rewrite Hrng' |]. split; [by rewrite Htr' |].
        split; [by rewrite Hdrv', app_nil_r |].
        split; [rewrite Hps'; destruct (wrap64_spec (score n + s)) as [k Hk];
                apply (wrap64_congr _ _ k); lia |].
        split; [| exact Hroot'].
        assert (Hokn' : node_ok n').
        { apply (node_ok_advance n r v); auto; lia. }
        pose proof (passed_finished n' r v Hokn' Hr Hv Hfin') as Hpf.
        simpl in Hpf. rewrite Hcur in Hpr'. lia.
    + (* the root is finished *)
      cbn [andb negb] in Hheap1', Hprop1, Hps1, Hpr1. subst a.
      inversion Hrun; subst res st'. clear Hrun.
      split; [exact Hheap1' |]. split; [exact Hprop1 |]. split; [exact Hgrow1 |].
      split; [exact Hlen1 |]. split; [reflexivity |]. split; [reflexivity |].
      split; [exact Hdrv1 |].
    split; [destruct (wrap64_spec (score n + s)) as [k Hk];
            apply (wrap64_congr _ _ k); lia |].
    split; [lia |].
      exists n'. split; [exact Hn1 |]. rewrite Hfin'. split; [lia | reflexivity].
Qed.

End Backpropagation.


Section Transport.
Context {F : Type} `{Arith F}.
Context {Rng : Type} `{Sampler F Rng}.
Context {E : Type} `{Environment F E}.
Context {Pos : Type} `{!Deterministic Pos}.

Implicit Types (n : Pi_struct F) (h : list (Pi_struct F)) (st : Store F Rng).

(** The trace invariants only look at the finished nodes, and at the level
    of the expanded ones: they survive every change of the heap that
    leaves those alone and finishes no node. *)
Lemma prop_ok_grows st st' :
  prop_ok None st -> grows (heap st) (heap st') -> calls st' = calls st ->
  (forall b nb', heap st' !! b = Some nb' -> finished nb' = true ->
                 exists nb, heap st !! b = Some nb /\ finished nb = true) ->
  prop_ok None st'.
Proof.
  intros [Hlp Honce Hpend Hall Hlink Hlast] Hgrow Hcalls Hnew.
  constructor; rewrite Hcalls; [| | | | exact Hlink | intros a Ha; discriminate].
  - intros c Hc a Hca. destruct (Hlp c Hc a Hca) as (n & Hn & Hf & Hp & Hs).
    destruct (Hgrow a n Hn) as (n' & Hn' & _ & _ & _ & _ & _ & Hsame).
    rewrite (Hsame Hf) in Hn'. eauto.
  - exact Honce.
  - intros a Ha. discriminate.
  - intros a n' Hn' Hf Hp _. destruct (Hnew a n' Hn' Hf) as (n & Hn & Hfn).
    destruct (Hgrow a n Hn) as (n2 & Hn2 & _ & _ & _ & _ & _ & Hsame).
    pose proof (eq_trans (eq_sym Hn2) Hn') as Hq. inversion Hq; subst n2.
    rewrite (Hsame Hfn) in Hp. by apply (Hall a n).
Qed.

Lemma acct_ok_grows st st' :
  acct_ok st -> grows (heap st) (heap st') ->
  calls st' = calls st -> traversals st' = traversals st ->
  phi_score (heap st') = phi_score (heap st) ->
  phi_repeat (heap st') = phi_repeat (heap st) ->
  acct_ok st'.
Proof.
  intros [Hs Hr Hd Hv] Hgrow Hcalls Htr Hps Hpr.
  constructor; rewrite ?Hcalls, ?Htr; try congruence.
  eapply Forall_impl; [exact Hv |]. simpl.
  intros t (Hrep & n & Hn & Hev & Hl & Ha & r & Hnr & Hra). split; [exact Hrep |].
  destruct (Hgrow _ n Hn) as (n' & Hn' & Hev' & Hl' & _).
  destruct (Hev' Hev) as [He' Hnr']. exists n'.
  split; [exact Hn' |]. split; [exact He' |]. split; [congruence |].
  split; [exact Ha |]. exists r. split; [congruence | exact Hra].
Qed.

Lemma phi_score_app h1 h2 : phi_score (h1 ++ h2) = phi_score h1 + phi_score h2.
Proof. unfold phi_score. by rewrite map_app, zsum_app. Qed.

Lemma phi_repeat_app h1 h2 : phi_repeat (h1 ++ h2) = phi_repeat h1 + phi_repeat h2.
Proof. unfold phi_repeat. by rewrite map_app, zsum_app. Qed.

Lemma phi_fresh_children n (self : addr) (r : list Z) (idx : list Z) :
  phi_score (map (child_of n self r) idx) = 0 /\
  phi_repeat (map (child_of n self r) idx) = 0.
Proof.
  unfold phi_score, phi_repeat. rewrite !map_map.
  split; apply zsum_map_zero, Forall_forall; intros i _; reflexivity.
Qed.

(** Weakening of the current node and of the pending node. *)
Lemma heap_ok_no_front (pm : addr -> Pos) (rs : Z) (front : option addr) h :
  heap_ok pm rs front None h -> heap_ok pm rs None None h.
Proof.
  intros Hheap a n Hn. destruct (Hheap a n Hn) as (Hok & Hlink & Hkids).
  split; [exact Hok |]. split; [| exact Hkids].
  unfold link_ok in *. destruct (parent n) as [p |]; [| exact Hlink].
  destruct Hlink as (Ha0 & pn & act & rp & Hrest). split; [exact Ha0 |].
  exists pn, act, rp.
  destruct Hrest as (? & ? & ? & ? & ? & ? & ? & ? & ? & ? & Hvis).
  do 10 (split; [assumption |]). intros [Hev | Hfr]; [| discriminate].
  apply Hvis. by left.
Qed.

Lemma heap_ok_front_root (pm : addr -> Pos) (rs : Z) h :
  heap_ok pm rs None None h -> heap_ok pm rs (Some 0%nat) None h.
Proof.
  intros Hheap a n Hn. destruct (Hheap a n Hn) as (Hok & Hlink & Hkids).
  split; [exact Hok |]. split; [| exact Hkids].
  unfold link_ok in *. destruct (parent n) as [p |]; [| exact Hlink].
  destruct Hlink as (Ha0 & pn & act & rp & Hrest). split; [exact Ha0 |].
  exists pn, act, rp.
  destruct Hrest as (? & ? & ? & ? & ? & ? & ? & ? & ? & ? & Hvis).
  do 10 (split; [assumption |]). intros [Hev | Hfr]; [| congruence].
  apply Hvis. by left.
Qed.

End Transport.


Section Expand.
Context {F : Type} `{Arith F}.
Context {Rng : Type} `{Sampler F Rng}.
Context {E : Type} `{Environment F E}.
Context {Pos : Type} `{!Deterministic Pos}.

Implicit Types (n : Pi_struct F) (h : list (Pi_struct F)) (st : Store F Rng).

Lemma expand_shape st (cur : addr) (cn : Pi_struct F) (fuel : nat)
    (counts : list F) st1 (i : Z) st2 :
  node_ok cn -> heap st !! cur = Some cn -> evaluated cn = false ->
  add_counts fuel st cur counts = Ret st1 ->
  get_next st1 cur = Ret (i, st2) -> 0 <= i ->
  exists (v : list bool) (pi : list F) (r : list Z),
    isValid cn = Some v /\ 0 < size cn /\
    length r = Z.to_nat (size cn) /\ length v = Z.to_nat (size cn) /\
    Forall (fun x => 0 <= x) r /\ valid_budget r v = repeat cn /\
    (forall j, 0 <= j < i -> ~ actionable r v j) /\
    actionable r v i /\ i < size cn /\
    heap st2 = <[cur := expanded_node cn (length (heap st)) pi r i]> (heap st)
               ++ map (child_of cn cur r) (budgeted r (seqZ 0 (size cn))) /\
    calls st2 = calls st /\ traversals st2 = traversals st.
Proof.
  intros Hok Hcn Hev Hadd Hget Hi.
  destruct (ok_fresh cn Hok Hev) as (Hscore & Hnext & Hkids).
  destruct (add_counts_inv fuel st st1 cur counts cn Hcn Hkids Hadd)
    as (v & pi & action & g & r & rv & Hv & _ & _ & Hr & Hsize & Hrv & Hsum & ->).
  assert (Hlr : length r = Z.to_nat (size cn)) by (by rewrite Hr, histogram_length).
  assert (Hlv : length v = Z.to_nat (size cn)) by (by apply (ok_mask cn Hok)).
  rewrite np_zip_same_length in Hrv by lia. inversion Hrv; subst rv. clear Hrv.
  assert (Hlt : (cur < length (heap st))%nat) by (by apply lookup_lt_Some in Hcn).
  set (n1 := with_evaluated
               (with_children (with_nrepeats (with_Pi cn (Some pi)) (Some r))
                  (child_entries r (seqZ 0 (size cn)) (length (heap st))))
               true) in *.
  unfold get_next, load in Hget. simpl in Hget.
  rewrite lookup_app_l in Hget by (rewrite length_insert; exact Hlt).
  rewrite list_lookup_insert_eq in Hget by exact Hlt. simpl in Hget.
  destruct (get_next_node_spec n1 r v) as (i' & c & Hrun & Hnc & Hpast & Hres);
    try reflexivity; try assumption; [simpl; lia |].
  rewrite Hrun in Hget. simpl in Hget. inversion Hget; subst i' st2. clear Hget.
  simpl in Hnc, Hpast, Hres. rewrite Hnext in Hnc, Hpast, Hres.
  destruct Hres as [(-> & Hclt & Hact) | (-> & _)]; [| lia].
  exists v, pi, r. do 4 (split; [assumption |]).
  split; [rewrite Hr; apply histogram_nonneg |].
  split; [unfold valid_budget; congruence |].
  split; [exact Hpast |]. split; [exact Hact |]. split; [exact Hclt |].
  split; [| split; reflexivity].
  unfold store, with_heap. simpl.
  rewrite insert_app_l by (rewrite length_insert; exact Hlt).
  by rewrite list_insert_insert_eq.
Qed.

End Expand.


Section ExpandHeap.
Context {F : Type} `{Arith F}.
Context {Rng : Type} `{Sampler F Rng}.
Context {E : Type} `{Environment F E}.
Context {Pos : Type} `{!Deterministic Pos}.

Implicit Types (n : Pi_struct F) (h : list (Pi_struct F)) (st : Store F Rng).

Lemma lookup_expanded h (cur : addr) n2 (kids : list (Pi_struct F)) (b : addr) nb :
  (cur < length h)%nat ->
  (<[cur := n2]> h ++ kids) !! b = Some nb ->
  ((b < length h)%nat /\ b <> cur /\ h !! b = Some nb) \/
  (b = cur /\ nb = n2) \/
  (exists k, b = (length h + k)%nat /\ kids !! k = Some nb).
Proof.
  intros Hlt Hb. destruct (decide (b < length h)%nat) as [Hbl | Hbl].
  - rewrite lookup_app_l in Hb by (by rewrite length_insert).
    destruct (decide (b = cur)) as [-> | Hne].
    + rewrite list_lookup_insert_eq in Hb by exact Hlt. inversion Hb. auto.
    + rewrite list_lookup_insert_ne in Hb by congruence. auto.
  - rewrite lookup_app_r in Hb by (rewrite length_insert; lia).
    rewrite length_insert in Hb. right. right. exists (b - length h)%nat.
    split; [lia | exact Hb].
Qed.

Lemma lookup_expanded_old h (cur : addr) n2 (kids : list (Pi_struct F)) (b : addr) nb :
  h !! b = Some nb -> b <> cur ->
  (<[cur := n2]> h ++ kids) !! b = Some nb.
Proof.
  intros Hb Hne. rewrite lookup_app_l
    by (rewrite length_insert; by apply lookup_lt_Some in Hb).
  by rewrite list_lookup_insert_ne.
Qed.

Lemma lookup_expanded_cur h (cur : addr) n2 (kids : list (Pi_struct F)) :
  (cur < length h)%nat -> (<[cur := n2]> h ++ kids) !! cur = Some n2.
Proof.
  intros Hlt. rewrite lookup_app_l by (by rewrite length_insert).
  by apply list_lookup_insert_eq.
Qed.

Lemma child_entries_elem (r : list Z) (idx : list Z) (base k : nat) (act : Z) :
  budgeted r idx !! k = Some act ->
  (act, (base + k)%nat) ∈ child_entries r idx base.
Proof.
  intros Hk. unfold child_entries. apply list_elem_of_lookup. exists k.
  apply lookup_zip_with_Some. exists act, (base + k)%nat.
  split; [reflexivity |]. split; [exact Hk |]. apply lookup_seq.
  split; [reflexivity |]. by apply lookup_lt_Some in Hk.
Qed.

Lemma child_entries_values_NoDup (r : list Z) (idx : list Z) (base : nat) :
  NoDup (child_entries r idx base).*2.
Proof.
  unfold child_entries. rewrite snd_zip by (by rewrite length_seq).
  apply NoDup_seq.
Qed.

(** The heap invariant after the expansion of the current node. *)
Lemma heap_ok_expand (pm : addr -> Pos) (rs : Z) h (cur : addr)
    (cn : Pi_struct F) (v : list bool) (pi : list F) (r : list Z) (i : Z) :
  heap_ok pm rs (Some cur) None h ->
  h !! cur = Some cn -> evaluated cn = false ->
  isValid cn = Some v -> 0 < size cn ->
  length r = Z.to_nat (size cn) -> length v = Z.to_nat (size cn) ->
  Forall (fun x => 0 <= x) r -> valid_budget r v = repeat cn ->
  actionable r v i -> i < size cn ->
  heap_ok
    (extend_positions pm (length h) (nextpos (pm cur))
       (budgeted r (seqZ 0 (size cn))))
    rs (Some cur) None
    (<[cur := expanded_node cn (length h) pi r i]> h
     ++ map (child_of cn cur r) (budgeted r (seqZ 0 (size cn)))).
Proof.
  intros Hheap Hcn Hev Hv Hsz Hlr Hlv Hpos Hbud Hact Hilt.
  set (P := budgeted r (seqZ 0 (size cn))).
  set (n2 := expanded_node cn (length h) pi r i).
  set (pm' := extend_positions pm (length h) (nextpos (pm cur)) P).
  assert (Hlt : (cur < length h)%nat) by (by apply lookup_lt_Some in Hcn).
  destruct (Hheap cur cn Hcn) as (Hokc & Hlinkc & Hkidsc).
  destruct (ok_fresh cn Hokc Hev) as (Hscore & Hnext & Hkids).
  assert (Hpm_old : forall a, (a < length h)%nat -> pm' a = pm a).
  { intros a Ha. unfold pm', extend_positions.
    destruct (decide (a < length h)%nat); [reflexivity | lia]. }
  assert (Hparent_old : forall b nb p pn,
            h !! b = Some nb -> parent nb = Some p -> h !! p = Some pn ->
            evaluated pn = true -> p <> cur).
  { intros b nb p pn _ _ Hpn Hevp ->.
    pose proof (eq_trans (eq_sym Hcn) Hpn) as Hq. inversion Hq; subst. congruence. }
  intros b nb Hb.
  apply lookup_expanded in Hb; [| exact Hlt].
  destruct Hb as [(Hbl & Hne & Hb) | [(-> & ->) | (k & -> & Hk)]].
  - (* a node that was there before *)
    destruct (Hheap b nb Hb) as (Hokb & Hlinkb & Hkidsb).
    split; [exact Hokb |]. split.
    + unfold link_ok in *. destruct (parent nb) as [p |] eqn:Hp; [| exact Hlinkb].
      destruct Hlinkb as (Hb0 & pn & act & rp & Hpb & Hpn & Hevp & Hrest).
      split; [exact Hb0 |]. exists pn, act, rp. split; [exact Hpb |].
      assert (Hpc : p <> cur) by (exact (Hparent_old b nb p pn Hb Hp Hpn Hevp)).
      split; [by apply lookup_expanded_old |]. split; [exact Hevp |].
      rewrite !Hpm_old by lia. exact Hrest.
    + intros act c Hin. destruct (Hkidsb act c Hin) as (ccn & Hccn & Hpc).
      destruct (decide (c = cur)) as [-> | Hc].
      * exists n2. split; [by apply lookup_expanded_cur |].
        pose proof (eq_trans (eq_sym Hcn) Hccn) as Hq. inversion Hq; subst ccn.
        exact Hpc.
      * exists ccn. split; [by apply lookup_expanded_old | exact Hpc].
  - (* the expanded node *)
    split; [| split].
    + constructor; simpl.
      * destruct Hact as [? _]. lia.
      * discriminate.
      * apply (ok_mask cn Hokc).
      * intros _. exists r, v. split; [reflexivity |]. split; [exact Hv |].
        split; [exact Hsz |]. split; [exact Hlr |]. split; [exact Hpos |].
        split; [exact Hbud |]. split; [apply child_entries_keys |].
        split; [apply child_entries_values_NoDup |]. split; [lia |].
        intros _. exact Hact.
    + unfold link_ok in *. simpl. destruct (parent cn) as [p |] eqn:Hp; [| exact Hlinkc].
      destruct Hlinkc as (Hc0 & pn & act & rp & Hpc & Hpn & Hevp & Hrp & Hin & Hlev
                          & Hrep & Hsize & Hpm & Hst & Hvis).
      split; [exact Hc0 |]. exists pn, act, rp. split; [exact Hpc |].
      split; [apply lookup_expanded_old; [exact Hpn | lia] |].
      do 6 (split; [assumption |]).
      rewrite !Hpm_old by lia. split; [exact Hpm |]. split.
      * intros _. specialize (Hst ltac:(congruence)).
        apply add_state_node_fixed. apply add_state_node_fixed in Hst. exact Hst.
      * intros _. destruct (Hvis (or_intror eq_refl)) as (Hterm & Hrs & Hcur).
        split; [exact Hterm |]. split; [exact Hrs |].
        rewrite (finished_unevaluated cn Hev) in Hcur.
        assert (Hf2 : finished n2 = false).
        { unfold finished, n2. simpl. apply Z.leb_gt. exact Hilt. }
        fold n2. rewrite Hf2. exact Hcur.
    + intros act c Hin. simpl in Hin. apply child_entries_lookup in Hin.
      destruct Hin as (k & Hk & ->). exists (child_of cn cur r act).
      split; [| reflexivity].
      rewrite lookup_app_r by (rewrite length_insert; lia). rewrite length_insert.
      replace (length h + k - length h)%nat with k by lia.
      change (map ?g ?l) with (g <$> l). rewrite list_lookup_fmap.
      fold P in Hk. by rewrite Hk.
  - (* a new child *)
    change (map ?g ?l) with (g <$> l) in Hk. rewrite list_lookup_fmap in Hk.
    destruct (P !! k) as [act |] eqn:HPk; [| discriminate]. simpl in Hk.
    inversion Hk; subst nb. clear Hk.
    split; [| split].
    + constructor; simpl; try discriminate; try lia. auto.
    + unfold link_ok. simpl. split; [lia |]. exists n2, act, r.
      split; [lia |]. split; [by apply lookup_expanded_cur |].
      split; [reflexivity |]. split; [reflexivity |].
      split; [simpl; by apply child_entries_elem |].
      split; [reflexivity |]. split; [reflexivity |]. split; [reflexivity |].
      split.
      * rewrite (Hpm_old cur) by exact Hlt. unfold pm', extend_positions.
        destruct (decide (length h + k < length h)%nat); [lia |].
        replace (length h + k - length h)%nat with k by lia.
        by rewrite (nth_lookup_Some _ _ _ _ HPk).
      * split; [intros Hiv; by destruct Hiv |].
        intros [Hevb | Hfr]; [discriminate |]. inversion Hfr. lia.
    + intros act' c Hin. simpl in Hin. by apply elem_of_nil in Hin.
Qed.

Lemma expand_accounts h (cur : addr) (cn : Pi_struct F) (v : list bool)
    (pi : list F) (r : list Z) (i : Z) :
  node_ok cn -> h !! cur = Some cn -> evaluated cn = false ->
  isValid cn = Some v ->
  length r = Z.to_nat (size cn) -> length v = Z.to_nat (size cn) ->
  Forall (fun x => 0 <= x) r ->
  (forall j, 0 <= j < i -> ~ actionable r v j) -> 0 <= i -> i < size cn ->
  let h2 := <[cur := expanded_node cn (length h) pi r i]> h
            ++ map (child_of cn cur r) (budgeted r (seqZ 0 (size cn))) in
  grows h h2 /\
  (forall b nb', h2 !! b = Some nb' -> finished nb' = true ->
                 exists nb, h !! b = Some nb /\ finished nb = true) /\
  phi_score h2 = phi_score h /\ phi_repeat h2 = phi_repeat h.
Proof.
  intros Hok Hcn Hev Hv Hlr Hlv Hpos Hpast Hi Hilt h2.
  set (n2 := expanded_node cn (length h) pi r i) in *.
  assert (Hlt : (cur < length h)%nat) by (by apply lookup_lt_Some in Hcn).
  destruct (ok_fresh cn Hok Hev) as (Hscore & Hnext & Hkids).
  assert (Hf2 : finished n2 = false).
  { unfold finished, n2. simpl. apply Z.leb_gt. exact Hilt. }
  split; [| split; [| split]].
  - intros b nb Hb. destruct (decide (b = cur)) as [-> | Hne].
    + pose proof (eq_trans (eq_sym Hcn) Hb) as Hq. inversion Hq; subst nb.
      exists n2. split; [by apply lookup_expanded_cur |].
      split; [congruence |]. do 4 (split; [reflexivity |]).
      rewrite (finished_unevaluated cn Hev). discriminate.
    + exists nb. split; [by apply lookup_expanded_old |]. auto 10.
  - intros b nb' Hb Hfin. apply lookup_expanded in Hb; [| exact Hlt].
    destruct Hb as [(Hbl & Hne & Hb) | [(-> & ->) | (k & -> & Hk)]].
    + eauto.
    + congruence.
    + change (map ?g ?l) with (g <$> l) in Hk. rewrite list_lookup_fmap in Hk.
      destruct (_ !! k); [| discriminate]. simpl in Hk. inversion Hk; subst nb'.
      discriminate.
  - unfold h2. rewrite phi_score_app.
    rewrite (proj1 (phi_fresh_children cn cur r _)).
    unfold phi_score. rewrite (zsum_map_insert _ _ _ cn) by exact Hcn.
    rewrite !score_weight_live by (exact Hf2 || by apply finished_unevaluated).
    unfold n2. simpl. lia.
  - unfold h2. rewrite phi_repeat_app.
    rewrite (proj2 (phi_fresh_children cn cur r _)).
    unfold phi_repeat. rewrite (zsum_map_insert _ _ _ cn) by exact Hcn.
    rewrite (repeat_weight_live n2) by (exact Hf2 || reflexivity).
    assert (Hw : repeat_weight cn = 0) by (unfold repeat_weight; by rewrite Hev).
    rewrite Hw.
    assert (Hp2 : passed n2 = 0).
    { unfold passed, masked, n2. simpl. rewrite Hv.
      set (m := zip_with (fun x b => x * Z.b2z b) r v).
      rewrite (zsum_take_zeros m 0 (Z.to_nat i)); [reflexivity | lia | |].
      - unfold m. rewrite length_zip_with. lia.
      - intros j Hj. apply masked_nth; [exact Hpos | lia | lia |].
        apply Hpast. lia. }
    lia.
Qed.

End ExpandHeap.


Section Descend.
Context {F : Type} `{Arith F}.
Context {Rng : Type} `{Sampler F Rng}.
Context {E : Type} `{Environment F E}.
Context {Pos : Type} `{!Deterministic Pos}.

Implicit Types (n : Pi_struct F) (h : list (Pi_struct F)) (st : Store F Rng).

Lemma add_state_node_Ret n (s : ndarray3 F) n1 :
  add_state_node n s = Ret n1 ->
  n1 = with_state (with_isValid n (Some (np_any_axis0 s)))
         (Some (list_chunks (dim1 s * dim2 s) (dim0 s) (cells s))) /\
  add_state_node n1 s = Ret n1 /\
  (0 < size n -> length (np_any_axis0 s) = Z.to_nat (size n)).
Proof.
  intros Hr. unfold add_state_node in Hr. simpl in Hr.
  destruct ((size n =? -1) || (Z.of_nat (dim1 s * dim2 s) =? size n)) eqn:E1;
    simpl in Hr; [| discriminate].
  destruct (dim1 s * dim2 s =? 0)%nat eqn:E2; simpl in Hr; [discriminate |].
  inversion Hr; subst n1. clear Hr. split; [reflexivity |].
  split; [apply (proj2 (add_state_node_fixed _ _)); simpl; rewrite E1, E2; auto |].
  intros Hsz. unfold np_any_axis0. rewrite length_map, length_seq.
  apply orb_true_iff in E1. destruct E1 as [E1 | E1].
  - apply Z.eqb_eq in E1. lia.
  - apply Z.eqb_eq in E1. lia.
Qed.

(** The driver moves from the node at [cur], in progress, to its child at
    the cursor, which the environment did not report as terminal. *)
Lemma heap_ok_descend (pm : addr -> Pos) (rs : Z) st st' (cur : addr)
    (cn : Pi_struct F) (c : addr) :
  heap_ok pm rs (Some cur) None (heap st) ->
  heap st !! cur = Some cn -> evaluated cn = true -> next cn < size cn ->
  (next cn, c) ∈ children cn ->
  term_at (pm cur) (next cn) = false -> level cn < rs ->
  add_state st c (obs_at (nextpos (pm cur) (next cn))) = Ret st' ->
  heap_ok pm rs (Some c) None (heap st') /\
  grows (heap st) (heap st') /\
  (forall b nb', heap st' !! b = Some nb' -> finished nb' = true ->
                 exists nb, heap st !! b = Some nb /\ finished nb = true) /\
  phi_score (heap st') = phi_score (heap st) /\
  phi_repeat (heap st') = phi_repeat (heap st) /\
  length (heap st') = length (heap st) /\
  calls st' = calls st /\ traversals st' = traversals st /\
  pm c = nextpos (pm cur) (next cn).
Proof.
  intros Hheap Hcn Hev Hlive Hin Hterm Hrs Hadd.
  destruct (Hheap cur cn Hcn) as (Hokc & _ & Hkidsc).
  destruct (Hkidsc _ c Hin) as (ccn & Hccn & Hpc).
  destruct (Hheap c ccn Hccn) as (Hokcc & Hlinkcc & Hkidscc).
  assert (Hnd2 : NoDup (children cn).*2).
  { destruct (ok_eval cn Hokc Hev) as (r & v & _ & _ & _ & _ & _ & _ & _ & ? & _).
    assumption. }
  assert (Hltc : (c < length (heap st))%nat) by (by apply lookup_lt_Some in Hccn).
  unfold link_ok in Hlinkcc. rewrite Hpc in Hlinkcc.
  destruct Hlinkcc as (Hc0 & pn & act & rp & Hcurc & Hpn & Hevp & Hrp & Hinc & Hlev
                       & Hrep & Hsize & Hpm & Hst & Hvis).
  pose proof (eq_trans (eq_sym Hcn) Hpn) as Hq. inversion Hq; subst pn. clear Hq.
  assert (act = next cn) by (by apply (snd_unique (children cn) _ _ c)).
  subst act.
  unfold add_state in Hadd. rewrite (load_Some st c ccn Hccn), bind_Ret in Hadd.
  inv_bind Hadd. rename x into n1. inversion Hadd; subst st'. clear Hadd.
  rewrite <- Hpm in Hstep.
  destruct (add_state_node_Ret ccn _ n1 Hstep) as (Hn1 & Hidem & Hlen).
  simpl heap.
  destruct (evaluated ccn) eqn:Hevc.
  - (* the child has been here before: nothing changes *)
    destruct (ok_eval ccn Hokcc Hevc) as (r & v & _ & Hv & _).
    rewrite (Hst ltac:(congruence)) in Hstep.
    assert (Hsame : n1 = ccn) by congruence.
    clear Hn1 Hidem Hlen Hstep. subst n1.
    rewrite list_insert_id by exact Hccn.
    split; [| split; [apply grows_refl | split; [eauto | auto 10]]].
    intros b nb Hb. destruct (Hheap b nb Hb) as (Hokb & Hlinkb & Hkidsb).
    split; [exact Hokb |]. split; [| exact Hkidsb].
    unfold link_ok in *. destruct (parent nb) as [p |]; [| exact Hlinkb].
    destruct Hlinkb as (Hb0 & pn & act & rp' & Hrest). split; [exact Hb0 |].
    exists pn, act, rp'.
    destruct Hrest as (? & ? & ? & ? & ? & ? & ? & ? & ? & ? & Hvisb).
    do 10 (split; [assumption |]). intros [Hevb | Hfr]; [by apply Hvisb; left |].
    inversion Hfr; subst b. apply Hvisb. left.
    pose proof (eq_trans (eq_sym Hccn) Hb) as Hq. by inversion Hq; subst.
  - (* first visit: the child receives its state *)
    destruct (ok_fresh ccn Hokcc Hevc) as (Hscore & Hnext & Hkids).
    assert (Hfields : evaluated n1 = false /\ score n1 = 0 /\ next n1 = 0 /\
                      children n1 = [] /\ parent n1 = Some cur /\
                      level n1 = level ccn /\ repeat n1 = repeat ccn /\
                      size n1 = size ccn /\ file_no n1 = file_no ccn /\
                      isValid n1 = Some (np_any_axis0 (obs_at (pm c))))
      by (subst n1; simpl; auto 15).
    clear Hn1 Hstep.
    destruct Hfields as (Hev1 & Hsc1 & Hnx1 & Hch1 & Hpa1 & Hlv1 & Hrp1 & Hsz1 & Hfn1
                         & Hiv1).
    assert (Hf1 : finished n1 = false) by (by apply finished_unevaluated).
    assert (Hfc : finished ccn = false) by (by apply finished_unevaluated).
    assert (Hcc : c <> cur) by lia.
    split; [| split; [| split; [| split; [| split]]]].
    + intros b nb Hb. destruct (decide (b = c)) as [-> | Hne].
      * rewrite list_lookup_insert_eq in Hb by exact Hltc.
        assert (nb = n1) by congruence. subst nb. clear Hb.
        split; [| split].
        -- constructor.
           ++ lia.
           ++ auto.
           ++ intros v0 Hv0 Hsz. rewrite Hiv1 in Hv0. inversion Hv0; subst v0.
              rewrite Hsz1 in *. by apply Hlen.
           ++ intros Hcontra. congruence.
        -- unfold link_ok. rewrite Hpa1.
           split; [exact Hc0 |]. exists cn, (next cn), rp. split; [exact Hcurc |].
           split; [by rewrite list_lookup_insert_ne |].
           split; [exact Hev |]. split; [exact Hrp |]. split; [exact Hinc |].
           split; [congruence |]. split; [congruence |].
           split; [congruence |]. split; [exact Hpm |].
           split; [intros _; exact Hidem |].
           intros _. split; [exact Hterm |]. split; [exact Hrs |].
           by rewrite Hf1.
        -- intros act c1 Hc1. rewrite Hch1 in Hc1. by apply elem_of_nil in Hc1.
      * rewrite list_lookup_insert_ne in Hb by congruence.
        destruct (Hheap b nb Hb) as (Hokb & Hlinkb & Hkidsb).
        split; [exact Hokb |]. split.
        -- unfold link_ok in *. destruct (parent nb) as [p |]; [| exact Hlinkb].
           destruct Hlinkb as (Hb0 & pn & act & rp' & Hpb & Hpnb & Hevpb & Hrest).
           split; [exact Hb0 |]. exists pn, act, rp'. split; [exact Hpb |].
           assert (p <> c).
           { intros ->. pose proof (eq_trans (eq_sym Hccn) Hpnb) as Hq.
             inversion Hq; subst. congruence. }
           split; [by rewrite list_lookup_insert_ne |]. split; [exact Hevpb |].
           destruct Hrest as (? & ? & ? & ? & ? & ? & ? & Hvisb).
           do 7 (split; [assumption |]).
           intros [Hevb | Hfr]; [by apply Hvisb; left | congruence].
        -- intros act c1 Hc1. destruct (Hkidsb act c1 Hc1) as (c1n & Hc1n & Hpc1).
           destruct (decide (c1 = c)) as [-> | Hc1c].
           ++ exists n1. split; [by apply list_lookup_insert_eq |].
              pose proof (eq_trans (eq_sym Hccn) Hc1n) as Hq. inversion Hq; subst c1n.
              congruence.
           ++ exists c1n. split; [by rewrite list_lookup_insert_ne | exact Hpc1].
    + intros b nb Hb. destruct (decide (b = c)) as [-> | Hne].
      * pose proof (eq_trans (eq_sym Hccn) Hb) as Hq. inversion Hq; subst nb.
        exists n1. split; [by apply list_lookup_insert_eq |].
        split; [congruence |]. do 4 (split; [congruence |]). congruence.
      * exists nb. split; [by rewrite list_lookup_insert_ne |]. auto 10.
    + intros b nb' Hb Hfin. destruct (decide (b = c)) as [-> | Hne].
      * rewrite list_lookup_insert_eq in Hb by exact Hltc.
        assert (nb' = n1) by congruence. subst nb'. congruence.
      * rewrite list_lookup_insert_ne in Hb by congruence. eauto.
    + unfold phi_score. rewrite (zsum_map_insert _ _ _ ccn) by exact Hccn.
      rewrite !score_weight_live by assumption. lia.
    + unfold phi_repeat. rewrite (zsum_map_insert _ _ _ ccn) by exact Hccn.
      unfold repeat_weight. rewrite Hevc, Hev1. simpl. lia.
    + rewrite length_insert. auto.
Qed.

End Descend.


Section Loop.
Context {F : Type} `{Arith F}.
Context {Rng : Type} `{Sampler F Rng}.
Context {E : Type} `{Environment F E}.
Context {Pos : Type} `{!Deterministic Pos}.

Implicit Types (n : Pi_struct F) (h : list (Pi_struct F)) (st : Store F Rng)
  (m : MCT F E).

Lemma same_driver_refl m : phase m <> None -> env_ok (env m) -> same_driver m m.
Proof. intros Hph He. unfold same_driver. auto 10. Qed.

Lemma same_driver_trans m1 m2 m3 :
  same_driver m1 m2 -> same_driver m2 m3 -> same_driver m1 m3.
Proof.
  unfold same_driver.
  intros (? & ? & ? & ? & ? & ? & ? & ? & ?) (? & ? & ? & ? & ? & ? & ? & ? & ?).
  repeat (split; [congruence || assumption |]). congruence.
Qed.

Lemma simulate_loop_ok (pi_array : list F) (v_value : F) (fuel : nat) :
  forall m (needEnv needSim : bool) (x : expansion F E),
    env_ok (env m) -> phase m <> None ->
    simulate_loop fuel m pi_array v_value needEnv needSim = Ret x ->
    exists m1, (x = Paused m1 \/ x = Expanded m1) /\ same_driver m m1.
Proof.
  induction fuel as [| fuel IH]; intros m needEnv needSim x He Hph Hrun.
  - simpl in Hrun. destruct (needEnv || needSim); [discriminate |].
    inversion Hrun. exists m. split; [by right | by apply same_driver_refl].
  - simpl in Hrun. destruct (needEnv || needSim).
    2:{ inversion Hrun. exists m. split; [by right | by apply same_driver_refl]. }
    assert (Hcont : forall m0, same_driver m m0 ->
              (p ← softmax pi_array;
               let '(s, needEnv, needSim, e) := env_simulate (env m0) p v_value in
               simulate_loop fuel (with_mct_state (with_env m0 e) (Some s))
                 pi_array v_value needEnv needSim) = Ret x ->
              exists m1, (x = Paused m1 \/ x = Expanded m1) /\ same_driver m m1).
    { intros m0 Hsame Hc. inv_bind Hc. rename x0 into p.
      destruct (env_simulate (env m0) p v_value) as [[[s ne] ns] e] eqn:Hsim.
      destruct Hsame as (? & ? & ? & ? & ? & ? & Hph0 & He0 & Hpos0).
      destruct (simulate_ok (env m0) p v_value He0) as [He1 Hpos1].
      rewrite Hsim in He1, Hpos1. simpl in He1, Hpos1.
      apply IH in Hc; [| exact He1 | exact Hph0].
      destruct Hc as (m1 & Hx & Hs1). exists m1. split; [exact Hx |].
      eapply same_driver_trans; [| exact Hs1].
      unfold same_driver. simpl. repeat (split; [assumption |]). congruence. }
    destruct needEnv.
    + inv_bind Hrun. rename x0 into ph. apply attr_Ret_inv in Hstep.
      destruct ph; simpl in Hrun.
      * apply (Hcont (with_phase m (Some false))); [| exact Hrun].
        unfold same_driver. simpl. repeat (split; [reflexivity |]).
        split; [discriminate | auto].
      * inversion Hrun. exists (with_phase m (Some true)). split; [by left |].
        unfold same_driver. simpl. repeat (split; [reflexivity |]).
        split; [discriminate | auto].
    + apply (Hcont m); [by apply same_driver_refl | exact Hrun].
Qed.

Lemma dict_get_elem {V} (d : list (Z * V)) (k : Z) (x : V) :
  dict_get d k = Ret x -> (k, x) ∈ d.
Proof.
  unfold dict_get. destruct (find _ d) as [[k' x'] |] eqn:Hf; [| discriminate].
  intros Hr. inversion Hr; subst. apply find_some in Hf. destruct Hf as [Hin Hk].
  simpl in Hk. apply Z.eqb_eq in Hk. subst k'. by apply list_elem_of_In.
Qed.

Lemma prop_ok_log_traversal st (t : traversal) :
  prop_ok None st -> prop_ok None (log_traversal st t).
Proof. intros [? ? ? ? ? ?]. constructor; assumption. Qed.

End Loop.


Section Ready.
Context {F : Type} `{Arith F}.
Context {Rng : Type} `{Sampler F Rng}.
Context {E : Type} `{Environment F E}.
Context {Pos : Type} `{!Deterministic Pos}.

Implicit Types (n : Pi_struct F) (h : list (Pi_struct F)) (st : Store F Rng)
  (m : MCT F E).

Lemma store_id st (a : addr) n : heap st !! a = Some n -> store st a n = st.
Proof.
  intros Hn. unfold store. rewrite list_insert_id by exact Hn. apply with_heap_id.
Qed.

Lemma run_front (pm : addr -> Pos) (R rs : Z) m st :
  run_ok pm R rs m st -> phase m <> None ->
  heap_ok pm rs (Pi_current m) None (heap st).
Proof.
  intros Hrun Hph. pose proof (run_heap _ _ _ _ _ Hrun) as Hheap.
  destruct (phase m); [exact Hheap | congruence].
Qed.

Lemma run_root_live (pm : addr -> Pos) (R rs : Z) m st :
  run_ok pm R rs m st -> phase m <> None ->
  exists r0, heap st !! 0%nat = Some r0 /\ repeat r0 = R /\ level r0 = 0 /\
             finished r0 = false.
Proof.
  intros Hrun Hph. destruct (run_top _ _ _ _ _ Hrun) as (r0 & Hr0 & HR & Hl & Hfin).
  exists r0. repeat (split; [assumption |]).
  destruct (finished r0); [| reflexivity]. destruct Hph. by apply Hfin.
Qed.

(** The current node is already expanded. *)
Lemma ready_evaluated (pm : addr -> Pos) (R rs : Z) m st (cur : addr) n
    (i : Z) st2 :
  run_ok pm R rs m st -> phase m <> None ->
  Pi_current m = Some cur -> heap st !! cur = Some n -> evaluated n = true ->
  get_next st cur = Ret (i, st2) -> 0 <= i ->
  st2 = st /\ ready pm R rs cur i st.
Proof.
  intros Hrun Hph Hcur Hn Hev Hget Hi.
  pose proof (run_front pm R rs m st Hrun Hph) as Hheap. rewrite Hcur in Hheap.
  destruct (Hheap cur n Hn) as (Hok & _ & _).
  unfold get_next in Hget. rewrite (load_Some st cur n Hn), bind_Ret in Hget.
  rewrite (get_next_node_normal n Hok Hev), bind_Ret in Hget.
  rewrite (store_id st cur n Hn) in Hget. inversion Hget; subst i st2. clear Hget.
  destruct (next n <? size n) eqn:Ec; [apply Z.ltb_lt in Ec | lia].
  split; [reflexivity |]. unfold ready.
  split; [exact Hheap |]. split; [apply (run_prop _ _ _ _ _ Hrun) |].
  split; [apply (run_acct _ _ _ _ _ Hrun) |].
  split; [exists n; auto | by apply (run_root_live pm R rs m st)].
Qed.

(** The current node is expanded in this iteration. *)
Lemma ready_expanded (pm : addr -> Pos) (R rs : Z) m st (cur : addr) n
    (fuel : nat) (counts : list F) st1 (i : Z) st2 :
  run_ok pm R rs m st -> phase m <> None ->
  Pi_current m = Some cur -> heap st !! cur = Some n -> evaluated n = false ->
  add_counts fuel st cur counts = Ret st1 ->
  get_next st1 cur = Ret (i, st2) -> 0 <= i ->
  exists pm1,
    ready pm1 R rs cur i st2 /\
    (forall a, (a < length (heap st))%nat -> pm1 a = pm a) /\
    (length (heap st) <= length (heap st2))%nat.
Proof.
  intros Hrun Hph Hcur Hn Hev Hadd Hget Hi.
  pose proof (run_front pm R rs m st Hrun Hph) as Hheap. rewrite Hcur in Hheap.
  destruct (Hheap cur n Hn) as (Hok & _ & _).
  destruct (expand_shape st cur n fuel counts st1 i st2 Hok Hn Hev Hadd Hget Hi)
    as (v & pi & r & Hv & Hsz & Hlr & Hlv & Hpos & Hbud & Hpast & Hact & Hilt
        & Hh2 & Hcalls & Htr).
  assert (Hlt : (cur < length (heap st))%nat) by (by apply lookup_lt_Some in Hn).
  destruct (expand_accounts (heap st) cur n v pi r i Hok Hn Hev Hv Hlr Hlv Hpos
              Hpast Hi Hilt) as (Hgrow & Hnew & Hps & Hpr).
  rewrite <- Hh2 in Hgrow, Hnew, Hps, Hpr.
  exists (extend_positions pm (length (heap st)) (nextpos (pm cur))
            (budgeted r (seqZ 0 (size n)))).
  split; [| split].
  - unfold ready. split.
    { rewrite Hh2. by apply (heap_ok_expand pm rs (heap st) cur n v pi r i). }
    split; [by apply (prop_ok_grows st st2 (run_prop _ _ _ _ _ Hrun)) |].
    split; [by apply (acct_ok_grows st st2 (run_acct _ _ _ _ _ Hrun)) |].
    split.
    + exists (expanded_node n (length (heap st)) pi r i).
      split; [rewrite Hh2; by apply lookup_expanded_cur |]. auto.
    + destruct (run_root_live pm R rs m st Hrun Hph) as (r0 & Hr0 & HR & Hl & Hf0).
      destruct (Hgrow 0%nat r0 Hr0) as (r0' & Hr0' & _ & Hl' & HR' & _).
      exists r0'. split; [exact Hr0' |]. split; [congruence |].
      split; [congruence |].
      destruct (finished r0') eqn:Hf; [| reflexivity].
      destruct (Hnew 0%nat r0' Hr0' Hf) as (rb & Hrb & Hfb). congruence.
  - intros a Ha. unfold extend_positions.
    destruct (decide (a < length (heap st))%nat); [reflexivity | lia].
  - rewrite Hh2, length_app, length_insert. lia.
Qed.

End Ready.


Section Terminal.
Context {F : Type} `{Arith F}.
Context {Rng : Type} `{Sampler F Rng}.
Context {E : Type} `{Environment F E}.
Context {Pos : Type} `{!Deterministic Pos}.

Implicit Types (n : Pi_struct F) (h : list (Pi_struct F)) (st : Store F Rng)
  (m : MCT F E).

(** A traversal ends at the current node: the score is written back along
    the chain of parents. *)
Lemma terminal_ok (pm : addr -> Pos) (R rs : Z) (cur : addr) st n
    (r : list Z) (ra nxt : Z) st4 :
  ready pm R rs cur (next n) st ->
  heap st !! cur = Some n -> nrepeats n = Some r ->
  np_get r (next n) = Ret ra ->
  term_at (pm cur) (next n) = true \/ rs <= level n ->
  set_next (length (heap st))
    (log_traversal st {| t_node := cur; t_action := next n;
                         t_level := level n; t_repeats := ra |})
    cur None (wrap64 (level n * ra)) = Ret (nxt, st4) ->
  heap_ok pm rs None None (heap st4) /\ prop_ok None st4 /\ acct_ok st4 /\
  length (heap st4) = length (heap st) /\
  exists r0', heap st4 !! 0%nat = Some r0' /\ repeat r0' = R /\ level r0' = 0 /\
              (finished r0' = true <-> nxt < 0).
Proof.
  intros (Hheap & Hprop & Hacct & (n' & Hn' & Hev & _ & Hlive) & Hroot)
         Hn Hr Hget Hover Hset.
  pose proof (eq_trans (eq_sym Hn) Hn') as Hq. inversion Hq; subst n'. clear Hq Hn'.
  destruct (Hheap cur n Hn) as (Hok & _ & Hkids).
  destruct (ok_eval n Hok Hev)
    as (r' & v & Hr' & Hv & Hsz & Hlr & Hpos & Hbud & Hkeys & Hnd & Hle & Hact).
  rewrite Hr in Hr'. inversion Hr'; subst r'. clear Hr'.
  specialize (Hact Hlive).
  apply np_get_Ret_nonneg in Hget; [| apply (ok_next n Hok)].
  destruct Hget as [Hra _].
  assert (Hra1 : 1 <= ra).
  { destruct Hact as (_ & x & Hx & Hxpos & _). rewrite Hra in Hx.
    inversion Hx; subst. lia. }
  assert (Hnth : nth (Z.to_nat (next n)) r 0 = ra) by (by apply nth_lookup_Some).
  set (t := {| t_node := cur; t_action := next n; t_level := level n;
               t_repeats := ra |}) in *.
  destruct (set_next_chain pm rs (length (heap st)) (log_traversal st t) cur None
              (wrap64 (level n * ra)) n r nxt st4)
    as (Hheap4 & Hprop4 & Hgrow & Hlen & _ & Htr & Hdrv & Hps & Hpr & Hroot4);
    try assumption.
  - by apply heap_ok_no_front in Hheap.
  - by apply prop_ok_log_traversal.
  - intros c0 Hc0. discriminate.
  - (* the child at the cursor was never entered *)
    intros b nb Hb Hin Hevb. exfalso.
    destruct (Hkids _ b Hin) as (nb' & Hnb' & Hpb).
    pose proof (eq_trans (eq_sym Hb) Hnb') as Hq. inversion Hq; subst nb'. clear Hq.
    destruct (Hheap b nb Hb) as (_ & Hlink & _).
    unfold link_ok in Hlink. rewrite Hpb in Hlink.
    destruct Hlink as (_ & pn & act & rp & _ & Hpn & _ & _ & Hinb & _ & _ & _ & Hpm
                       & _ & Hvis).
    pose proof (eq_trans (eq_sym Hn) Hpn) as Hq. inversion Hq; subst pn. clear Hq.
    assert (act = next n) by (by apply (snd_unique (children n) _ _ b)).
    subst act. destruct (Hvis (or_introl Hevb)) as (Hterm & Hlev & _).
    destruct Hover; [congruence | lia].
  - intros _. destruct Hroot as (r0 & Hr0 & _ & _ & Hf0). eauto.
  - simpl in Htr, Hdrv, Hps, Hpr.
    split; [exact Hheap4 |]. split; [exact Hprop4 |]. split; [| split; [exact Hlen |]].
    + destruct Hacct as [Hls Hlr' Hld Hlv].
      constructor.
      * rewrite Hps, Hdrv, map_app, zsum_app.
        destruct (wrap64_inv _ _ Hls) as [k Hk]. apply (wrap64_congr _ _ k).
        rewrite Hk. unfold zsum. simpl. lia.
      * rewrite Hpr, Htr, Hlr', Hnth, map_app, zsum_app. unfold zsum. simpl. lia.
      * rewrite Hdrv, Htr. apply Forall2_app; [exact Hld |].
        constructor; [| constructor]. simpl. auto.
      * rewrite Htr. apply Forall_app. split.
        -- eapply Forall_impl; [exact Hlv |]. simpl.
           intros t0 (Hrep & n0 & Hn0 & Hev0 & Hl0 & Ha0 & r0 & Hnr0 & Hra0).
           split; [exact Hrep |].
           destruct (Hgrow _ n0 Hn0) as (n0' & Hn0' & Hev0' & Hl0' & _).
           destruct (Hev0' Hev0) as [He0' Hnr0'].
           exists n0'. split; [exact Hn0' |]. split; [exact He0' |].
           split; [congruence |]. split; [exact Ha0 |].
           exists r0. split; [congruence | exact Hra0].
        -- constructor; [| constructor]. simpl. split; [exact Hra1 |].
           destruct (Hgrow _ n Hn) as (n0' & Hn0' & Hev0' & Hl0' & _).
           destruct (Hev0' Hev) as [He0' Hnr0'].
           exists n0'. split; [exact Hn0' |]. split; [exact He0' |].
           split; [congruence |]. split; [apply (ok_next n Hok) |].
           exists r. split; [congruence | exact Hra].
    + destruct Hroot as (r0 & Hr0 & HR & Hl0 & Hf0).
      destruct Hroot4 as (r0' & Hr0' & Hfin).
      destruct (Hgrow 0%nat r0 Hr0) as (r0'' & Hr0'' & _ & Hl' & HR' & _).
      pose proof (eq_trans (eq_sym Hr0') Hr0'') as Hq. inversion Hq; subst r0''.
      exists r0'. split; [exact Hr0' |]. split; [congruence |].
      split; [congruence | exact Hfin].
Qed.

End Terminal.


Section MainLoop.
Context {F : Type} `{Arith F}.
Context {Rng : Type} `{Sampler F Rng}.
Context {E : Type} `{Environment F E}.
Context {Pos : Type} `{!Deterministic Pos}.

Implicit Types (n : Pi_struct F) (h : list (Pi_struct F)) (st : Store F Rng)
  (m : MCT F E).

Lemma load_Ret_inv st (a : addr) n : load st a = Ret n -> heap st !! a = Some n.
Proof. unfold load. destruct (heap st !! a); intros Hl; by inversion Hl. Qed.

Lemma phase_Some m : phase m <> None -> exists b, phase m = Some b.
Proof. destruct (phase m) as [b |]; [eauto | congruence]. Qed.

Lemma run_ok_same_driver (pm : addr -> Pos) (R rs : Z) m m1 st :
  run_ok pm R rs m st -> phase m <> None -> same_driver m m1 ->
  run_ok pm R rs m1 st.
Proof.
  intros Hrun Hph (Hroot & Hcur & Hmin & Hmax & Hres & Hfile & Hph1 & He1 & Hpos1).
  destruct (phase_Some m1 Hph1) as [b1 Hb1].
  pose proof (run_front pm R rs m st Hrun Hph) as Hheap.
  destruct Hrun as [Rroot Rres Rmin Rmax Rcur Rheap Rprop Racct Renv Rpos0 Rtop Rpos].
  constructor; rewrite ?Hroot, ?Hcur, ?Hmin, ?Hmax, ?Hres, ?Hfile; try assumption.
  - rewrite Hb1. exact Hheap.
  - destruct Rtop as (r0 & Hr0 & HR & Hl & Hfin). exists r0.
    repeat (split; [assumption |]). rewrite Hb1. split; [| discriminate].
    intros Hf. apply Hfin in Hf. contradiction.
  - intros cur _ Hc. rewrite Hpos1. apply Rpos; assumption.
Qed.

Lemma run_driver_ok (pm : addr -> Pos) (R rs : Z) m st :
  run_ok pm R rs m st -> phase m <> None -> driver_ok pm rs m.
Proof.
  intros [Rroot Rres Rmin Rmax Rcur Rheap Rprop Racct Renv Rpos0 Rtop Rpos] Hph.
  unfold driver_ok. auto 10.
Qed.

Lemma driver_ok_same (pm pm1 : addr -> Pos) (rs : Z) m m1 :
  driver_ok pm rs m -> same_driver m m1 -> pm1 0%nat = pm 0%nat ->
  driver_ok pm1 rs m1.
Proof.
  intros (Hroot & Hres & Hmin & Hmax & He & Hp0 & Hph)
         (Hroot1 & Hcur1 & Hmin1 & Hmax1 & Hres1 & Hfile1 & Hph1 & He1 & Hpos1) Hpm.
  unfold driver_ok. rewrite Hroot1, Hres1, Hmin1, Hmax1, Hfile1, Hpm. auto 10.
Qed.

(** Assembling the invariant of a run that is not finished. *)
Lemma run_ok_intro (pm : addr -> Pos) (R rs : Z) m st (cur : addr) :
  driver_ok pm rs m -> Pi_current m = Some cur ->
  (cur < length (heap st))%nat ->
  heap_ok pm rs (Some cur) None (heap st) -> prop_ok None st -> acct_ok st ->
  (exists r0, heap st !! 0%nat = Some r0 /\ repeat r0 = R /\ level r0 = 0 /\
              finished r0 = false) ->
  pos (env m) = pm cur ->
  run_ok pm R rs m st.
Proof.
  intros (Hroot & Hres & Hmin & Hmax & He & Hp0 & Hph) Hcur Hlt Hheap Hprop Hacct
         (r0 & Hr0 & HR & Hl & Hf0) Hpos.
  destruct (phase_Some m Hph) as [b Hb].
  constructor; try assumption.
  - eauto.
  - rewrite Hb, Hcur. exact Hheap.
  - exists r0. repeat (split; [assumption |]). rewrite Hf0, Hb.
    split; discriminate.
  - intros cur' _ Hc'. congruence.
Qed.

Lemma expand_current_ok (pm : addr -> Pos) (R rs : Z) (fuel : nat) m st
    (cur : addr) n (pi_array : list F) (v_value : F) (x : expansion F E) st1 :
  run_ok pm R rs m st -> phase m <> None ->
  Pi_current m = Some cur -> heap st !! cur = Some n ->
  expand_current fuel m st cur n pi_array v_value = Ret (x, st1) ->
  exists m1,
    same_driver m m1 /\
    ((x = Paused m1 /\ st1 = st) \/
     (x = Expanded m1 /\
      forall i st2, get_next st1 cur = Ret (i, st2) -> 0 <= i ->
        exists pm1,
          ready pm1 R rs cur i st2 /\
          (forall a, (a < length (heap st))%nat -> pm1 a = pm a) /\
          (length (heap st) <= length (heap st2))%nat)).
Proof.
  intros Hok Hph Hcur Hn Hblock. unfold expand_current in Hblock.
  pose proof (run_env _ _ _ _ _ Hok) as Henv.
  destruct (evaluated n) eqn:Hev; simpl in Hblock.
  - inversion Hblock; subst x st1. exists m.
    split; [by apply same_driver_refl |]. right. split; [reflexivity |].
    intros i st2 Hget Hi.
    destruct (ready_evaluated pm R rs m st cur n i st2 Hok Hph Hcur Hn Hev Hget Hi)
      as [-> Hready].
    exists pm. auto.
  - inv_bind Hblock. rename x0 into x0.
    destruct (simulate_loop_ok pi_array v_value fuel m true false x0 Henv Hph Hstep)
      as (m1 & Hx0 & Hsame).
    destruct Hx0 as [-> | ->].
    + inversion Hblock; subst x st1. exists m1. split; [exact Hsame |]. by left.
    + destruct (env_get_visit_count (env m1)) as [counts e] eqn:Hvisit.
      inv_bind Hblock. rename x0 into st1'. inversion Hblock; subst x st1'.
      clear Hblock.
      destruct Hsame as (Hroot1 & Hcur1 & Hmin1 & Hmax1 & Hres1 & Hfile1 & Hph1 & He1
                         & Hpos1).
      destruct (get_visit_count_ok (env m1) He1) as [He2 Hpos2].
      rewrite Hvisit in He2, Hpos2. simpl in He2, Hpos2.
      exists (with_env m1 e). split.
      { unfold same_driver. simpl. repeat (split; [assumption |]). congruence. }
      right. split; [reflexivity |]. intros i st2 Hget Hi.
      by apply (ready_expanded pm R rs m st cur n fuel counts st1 i st2).
Qed.

Lemma driver_ok_steps (pm : addr -> Pos) (rs : Z) m (lo hi x y : Z) :
  driver_ok pm rs m ->
  driver_ok pm rs
    (let m2 := if x <? lo then with_min_step m (Some x) else m in
     if hi <? y then with_max_step m2 (Some y) else m2) /\
  Pi_current
    (let m2 := if x <? lo then with_min_step m (Some x) else m in
     if hi <? y then with_max_step m2 (Some y) else m2) = Pi_current m /\
  env
    (let m2 := if x <? lo then with_min_step m (Some x) else m in
     if hi <? y then with_max_step m2 (Some y) else m2) = env m /\
  mct_file_no
    (let m2 := if x <? lo then with_min_step m (Some x) else m in
     if hi <? y then with_max_step m2 (Some y) else m2) = mct_file_no m.
Proof.
  intros (Hroot & Hres & Hmin & Hmax & He & Hp0 & Hph). unfold driver_ok.
  destruct (x <? lo), (hi <? y); simpl; auto 15.
Qed.

Lemma end_traversal_ok (R rs : Z)
    (loop : MCT F E -> Store F Rng
            -> res (option (ndarray3 F) * MCT F E * Store F Rng))
    (pm : addr -> Pos) m st (cur : addr) n (o : option (ndarray3 F)) m' st' :
  (forall pm0 m0 st0 o0 m0' st0',
      run_ok pm0 R rs m0 st0 -> phase m0 <> None ->
      loop m0 st0 = Ret (o0, m0', st0') ->
      exists pm', run_ok pm' R rs m0' st0' /\ mct_file_no m0' = mct_file_no m0) ->
  driver_ok pm rs m -> Pi_current m = Some cur ->
  ready pm R rs cur (next n) st -> heap st !! cur = Some n ->
  term_at (pm cur) (next n) = true \/ rs <= level n ->
  end_traversal loop m st cur n (next n) = Ret (o, m', st') ->
  exists pm', run_ok pm' R rs m' st' /\ mct_file_no m' = mct_file_no m.
Proof.
  intros Hloop Hdrv Hcur Hready Hn Hover Hrun. unfold end_traversal in Hrun.
  inv_bind Hrun. rename x into lo. inv_bind Hrun. rename x into hi.
  destruct (driver_ok_steps pm rs m lo hi (level n) (level n) Hdrv)
    as (Hdrv3 & Hcur3 & Henv3 & Hfile3).
  cbv zeta in Hdrv3, Hcur3, Henv3, Hfile3.
  set (m3 := if hi <? level n
             then with_max_step
                    (if level n <? lo then with_min_step m (Some (level n)) else m)
                    (Some (level n))
             else if level n <? lo then with_min_step m (Some (level n)) else m) in *.
  inv_bind Hrun. rename x into r. apply attr_Ret_inv in Hstep1.
  inv_bind Hrun. rename x into ra.
  inv_bind Hrun. destruct x as [nxt st4].
  destruct (terminal_ok pm R rs cur st n r ra nxt st4 Hready Hn Hstep1 Hstep2 Hover
              Hstep3)
    as (Hheap4 & Hprop4 & Hacct4 & Hlen4 & r0' & Hr0' & HR & Hl0 & Hfin).
  assert (Hlt : (cur < length (heap st))%nat) by (by apply lookup_lt_Some in Hn).
  destruct Hdrv3 as (Hroot3 & Hres3 & Hmin3 & Hmax3 & He3 & Hp03 & Hph3).
  destruct (nxt <? 0) eqn:Enxt.
  - (* the tree is exhausted *)
    apply Z.ltb_lt in Enxt. inversion Hrun; subst o m' st'. clear Hrun.
    exists pm. split; [| exact Hfile3].
    constructor; simpl; try assumption.
    + exists cur. split; [congruence | lia].
    + exists r0'. repeat (split; [assumption |]). split; [reflexivity |].
      intros _. by apply Hfin.
    + intros cur' Hcontra. congruence.
  - (* back to the root for the next traversal *)
    apply Z.ltb_ge in Enxt.
    destruct (env_resetAt (env (with_Pi_current m3 (Pi_root m3)))
                (mct_file_no (with_Pi_current m3 (Pi_root m3))))
      as [s0 e] eqn:Hreset.
    destruct (resetAt_ok (env m3) (mct_file_no m3) He3) as [He4 Hpos4].
    simpl in Hreset. rewrite Hreset in He4, Hpos4. simpl in He4, Hpos4.
    set (m4 := with_mct_state (with_env (with_Pi_current m3 (Pi_root m3)) e) s0)
      in *.
    apply Hloop with (pm0 := pm) in Hrun.
    + destruct Hrun as (pm' & Hok' & Hfile'). exists pm'. split; [exact Hok' |].
      rewrite Hfile'. unfold m4. simpl. exact Hfile3.
    + apply (run_ok_intro pm R rs m4 st4 0%nat).
      * unfold driver_ok, m4. simpl. auto 10.
      * unfold m4. simpl. exact Hroot3.
      * by apply lookup_lt_Some in Hr0'.
      * by apply heap_ok_front_root.
      * exact Hprop4.
      * exact Hacct4.
      * exists r0'. repeat (split; [assumption |]).
        destruct (finished r0'); [| reflexivity].
        assert (nxt < 0) by (by apply Hfin). lia.
      * unfold m4. simpl. rewrite Hpos4. symmetry. exact Hp03.
    + unfold m4. simpl. exact Hph3.
Qed.

Lemma descend_ok (R rs : Z)
    (loop : MCT F E -> Store F Rng
            -> res (option (ndarray3 F) * MCT F E * Store F Rng))
    (pm : addr -> Pos) m st (cur : addr) n (o : option (ndarray3 F)) m' st' :
  (forall pm0 m0 st0 o0 m0' st0',
      run_ok pm0 R rs m0 st0 -> phase m0 <> None ->
      loop m0 st0 = Ret (o0, m0', st0') ->
      exists pm', run_ok pm' R rs m0' st0' /\ mct_file_no m0' = mct_file_no m0) ->
  driver_ok pm rs m ->
  ready pm R rs cur (next n) st -> heap st !! cur = Some n ->
  term_at (pm cur) (next n) = false -> level n < rs ->
  pos (env m) = nextpos (pm cur) (next n) ->
  descend loop m st n (next n) (obs_at (nextpos (pm cur) (next n)))
  = Ret (o, m', st') ->
  exists pm', run_ok pm' R rs m' st' /\ mct_file_no m' = mct_file_no m.
Proof.
  intros Hloop Hdrv (Hheap & Hprop & Hacct & (n' & Hn' & Hev & _ & Hlive) & Hroot)
         Hn Hterm Hlev Hpos Hrun.
  pose proof (eq_trans (eq_sym Hn) Hn') as Hq. inversion Hq; subst n'. clear Hq Hn'.
  unfold descend in Hrun. inv_bind Hrun. rename x into c.
  apply dict_get_elem in Hstep. inv_bind Hrun. rename x into st3.
  destruct (heap_ok_descend pm rs st st3 cur n c Hheap Hn Hev Hlive Hstep Hterm Hlev
              Hstep0)
    as (Hheap3 & Hgrow & Hnew & Hps & Hpr & Hlen & Hcalls & Htr & Hpmc).
  destruct (Hheap cur n Hn) as (_ & _ & Hkids).
  destruct (Hkids _ c Hstep) as (ccn & Hccn & _).
  apply Hloop with (pm0 := pm) in Hrun.
  - destruct Hrun as (pm' & Hok' & Hfile'). exists pm'. split; [exact Hok' |].
    rewrite Hfile'. reflexivity.
  - destruct Hdrv as (Hroot0 & Hres & Hmin & Hmax & He & Hp0 & Hph).
    apply (run_ok_intro pm R rs _ st3 c).
    + unfold driver_ok. simpl. auto 10.
    + reflexivity.
    + rewrite Hlen. by apply lookup_lt_Some in Hccn.
    + exact Hheap3.
    + by apply (prop_ok_grows st st3).
    + by apply (acct_ok_grows st st3).
    + destruct Hroot as (r0 & Hr0 & HR & Hl0 & Hf0).
      destruct (Hgrow 0%nat r0 Hr0) as (r0' & Hr0' & _ & Hl' & HR' & _).
      exists r0'. split; [exact Hr0' |]. split; [congruence |].
      split; [congruence |].
      destruct (finished r0') eqn:Hf; [| reflexivity].
      destruct (Hnew 0%nat r0' Hr0' Hf) as (rb & Hrb & Hfb). congruence.
    + simpl. congruence.
  - destruct Hdrv as (_ & _ & _ & _ & _ & _ & Hph). exact Hph.
Qed.

Lemma get_state_loop_ok (R rs : Z) (pi_array : list F) (v_value : F) (fuel : nat) :
  forall (pm : addr -> Pos) m st (o : option (ndarray3 F)) m' st',
    run_ok pm R rs m st -> phase m <> None ->
    get_state_loop fuel m st pi_array v_value = Ret (o, m', st') ->
    exists pm', run_ok pm' R rs m' st' /\ mct_file_no m' = mct_file_no m.
Proof.
  induction fuel as [| fuel IH]; intros pm m st o m' st' Hok Hph Hrun;
    [discriminate |].
  cbn [get_state_loop] in Hrun.
  inv_bind Hrun. rename x into cur. apply attr_Ret_inv in Hstep. rename Hstep into Hcur.
  inv_bind Hrun. rename x into n. apply load_Ret_inv in Hstep. rename Hstep into Hn.
  inv_bind Hrun. destruct x as [x st1]. rename Hstep into Hblock.
  destruct (expand_current_ok pm R rs fuel m st cur n pi_array v_value x st1
              Hok Hph Hcur Hn Hblock) as (m1 & Hsame & Hx).
  pose proof (run_driver_ok pm R rs m st Hok Hph) as Hdrv.
  destruct Hx as [(-> & ->) | (-> & Hready)].
  - (* paused for an evaluation *)
    inversion Hrun; subst o m' st'. exists pm.
    split; [by apply (run_ok_same_driver pm R rs m) |].
    by destruct Hsame as (_ & _ & _ & _ & _ & ? & _).
  - inv_bind Hrun. destruct x as [next_act st2]. rename Hstep into Hget.
    inv_bind Hrun. apply assert_Ret_inv, Z.leb_le in Hstep.
    destruct (Hready next_act st2 Hget Hstep) as (pm1 & Hrdy & Hpm1 & Hlen).
    assert (Hlt : (cur < length (heap st))%nat) by (by apply lookup_lt_Some in Hn).
    assert (H0lt : (0 < length (heap st))%nat) by lia.
    pose proof (driver_ok_same pm pm1 rs m m1 Hdrv Hsame (Hpm1 0%nat H0lt)) as Hdrv1.
    destruct Hsame as (Hroot1 & Hcur1 & Hmin1 & Hmax1 & Hres1 & Hfile1 & Hph1 & He1
                       & Hpos1).
    assert (Hposcur : pos (env m1) = pm1 cur).
    { rewrite Hpos1, (Hpm1 cur Hlt). by apply (run_pos _ _ _ _ _ Hok). }
    destruct (step_ok (env m1) next_act He1) as (He2 & Hpos2 & Hout).
    destruct (env_step (env m1) next_act) as [[isDone s] e] eqn:Hstepenv.
    simpl in He2, Hpos2, Hout. inversion Hout; subst isDone s. clear Hout.
    rewrite Hposcur in *.
    set (m2 := with_mct_state (with_env m1 e)
                 (Some (obs_at (nextpos (pm1 cur) next_act)))) in *.
    assert (Hdrv2 : driver_ok pm1 rs m2).
    { destruct Hdrv1 as (? & ? & ? & ? & ? & ? & ?). unfold driver_ok, m2. simpl.
      auto 10. }
    inv_bind Hrun. rename x0 into n2. apply load_Ret_inv in Hstep0.
    destruct Hrdy as (Hheap2 & Hprop2 & Hacct2 & (n2' & Hn2' & Hev2 & Hnext2 & Hlive2)
                      & Hroot2).
    pose proof (eq_trans (eq_sym Hstep0) Hn2') as Hq. inversion Hq; subst n2'.
    clear Hq Hn2'. subst next_act.
    assert (Hrdy : ready pm1 R rs cur (next n2) st2).
    { unfold ready. split; [exact Hheap2 |]. split; [exact Hprop2 |].
      split; [exact Hacct2 |]. split; [exists n2; auto | exact Hroot2]. }
    inv_bind Hrun. rename x0 into over.
    assert (Hover : over = term_at (pm1 cur) (next n2) || (rs <=? level n2)).
    { destruct (term_at (pm1 cur) (next n2)); [by inversion Hstep1 |].
      inv_bind Hstep1. apply attr_Ret_inv in Hstep2.
      destruct Hdrv2 as (_ & Hres2 & _). rewrite Hres2 in Hstep2.
      inversion Hstep2; subst. by inversion Hstep1. }
    clear Hstep1.
    assert (Hloop : forall pm0 m0 st0 o0 m0' st0',
              run_ok pm0 R rs m0 st0 -> phase m0 <> None ->
              (fun m st => get_state_loop fuel m st pi_array v_value) m0 st0
              = Ret (o0, m0', st0') ->
              exists pm', run_ok pm' R rs m0' st0'
                          /\ mct_file_no m0' = mct_file_no m0).
    { intros pm0 m0 st0 o0 m0' st0' Hok0 Hph0 Hrun0. by apply (IH pm0 m0 st0 o0). }
    assert (Hfile2 : mct_file_no m2 = mct_file_no m) by (unfold m2; simpl; congruence).
    destruct over.
    + symmetry in Hover. apply orb_true_iff in Hover.
      destruct (end_traversal_ok R rs _ pm1 m2 st2 cur n2 o m' st' Hloop Hdrv2)
        as (pm' & Hok' & Hfile'); try assumption.
      * unfold m2. simpl. congruence.
      * destruct Hover as [Ht | Hr]; [by left | right; by apply Z.leb_le].
      * exists pm'. split; [exact Hok' | congruence].
    + symmetry in Hover. apply orb_false_iff in Hover. destruct Hover as [Ht Hr].
      apply Z.leb_gt in Hr.
      destruct (descend_ok R rs _ pm1 m2 st2 cur n2 o m' st' Hloop Hdrv2)
        as (pm' & Hok' & Hfile'); try assumption.
      exists pm'. split; [exact Hok' | congruence].
Qed.

(** Every call of [get_state] preserves the invariant of the run. *)
Lemma get_state_ok (R rs : Z) (pm : addr -> Pos) (fuel : nat) m st
    (pi_array : list F) (v_value : F) (o : option (ndarray3 F)) m' st' :
  run_ok pm R rs m st ->
  get_state fuel m st pi_array v_value = Ret (o, m', st') ->
  exists pm', run_ok pm' R rs m' st' /\ mct_file_no m' = mct_file_no m.
Proof.
  intros Hok Hrun. unfold get_state in Hrun.
  destruct (phase m) as [b |] eqn:Hph.
  - apply (get_state_loop_ok R rs pi_array v_value fuel pm m st o); [exact Hok | | exact Hrun].
    congruence.
  - inversion Hrun; subst. eauto.
Qed.

Lemma get_state_many_ok (R rs : Z) (inputs : list (nat * list F * F)) :
  forall (pm : addr -> Pos) m st (os : list (option (ndarray3 F))) m' st',
    run_ok pm R rs m st ->
    get_state_many inputs m st = Ret (os, m', st') ->
    exists pm', run_ok pm' R rs m' st' /\ mct_file_no m' = mct_file_no m.
Proof.
  induction inputs as [| [[fuel pi_array] v_value] inputs IH];
    intros pm m st os m' st' Hok Hrun; simpl in Hrun.
  - inversion Hrun; subst. eauto.
  - inv_bind Hrun. destruct x as [[o m1] st1].
    destruct (get_state_ok R rs pm fuel m st pi_array v_value o m1 st1 Hok Hstep)
      as (pm1 & Hok1 & Hfile1).
    inv_bind Hrun. destruct x as [[os1 m2] st2]. inversion Hrun; subst os m' st'.
    destruct (IH pm1 m1 st1 os1 m2 st2 Hok1 Hstep0) as (pm2 & Hok2 & Hfile2).
    exists pm2. split; [exact Hok2 | congruence].
Qed.

End MainLoop.


Section Start.
Context {F : Type} `{Arith F}.
Context {Rng : Type} `{Sampler F Rng}.
Context {E : Type} `{Environment F E}.
Context {Pos : Type} `{!Deterministic Pos}.

Implicit Types (n : Pi_struct F) (h : list (Pi_struct F)) (st : Store F Rng)
  (m : MCT F E).

(** The driver that [MCT.__init__] builds for a problem that is not solved
    by simplification satisfies the invariant: the tree is the root alone. *)
Lemma MCT_init_ok (e : E) (g : Rng) (f max_var1 R : Z) (tau : Z -> F) (rs : Z)
    m0 st0 :
  env_ok e ->
  MCT_init e g f max_var1 R tau rs = Ret (m0, st0) ->
  Pi_root m0 <> None ->
  run_ok (fun _ => pos0 f) R rs m0 st0 /\
  mct_file_no m0 = f /\ phase m0 = Some false /\ Pi_current m0 = Some 0%nat /\
  calls st0 = [] /\ traversals st0 = [] /\
  exists n, heap st0 = [n] /\ evaluated n = false.
Proof.
  intros He Hinit Hroot. unfold MCT_init in Hinit.
  destruct (resetAt_ok e f He) as [He1 Hpos1].
  destruct (env_resetAt e f) as [s0 e1]. simpl in He1, Hpos1.
  destruct s0 as [s |]; [| inversion Hinit; subst; simpl in Hroot; congruence].
  simpl in Hinit. inv_bind Hinit. rename x into st1. inversion Hinit; subst m0 st0.
  clear Hinit Hroot.
  unfold add_state in Hstep. inv_bind Hstep. rename x into n0.
  apply load_Ret_inv in Hstep0. simpl in Hstep0.
  assert (Hn0 : n0 = Pi_struct_init (max_var1 * 2) R 0 f tau None) by congruence.
  clear Hstep0.
  inv_bind Hstep. rename x into n1.
  injection Hstep as <-. subst n0. rename Hstep0 into Hstep.
  destruct (add_state_node_Ret _ _ _ Hstep) as (Hn1 & Hfix & Hlen).
  assert (Hfields : evaluated n1 = false /\ parent n1 = None /\ score n1 = 0 /\
                    next n1 = 0 /\ children n1 = [] /\ repeat n1 = R /\
                    level n1 = 0 /\ size n1 = max_var1 * 2 /\
                    isValid n1 = Some (np_any_axis0 s)).
  { subst n1. simpl. auto 10. }
  destruct Hfields as (Hev & Hpar & Hsc & Hnx & Hch & Hrep & Hlev & Hsz & Hval).
  simpl in Hlen. clear Hn1 Hstep.
  assert (Hfin : finished n1 = false) by (unfold finished; by rewrite Hev).
  split; [| simpl; split; [reflexivity |]; split; [reflexivity |];
            split; [reflexivity |]; split; [reflexivity |];
            split; [reflexivity |]; exists n1; by split].
  constructor; simpl; try reflexivity; try (by eexists); try exact He1.
  - exists 0%nat. split; [reflexivity | simpl; lia].
  - intros a n Hn. destruct a as [| a]; [| by destruct a]. simpl in Hn.
    inversion Hn; subst n. clear Hn. split; [| split].
    + constructor.
      * lia.
      * intros _. auto.
      * intros v Hv Hpos. rewrite Hval in Hv. inversion Hv; subst v.
        rewrite Hsz in *. by apply Hlen.
      * congruence.
    + unfold link_ok. by rewrite Hpar.
    + intros act c Hc. rewrite Hch in Hc. by apply elem_of_nil in Hc.
  - constructor; simpl.
    + intros c Hc. by apply elem_of_nil in Hc.
    + constructor.
    + intros a Ha. congruence.
    + intros a n Hn Hf. destruct a as [| a]; [| by destruct a]. simpl in Hn.
      inversion Hn; subst n. congruence.
    + intros i c a Hi. destruct i; discriminate.
    + intros a Ha. discriminate.
  - constructor; simpl.
    + unfold phi_score, score_weight, is_root. simpl. rewrite Hpar, Hsc. simpl.
      reflexivity.
    + unfold phi_repeat, repeat_weight. simpl. rewrite Hev. reflexivity.
    + constructor.
    + constructor.
  - exists n1. split; [reflexivity |]. split; [exact Hrep |]. split; [exact Hlev |].
    rewrite Hfin. split; intros; congruence.
  - intros cur _ Hc. exact Hpos1.
Qed.

End Start.

Section Completed.
Context {F : Type} `{Arith F}.
Context {Rng : Type} `{Sampler F Rng}.
Context {E : Type} `{Environment F E}.
Context {Pos : Type} `{!Deterministic Pos}.

Implicit Types (n : Pi_struct F) (h : list (Pi_struct F)) (st : Store F Rng)
  (m : MCT F E).

(** Only the node at address 0 has no parent. *)
Lemma root_iff (pm : addr -> Pos) (rs : Z) (front pend : option addr) h
    (a : addr) n :
  heap_ok pm rs front pend h -> h !! a = Some n ->
  (is_root n = true <-> a = 0%nat).
Proof.
  intros Hh Hn. destruct (Hh a n Hn) as (_ & Hlink & _).
  unfold link_ok in Hlink. unfold is_root.
  destruct (parent n) as [p |]; [| by split].
  destruct Hlink as (Hne & _). split; [discriminate | contradiction].
Qed.

(** Below an unfinished expanded node every ancestor is unfinished: once
    the root is finished, so is every expanded node. *)
Lemma all_finished (pm : addr -> Pos) (rs : Z) h (r0 : Pi_struct F) :
  heap_ok pm rs None None h -> h !! 0%nat = Some r0 -> finished r0 = true ->
  forall (a : addr) n, h !! a = Some n -> evaluated n = true -> finished n = true.
Proof.
  intros Hh Hr0 Hf0 a. induction (lt_wf a) as [a _ IH]. intros n Hn Hev.
  destruct (finished n) eqn:Hfin; [reflexivity | exfalso].
  destruct (Hh a n Hn) as (_ & Hlink & _). unfold link_ok in Hlink.
  destruct (parent n) as [p |].
  - destruct Hlink as (_ & pn & act & r & Hlt & Hpn & Hevp & _ & Hkid & _ & _ & _ & _
                       & _ & Hfront).
    destruct (Hfront (or_introl Hev)) as (_ & _ & Hcur). rewrite Hfin in Hcur.
    destruct (Hh p pn Hpn) as (Hokp & _ & _).
    pose proof (key_in_range pn act a Hokp Hevp Hkid) as Hrange.
    pose proof (IH p Hlt pn Hpn Hevp) as Hfp.
    apply finished_true in Hfp. lia.
  - subst a. assert (Hq : Some n = Some r0) by (rewrite <- Hn; exact Hr0). inversion Hq; subst. congruence.
Qed.

Lemma zsum_map_head {A} (f : A -> Z) (l : list A) (x : A) :
  l !! 0%nat = Some x ->
  (forall (a : nat) y, l !! a = Some y -> a <> 0%nat -> f y = 0) ->
  zsum (map f l) = f x.
Proof.
  intros Hx Hrest. destruct l as [| y l]; [discriminate |].
  simpl in Hx. inversion Hx; subst y. simpl.
  rewrite (zsum_map_zero f l); [lia |].
  apply Forall_forall. intros y Hy. apply list_elem_of_lookup in Hy.
  destruct Hy as [i Hi]. by apply (Hrest (S i)).
Qed.

(** In a finished tree all the score sits at the root, and the repeats used
    up there are the budget of the root. *)
Lemma phi_final (pm : addr -> Pos) (rs : Z) h (r0 : Pi_struct F) :
  heap_ok pm rs None None h -> h !! 0%nat = Some r0 -> finished r0 = true ->
  phi_score h = score r0 /\ phi_repeat h = repeat r0.
Proof.
  intros Hh Hr0 Hf0.
  pose proof (all_finished pm rs h r0 Hh Hr0 Hf0) as Hall.
  assert (Hroot : is_root r0 = true) by (by apply (root_iff pm rs None None h 0%nat)).
  assert (Hother : forall (a : addr) n, h !! a = Some n -> a <> 0%nat ->
                     is_root n = false /\
                     (finished n = true \/ evaluated n = false /\ score n = 0)).
  { intros a n Hn Hne. split.
    - destruct (is_root n) eqn:Er; [| reflexivity].
      apply (root_iff pm rs None None h a n Hh Hn) in Er. contradiction.
    - destruct (evaluated n) eqn:Hev; [left; by apply (Hall a) |].
      right. split; [reflexivity |].
      destruct (Hh a n Hn) as (Hok & _). by destruct (ok_fresh n Hok Hev). }
  split.
  - unfold phi_score. rewrite (zsum_map_head score_weight h r0 Hr0).
    + unfold score_weight. by rewrite Hroot.
    + intros a n Hn Hne. destruct (Hother a n Hn Hne) as (Hnr & [Hfin | [Hev Hsc]]);
        unfold score_weight; rewrite Hnr; simpl.
      * by rewrite Hfin.
      * by destruct (negb (finished n)).
  - unfold phi_repeat. rewrite (zsum_map_head repeat_weight h r0 Hr0).
    + unfold repeat_weight. rewrite Hroot.
      pose proof (proj1 (finished_true r0) Hf0) as [Hev0 _]. rewrite Hev0. simpl.
      destruct (Hh 0%nat r0 Hr0) as (Hok & _).
      destruct (ok_eval r0 Hok Hev0) as (r & v & Hr & Hv & _).
      by apply (passed_finished r0 r v).
    + intros a n Hn Hne. destruct (Hother a n Hn Hne) as (Hnr & [Hfin | [Hev Hsc]]);
        unfold repeat_weight; rewrite Hnr; simpl.
      * rewrite Hfin. simpl. by rewrite andb_false_r.
      * by rewrite Hev.
Qed.

End Completed.

Section WholeRuns.
Context {F : Type} `{Arith F}.
Context {Rng : Type} `{Sampler F Rng}.
Context {E : Type} `{Environment F E}.
Context {Pos : Type} `{!Deterministic Pos}.

Implicit Types (n : Pi_struct F) (h : list (Pi_struct F)) (st : Store F Rng)
  (m : MCT F E).

Lemma get_state_many_done (inputs : list (nat * list F * F)) m st
    (outs : list (option (ndarray3 F))) m' st' :
  phase m = None -> get_state_many inputs m st = Ret (outs, m', st') ->
  m' = m /\ st' = st.
Proof.
  intros Hph. revert outs.
  induction inputs as [| [[fuel pi_array] v_value] inputs IH]; intros outs Hrun;
    simpl in Hrun.
  - by inversion Hrun.
  - unfold get_state in Hrun. rewrite Hph in Hrun. rewrite bind_Ret in Hrun.
    inv_bind Hrun. destruct x as [[os m1] st1]. inversion Hrun; subst.
    by apply (IH os).
Qed.

(** The invariant holds at the end of every run on a problem that is not
    solved by simplification. *)
Lemma play_ok (e : E) (g : Rng) (f max_var1 R : Z) (tau : Z -> F) (rs : Z)
    (inputs : list (nat * list F * F)) (outs : list (option (ndarray3 F))) m st :
  env_ok e ->
  play e g f max_var1 R tau rs inputs = Ret (outs, m, st) ->
  Pi_root m <> None ->
  exists pm, run_ok pm R rs m st /\ mct_file_no m = f.
Proof.
  intros He Hplay Hroot. unfold play in Hplay. inv_bind Hplay.
  destruct x as [m0 st0].
  assert (Hroot0 : Pi_root m0 <> None).
  { intros Hnone.
    assert (Hph0 : phase m0 = None).
    { unfold MCT_init in Hstep. destruct (env_resetAt e f) as [[s |] e1].
      - inv_bind Hstep. inversion Hstep; subst. discriminate.
      - by inversion Hstep. }
    destruct (get_state_many_done inputs m0 st0 outs m st Hph0 Hplay) as [-> _].
    contradiction. }
  destruct (MCT_init_ok e g f max_var1 R tau rs m0 st0 He Hstep Hroot0)
    as (Hok0 & Hfile0 & _).
  destruct (get_state_many_ok R rs inputs _ m0 st0 outs m st Hok0 Hplay)
    as (pm & Hok & Hfile).
  exists pm. split; [exact Hok | congruence].
Qed.

(** What the invariant says once the driver is finished. *)
Lemma run_ok_finished (pm : addr -> Pos) (R rs : Z) m st :
  run_ok pm R rs m st -> phase m = None ->
  exists r, heap st !! 0%nat = Some r /\ repeat r = R /\ level r = 0 /\
            parent r = None /\ finished r = true /\
            heap_ok pm rs None None (heap st) /\
            phi_score (heap st) = score r /\ phi_repeat (heap st) = R.
Proof.
  intros Hok Hph.
  destruct (run_top _ _ _ _ _ Hok) as (r & Hr & Hrep & Hlev & Hfin).
  pose proof (run_heap _ _ _ _ _ Hok) as Hheap. rewrite Hph in Hheap.
  pose proof (proj2 Hfin Hph) as Hf.
  destruct (phi_final pm rs (heap st) r Hheap Hr Hf) as [Hs Hp].
  exists r. repeat (split; [assumption |]).
  split; [| split; [exact Hf | split; [exact Hheap | split; [exact Hs | congruence]]]].
  pose proof (proj2 (root_iff pm rs None None (heap st) 0%nat r Hheap Hr) eq_refl)
    as Hroot.
  unfold is_root in Hroot. by destruct (parent r).
Qed.

Lemma propagations_none (a : addr) (cs : list call) :
  a ∉ propagators cs -> propagations_of a cs = [].
Proof.
  unfold propagators, propagations_of.
  induction cs as [| c cs IH]; intros Hnotin; [reflexivity |].
  rewrite filter_cons. simpl in Hnotin.
  destruct (decide (caller c = Some a)) as [Heq | Hne].
  - rewrite Heq in Hnotin. exfalso. apply Hnotin. left.
  - apply IH. destruct (caller c) as [b |]; [| exact Hnotin].
    intros Hin. apply Hnotin. by right.
Qed.

Lemma propagations_once (a : addr) (cs : list call) :
  NoDup (propagators cs) -> a ∈ propagators cs ->
  length (propagations_of a cs) = 1%nat.
Proof.
  induction cs as [| c cs IH]; intros Hnd Hin; [by apply elem_of_nil in Hin |].
  unfold propagations_of. rewrite filter_cons.
  unfold propagators in Hnd, Hin. simpl in Hnd, Hin.
  destruct (decide (caller c = Some a)) as [Heq | Hne].
  - rewrite Heq in Hnd. apply NoDup_cons in Hnd. destruct Hnd as [Hnotin _].
    simpl. f_equal. fold (propagations_of a cs).
    by rewrite (propagations_none a cs Hnotin).
  - fold (propagations_of a cs). apply IH.
    + destruct (caller c) as [b |]; [| exact Hnd].
      apply NoDup_cons in Hnd. by destruct Hnd.
    + destruct (caller c) as [b |]; [| exact Hin].
      apply elem_of_cons in Hin. destruct Hin as [-> | Hin]; [congruence | exact Hin].
Qed.

Lemma zsum_ones (l : list Z) :
  Forall (fun x => 1 <= x) l ->
  Z.of_nat (length l) <= zsum l /\
  (Z.of_nat (length l) = zsum l <-> Forall (fun x => x = 1) l).
Proof.
  induction 1 as [| x l Hx Hl IH]; simpl.
  - split; [lia |]. split; [constructor | reflexivity].
  - destruct IH as [Hle Hiff]. split; [lia |]. split.
    + intros Heq. constructor; [lia |]. apply Hiff. lia.
    + intros Hall. apply Forall_cons in Hall. destruct Hall as [-> Hall].
      apply Hiff in Hall. lia.
Qed.

End WholeRuns.

Section StockedRun.
Context {F : Type} `{Arith F}.
Context {Rng : Type} `{Sampler F Rng}.
Context {E : Type} `{Environment F E}.

Implicit Types (n : Pi_struct F) (h : list (Pi_struct F)) (st : Store F Rng)
  (m : MCT F E).

Lemma get_next_loop_cursor (k : nat) :
  forall n n', get_next_loop k n = Ret n' -> exists c, n' = with_next n c.
Proof.
  induction k as [| k IH]; intros n n' Hrun; simpl in Hrun.
  - destruct (next n <? size n).
    + inv_bind Hrun. inv_bind Hrun. inv_bind Hrun. destruct x1; [discriminate |].
      inversion Hrun; subst n'. exists (next n). by rewrite with_next_id.
    + inversion Hrun; subst n'. exists (next n). by rewrite with_next_id.
  - destruct (next n <? size n).
    + inv_bind Hrun. inv_bind Hrun. inv_bind Hrun. destruct x1.
      * apply IH in Hrun. destruct Hrun as [c ->]. by exists c.
      * inversion Hrun; subst n'. exists (next n). by rewrite with_next_id.
    + inversion Hrun; subst n'. exists (next n). by rewrite with_next_id.
Qed.

(** [get_next] only moves the cursor of the node, and not past the end
    when it returns an action. *)
Lemma get_next_inv st (a : addr) (i : Z) st' :
  get_next st a = Ret (i, st') ->
  exists n c, heap st !! a = Some n /\ st' = store st a (with_next n c) /\
              (0 <= i -> c < size n).
Proof.
  intros Hrun. unfold get_next in Hrun.
  inv_bind Hrun. apply load_Ret_inv in Hstep. rename x into n.
  inv_bind Hrun. destruct x as [j n']. inversion Hrun; subst i st'. clear Hrun.
  unfold get_next_node in Hstep0. inv_bind Hstep0.
  apply get_next_loop_cursor in Hstep1. destruct Hstep1 as [c ->].
  exists n, c. split; [exact Hstep |].
  destruct (size (with_next n c) <=? next (with_next n c)) eqn:Ec;
    inversion Hstep0; subst.
  - split; [reflexivity | lia].
  - split; [reflexivity |]. intros _. simpl in Ec. by apply Z.leb_gt in Ec.
Qed.

Lemma stocked_store st (a : addr) n :
  Forall stocked (heap st) -> stocked n -> Forall stocked (heap (store st a n)).
Proof.
  intros Hall Hn. unfold store. simpl.
  apply Forall_lookup. intros b nb Hb.
  destruct (decide (a = b)) as [-> | Hne].
  - apply list_lookup_insert_Some in Hb.
    destruct Hb as [(_ & -> & _) | (Hab & _)]; [exact Hn | congruence].
  - rewrite list_lookup_insert_ne in Hb by exact Hne.
    exact (proj1 (Forall_lookup _ _) Hall b nb Hb).
Qed.

Lemma stocked_with_next n (c : Z) :
  stocked n -> c < size n \/ score_np n = true -> stocked (with_next n c).
Proof.
  intros (Hk & Hs & He & _ & Hr) Hc.
  split; [exact Hk |]. split; [exact Hs |]. split; [exact He |].
  split; [| exact Hr]. simpl. intros _ Hge.
  destruct Hc as [Hlt | Hnp]; [lia | exact Hnp].
Qed.

Lemma stocked_with_score n (x : Z) : stocked n -> stocked (with_score n (wrap64 x)).
Proof.
  intros (Hk & Hs & He & _ & _).
  split; [exact Hk |]. split; [exact Hs |]. split; [exact He |].
  split; [reflexivity | apply wrap64_range].
Qed.

Lemma get_next_stocked st (a : addr) (i : Z) st' :
  get_next st a = Ret (i, st') ->
  Forall stocked (heap st) ->
  0 <= i \/ (forall n, heap st !! a = Some n -> score_np n = true) ->
  Forall stocked (heap st') /\
  ((forall n, heap st !! a = Some n -> score_np n = true) ->
   forall n, heap st' !! a = Some n -> score_np n = true).
Proof.
  intros Hrun Hall Hcase.
  destruct (get_next_inv st a i st' Hrun) as (n & c & Hn & -> & Hc). split.
  - apply stocked_store; [exact Hall |].
    apply stocked_with_next; [exact (proj1 (Forall_lookup _ _) Hall a n Hn) |].
    destruct Hcase as [Hi | Hnp]; [left; by apply Hc | right; by apply Hnp].
  - intros Hnp n' Hn'. unfold store in Hn'. simpl in Hn'.
    apply list_lookup_insert_Some in Hn'.
    destruct Hn' as [(_ & <- & _) | (Hne & _)]; [| congruence].
    simpl. by apply Hnp.
Qed.

Lemma set_next_stocked (d : nat) :
  forall st (a : addr) (from : option addr) (s i : Z) st',
    set_next d st a from s = Ret (i, st') ->
    Forall stocked (heap st) -> Forall stocked (heap st').
Proof.
  induction d as [| d IH]; intros st a from s i st' Hrun Hall; [discriminate |].
  cbn [set_next] in Hrun.
  inv_bind Hrun. apply load_Ret_inv in Hstep. rename x into n0.
  inv_bind Hrun. apply load_Ret_inv in Hstep0. rename x into n1.
  inv_bind Hrun. destruct x as [nxt st2].
  inv_bind Hrun. destruct x as [nxt' st3].
  inv_bind Hrun. rename x into n3.
  set (st0 := log_call st {| caller := from; callee := a; additional_score := s |})
    in *.
  assert (Hall0 : Forall stocked (heap st0)) by exact Hall.
  assert (Hn1 : n1 = with_score n0 (wrap64 (score n0 + s))).
  { unfold store in Hstep0. simpl in Hstep0.
    apply list_lookup_insert_Some in Hstep0.
    destruct Hstep0 as [(_ & <- & _) | (Hne & _)]; [reflexivity | congruence]. }
  pose proof (stocked_with_score n0 (score n0 + s)
                (proj1 (Forall_lookup _ _) Hall0 a n0 Hstep)) as Hs1.
  rewrite <- Hn1 in Hs1.
  assert (Hnp1 : score_np n1 = true) by (by rewrite Hn1).
  set (st1 := store (store st0 a (with_score n0 (wrap64 (score n0 + s)))) a
                (with_next n1 (next n1 + 1))) in *.
  assert (Hall1 : Forall stocked (heap st1)).
  { apply stocked_store.
    - apply stocked_store; [exact Hall0 |]. rewrite <- Hn1. exact Hs1.
    - apply stocked_with_next; [exact Hs1 | by right]. }
  assert (Hnp : forall n, heap st1 !! a = Some n -> score_np n = true).
  { intros n Hn. unfold st1, store in Hn. simpl in Hn.
    apply list_lookup_insert_Some in Hn.
    destruct Hn as [(_ & <- & _) | (Hne & _)]; [exact Hnp1 | congruence]. }
  destruct (get_next_stocked st1 a nxt st2 Hstep1 Hall1 (or_intror Hnp))
    as [Hall2 Hnp2].
  destruct (get_next_stocked st2 a nxt' st3 Hstep2 Hall2 (or_intror (Hnp2 Hnp)))
    as [Hall3 _].
  destruct (nxt' <? 0).
  - destruct (parent n3) as [p |].
    + exact (IH _ _ _ _ _ _ Hrun Hall3).
    + inversion Hrun; subst. exact Hall3.
  - inversion Hrun; subst. exact Hall3.
Qed.

Lemma add_state_stocked st (c : addr) (s : ndarray3 F) st' :
  add_state st c s = Ret st' ->
  Forall stocked (heap st) -> Forall stocked (heap st').
Proof.
  intros Hrun Hall. unfold add_state in Hrun.
  inv_bind Hrun. apply load_Ret_inv in Hstep. rename x into n.
  inv_bind Hrun. rename x into n1. inversion Hrun; subst st'. clear Hrun.
  apply add_state_node_Ret in Hstep0. destruct Hstep0 as (-> & _).
  apply stocked_store; [exact Hall |].
  destruct (proj1 (Forall_lookup _ _) Hall c n Hstep) as (Hk & _ & He & Hf & Hr).
  split; [exact Hk |]. split; [intros _; by eexists |].
  split; [| split; [exact Hf | exact Hr]].
  intros Hev. split; [by eexists | exact (proj2 (He Hev))].
Qed.

Lemma add_counts_stocked (fuel : nat) st (cur : addr) (counts : list F) st' n :
  heap st !! cur = Some n -> evaluated n = false ->
  add_counts fuel st cur counts = Ret st' ->
  Forall stocked (heap st) -> Forall stocked (heap st').
Proof.
  intros Hn Hev Hrun Hall.
  destruct (proj1 (Forall_lookup _ _) Hall cur n Hn) as (Hk & Hs & _ & Hf & Hr).
  destruct (add_counts_inv fuel st st' cur counts n Hn (Hk Hev) Hrun)
    as (v & pi & action & g & r & rv & Hv & _ & _ & _ & _ & _ & _ & ->).
  simpl. apply Forall_app. split.
  - apply (stocked_store st cur _ Hall).
    split; [discriminate |].
    split; [intros _; apply Hs; rewrite Hv; by eexists |].
    split; [| split; [exact Hf | exact Hr]].
    intros _. split; [apply Hs; rewrite Hv; by eexists | by eexists].
  - apply Forall_forall. intros c Hc. apply list_elem_of_fmap in Hc.
    destruct Hc as (i & -> & _).
    split; [reflexivity |]. split; [intros [? Hx]; discriminate |].
    split; [discriminate |]. split; [simpl; lia | simpl; lia].
Qed.

Lemma get_state_loop_stocked (pi_array : list F) (v_value : F) (fuel : nat) :
  forall m st (o : option (ndarray3 F)) m' st',
    get_state_loop fuel m st pi_array v_value = Ret (o, m', st') ->
    Forall stocked (heap st) -> Forall stocked (heap st').
Proof.
  induction fuel as [| fuel IH]; intros m st o m' st' Hrun Hall; [discriminate |].
  cbn [get_state_loop] in Hrun.
  inv_bind Hrun. rename x into cur. clear Hstep.
  inv_bind Hrun. rename x into n. apply load_Ret_inv in Hstep. rename Hstep into Hn.
  inv_bind Hrun. destruct x as [[mp | me] st1].
  - inversion Hrun; subst o m' st'. clear Hrun.
    unfold expand_current in Hstep. destruct (evaluated n); simpl in Hstep;
      [discriminate |].
    inv_bind Hstep. destruct x as [mp' | me'].
    + inversion Hstep; subst. exact Hall.
    + destruct (env_get_visit_count (env me')). inv_bind Hstep. discriminate.
  - assert (Hs1 : Forall stocked (heap st1)).
    { unfold expand_current in Hstep. destruct (evaluated n) eqn:Hev;
        simpl in Hstep.
      - inversion Hstep; subst. exact Hall.
      - inv_bind Hstep. destruct x as [mp' | me'].
        + inversion Hstep.
        + destruct (env_get_visit_count (env me')) as [counts e1].
          inv_bind Hstep. inversion Hstep; subst.
          exact (add_counts_stocked _ _ _ _ _ _ Hn Hev Hstep1 Hall). }
    inv_bind Hrun. destruct x as [next_act st2].
    inv_bind Hrun. apply assert_Ret_inv, Z.leb_le in Hstep1.
    destruct (get_next_stocked _ _ _ _ Hstep0 Hs1 (or_introl Hstep1)) as [Hs2 _].
    destruct (env_step (env me) next_act) as [[isDone s] e].
    inv_bind Hrun. rename x0 into n2. inv_bind Hrun. destruct x0.
    + unfold end_traversal in Hrun.
      inv_bind Hrun. inv_bind Hrun. inv_bind Hrun. inv_bind Hrun. inv_bind Hrun.
      destruct x4 as [nxt st4].
      pose proof (set_next_stocked _ _ _ _ _ _ _ Hstep8 Hs2) as Hs4.
      destruct (nxt <? 0).
      * inversion Hrun; subst. exact Hs4.
      * match type of Hrun with
        | context [env_resetAt ?e0 ?f0] => destruct (env_resetAt e0 f0) as [s0 e0']
        end.
        exact (IH _ _ _ _ _ Hrun Hs4).
    + unfold descend in Hrun. inv_bind Hrun. inv_bind Hrun.
      exact (IH _ _ _ _ _ Hrun (add_state_stocked _ _ _ _ Hstep5 Hs2)).
Qed.

Lemma get_state_many_stocked (inputs : list (nat * list F * F)) :
  forall m st (outs : list (option (ndarray3 F))) m' st',
    get_state_many inputs m st = Ret (outs, m', st') ->
    Forall stocked (heap st) -> Forall stocked (heap st').
Proof.
  induction inputs as [| [[fuel pi_array] v_value] inputs IH];
    intros m st outs m' st' Hrun Hall; simpl in Hrun.
  - by inversion Hrun; subst.
  - inv_bind Hrun. destruct x as [[o m1] st1].
    inv_bind Hrun. destruct x as [[os m2] st2]. inversion Hrun; subst.
    apply (IH _ _ _ _ _ Hstep0).
    unfold get_state in Hstep. destruct (phase m).
    + exact (get_state_loop_stocked _ _ _ _ _ _ _ _ Hstep Hall).
    + inversion Hstep; subst. exact Hall.
Qed.

Lemma play_stocked (e : E) (g : Rng) (f max_var1 R : Z) (tau : Z -> F) (rs : Z)
    (inputs : list (nat * list F * F)) (outs : list (option (ndarray3 F))) m st :
  play e g f max_var1 R tau rs inputs = Ret (outs, m, st) ->
  Forall stocked (heap st).
Proof.
  intros Hplay. unfold play in Hplay. inv_bind Hplay. destruct x as [m0 st0].
  apply (get_state_many_stocked _ _ _ _ _ _ Hplay).
  unfold MCT_init in Hstep. destruct (env_resetAt e f) as [[s |] e1].
  - simpl in Hstep. inv_bind Hstep. inversion Hstep; subst.
    apply (add_state_stocked _ _ _ _ Hstep0). simpl.
    apply Forall_cons. split; [| by apply Forall_nil].
    split; [reflexivity |]. split; [intros [? Hx]; discriminate |].
    split; [discriminate |]. split; [simpl; lia | simpl; lia].
  - inversion Hstep; subst. by apply Forall_nil.
Qed.

End StockedRun.

Section Credit.
Context {F : Type} `{Arith F}.
Context {Rng : Type} `{Sampler F Rng}.
Context {E : Type} `{Environment F E}.
Context {Pos : Type} `{!Deterministic Pos}.

Implicit Types (n : Pi_struct F) (h : list (Pi_struct F)) (st : Store F Rng)
  (m : MCT F E).

Lemma level_bounds (pm : addr -> Pos) (rs : Z) (front pend : option addr) h
    (r0 : Pi_struct F) :
  heap_ok pm rs front pend h -> h !! 0%nat = Some r0 -> level r0 = 0 ->
  forall (a : addr) n, h !! a = Some n ->
    0 <= level n /\ (evaluated n = true -> level n <= Z.max 0 rs).
Proof.
  intros Hh Hr0 Hl0 a. induction (lt_wf a) as [a _ IH]. intros n Hn.
  destruct (Hh a n Hn) as (_ & Hlink & _). unfold link_ok in Hlink.
  destruct (parent n) as [p |].
  - destruct Hlink as (_ & pn & act & r & Hlt & Hpn & _ & _ & _ & Hlev & _ & _ & _ & _
                       & Hfront).
    destruct (IH p Hlt pn Hpn) as [Hp0 _]. split; [lia |].
    intros Hev. destruct (Hfront (or_introl Hev)) as (_ & Hrs & _). lia.
  - subst a. assert (Hq : Some n = Some r0) by (rewrite <- Hn; exact Hr0).
    inversion Hq; subst n. split; lia.
Qed.

(** While [B * (total of the repeats)] fits 64 bits no score wraps
    around. *)
Lemma credited_bounds (B : Z) (cs : list call) (ts : list traversal) :
  Forall2 (fun c t => callee c = t_node t /\
                      additional_score c = wrap64 (t_level t * t_repeats t)) cs ts ->
  Forall (fun t => (0 <= t_level t <= B) /\ 1 <= t_repeats t) ts ->
  B * zsum (map t_repeats ts) < 2 ^ 63 ->
  0 <= zsum (map additional_score cs) <= B * zsum (map t_repeats ts).
Proof.
  induction 1 as [| c t cs ts [_ Hc] Hrest IH]; intros Hall Hfit.
  - unfold zsum. simpl. lia.
  - apply Forall_cons in Hall. destruct Hall as [[Hl Hr] Hall].
    assert (Hpos : 0 <= zsum (map t_repeats ts)).
    { apply zsum_nonneg. apply Forall_forall. intros x Hx.
      apply list_elem_of_fmap in Hx. destruct Hx as (t0 & -> & Ht0).
      destruct (proj1 (Forall_forall _ _) Hall t0 Ht0) as [_ Hge1]. lia. }
    cbn [map] in *. rewrite !zsum_cons in *. rewrite Hc.
    assert (Hfit' : B * zsum (map t_repeats ts) < 2 ^ 63) by nia.
    specialize (IH Hall Hfit').
    rewrite wrap64_small by nia. nia.
Qed.

(** The scores credited in a run that is over. *)
Lemma run_credit (pm : addr -> Pos) (R rs : Z) m st :
  run_ok pm R rs m st -> phase m = None -> Z.max 0 rs * R < 2 ^ 63 ->
  0 <= zsum (map additional_score (driver_calls (calls st))) <= Z.max 0 rs * R.
Proof.
  intros Hok Hph Hfit.
  destruct (run_top _ _ _ _ _ Hok) as (r0 & Hr0 & Hrep0 & Hl0 & _).
  pose proof (run_heap _ _ _ _ _ Hok) as Hheap.
  pose proof (level_bounds pm rs _ _ _ r0 Hheap Hr0 Hl0) as Hlevels.
  pose proof (run_acct _ _ _ _ _ Hok) as Hacct.
  assert (Htrav : Forall (fun t => (0 <= t_level t <= Z.max 0 rs) /\ 1 <= t_repeats t)
                    (traversals st)).
  { eapply Forall_impl; [exact (log_visits _ Hacct) |]. simpl.
    intros t (Ht & n & Hn & Hev & Hl & _). rewrite <- Hl.
    destruct (Hlevels _ n Hn) as [Hge0 Hb]. specialize (Hb Hev). lia. }
  destruct (run_ok_finished pm R rs m st Hok Hph)
    as (r & Hr & HR & _ & _ & _ & _ & _ & Hrepeat).
  pose proof (credited_bounds (Z.max 0 rs) _ _ (log_driver _ Hacct) Htrav) as Hb.
  rewrite <- (log_repeat _ Hacct), Hrepeat in Hb. by apply Hb.
Qed.

End Credit.

Section Conservation.
Context {F : Type} `{Arith F}.
Context {Rng : Type} `{Sampler F Rng}.
Context {E : Type} `{Environment F E}.
Context {Pos : Type} `{!Deterministic Pos}.

Implicit Types (n : Pi_struct F) (h : list (Pi_struct F)) (st : Store F Rng)
  (m : MCT F E).

(** C4 (amended): across a whole run on a deterministic environment (from
    the construction of the driver until [phase] is [None]), the scores
    that the driver passes into [set_next], at the end of each traversal,
    add up to the final score of the root: as [numpy.int64] values, that
    is modulo [2^64], and as integers whenever
    [max(0, resign) * nrepeat < 2^63], where nothing wraps around.  The other calls of [set_next] are the recursive
    ones, by which a node hands its score to its parent, and they are not
    part of that sum: each of them is made by a node all of whose actions
    are explored, directly after a call of [set_next] on that node, passes
    the total score of that node, and goes to its parent; every expanded
    node below the root makes exactly one such call and a node that was
    never expanded makes none, so no score is dropped and none is counted
    twice. *)
Theorem score_conservation (e : E) (g : Rng) (f max_var1 R : Z) (tau : Z -> F)
    (rs : Z) (inputs : list (nat * list F * F))
    (outs : list (option (ndarray3 F))) m st :
  env_ok e ->
  play e g f max_var1 R tau rs inputs = Ret (outs, m, st) ->
  phase m = None -> Pi_root m <> None ->
  exists r,
    Pi_root m = Some 0%nat /\ heap st !! 0%nat = Some r /\ parent r = None /\
    wrap64 (zsum (map additional_score (driver_calls (calls st)))) = score r /\
    (Z.max 0 rs * R < 2 ^ 63 ->
     zsum (map additional_score (driver_calls (calls st))) = score r) /\
    (forall c a, c ∈ calls st -> caller c = Some a ->
       exists n, heap st !! a = Some n /\ finished n = true /\
                 parent n = Some (callee c) /\ additional_score c = score n) /\
    linked (calls st) /\
    (forall a n, heap st !! a = Some n -> parent n <> None ->
       length (propagations_of a (calls st))
       = if evaluated n then 1%nat else 0%nat).
Proof.
  intros He Hplay Hph Hroot.
  destruct (play_ok e g f max_var1 R tau rs inputs outs m st He Hplay Hroot)
    as (pm & Hok & _).
  destruct (run_ok_finished pm R rs m st Hok Hph)
    as (r & Hr & _ & _ & Hpar & Hfin & Hheap & Hscore & _).
  pose proof (run_prop _ _ _ _ _ Hok) as Hprop.
  pose proof (run_acct _ _ _ _ _ Hok) as Hacct.
  assert (Hwrap : wrap64 (zsum (map additional_score (driver_calls (calls st))))
                  = score r).
  { rewrite <- (log_score _ Hacct), Hscore. apply wrap64_small.
    pose proof (play_stocked e g f max_var1 R tau rs inputs outs m st Hplay) as Hs.
    destruct (proj1 (Forall_lookup _ _) Hs 0%nat r Hr) as (_ & _ & _ & _ & Hrange).
    exact Hrange. }
  exists r. split; [exact (run_root _ _ _ _ _ Hok) |]. split; [exact Hr |].
  split; [exact Hpar |]. split; [exact Hwrap |]. split; [| split; [| split]].
  - intros Hfit. rewrite <- Hwrap. symmetry. apply wrap64_small.
    pose proof (run_credit pm R rs m st Hok Hph Hfit). lia.
  - intros c a Hc Ha. exact (log_propagation _ _ Hprop c Hc a Ha).
  - exact (log_linked _ _ Hprop).
  - intros a n Hn Hp. destruct (evaluated n) eqn:Hev.
    + apply propagations_once; [exact (log_once _ _ Hprop) |].
      apply (log_all _ _ Hprop a n Hn); [| exact Hp | discriminate].
      by apply (all_finished pm rs (heap st) r Hheap Hr Hfin a n).
    + rewrite propagations_none; [reflexivity |].
      intros Hin. apply elem_of_propagators in Hin. destruct Hin as (c & Hc & Ha).
      destruct (log_propagation _ _ Hprop c Hc a Ha) as (n' & Hn' & Hf' & _).
      assert (n' = n) by congruence. subst n'.
      apply finished_true in Hf'. destruct Hf'. congruence.
Qed.

(** C5 (amended): in a run on a deterministic environment, a traversal
    that ends with the action [a] of a node accounts for all the
    [nrepeats[a] >= 1] repeats given to that action at once.  Over the
    traversals made until [set_next] returns -1 at the root these repeat
    counts add up to the budget [R] of the root exactly; hence there are at
    most [R] traversals, and exactly [R] if and only if every one of them
    accounts for a single repeat.  Each traversal ends with one call of
    [set_next] by the driver, on the node the last action is taken from and
    with the score [level * nrepeats[a]], a [numpy.int64]. *)
Theorem traversals_exhaust_budget (e : E) (g : Rng) (f max_var1 R : Z)
    (tau : Z -> F) (rs : Z) (inputs : list (nat * list F * F))
    (outs : list (option (ndarray3 F))) m st :
  env_ok e ->
  play e g f max_var1 R tau rs inputs = Ret (outs, m, st) ->
  phase m = None -> Pi_root m <> None ->
  zsum (map t_repeats (traversals st)) = R /\
  Forall (fun t => 1 <= t_repeats t /\
                   exists n r, heap st !! t_node t = Some n /\
                               level n = t_level t /\ nrepeats n = Some r /\
                               0 <= t_action t /\
                               r !! Z.to_nat (t_action t) = Some (t_repeats t))
    (traversals st) /\
  Z.of_nat (length (traversals st)) <= R /\
  (Z.of_nat (length (traversals st)) = R
   <-> Forall (fun t => t_repeats t = 1) (traversals st)) /\
  Forall2 (fun c t => callee c = t_node t /\
                      additional_score c = wrap64 (t_level t * t_repeats t))
    (driver_calls (calls st)) (traversals st).
Proof.
  intros He Hplay Hph Hroot.
  destruct (play_ok e g f max_var1 R tau rs inputs outs m st He Hplay Hroot)
    as (pm & Hok & _).
  destruct (run_ok_finished pm R rs m st Hok Hph)
    as (r & _ & _ & _ & _ & _ & _ & _ & Hrepeat).
  pose proof (run_acct _ _ _ _ _ Hok) as Hacct.
  assert (Hsum : zsum (map t_repeats (traversals st)) = R).
  { rewrite <- (log_repeat _ Hacct). exact Hrepeat. }
  assert (Hpos : Forall (fun t => 1 <= t_repeats t) (traversals st)).
  { eapply Forall_impl; [exact (log_visits _ Hacct) |]. intros t [Ht _]. exact Ht. }
  assert (Hpos' : Forall (fun x => 1 <= x) (map t_repeats (traversals st))).
  { apply Forall_forall. intros x Hx. apply list_elem_of_fmap in Hx.
    destruct Hx as (t & -> & Ht). by apply (proj1 (Forall_forall _ _) Hpos). }
  destruct (zsum_ones _ Hpos') as [Hle Hiff]. rewrite length_map in Hle, Hiff.
  rewrite Hsum in Hle, Hiff.
  split; [exact Hsum |]. split; [| split; [exact Hle | split]].
  - eapply Forall_impl; [exact (log_visits _ Hacct) |]. simpl.
    intros t (Ht & n & Hn & _ & Hl & Ha & r0 & Hr0 & Hra). split; [exact Ht |].
    exists n, r0. auto.
  - rewrite Hiff. rewrite Forall_fmap. reflexivity.
  - exact (log_driver _ Hacct).
Qed.

End Conservation.


Section Progress.
Context {F : Type} `{Arith F}.
Context {Rng : Type} `{Sampler F Rng}.
Context {E : Type} `{Environment F E}.
Context {Pos : Type} `{!Deterministic Pos}.

Implicit Types (n : Pi_struct F) (h : list (Pi_struct F)) (st : Store F Rng)
  (m : MCT F E).

Lemma zsum_ge_nth (l : list Z) :
  Forall (fun x => 0 <= x) l -> forall i : nat, nth i l 0 <= zsum l.
Proof.
  induction 1 as [| x l Hx Hl IH]; intros i; simpl.
  - destruct i; lia.
  - destruct i as [| i]; [pose proof (zsum_nonneg l Hl); lia |].
    specialize (IH i). lia.
Qed.

Lemma zsum_ge_two (l : list Z) :
  Forall (fun x => 0 <= x) l ->
  forall i j : nat, (i < j)%nat -> nth i l 0 + nth j l 0 <= zsum l.
Proof.
  induction 1 as [| x l Hx Hl IH]; intros i j Hij; simpl.
  - destruct i, j; lia.
  - destruct j as [| j]; [lia |]. destruct i as [| i].
    + pose proof (zsum_ge_nth l Hl j). lia.
    + specialize (IH i j). lia.
Qed.

Lemma masked_nonneg (r : list Z) (v : list bool) :
  Forall (fun x => 0 <= x) r ->
  Forall (fun x => 0 <= x) (zip_with (fun x b => x * Z.b2z b) r v).
Proof.
  intros Hr. revert v. induction Hr as [| x r Hx Hr IH]; intros v; [constructor |].
  destruct v as [| b v]; [constructor |]. simpl. constructor; [| apply IH].
  destruct b; simpl; lia.
Qed.

(** A budget that is positive is the budget of some action. *)
Lemma budget_actionable (r : list Z) (v : list bool) :
  Forall (fun x => 0 <= x) r -> length r = length v ->
  (forall j, 0 <= j < Z.of_nat (length r) -> ~ actionable r v j) ->
  valid_budget r v = 0.
Proof.
  intros Hr Hl Hnone. unfold valid_budget.
  set (mk := zip_with (fun x b => x * Z.b2z b) r v).
  assert (Hlen : length mk = length r).
  { unfold mk. rewrite length_zip_with. lia. }
  rewrite <- (take_ge mk (length mk)) by lia.
  rewrite (zsum_take_zeros mk 0 (length mk)); [reflexivity | lia | lia |].
  intros j Hj. apply masked_nth; [exact Hr | exact Hl | lia |].
  apply Hnone. lia.
Qed.

(** With a budget of one, at most one action can be taken. *)
Lemma budget_one (r : list Z) (v : list bool) (i j : Z) :
  Forall (fun x => 0 <= x) r -> valid_budget r v = 1 ->
  actionable r v i -> actionable r v j -> i = j.
Proof.
  intros Hr Hone Hi Hj.
  assert (Hpair : forall a b, actionable r v a -> actionable r v b -> a < b -> False).
  { intros a b Ha Hb Hlt.
    pose proof (zsum_ge_two _ (masked_nonneg r v Hr) (Z.to_nat a) (Z.to_nat b)) as Hge.
    rewrite (masked_nth_actionable r v a Ha), (masked_nth_actionable r v b Hb) in Hge.
    fold (valid_budget r v) in Hge. rewrite Hone in Hge.
    destruct Ha as (Ha0 & ra & Hra & Hpa & _). destruct Hb as (Hb0 & rb & Hrb & Hpb & _).
    rewrite (nth_lookup_Some _ _ _ _ Hra), (nth_lookup_Some _ _ _ _ Hrb) in Hge.
    lia. }
  destruct (Z.lt_trichotomy i j) as [Hlt | [Heq | Hgt]]; [| exact Heq |].
  - destruct (Hpair i j Hi Hj Hlt).
  - destruct (Hpair j i Hj Hi Hgt).
Qed.

(** Right after its expansion a node with a positive repeat budget has an
    action to take. *)
Lemma get_next_after_expansion st (cur : addr) (cn : Pi_struct F) (fuel : nat)
    (counts : list F) st1 :
  node_ok cn -> heap st !! cur = Some cn -> evaluated cn = false ->
  add_counts fuel st cur counts = Ret st1 -> 0 < repeat cn ->
  exists i st2, get_next st1 cur = Ret (i, st2) /\ 0 <= i.
Proof.
  intros Hok Hcn Hev Hadd Hrep.
  destruct (ok_fresh cn Hok Hev) as (Hscore & Hnext & Hkids).
  destruct (add_counts_inv fuel st st1 cur counts cn Hcn Hkids Hadd)
    as (v & pi & action & g & r & rv & Hv & _ & _ & Hr & Hsize & Hrv & Hsum & ->).
  assert (Hlr : length r = Z.to_nat (size cn)) by (by rewrite Hr, histogram_length).
  assert (Hlv : length v = Z.to_nat (size cn)) by (by apply (ok_mask cn Hok)).
  rewrite np_zip_same_length in Hrv by lia. inversion Hrv; subst rv. clear Hrv.
  assert (Hlt : (cur < length (heap st))%nat) by (by apply lookup_lt_Some in Hcn).
  set (n1 := with_evaluated
               (with_children (with_nrepeats (with_Pi cn (Some pi)) (Some r))
                  (child_entries r (seqZ 0 (size cn)) (length (heap st))))
               true) in *.
  unfold get_next, load. simpl.
  rewrite lookup_app_l by (rewrite length_insert; exact Hlt).
  rewrite list_lookup_insert_eq by exact Hlt. simpl.
  destruct (get_next_node_spec n1 r v) as (i' & c & Hrun & Hnc & Hpast & Hres);
    try reflexivity; try assumption; [simpl; lia |].
  rewrite Hrun. simpl. eexists _, _. split; [reflexivity |].
  simpl in Hnc, Hpast, Hres. rewrite Hnext in Hnc, Hpast, Hres.
  destruct Hres as [(-> & Hclt & Hact) | (-> & Hge & Hc)]; [lia | exfalso].
  assert (Hzero : valid_budget r v = 0).
  { apply budget_actionable; [rewrite Hr; apply histogram_nonneg | lia |].
    intros j Hj. apply Hpast. lia. }
  unfold valid_budget in Hzero. lia.
Qed.

(** The last action of a root whose repeat budget is one: [set_next]
    answers -1. *)
Lemma root_last_action (d : nat) st n (s : Z) :
  heap st !! 0%nat = Some n -> node_ok n -> evaluated n = true ->
  next n < size n -> parent n = None -> repeat n = 1 ->
  set_next (S d) st 0%nat None s
  = Ret (-1, store (log_call st {| caller := None; callee := 0%nat;
                                   additional_score := s |})
               0%nat (with_next (with_score n (wrap64 (score n + s))) (size n))).
Proof.
  intros Hn Hok Hev Hlive Hpar Hrep.
  destruct (set_next_unfold d st 0%nat None s n Hn Hok Hev Hlive)
    as (r & v & c & Hr & Hv & Hlt & Hle & Hpast & Hact & Heq).
  rewrite Heq. cbv zeta.
  destruct (ok_eval n Hok Hev)
    as (r' & v' & Hr' & Hv' & _ & _ & Hnonneg & Hbudget & _ & _ & _ & Hcursor).
  assert (r' = r) by congruence. assert (v' = v) by congruence. subst r' v'.
  destruct (c <? size n) eqn:Ec.
  - apply Z.ltb_lt in Ec. exfalso.
    assert (next n = c); [| lia].
    apply (budget_one r v); auto. congruence.
  - apply Z.ltb_ge in Ec. assert (c = size n) by lia. subst c.
    by rewrite Hpar.
Qed.

(** The traversal that ends at a root whose repeat budget is one ends the
    run: [loop] is not entered again. *)
Lemma end_traversal_last
    (loop : MCT F E -> Store F Rng
            -> res (option (ndarray3 F) * MCT F E * Store F Rng))
    (pm : addr -> Pos) (rs : Z) m st n :
  driver_ok pm rs m ->
  heap st !! 0%nat = Some n -> node_ok n -> evaluated n = true ->
  next n < size n -> parent n = None -> repeat n = 1 ->
  exists m' st' r' (ra : Z),
    end_traversal loop m st 0%nat n (next n) = Ret (None, m', st') /\
    phase m' = None /\ Pi_root m' = Some 0%nat /\
    mct_file_no m' = mct_file_no m /\
    calls st' = calls st ++ [{| caller := None; callee := 0%nat;
                                additional_score := wrap64 (level n * ra) |}] /\
    heap st' !! 0%nat = Some r' /\
    score r' = wrap64 (score n + wrap64 (level n * ra)) /\
    repeat r' = 1.
Proof.
  intros Hdrv Hn Hok Hev Hlive Hpar Hrep.
  destruct Hdrv as (Hroot & Hres & [lo Hlo] & [hi Hhi] & He & Hp0 & Hph).
  destruct (ok_eval n Hok Hev)
    as (r & v & Hr & Hv & Hsize & Hlr & Hnonneg & Hbudget & _ & _ & _ & Hcursor).
  pose proof (ok_next n Hok) as Hnext.
  destruct (lookup_lt_is_Some_2 r (Z.to_nat (next n))) as [ra Hra]; [lia |].
  assert (Hgr : np_get r (next n) = Ret ra).
  { rewrite <- (Z2Nat.id (next n)) by lia. by apply np_get_nonneg. }
  assert (Hlt : (0 < length (heap st))%nat) by (by apply lookup_lt_Some in Hn).
  unfold end_traversal. rewrite Hlo. cbn [attr]. rewrite bind_Ret. cbv beta zeta.
  set (m2 := if level n <? lo then with_min_step m (Some (level n)) else m).
  assert (Hm2 : max_step m2 = Some hi /\ Pi_root m2 = Some 0%nat /\
                mct_file_no m2 = mct_file_no m).
  { unfold m2. destruct (level n <? lo); simpl; auto. }
  destruct Hm2 as (Hhi2 & Hroot2 & Hfile2).
  rewrite Hhi2. cbn [attr]. rewrite bind_Ret. cbv beta.
  set (m3 := if hi <? level n then with_max_step m2 (Some (level n)) else m2).
  assert (Hm3 : Pi_root m3 = Some 0%nat /\ mct_file_no m3 = mct_file_no m).
  { unfold m3. destruct (hi <? level n); simpl; auto. }
  destruct Hm3 as (Hroot3 & Hfile3).
  rewrite Hr. cbn [attr]. rewrite bind_Ret. rewrite Hgr, bind_Ret.
  set (st3 := log_traversal st _).
  assert (Hn3 : heap st3 !! 0%nat = Some n) by exact Hn.
  assert (Hlen3 : length (heap st3) = length (heap st)) by reflexivity.
  destruct (length (heap st3)) as [| d] eqn:Ed; [lia |].
  rewrite (root_last_action d st3 n (wrap64 (level n * ra)) Hn3 Hok Hev Hlive Hpar
             Hrep).
  rewrite bind_Ret. cbv beta iota.
  replace (-1 <? 0) with true by reflexivity.
  eexists _, _, _, ra. split; [reflexivity |].
  split; [reflexivity |]. split; [exact Hroot3 |]. split; [exact Hfile3 |].
  split; [reflexivity |]. split.
  - unfold store, with_heap. simpl. by apply list_lookup_insert_eq.
  - split; [reflexivity | exact Hrep].
Qed.

(** On a problem whose first action always ends the episode, with a repeat
    budget of one: once the root has been expanded, the same call of
    [get_state] makes the only traversal and finishes the run. *)
Lemma first_traversal (pm : addr -> Pos) (rs : Z) (fuel : nat) m st n
    (pi_array : list F) (v_value : F) m1 st1 :
  run_ok pm 1 rs m st -> phase m <> None -> Pi_current m = Some 0%nat ->
  heap st !! 0%nat = Some n -> evaluated n = false -> calls st = [] ->
  (forall a, term_at (pm 0%nat) a = true) ->
  expand_current fuel m st 0%nat n pi_array v_value = Ret (Expanded m1, st1) ->
  exists m' st' r,
    get_state_loop (S fuel) m st pi_array v_value = Ret (None, m', st') /\
    phase m' = None /\ Pi_root m' = Some 0%nat /\
    mct_file_no m' = mct_file_no m /\
    calls st' = [{| caller := None; callee := 0%nat; additional_score := 0 |}] /\
    heap st' !! 0%nat = Some r /\ score r = 0 /\ repeat r = 1.
Proof.
  intros Hok Hph Hcur Hn Hev Hcalls Hterm Hexp.
  pose proof (run_driver_ok pm 1 rs m st Hok Hph) as Hdrv.
  pose proof (run_front pm 1 rs m st Hok Hph) as Hheap. rewrite Hcur in Hheap.
  destruct (Hheap 0%nat n Hn) as (Hokn & _ & _).
  destruct (run_top _ _ _ _ _ Hok) as (r0 & Hr0 & Hrep0 & Hlev0 & _).
  assert (r0 = n) by congruence. subst r0.
  destruct (ok_fresh n Hokn Hev) as (Hscore & Hnext & Hkids).
  (* the expansion *)
  destruct (expand_current_ok pm 1 rs fuel m st 0%nat n pi_array v_value
              (Expanded m1) st1 Hok Hph Hcur Hn Hexp)
    as (m1' & Hsame & [(Hcontra & _) | (Hm1 & Hready)]); [discriminate |].
  inversion Hm1; subst m1'. clear Hm1.
  assert (Hadd : exists counts, add_counts fuel st 0%nat counts = Ret st1).
  { unfold expand_current in Hexp. rewrite Hev in Hexp. simpl in Hexp.
    inv_bind Hexp. destruct x as [mp | me]; [discriminate |].
    destruct (env_get_visit_count (env me)) as [counts e].
    inv_bind Hexp. exists counts. congruence. }
  destruct Hadd as (counts & Hadd).
  destruct (get_next_after_expansion st 0%nat n fuel counts st1 Hokn Hn Hev Hadd)
    as (i & st2 & Hget & Hi); [lia |].
  destruct (Hready i st2 Hget Hi) as (pm1 & Hrdy & Hpm1 & Hlen).
  destruct (expand_shape st 0%nat n fuel counts st1 i st2 Hokn Hn Hev Hadd Hget Hi)
    as (v & pi & r & Hv & Hsize & Hlr & Hlv & Hnonneg & Hbudget & Hpast & Hact & Hilt
        & Hheap2 & Hcalls2 & Htrav2).
  assert (Hlt : (0 < length (heap st))%nat) by (by apply lookup_lt_Some in Hn).
  set (n2 := expanded_node n (length (heap st)) pi r i) in *.
  assert (Hn2 : heap st2 !! 0%nat = Some n2).
  { rewrite Hheap2. by apply lookup_expanded_cur. }
  destruct Hrdy as (Hheap2' & Hprop2 & Hacct2 & _ & _).
  destruct (Hheap2' 0%nat n2 Hn2) as (Hokn2 & _ & _).
  assert (Hpar2 : parent n2 = None).
  { pose proof (proj2 (root_iff pm1 rs _ _ _ 0%nat n2 Hheap2' Hn2) eq_refl) as Hroot.
    unfold is_root in Hroot. by destruct (parent n2). }
  destruct Hsame as (Hroot1 & Hcur1 & Hmin1 & Hmax1 & Hres1 & Hfile1 & Hph1 & He1
                     & Hpos1).
  destruct Hdrv as (Hroot & Hres & Hmin & Hmax & He & Hp0 & _).
  assert (Hposcur : pos (env m1) = pm 0%nat).
  { rewrite Hpos1. by apply (run_pos _ _ _ _ _ Hok). }
  destruct (step_ok (env m1) i He1) as (He2 & Hpos2 & Hout).
  (* the iteration *)
  cbn [get_state_loop]. rewrite Hcur. cbn [attr]. rewrite bind_Ret.
  rewrite (load_Some st 0%nat n Hn), bind_Ret. rewrite Hexp, bind_Ret.
  cbv beta iota. rewrite Hget, bind_Ret. cbv beta iota.
  rewrite (proj2 (Z.leb_le 0 i) Hi). cbn [assert]. rewrite bind_Ret.
  destruct (env_step (env m1) i) as [[isDone s] e2].
  simpl in He2, Hpos2, Hout. inversion Hout; subst isDone s. clear Hout.
  rewrite Hposcur, Hterm.
  rewrite (load_Some st2 0%nat n2 Hn2), bind_Ret. rewrite bind_Ret.
  set (m2 := with_mct_state (with_env m1 e2) _).
  assert (Hdrv2 : driver_ok pm1 rs m2).
  { unfold driver_ok, m2. simpl. rewrite Hroot1, Hres1, Hmin1, Hmax1, Hfile1.
    rewrite (Hpm1 0%nat Hlt). auto 10. }
  assert (Hnext2 : next n2 = i) by reflexivity.
  assert (Hev2 : evaluated n2 = true) by reflexivity.
  assert (Hrep2 : repeat n2 = 1) by exact Hrep0.
  assert (Hlive2 : next n2 < size n2) by (rewrite Hnext2; exact Hilt).
  rewrite <- Hnext2.
  destruct (end_traversal_last
              (fun m st => get_state_loop fuel m st pi_array v_value)
              pm1 rs m2 st2 n2 Hdrv2 Hn2 Hokn2 Hev2 Hlive2 Hpar2 Hrep2)
    as (m' & st' & r' & ra & Hend & Hph' & Hroot' & Hfile' & Hcalls' & Hr' & Hsc'
        & Hrep').
  exists m', st', r'. split; [exact Hend |]. split; [exact Hph' |].
  split; [exact Hroot' |]. split; [rewrite Hfile'; unfold m2; simpl; exact Hfile1 |].
  split.
  - rewrite Hcalls', Hcalls2, Hcalls.
    assert (Hl2 : level n2 = 0) by exact Hlev0. rewrite Hl2. reflexivity.
  - split; [exact Hr' |]. split; [| exact Hrep'].
    assert (Hl2 : level n2 = 0) by exact Hlev0.
    assert (Hs2 : score n2 = 0) by exact Hscore.
    rewrite Hsc', Hl2, Hs2, Z.mul_0_l. reflexivity.
Qed.

End Progress.


Section OneStep.
Context {F : Type} `{Arith F}.
Context {Rng : Type} `{Sampler F Rng}.
Context {E : Type} `{Environment F E}.
Context {Pos : Type} `{!Deterministic Pos}.

Implicit Types (n : Pi_struct F) (h : list (Pi_struct F)) (st : Store F Rng)
  (m : MCT F E).

Lemma report_single (f : Z) m st (r : Pi_struct F) :
  Pi_root m = Some 0%nat -> mct_file_no m = f ->
  heap st !! 0%nat = Some r -> score r = 0 -> repeat r = 1 ->
  report_performance m st = Ret (f, 1, 0).
Proof.
  intros Hroot Hfile Hr Hs Hrep. unfold report_performance.
  rewrite Hroot, (load_Some st 0%nat r Hr), bind_Ret. congruence.
Qed.

(** One call of [get_state] on a problem whose first action always ends the
    episode, with a repeat budget of one: the call pauses with the root
    still to be expanded, or it ends the run after a single traversal. *)
Lemma get_state_one_step (pm : addr -> Pos) (rs : Z) (fuel : nat) m st
    (pi_array : list F) (v_value : F) (o : option (ndarray3 F)) m' st' :
  run_ok pm 1 rs m st -> awaiting m st ->
  (forall a, term_at (pos0 (mct_file_no m)) a = true) ->
  get_state fuel m st pi_array v_value = Ret (o, m', st') ->
  (exists pm', run_ok pm' 1 rs m' st') /\ mct_file_no m' = mct_file_no m /\
  (awaiting m' st' \/ single_traversal (mct_file_no m) m' st').
Proof.
  intros Hok (Hph & Hcur & Hcalls & n & Hn & Hev) Hterm Hrun.
  destruct (get_state_ok 1 rs pm fuel m st pi_array v_value o m' st' Hok Hrun)
    as (pm' & Hok' & Hfile').
  split; [by exists pm' |]. split; [exact Hfile' |].
  unfold get_state in Hrun. destruct (phase m) as [b |] eqn:Eph; [| congruence].
  destruct fuel as [| fuel]; [discriminate |].
  pose proof Hrun as Hrun0. cbn [get_state_loop] in Hrun.
  rewrite Hcur in Hrun. cbn [attr] in Hrun. rewrite bind_Ret in Hrun.
  rewrite (load_Some st 0%nat n Hn), bind_Ret in Hrun.
  destruct (expand_current fuel m st 0%nat n pi_array v_value)
    as [[x st1] | ex |] eqn:Hexp; [| discriminate | discriminate].
  rewrite bind_Ret in Hrun.
  assert (Hph' : phase m <> None) by congruence.
  destruct (expand_current_ok pm 1 rs fuel m st 0%nat n pi_array v_value x st1
              Hok Hph' Hcur Hn Hexp) as (m1 & Hsame & Hx).
  destruct Hx as [(-> & ->) | (-> & _)].
  - (* paused *)
    inversion Hrun; subst o m' st'. left.
    destruct Hsame as (_ & Hcur1 & _ & _ & _ & _ & Hph1 & _).
    split; [exact Hph1 |]. split; [congruence |]. split; [exact Hcalls |].
    by exists n.
  - (* expanded: the traversal follows *)
    right.
    assert (Hterm0 : forall a, term_at (pm 0%nat) a = true).
    { intros a. rewrite (run_pos0 _ _ _ _ _ Hok). apply Hterm. }
    destruct (first_traversal pm rs fuel m st n pi_array v_value m1 st1
                Hok Hph' Hcur Hn Hev Hcalls Hterm0 Hexp)
      as (m2 & st2 & r & Hloop & Hph2 & Hroot2 & Hfile2 & Hcalls2 & Hr2 & Hs2 & Hrep2).
    rewrite Hloop in Hrun0. inversion Hrun0; subst o m' st'.
    split; [exact Hph2 |]. split; [exact Hcalls2 |].
    split; [by exists r |]. by apply (report_single _ m2 st2 r).
Qed.

Lemma get_state_many_one_step (rs : Z) (inputs : list (nat * list F * F)) :
  forall (pm : addr -> Pos) m st (outs : list (option (ndarray3 F))) m' st',
    run_ok pm 1 rs m st -> awaiting m st ->
    (forall a, term_at (pos0 (mct_file_no m)) a = true) ->
    get_state_many inputs m st = Ret (outs, m', st') ->
    (exists pm', run_ok pm' 1 rs m' st') /\ mct_file_no m' = mct_file_no m /\
    (awaiting m' st' \/ single_traversal (mct_file_no m) m' st').
Proof.
  induction inputs as [| [[fuel pi_array] v_value] inputs IH];
    intros pm m st outs m' st' Hok Hwait Hterm Hrun; simpl in Hrun.
  - inversion Hrun; subst. split; [by exists pm |]. split; [reflexivity | by left].
  - inv_bind Hrun. destruct x as [[o m1] st1].
    inv_bind Hrun. destruct x as [[os m2] st2]. inversion Hrun; subst outs m' st'.
    destruct (get_state_one_step pm rs fuel m st pi_array v_value o m1 st1
                Hok Hwait Hterm Hstep) as ((pm1 & Hok1) & Hfile1 & Hcase).
    destruct Hcase as [Hwait1 | Hdone].
    + rewrite <- Hfile1 in Hterm |- *.
      by apply (IH pm1 m1 st1 os).
    + destruct Hdone as (Hph1 & Hdone).
      destruct (get_state_many_done inputs m1 st1 os m2 st2 Hph1 Hstep0) as [-> ->].
      split; [by exists pm1 |]. split; [exact Hfile1 |]. right. by split.
Qed.

(** C3 (amended): for a driver on a problem whose first action ends the
    episode, whichever action it is, and that simplification does not solve,
    with a repeat budget of 1 and [resign = 1000000].  The score written back
    is [level * nrepeats[next_act]] for the level of the node the action is
    taken from, which is the root, at level 0.  Hence a run that is over has
    made exactly one call of [set_next], on the root, with the score
    [0 * 1 = 0]; the score of the root is 0 and [report_performance] returns
    [(file_no, 1, 0)].  A run that is not over is still waiting for the
    expansion of the root and has not called [set_next], and the call of
    [get_state] in which the expansion of the root succeeds returns [None]
    and ends the run in that way. *)
Theorem one_step_terminal_run (e : E) (g : Rng) (f max_var1 : Z) (tau : Z -> F)
    (inputs : list (nat * list F * F)) (outs : list (option (ndarray3 F))) m st :
  env_ok e ->
  (forall a, term_at (pos0 f) a = true) ->
  play e g f max_var1 1 tau 1000000 inputs = Ret (outs, m, st) ->
  Pi_root m <> None ->
  (phase m = None -> single_traversal f m st) /\
  (phase m <> None ->
   awaiting m st /\
   forall (fuel : nat) (pi_array : list F) (v_value : F) n m1 st1,
     heap st !! 0%nat = Some n ->
     expand_current fuel m st 0%nat n pi_array v_value = Ret (Expanded m1, st1) ->
     exists m' st',
       get_state (S fuel) m st pi_array v_value = Ret (None, m', st') /\
       single_traversal f m' st').
Proof.
  intros He Hterm Hplay Hroot. unfold play in Hplay. inv_bind Hplay.
  destruct x as [m0 st0].
  assert (Hroot0 : Pi_root m0 <> None).
  { intros Hnone.
    assert (Hph0 : phase m0 = None).
    { unfold MCT_init in Hstep. destruct (env_resetAt e f) as [[s |] e1].
      - inv_bind Hstep. inversion Hstep; subst. discriminate.
      - by inversion Hstep. }
    destruct (get_state_many_done inputs m0 st0 outs m st Hph0 Hplay) as [-> _].
    contradiction. }
  destruct (MCT_init_ok e g f max_var1 1 tau 1000000 m0 st0 He Hstep Hroot0)
    as (Hok0 & Hfile0 & Hph0 & Hcur0 & Hcalls0 & _ & n0 & Hheap0 & Hev0).
  assert (Hwait0 : awaiting m0 st0).
  { split; [congruence |]. split; [exact Hcur0 |]. split; [exact Hcalls0 |].
    exists n0. by rewrite Hheap0. }
  rewrite <- Hfile0 in Hterm.
  destruct (get_state_many_one_step 1000000 inputs _ m0 st0 outs m st
              Hok0 Hwait0 Hterm Hplay) as ((pm & Hok) & Hfile & Hcase).
  rewrite Hfile0 in Hcase.
  split.
  - intros Hph. destruct Hcase as [(Hcontra & _) | Hdone]; [contradiction | exact Hdone].
  - intros Hph. destruct Hcase as [Hwait | (Hcontra & _)]; [| contradiction].
    split; [exact Hwait |].
    intros fuel pi_array v_value n m1 st1 Hn Hexp.
    destruct Hwait as (_ & Hcur & Hcalls & n' & Hn' & Hev).
    assert (n' = n) by congruence. subst n'.
    assert (Hterm1 : forall a, term_at (pm 0%nat) a = true).
    { intros a. rewrite (run_pos0 _ _ _ _ _ Hok), Hfile. apply Hterm. }
    destruct (first_traversal pm 1000000 fuel m st n pi_array v_value m1 st1
                Hok Hph Hcur Hn Hev Hcalls Hterm1 Hexp)
      as (m2 & st2 & r & Hloop & Hph2 & Hroot2 & Hfile2 & Hcalls2 & Hr2 & Hs2 & Hrep2).
    exists m2, st2. split.
    + unfold get_state. destruct (phase m); [exact Hloop | congruence].
    + split; [exact Hph2 |]. split; [exact Hcalls2 |]. split; [by exists r |].
      apply (report_single f m2 st2 r); auto. congruence.
Qed.

End OneStep.

(** C3, as stated, fails: on the problem whose first action ends the
    episode, with a repeat budget of 1 and [resign = 1000000], the run ends
    at the third call of [get_state]; [set_next] has been called once, on
    the root, with the score [0 * 1 = 0] and not 1, the score of the root is
    0 and [report_performance] returns [(7, 1, 0)] and not [(7, 1, 1)]. *)
Lemma one_step_terminal_scores_zero :
  exists outs m st,
    one_step_run 3 = Ret (outs, m, st) /\
    phase m = None /\
    calls st = [{| caller := None; callee := 0%nat; additional_score := 0 |}] /\
    (exists r, heap st !! 0%nat = Some r /\ level r = 0 /\ score r = 0) /\
    report_performance m st = Ret (7, 1, 0) /\
    report_performance m st <> Ret (7, 1, 1).
Proof.
  eexists _, _, _. split; [vm_compute; reflexivity |].
  split; [reflexivity |]. split; [reflexivity |].
  split; [eexists; split; [reflexivity | split; reflexivity] |].
  split; [reflexivity | discriminate].
Qed.

Lemma one_step_terminal_run_witness :
  (exists outs m st,
     one_step_run 3 = Ret (outs, m, st) /\ single_traversal 7 m st) /\
  (exists outs m st,
     one_step_run 2 = Ret (outs, m, st) /\ awaiting m st /\
     exists m' st',
       get_state 10 m st [Rat 1; Rat 1] (Rat 0) = Ret (None, m', st') /\
       single_traversal 7 m' st').
Proof.
  split.
  - edestruct (one_step_terminal_run
                 (Deterministic0 := toy_deterministic (chain_problem 1 1))
                 (chain_env 1 1) [[0]] 7 1 (fun _ => Rat 1)
                 (replicate 3 toy_input)) as [Hdone _].
    + reflexivity.
    + intros a. reflexivity.
    + vm_compute. reflexivity.
    + discriminate.
    + refine (ex_intro _ _ (ex_intro _ _ (ex_intro _ _
                (conj _ (Hdone eq_refl))))).
      vm_compute. reflexivity.
  - edestruct (one_step_terminal_run
                 (Deterministic0 := toy_deterministic (chain_problem 1 1))
                 (chain_env 1 1) [[0]] 7 1 (fun _ => Rat 1)
                 (replicate 2 toy_input)) as [_ Hrun].
    + reflexivity.
    + intros a. reflexivity.
    + vm_compute. reflexivity.
    + discriminate.
    + destruct Hrun as [Hwait Hnext]; [discriminate |].
      refine (ex_intro _ _ (ex_intro _ _ (ex_intro _ _
                (conj _ (conj Hwait (Hnext 9%nat _ _ _ _ _ _ _)))))).
      * vm_compute. reflexivity.
      * reflexivity.
      * vm_compute. reflexivity.
Defined.

(** C4, as stated, fails when the sum is over all the calls of [set_next]:
    on the problem whose second action ends the episode, with two repeats,
    the driver calls [set_next] with the score 1 on each of the two children
    of the root, and each child, being finished, calls [set_next] on the
    root with its score 1.  The four score arguments add up to 4, the final
    score of the root is 2. *)
Lemma recursive_calls_repeat_scores :
  exists outs m st r,
    two_level_run 4 = Ret (outs, m, st) /\
    phase m = None /\ heap st !! 0%nat = Some r /\
    map additional_score (calls st) = [1; 1; 1; 1] /\
    map caller (calls st) = [None; Some 1%nat; None; Some 2%nat] /\
    score r = 2 /\
    zsum (map additional_score (calls st)) <> score r.
Proof.
  eexists _, _, _, _. split; [vm_compute; reflexivity |].
  split; [reflexivity |]. split; [reflexivity |]. split; [reflexivity |].
  split; [reflexivity |]. split; [reflexivity | discriminate].
Qed.

Lemma score_conservation_witness :
  exists outs m st,
    two_level_run 4 = Ret (outs, m, st) /\
    exists r,
      Pi_root m = Some 0%nat /\ heap st !! 0%nat = Some r /\ parent r = None /\
      wrap64 (zsum (map additional_score (driver_calls (calls st)))) = score r /\
      (Z.max 0 1000000 * 2 < 2 ^ 63 ->
       zsum (map additional_score (driver_calls (calls st))) = score r) /\
      (forall c a, c ∈ calls st -> caller c = Some a ->
         exists n, heap st !! a = Some n /\ finished n = true /\
                   parent n = Some (callee c) /\ additional_score c = score n) /\
      linked (calls st) /\
      (forall a n, heap st !! a = Some n -> parent n <> None ->
         length (propagations_of a (calls st))
         = if evaluated n then 1%nat else 0%nat).
Proof.
  edestruct (score_conservation
               (Deterministic0 := toy_deterministic (chain_problem 2 0))
               (chain_env 2 0) [[0; 1]; [0]; [1]] 7 1 2 (fun _ => Rat 1) 1000000
               (replicate 4 toy_input)) as [r Hr].
  - reflexivity.
  - vm_compute. reflexivity.
  - reflexivity.
  - discriminate.
  - refine (ex_intro _ _ (ex_intro _ _ (ex_intro _ _
              (conj _ (ex_intro _ r Hr))))).
    vm_compute. reflexivity.
Defined.

(** C5, as stated, fails: on the problem whose first action ends the
    episode, with a repeat budget of 2 at the root, both repeats are drawn
    for action 0; the run is over ([set_next] has returned -1 at the root)
    after one traversal, which accounts for the two repeats, and not after
    two. *)
Lemma two_repeats_one_traversal :
  exists outs m st,
    two_repeats_run 2 = Ret (outs, m, st) /\
    phase m = None /\
    (exists r, heap st !! 0%nat = Some r /\ repeat r = 2) /\
    traversals st = [{| t_node := 0%nat; t_action := 0; t_level := 0;
                        t_repeats := 2 |}] /\
    length (traversals st) <> 2%nat.
Proof.
  eexists _, _, _. split; [vm_compute; reflexivity |].
  split; [reflexivity |]. split; [eexists; split; reflexivity |].
  split; [reflexivity | discriminate].
Qed.

Lemma traversals_exhaust_budget_witness :
  exists outs m st,
    two_repeats_run 2 = Ret (outs, m, st) /\
    zsum (map t_repeats (traversals st)) = 2 /\
    Forall (fun t => 1 <= t_repeats t /\
                     exists n r, heap st !! t_node t = Some n /\
                                 level n = t_level t /\ nrepeats n = Some r /\
                                 0 <= t_action t /\
                                 r !! Z.to_nat (t_action t) = Some (t_repeats t))
      (traversals st) /\
    (Z.of_nat (length (traversals st)) <= 2) /\
    ((Z.of_nat (length (traversals st)) = 2)
     <-> Forall (fun t => t_repeats t = 1) (traversals st)) /\
    Forall2 (fun c t => callee c = t_node t /\
                        additional_score c = wrap64 (t_level t * t_repeats t))
      (driver_calls (calls st)) (traversals st).
Proof.
  edestruct (traversals_exhaust_budget
               (Deterministic0 := toy_deterministic (chain_problem 1 0))
               (chain_env 1 0) [[0; 0]] 7 1 2 (fun _ => Rat 1) 1000000
               (replicate 2 toy_input)) as [Hsum Hrest].
  - reflexivity.
  - vm_compute. reflexivity.
  - reflexivity.
  - discriminate.
  - refine (ex_intro _ _ (ex_intro _ _ (ex_intro _ _
              (conj _ (conj Hsum Hrest))))).
    vm_compute. reflexivity.
Defined.


Section Protocol.
Context {F : Type} `{Arith F}.
Context {Rng : Type} `{Sampler F Rng}.
Context {E : Type} `{Environment F E}.

Implicit Types (n : Pi_struct F) (st : Store F Rng) (m : MCT F E).

Lemma simulate_loop_paused (pi_array : list F) (v_value : F) (fuel : nat) :
  forall m (needEnv needSim : bool) m1,
    simulate_loop fuel m pi_array v_value needEnv needSim = Ret (Paused m1) ->
    phase m1 = Some true /\ Pi_current m1 = Pi_current m.
Proof.
  induction fuel as [| fuel IH]; intros m needEnv needSim m1 Hrun; simpl in Hrun.
  - destruct (needEnv || needSim); discriminate.
  - destruct (needEnv || needSim) eqn:Eor; [| discriminate].
    assert (Hcont : forall m2, Pi_current m2 = Pi_current m ->
              (p ← softmax pi_array;
               let '(s, needEnv, needSim, e) := env_simulate (env m2) p v_value in
               simulate_loop fuel (with_mct_state (with_env m2 e) (Some s))
                 pi_array v_value needEnv needSim) = Ret (Paused m1) ->
              phase m1 = Some true /\ Pi_current m1 = Pi_current m).
    { intros m2 Hcur Hc. inv_bind Hc.
      destruct (env_simulate (env m2) x v_value) as [[[s ne] ns] e].
      apply IH in Hc. destruct Hc as [Hph Hc]. split; [exact Hph |].
      rewrite Hc. simpl. exact Hcur. }
    destruct needEnv.
    + inv_bind Hrun. destruct x as [|]; simpl in Hrun.
      * by apply (Hcont (with_phase m (Some false))).
      * inversion Hrun; subst m1. by split.
    + by apply (Hcont m).
Qed.

Lemma get_state_loop_protocol (pi_array : list F) (v_value : F) (fuel : nat) :
  forall m st (o : option (ndarray3 F)) m' st',
    get_state_loop fuel m st pi_array v_value = Ret (o, m', st') ->
    (phase m' = Some true /\ o = mct_state m' /\
     exists cur n, Pi_current m' = Some cur /\ heap st' !! cur = Some n /\
                   evaluated n = false) \/
    (phase m' = None /\ o = None).
Proof.
  induction fuel as [| fuel IH]; intros m st o m' st' Hrun; [discriminate |].
  cbn [get_state_loop] in Hrun.
  inv_bind Hrun. rename x into cur. apply attr_Ret_inv in Hstep.
  rename Hstep into Hcur.
  inv_bind Hrun. rename x into n. apply load_Ret_inv in Hstep. rename Hstep into Hn.
  inv_bind Hrun. destruct x as [[mp | me] st1].
  - (* paused *)
    inversion Hrun; subst o m' st'. left.
    unfold expand_current in Hstep. destruct (evaluated n) eqn:Hev; simpl in Hstep;
      [discriminate |].
    inv_bind Hstep. destruct x as [mp' | me'].
    + inversion Hstep; subst mp' st1.
      destruct (simulate_loop_paused _ _ _ _ _ _ _ Hstep0) as [Hph Hc].
      split; [exact Hph |]. split; [reflexivity |]. exists cur, n.
      split; [congruence | by split].
    + destruct (env_get_visit_count (env me')). inv_bind Hstep. discriminate.
  - inv_bind Hrun. destruct x as [next_act st2].
    inv_bind Hrun.
    destruct (env_step (env me) next_act) as [[isDone s] e].
    inv_bind Hrun. rename x0 into n2. inv_bind Hrun. destruct x0.
    + unfold end_traversal in Hrun.
      inv_bind Hrun. inv_bind Hrun. inv_bind Hrun. inv_bind Hrun. inv_bind Hrun.
      destruct x4 as [nxt st4]. destruct (nxt <? 0).
      * inversion Hrun; subst. right. by split.
      * match type of Hrun with
        | context [env_resetAt ?e0 ?f0] => destruct (env_resetAt e0 f0) as [s0 e0']
        end.
        by apply IH in Hrun.
    + unfold descend in Hrun. inv_bind Hrun. inv_bind Hrun. by apply IH in Hrun.
Qed.

(** X1: a call of [get_state] on a driver that is not finished returns in
    one of two ways only.  Either it pauses: [phase] is [True], the value
    returned is [self.state], and the current node is still to be expanded.
    Or it finishes the run: [phase] is [None] and the value returned is
    [None].  It never returns with [phase] [False]. *)
Theorem get_state_pauses_or_finishes (fuel : nat) m st (pi_array : list F)
    (v_value : F) (o : option (ndarray3 F)) m' st' :
  phase m <> None ->
  get_state fuel m st pi_array v_value = Ret (o, m', st') ->
  (phase m' = Some true /\ o = mct_state m' /\
   exists cur n, Pi_current m' = Some cur /\ heap st' !! cur = Some n /\
                 evaluated n = false) \/
  (phase m' = None /\ o = None).
Proof.
  intros Hph Hrun. unfold get_state in Hrun.
  destruct (phase m); [| congruence].
  by apply (get_state_loop_protocol pi_array v_value fuel m st).
Qed.

End Protocol.

Lemma get_state_pauses_or_finishes_witness :
  exists m st,
    MCT_init (chain_env 1 1) [[0]] 7 1 1 (fun _ => Rat 1) 1000000 = Ret (m, st) /\
    exists o m' st',
      get_state 10 m st [Rat 1; Rat 1] (Rat 0) = Ret (o, m', st') /\
      ((phase m' = Some true /\ o = mct_state m' /\
        exists cur n, Pi_current m' = Some cur /\ heap st' !! cur = Some n /\
                      evaluated n = false) \/
       (phase m' = None /\ o = None)).
Proof.
  eexists _, _. split; [vm_compute; reflexivity |].
  lazymatch goal with
  | |- exists o m' st', get_state _ ?M ?ST _ _ = _ /\ _ =>
      eexists _, _, _; split; [vm_compute; reflexivity |];
      apply (get_state_pauses_or_finishes 10 M ST [Rat 1; Rat 1] (Rat 0));
      [discriminate | vm_compute; reflexivity]
  end.
Defined.


Section Bounds.
Context {F : Type} `{Arith F}.
Context {Rng : Type} `{Sampler F Rng}.
Context {E : Type} `{Environment F E}.
Context {Pos : Type} `{!Deterministic Pos}.

Implicit Types (n : Pi_struct F) (h : list (Pi_struct F)) (st : Store F Rng)
  (m : MCT F E).

(** X2: in a run on a deterministic environment with [resign = rs] no
    node deeper than [rs] is ever expanded and no traversal ends deeper
    than [rs] (than 0, if [rs] is negative): levels count from 0 at the
    root.  Hence, when the run is over and [max(0, rs) * R < 2^63], so that
    no [numpy.int64] score wraps around, the score that
    [report_performance] returns for [nrepeat = R] lies between 0 and
    [max(0, rs) * R]. *)
Theorem resign_bounds_the_score (e : E) (g : Rng) (f max_var1 R : Z)
    (tau : Z -> F) (rs : Z) (inputs : list (nat * list F * F))
    (outs : list (option (ndarray3 F))) m st :
  env_ok e ->
  play e g f max_var1 R tau rs inputs = Ret (outs, m, st) ->
  Pi_root m <> None ->
  (forall (a : addr) n, heap st !! a = Some n ->
     0 <= level n /\ (evaluated n = true -> level n <= Z.max 0 rs)) /\
  Forall (fun t => 0 <= t_level t <= Z.max 0 rs) (traversals st) /\
  (phase m = None -> Z.max 0 rs * R < 2 ^ 63 ->
   exists s, report_performance m st = Ret (f, R, s) /\
             0 <= s <= Z.max 0 rs * R).
Proof.
  intros He Hplay Hroot.
  destruct (play_ok e g f max_var1 R tau rs inputs outs m st He Hplay Hroot)
    as (pm & Hok & Hfile).
  destruct (run_top _ _ _ _ _ Hok) as (r0 & Hr0 & Hrep0 & Hl0 & _).
  pose proof (run_heap _ _ _ _ _ Hok) as Hheap.
  pose proof (level_bounds pm rs _ _ _ r0 Hheap Hr0 Hl0) as Hlevels.
  pose proof (run_acct _ _ _ _ _ Hok) as Hacct.
  assert (Htrav : Forall (fun t => (0 <= t_level t <= Z.max 0 rs) /\ 1 <= t_repeats t)
                    (traversals st)).
  { eapply Forall_impl; [exact (log_visits _ Hacct) |]. simpl.
    intros t (Ht & n & Hn & Hev & Hl & _). rewrite <- Hl.
    destruct (Hlevels _ n Hn) as [Hge0 Hb]. specialize (Hb Hev). lia. }
  split; [exact Hlevels |]. split.
  - eapply Forall_impl; [exact Htrav |]. simpl. intros t [Ht _]. exact Ht.
  - intros Hph Hfit.
    destruct (run_ok_finished pm R rs m st Hok Hph)
      as (r & Hr & HR & _ & _ & _ & _ & Hscore & Hrepeat).
    exists (score r). split.
    + unfold report_performance. rewrite (run_root _ _ _ _ _ Hok).
      rewrite (load_Some st 0%nat r Hr), bind_Ret. congruence.
    + pose proof (run_credit pm R rs m st Hok Hph Hfit) as Hb.
      pose proof (play_stocked e g f max_var1 R tau rs inputs outs m st Hplay)
        as Hs.
      destruct (proj1 (Forall_lookup _ _) Hs 0%nat r Hr) as (_ & _ & _ & _ & Hrange).
      pose proof (log_score _ Hacct) as Hls. rewrite Hscore in Hls.
      rewrite (wrap64_small (score r)) in Hls by exact Hrange.
      rewrite wrap64_small in Hls by lia. lia.
Qed.

End Bounds.

Lemma resign_bounds_the_score_witness :
  exists outs m st,
    two_level_run 4 = Ret (outs, m, st) /\
    (forall (a : addr) n, heap st !! a = Some n ->
       0 <= level n /\ (evaluated n = true -> level n <= Z.max 0 1000000)) /\
    Forall (fun t => 0 <= t_level t <= Z.max 0 1000000) (traversals st) /\
    (phase m = None -> Z.max 0 1000000 * 2 < 2 ^ 63 ->
     exists s, report_performance m st = Ret (7, 2, s) /\
               0 <= s <= Z.max 0 1000000 * 2).
Proof.
  edestruct (resign_bounds_the_score
               (Deterministic0 := toy_deterministic (chain_problem 2 0))
               (chain_env 2 0) [[0; 1]; [0]; [1]] 7 1 2 (fun _ => Rat 1) 1000000
               (replicate 4 toy_input)) as [Hlev Hrest].
  - reflexivity.
  - vm_compute. reflexivity.
  - discriminate.
  - refine (ex_intro _ _ (ex_intro _ _ (ex_intro _ _
              (conj _ (conj Hlev Hrest))))).
    vm_compute. reflexivity.
Defined.


Section ExactSoftmax.
Local Open Scope R_scope.

Lemma exp_shift (x m : R) : exp (x - m) = exp x / exp m.
Proof. unfold Rminus, Rdiv. by rewrite exp_plus, exp_Ropp. Qed.

Lemma R_sum_exp_pos (x : list R) : x <> [] -> 0 < R_sum (map exp x).
Proof.
  intros Hx. apply R_sum_pos.
  - apply Forall_forall. intros y Hy. apply list_elem_of_fmap in Hy.
    destruct Hy as (z & -> & _). left. apply exp_pos.
  - destruct x as [| a l]; [contradiction |]. simpl. left. apply exp_pos.
Qed.

Lemma softmax_value (x : list R) :
  x <> [] ->
  softmax x = Ret (map (fun xi => exp xi / R_sum (map exp x)) x).
Proof.
  intros Hx. destruct x as [| a l] eqn:Ex; [contradiction |]. rewrite <- Ex in *.
  unfold softmax. assert (Hmax : np_max x = Ret (foldl Rmax a l)) by (by rewrite Ex).
  rewrite Hmax. simpl. set (m := foldl Rmax a l). f_equal.
  change (fun xi : R => fexp (fsub xi m)) with (fun xi : R => exp (xi - m)).
  change (@fsum R R_arith) with R_sum. change (@fdiv R R_arith) with Rdiv.
  assert (Hmap : map (fun xi => exp (xi - m)) x = map (fun e => e / exp m) (map exp x)).
  { rewrite map_map. apply map_ext. intros y. apply exp_shift. }
  rewrite Hmap, R_sum_map_div, !map_map. apply map_ext. intros y.
  pose proof (exp_pos m). pose proof (R_sum_exp_pos x Hx). field. split; lra.
Qed.

(** X3: over the reals, [softmax] of a non-empty array is the vector
    [exp(x_i) / sum_j exp(x_j)]: subtracting the maximum first changes
    nothing.  Its entries are positive and sum to 1, and it does not change
    when one constant is added to every entry.  On an empty array [np.max]
    raises [ValueError]. *)
Theorem softmax_is_distribution (x : list R) :
  (x = [] -> softmax x = Raise ValueError) /\
  (x <> [] ->
   exists p : list R,
     softmax x = Ret p /\
     p = map (fun xi => exp xi / R_sum (map exp x)) x /\
     Forall (fun pi => 0 < pi) p /\ R_sum p = 1 /\
     forall c : R, softmax (map (fun xi => xi + c) x) = Ret p).
Proof.
  split; [by intros -> |]. intros Hx.
  pose proof (R_sum_exp_pos x Hx) as Hpos.
  eexists. split; [by apply softmax_value |]. split; [reflexivity |].
  split; [| split].
  - apply Forall_forall. intros y Hy. apply list_elem_of_fmap in Hy.
    destruct Hy as (z & -> & _). apply Rdiv_lt_0_compat; [apply exp_pos | exact Hpos].
  - replace (map (fun xi => exp xi / R_sum (map exp x)) x)
      with (map (fun e => e / R_sum (map exp x)) (map exp x))
      by (by rewrite map_map).
    rewrite R_sum_map_div. field. lra.
  - intros c. rewrite softmax_value by (destruct x; [contradiction | discriminate]).
    f_equal. rewrite !map_map.
    assert (Hsum : R_sum (map (fun xi => exp (xi + c)) x)
                   = exp c * R_sum (map exp x)).
    { clear. induction x as [| a l IH]; simpl; [lra |].
      rewrite IH, exp_plus. lra. }
    rewrite Hsum. apply map_ext. intros y. rewrite exp_plus.
    pose proof (exp_pos c). field. split; lra.
Qed.

End ExactSoftmax.

Lemma softmax_is_distribution_witness :
  exists p : list R,
    softmax [1%R; 2%R] = Ret p /\
    p = map (fun xi => (exp xi / R_sum (map exp [1%R; 2%R]))%R) [1%R; 2%R] /\
    Forall (fun pi => (0 < pi)%R) p /\ R_sum p = 1%R /\
    forall c : R, softmax (map (fun xi => (xi + c)%R) [1%R; 2%R]) = Ret p.
Proof.
  apply (proj2 (softmax_is_distribution [1%R; 2%R])). discriminate.
Defined.


Section SharpenedPolicy.
Local Open Scope R_scope.

Lemma get_PI_value (counts : list R) (tau : R) :
  Forall (fun c => 0 <= c) counts -> 0 < R_sum counts -> 0 < tau ->
  exists fuel0 : nat, forall fuel, (fuel0 <= fuel)%nat ->
    get_PI fuel counts tau
    = Ret (normalize (map (fun x => R_power x (1 / tau)) counts)).
Proof.
  intros Hc Hs Htau.
  assert (Hp : 0 < 1 / tau) by (apply Rdiv_lt_0_compat; lra).
  destruct (get_PI_fuel_exists (1 / tau)) as [fuel0 Hfuel].
  exists fuel0. intros fuel Hf.
  destruct (get_PI_loop_exact counts Hc Hs fuel 1 (1 / tau))
    as (q' & p' & Hrun & Hq' & Hp' & Hqp); [lra | exact Hp | by apply Hfuel |].
  assert (Hone : map (fun x => R_power x 1) counts = counts).
  { rewrite <- (map_id counts) at 2. apply map_ext_in. intros x Hx.
    apply R_power_1. rewrite Forall_forall in Hc. apply Hc.
    by apply list_elem_of_In. }
  rewrite Hone in Hrun.
  unfold get_PI. change (fdiv (of_Z 1) tau) with (1 / tau). rewrite Hrun. simpl.
  f_equal. rewrite powers_normalize;
    [| apply powers_nonneg | by apply R_sum_powers_pos | exact Hp'].
  rewrite powers_powers by (try lra; exact Hc).
  rewrite Hqp. by rewrite Rmult_1_l.
Qed.

Lemma R_power_zero_iff (x e : R) : 0 <= x -> 0 < e -> (R_power x e = 0 <-> x = 0).
Proof.
  intros Hx He. split.
  - intros Hz. destruct (Req_dec_T x 0) as [-> | Hne]; [reflexivity |].
    pose proof (R_power_pos x e). lra.
  - intros ->. unfold R_power. destruct (Req_dec_T 0 0); [| lra].
    destruct (Req_dec_T e 0); [lra | reflexivity].
Qed.

Lemma R_power_mono (x y e : R) :
  0 <= x -> x <= y -> 0 < e -> R_power x e <= R_power y e.
Proof.
  intros Hx Hxy He. destruct (Req_dec_T x 0) as [-> | Hne].
  - rewrite (proj2 (R_power_zero_iff 0 e (Rle_refl 0) He) eq_refl).
    apply R_power_nonneg.
  - unfold R_power. destruct (Req_dec_T x 0); [lra |].
    destruct (Req_dec_T y 0); [lra |]. apply Rle_Rpower_l; lra.
Qed.

Lemma normalize_scaled (v : list R) (k : R) :
  k <> 0 -> R_sum v <> 0 -> normalize (map (fun x => k * x) v) = normalize v.
Proof.
  intros Hk Hs.
  replace (map (fun x => k * x) v) with (map (fun x => x / (/ k)) v)
    by (apply map_ext; intros x; field; exact Hk).
  apply normalize_scale; [by apply Rinv_neq_0_compat | exact Hs].
Qed.

(** X4: over the reals, for visit counts that are not negative and not all
    zero and a temperature [tau > 0], [get_PI] keeps the support and the
    order of the counts: an action has probability 0 exactly when its count
    is 0, and a larger count never gets a smaller probability.  The result
    only depends on the proportions of the counts: multiplying all of them
    by a positive constant changes nothing. *)
Theorem get_PI_keeps_support_and_order (counts : list R) (tau : R) :
  Forall (fun c => 0 <= c) counts -> 0 < R_sum counts -> 0 < tau ->
  exists fuel0 : nat, forall fuel, (fuel0 <= fuel)%nat ->
    exists Pi : list R,
      get_PI fuel counts tau = Ret Pi /\
      length Pi = length counts /\
      (forall (i : nat) c p, counts !! i = Some c -> Pi !! i = Some p ->
         0 <= p /\ (p = 0 <-> c = 0)) /\
      (forall (i j : nat) ci cj pi pj,
         counts !! i = Some ci -> counts !! j = Some cj ->
         Pi !! i = Some pi -> Pi !! j = Some pj -> ci <= cj -> pi <= pj) /\
      (forall k, 0 < k -> get_PI fuel (map (fun c => k * c) counts) tau = Ret Pi).
Proof.
  intros Hc Hs Htau.
  assert (Hp : 0 < 1 / tau) by (apply Rdiv_lt_0_compat; lra).
  destruct (get_PI_value counts tau Hc Hs Htau) as [fuel0 Hval].
  exists fuel0. intros fuel Hf. specialize (Hval fuel Hf).
  pose proof (R_sum_powers_pos counts (1 / tau) Hc Hs) as HS.
  set (S := R_sum (map (fun x => R_power x (1 / tau)) counts)) in *.
  exists (map (fun c => R_power c (1 / tau) / S) counts).
  assert (Hnorm : normalize (map (fun x => R_power x (1 / tau)) counts)
                  = map (fun c => R_power c (1 / tau) / S) counts).
  { rewrite normalize_R, map_map. reflexivity. }
  rewrite Hnorm in Hval.
  assert (Hlook : forall (i : nat) c p, counts !! i = Some c ->
            map (fun c => R_power c (1 / tau) / S) counts !! i = Some p ->
            0 <= c /\ p = R_power c (1 / tau) / S).
  { intros i c p Hci Hpi.
    change (map ?g ?l) with (g <$> l) in Hpi. rewrite list_lookup_fmap, Hci in Hpi.
    simpl in Hpi. inversion Hpi. split; [| reflexivity].
    rewrite Forall_forall in Hc. apply Hc. by apply list_elem_of_lookup_2 in Hci. }
  split; [exact Hval |]. split; [by rewrite length_map |]. split; [| split].
  - intros i c p Hci Hpi. destruct (Hlook i c p Hci Hpi) as [Hc0 ->].
    pose proof (R_power_nonneg c (1 / tau)) as Hnn.
    pose proof (R_power_zero_iff c (1 / tau) Hc0 Hp) as Hz.
    split.
    + apply Rmult_le_pos; [exact Hnn |]. left. by apply Rinv_0_lt_compat.
    + rewrite <- Hz. split.
      * intros Hq. apply (Rmult_eq_compat_r S) in Hq.
        unfold Rdiv in Hq. rewrite Rmult_assoc, Rinv_l in Hq by lra. lra.
      * intros ->. unfold Rdiv. lra.
  - intros i j ci cj pi pj Hci Hcj Hpi Hpj Hle.
    destruct (Hlook i ci pi Hci Hpi) as [Hi0 ->].
    destruct (Hlook j cj pj Hcj Hpj) as [Hj0 ->].
    apply Rmult_le_compat_r; [left; by apply Rinv_0_lt_compat |].
    by apply R_power_mono.
  - intros k Hk. rewrite <- Hval. unfold get_PI.
    rewrite normalize_scaled by lra. reflexivity.
Qed.

End SharpenedPolicy.

Lemma get_PI_keeps_support_and_order_witness :
  exists fuel0 : nat, forall fuel, (fuel0 <= fuel)%nat ->
    exists Pi : list R,
      get_PI fuel [3%R; 0%R; 1%R] 1%R = Ret Pi /\
      length Pi = 3%nat /\
      (forall (i : nat) c p, [3%R; 0%R; 1%R] !! i = Some c -> Pi !! i = Some p ->
         (0 <= p)%R /\ (p = 0%R <-> c = 0%R)) /\
      (forall (i j : nat) ci cj pi pj,
         [3%R; 0%R; 1%R] !! i = Some ci -> [3%R; 0%R; 1%R] !! j = Some cj ->
         Pi !! i = Some pi -> Pi !! j = Some pj -> (ci <= cj)%R -> (pi <= pj)%R) /\
      (forall k, (0 < k)%R ->
         get_PI fuel (map (fun c => (k * c)%R) [3%R; 0%R; 1%R]) 1%R = Ret Pi).
Proof.
  apply (get_PI_keeps_support_and_order [3%R; 0%R; 1%R] 1%R).
  - repeat constructor; lra.
  - simpl. lra.
  - lra.
Defined.


Lemma zip_with_add_map {A} (f g : A -> Z) (l : list A) :
  zip_with Z.add (map f l) (map g l) = map (fun j => f j + g j) l.
Proof. induction l as [| x l IH]; simpl; [reflexivity | by rewrite IH]. Qed.

(** X5: [get_nrepeat_count] does not depend on the order of the actions
    drawn: on two arrays that are permutations of each other it returns the
    same counts, or fails in the same way.  And it is additive: when it
    returns on two arrays it returns on their concatenation, with the sums
    of the counts entry by entry. *)
Theorem get_nrepeat_count_multiset (a1 a2 : list Z) (nact : Z) :
  (a1 ≡ₚ a2 -> get_nrepeat_count a1 nact = get_nrepeat_count a2 nact) /\
  (forall r1 r2,
     get_nrepeat_count a1 nact = Ret r1 -> get_nrepeat_count a2 nact = Ret r2 ->
     get_nrepeat_count (a1 ++ a2) nact = Ret (zip_with Z.add r1 r2)).
Proof.
  split.
  - intros Hp. rewrite !get_nrepeat_count_cases.
    destruct (nact <? 0); [reflexivity |].
    destruct (decide (0 < nact /\ Forall (fun x => x < nact) a1)) as [[Hn H1] | H1],
             (decide (0 < nact /\ Forall (fun x => x < nact) a2)) as [[Hn' H2] | H2].
    + f_equal. by apply histogram_Permutation.
    + exfalso. apply H2. split; [exact Hn |]. by rewrite <- Hp.
    + exfalso. apply H1. split; [exact Hn' |]. by rewrite Hp.
    + reflexivity.
  - intros r1 r2 Hr1 Hr2.
    apply get_nrepeat_count_Ret in Hr1. destruct Hr1 as (-> & Hn & H1).
    apply get_nrepeat_count_Ret in Hr2. destruct Hr2 as (-> & _ & H2).
    rewrite get_nrepeat_count_cases.
    destruct (nact <? 0) eqn:En; [lia |].
    destruct (decide (0 < nact /\ Forall (fun x => x < nact) (a1 ++ a2)))
      as [_ | Hno].
    + f_equal. unfold histogram. rewrite zip_with_add_map.
      apply map_ext. intros j. apply bin_count_app.
    + exfalso. apply Hno. split; [exact Hn |]. apply Forall_app. by split.
Qed.

Lemma get_nrepeat_count_multiset_witness :
  get_nrepeat_count [2; 0; 1; 0] 3 = get_nrepeat_count [0; 0; 1; 2] 3 /\
  get_nrepeat_count ([2; 0] ++ [1; 0]) 3 = Ret (zip_with Z.add [1; 0; 1] [1; 1; 0]).
Proof.
  destruct (get_nrepeat_count_multiset [2; 0; 1; 0] [0; 0; 1; 2] 3) as [Hperm _].
  destruct (get_nrepeat_count_multiset [2; 0] [1; 0] 3) as [_ Hadd].
  split.
  - apply Hperm.
    etransitivity; [apply (Permutation_cons_append [0; 1; 0] 2) |].
    simpl. apply perm_skip. apply perm_swap.
  - apply Hadd; vm_compute; reflexivity.
Defined.


Section CachedState.
Context {F : Type} `{Arith F}.
Context {Rng : Type} `{Sampler F Rng}.

Implicit Types (n : Pi_struct F) (st : Store F Rng).

(** X6: [add_state] raises [ValueError] exactly when the observation does
    not fit the node: its planes are empty, or their size is not the size of
    the action space (unless that is -1).  Otherwise it assigns [isValid]
    and [state] and nothing else: action [c] is valid when the cell [c] of
    some plane is not zero, every other attribute of the node, every other
    node and the traces are as before, and a second call with the same
    observation changes nothing. *)
Theorem add_state_fits_or_fails st (self : addr) (s : ndarray3 F) n :
  heap st !! self = Some n ->
  ((dim1 s * dim2 s = 0)%nat \/
   (size n <> -1 /\ Z.of_nat (dim1 s * dim2 s) <> size n) ->
   add_state st self s = Raise ValueError) /\
  ((dim1 s * dim2 s <> 0)%nat /\
   (size n = -1 \/ Z.of_nat (dim1 s * dim2 s) = size n) ->
   exists (n' : Pi_struct F) (v : list bool),
     add_state st self s = Ret (store st self n') /\
     isValid n' = Some v /\ length v = (dim1 s * dim2 s)%nat /\
     (forall c : nat, (c < dim1 s * dim2 s)%nat ->
        (v !! c = Some true <->
         exists i : nat, (i < dim0 s)%nat /\
           ftruthy (nth (i * (dim1 s * dim2 s) + c) (cells s) (of_Z 0)) = true)) /\
     state n' = Some (list_chunks (dim1 s * dim2 s) (dim0 s) (cells s)) /\
     with_state (with_isValid n' (isValid n)) (state n) = n /\
     add_state (store st self n') self s = Ret (store st self n')).
Proof.
  intros Hn. split.
  - intros Hbad. unfold add_state. rewrite (load_Some st self n Hn), bind_Ret.
    unfold add_state_node.
    destruct ((size n =? -1) || (Z.of_nat (dim1 s * dim2 s) =? size n)) eqn:E1;
      [| reflexivity].
    simpl. destruct (dim1 s * dim2 s =? 0)%nat eqn:E2; [reflexivity |].
    exfalso. apply Nat.eqb_neq in E2. apply orb_true_iff in E1.
    destruct Hbad as [Hz | [Hs Hw]]; [lia |].
    destruct E1 as [E1 | E1]; apply Z.eqb_eq in E1; contradiction.
  - intros [Hw Hfit].
    set (n' := with_state (with_isValid n (Some (np_any_axis0 s)))
                 (Some (list_chunks (dim1 s * dim2 s) (dim0 s) (cells s)))).
    assert (Hrun : add_state_node n s = Ret n').
    { unfold add_state_node.
      replace ((size n =? -1) || (Z.of_nat (dim1 s * dim2 s) =? size n)) with true.
      - simpl. apply Nat.eqb_neq in Hw. by rewrite Hw.
      - symmetry. apply orb_true_iff.
        destruct Hfit as [Hf | Hf]; [left | right]; by apply Z.eqb_eq. }
    destruct (add_state_node_Ret n s n' Hrun) as (_ & Hfix & _).
    exists n', (np_any_axis0 s).
    split; [unfold add_state; by rewrite (load_Some st self n Hn), bind_Ret, Hrun |].
    split; [reflexivity |].
    split; [unfold np_any_axis0; by rewrite length_map, length_seq |].
    split; [| split; [reflexivity | split; [by destruct n |]]].
    + intros c Hc. unfold np_any_axis0.
      change (map ?g ?l) with (g <$> l). rewrite list_lookup_fmap.
      rewrite lookup_seq_lt by exact Hc. simpl. split.
      * intros Hq. injection Hq as Hex. apply existsb_exists in Hex.
        destruct Hex as (i & Hi & Ht). exists i. split; [| exact Ht].
        apply in_seq in Hi. lia.
      * intros (i & Hi & Ht). f_equal. apply existsb_exists. exists i.
        split; [apply in_seq; lia | exact Ht].
    + unfold add_state. rewrite (load_store_same st self n n' Hn), bind_Ret, Hfix.
      simpl. by rewrite store_store.
Qed.

End CachedState.

Lemma add_state_fits_or_fails_witness :
  (exists (n' : Pi_struct num) (v : list bool),
     add_state demo_store 0%nat obs3 = Ret (store demo_store 0%nat n') /\
     isValid n' = Some v /\ length v = 3%nat /\
     (forall c : nat, (c < 3)%nat ->
        (v !! c = Some true <->
         exists i : nat, (i < 1)%nat /\
           ftruthy (nth (i * 3 + c) (cells obs3) (of_Z 0)) = true)) /\
     state n' = Some (list_chunks 3 1 (cells obs3)) /\
     with_state (with_isValid n' (isValid demo_node)) (state demo_node) = demo_node /\
     add_state (store demo_store 0%nat n') 0%nat obs3
     = Ret (store demo_store 0%nat n')) /\
  add_state demo_store 0%nat obs2 = Raise ValueError.
Proof.
  destruct (add_state_fits_or_fails demo_store 0%nat obs3 demo_node eq_refl)
    as [_ Hfit].
  destruct (add_state_fits_or_fails demo_store 0%nat obs2 demo_node eq_refl)
    as [Hbad _].
  split.
  - apply Hfit. split; [discriminate | right; reflexivity].
  - apply Hbad. right. split; discriminate.
Defined.


Section ValidDraws.
Context {F : Type} `{Arith F}.
Context {Rng : Type} `{Sampler F Rng}.

Implicit Types (n : Pi_struct F) (st : Store F Rng).

Lemma masked_le (r : list Z) (v : list bool) :
  Forall (fun x => 0 <= x) r ->
  zsum (zip_with (fun x b => x * Z.b2z b) r v) <= zsum r.
Proof.
  intros Hr. revert v. induction Hr as [| x r Hx Hr IH]; intros v.
  - destruct v; unfold zsum; simpl; lia.
  - destruct v as [| b v]; simpl.
    + pose proof (zsum_nonneg r Hr). unfold zsum in *. simpl. lia.
    + specialize (IH v). unfold zsum in *. simpl. destruct b; simpl; lia.
Qed.

Lemma masked_all (r : list Z) (v : list bool) :
  Forall (fun x => 0 <= x) r -> length r = length v ->
  zsum (zip_with (fun x b => x * Z.b2z b) r v) = zsum r ->
  forall (a : nat) ra, r !! a = Some ra -> 0 < ra -> v !! a = Some true.
Proof.
  intros Hr. revert v.
  induction Hr as [| x r Hx Hr IH]; intros v Hl Hs a ra Ha Hpos.
  - destruct a; discriminate.
  - destruct v as [| b v]; [discriminate |]. simpl in Hl.
    pose proof (masked_le r v Hr) as Hle.
    cbn [zip_with] in Hs. rewrite !zsum_cons in Hs.
    destruct a as [| a].
    + simpl in Ha. injection Ha as ->. destruct b; [reflexivity |].
      simpl in Hs. lia.
    + simpl in Ha. simpl. apply (IH v) with (ra := ra); [lia | | exact Ha | exact Hpos].
      destruct b; simpl in Hs; lia.
Qed.

Lemma zsum_histogram_le (action : list Z) (nact : Z) :
  0 <= nact -> zsum (histogram action nact) <= Z.of_nat (length action).
Proof.
  intros Hn. unfold histogram.
  induction action as [| x l IH].
  - rewrite zsum_map_zero; [simpl; lia |]. apply Forall_forall. intros j _.
    reflexivity.
  - assert (Hsplit : map (bin_count (x :: l)) (seqZ 0 nact)
                     = map (fun j => (if decide (bin x = j) then 1 else 0)
                                     + bin_count l j) (seqZ 0 nact)).
    { apply map_ext. intros j. change (x :: l) with ([x] ++ l).
      by rewrite bin_count_app, bin_count_single. }
    rewrite Hsplit, zsum_map_add.
    rewrite <- (Z2Nat.id nact) at 1 by exact Hn. rewrite zsum_indicator.
    simpl length. destruct (decide (0 <= bin x < 0 + Z.of_nat (Z.to_nat nact))); lia.
Qed.

(** X7: the last assertion of [add_counts] lets no invalid action through.
    For a node that holds its validity mask, and a random generator whose
    draw has [repeat] entries: when [add_counts] returns, the repeat counts
    add up to [repeat], every action with a positive repeat count is valid,
    and so is the action of every child. *)
Theorem add_counts_children_are_valid (fuel : nat) st st' (self : addr)
    (counts : list F) n (v : list bool) :
  heap st !! self = Some n -> children n = [] ->
  isValid n = Some v -> length v = Z.to_nat (size n) ->
  (forall pi action g,
     random_choice (rng st) (size n) (repeat n) pi = Ret (action, g) ->
     Z.of_nat (length action) = repeat n) ->
  add_counts fuel st self counts = Ret st' ->
  exists (n' : Pi_struct F) (r : list Z),
    heap st' !! self = Some n' /\ nrepeats n' = Some r /\ isValid n' = Some v /\
    zsum r = repeat n /\
    (forall (a : nat) ra, r !! a = Some ra -> 0 < ra -> v !! a = Some true) /\
    (forall act c, (act, c) ∈ children n' -> v !! Z.to_nat act = Some true).
Proof.
  intros Hn Hkids Hv Hlv Hdraw Hadd.
  destruct (add_counts_inv fuel st st' self counts n Hn Hkids Hadd)
    as (v' & pi & action & g & r & rv & Hv' & _ & Hchoice & Hr & Hsize & Hrv & Hsum
        & ->).
  assert (v' = v) by congruence. subst v'. clear Hadd.
  pose proof (Hdraw pi action g Hchoice) as Hlen.
  assert (Hlr : length r = Z.to_nat (size n)) by (by rewrite Hr, histogram_length).
  assert (Hnonneg : Forall (fun x => 0 <= x) r)
    by (rewrite Hr; apply histogram_nonneg).
  rewrite np_zip_same_length in Hrv by lia. injection Hrv as <-.
  pose proof (masked_le r v Hnonneg) as Hle1.
  assert (Hle2 : zsum r <= Z.of_nat (length action))
    by (rewrite Hr; apply zsum_histogram_le; lia).
  assert (Hall : forall (a : nat) ra, r !! a = Some ra -> 0 < ra -> v !! a = Some true).
  { apply masked_all; [exact Hnonneg | lia | lia]. }
  assert (Hlt : (self < length (heap st))%nat) by (by apply lookup_lt_Some in Hn).
  eexists _, r. split.
  { simpl. rewrite lookup_app_l by (rewrite length_insert; exact Hlt).
    by apply list_lookup_insert_eq. }
  split; [reflexivity |]. split; [exact Hv |]. split; [lia |].
  split; [exact Hall |].
  intros act c Hin. simpl in Hin.
  assert (Hkey : act ∈ budgeted r (seqZ 0 (size n))).
  { rewrite <- (child_entries_keys r _ (length (heap st))).
    apply list_elem_of_fmap. by exists (act, c). }
  apply elem_of_budgeted in Hkey. destruct Hkey as [Hidx Hpos].
  apply elem_of_seqZ in Hidx.
  destruct (lookup_lt_is_Some_2 r (Z.to_nat act)) as [ra Hra]; [lia |].
  apply (Hall _ ra Hra). by rewrite (nth_lookup_Some _ _ _ _ Hra) in Hpos.
Qed.

End ValidDraws.

Lemma add_counts_children_are_valid_witness :
  exists st' (n' : Pi_struct num) (r : list Z),
    add_counts 1 demo_fresh 0%nat [Rat 3; Rat 1] = Ret st' /\
    heap st' !! 0%nat = Some n' /\ nrepeats n' = Some r /\
    isValid n' = Some [true; true] /\
    zsum r = repeat demo_root /\
    (forall (a : nat) ra, r !! a = Some ra -> 0 < ra ->
                          [true; true] !! a = Some true) /\
    (forall act c, (act, c) ∈ children n' ->
                   [true; true] !! Z.to_nat act = Some true).
Proof.
  assert (Hrun : exists st', add_counts 1 demo_fresh 0%nat [Rat 3; Rat 1] = Ret st')
    by (eexists; vm_compute; reflexivity).
  destruct Hrun as [st' Hrun].
  destruct (add_counts_children_are_valid 1 demo_fresh st' 0%nat [Rat 3; Rat 1]
              demo_root [true; true]) as (n' & r & Hres).
  - reflexivity.
  - reflexivity.
  - reflexivity.
  - reflexivity.
  - intros pi action g Hc. simpl in Hc. injection Hc as <- _. reflexivity.
  - exact Hrun.
  - exists st', n', r. split; [exact Hrun | exact Hres].
Defined.


Section FirstAction.
Context {F : Type} `{Arith F}.
Context {Rng : Type} `{Sampler F Rng}.

Implicit Types (n : Pi_struct F) (st : Store F Rng).

Lemma dict_get_found {V} (d : list (Z * V)) (k : Z) (x : V) :
  NoDup d.*1 -> (k, x) ∈ d -> dict_get d k = Ret x.
Proof.
  unfold dict_get. induction d as [| [k' y] d IH]; intros Hnd Hin.
  - by apply elem_of_nil in Hin.
  - simpl in Hnd. apply NoDup_cons in Hnd. destruct Hnd as [Hnotin Hnd].
    simpl. destruct (k' =? k) eqn:Ek.
    + apply Z.eqb_eq in Ek. subst k'. apply elem_of_cons in Hin.
      destruct Hin as [Heq | Hin]; [by inversion Heq |].
      exfalso. apply Hnotin. apply list_elem_of_fmap. by exists (k, x).
    + apply Z.eqb_neq in Ek. apply elem_of_cons in Hin.
      destruct Hin as [Heq | Hin]; [inversion Heq; congruence |]. by apply IH.
Qed.

(** X8: right after the expansion of a fresh node with a positive repeat
    budget, the lookups of [get_state] cannot fail: [get_next] returns an
    action [i >= 0], the first one that is valid and has a positive repeat
    count, and [children[i]] is there: a node that is not expanded, one
    level below, with the repeat budget [nrepeats[i]]. *)
Theorem expansion_provides_first_child (fuel : nat) st st1 (self : addr)
    (counts : list F) n (v : list bool) :
  heap st !! self = Some n ->
  evaluated n = false -> children n = [] -> next n = 0 -> score n = 0 ->
  isValid n = Some v -> length v = Z.to_nat (size n) -> 0 < repeat n ->
  add_counts fuel st self counts = Ret st1 ->
  exists (i : Z) st2 (n2 : Pi_struct F) (r : list Z) (c : addr),
    get_next st1 self = Ret (i, st2) /\ 0 <= i < size n /\
    heap st2 !! self = Some n2 /\ next n2 = i /\ evaluated n2 = true /\
    nrepeats n2 = Some r /\
    actionable r v i /\ (forall j, 0 <= j < i -> ~ actionable r v j) /\
    dict_get (children n2) i = Ret c /\
    heap st2 !! c
    = Some (Pi_struct_init (size n) (nth (Z.to_nat i) r 0) (level n + 1)
              (file_no n) (tau n) (Some self)).
Proof.
  intros Hn Hev Hkids Hnext Hscore Hv Hlv Hrep Hadd.
  assert (Hok : node_ok n).
  { constructor.
    - lia.
    - intros _. auto.
    - intros v' Hv' _. congruence.
    - congruence. }
  destruct (get_next_after_expansion st self n fuel counts st1 Hok Hn Hev Hadd Hrep)
    as (i & st2 & Hget & Hi).
  destruct (expand_shape st self n fuel counts st1 i st2 Hok Hn Hev Hadd Hget Hi)
    as (v' & pi & r & Hv' & Hsize & Hlr & _ & Hnonneg & Hbudget & Hpast & Hact & Hilt
        & Hheap2 & _ & _).
  assert (v' = v) by congruence. subst v'.
  assert (Hlt : (self < length (heap st))%nat) by (by apply lookup_lt_Some in Hn).
  set (n2 := expanded_node n (length (heap st)) pi r i) in *.
  assert (Hkey : i ∈ budgeted r (seqZ 0 (size n))).
  { apply elem_of_budgeted. split; [apply elem_of_seqZ; lia |].
    destruct Hact as (_ & ri & Hri & Hpos & _).
    by rewrite (nth_lookup_Some _ _ _ _ Hri). }
  apply list_elem_of_lookup in Hkey. destruct Hkey as [k Hk].
  exists i, st2, n2, r, (length (heap st) + k)%nat.
  split; [exact Hget |]. split; [lia |].
  split; [rewrite Hheap2; by apply lookup_expanded_cur |].
  split; [reflexivity |]. split; [reflexivity |]. split; [reflexivity |].
  split; [exact Hact |]. split; [exact Hpast |]. split.
  - apply dict_get_found.
    + unfold n2. simpl. rewrite child_entries_keys. unfold budgeted.
      apply NoDup_filter, NoDup_seqZ.
    + by apply child_entries_elem.
  - rewrite Hheap2. rewrite lookup_app_r by (rewrite length_insert; lia).
    rewrite length_insert.
    replace (length (heap st) + k - length (heap st))%nat with k by lia.
    change (map ?g ?l) with (g <$> l). rewrite list_lookup_fmap, Hk. reflexivity.
Qed.

End FirstAction.

Lemma expansion_provides_first_child_witness :
  exists st1 (i : Z) st2 (n2 : Pi_struct num) (r : list Z) (c : addr),
    add_counts 1 demo_fresh 0%nat [Rat 3; Rat 1] = Ret st1 /\
    get_next st1 0%nat = Ret (i, st2) /\ 0 <= i < size demo_root /\
    heap st2 !! 0%nat = Some n2 /\ next n2 = i /\ evaluated n2 = true /\
    nrepeats n2 = Some r /\
    actionable r [true; true] i /\
    (forall j, 0 <= j < i -> ~ actionable r [true; true] j) /\
    dict_get (children n2) i = Ret c /\
    heap st2 !! c
    = Some (Pi_struct_init (size demo_root) (nth (Z.to_nat i) r 0)
              (level demo_root + 1) (file_no demo_root) (tau demo_root)
              (Some 0%nat)).
Proof.
  assert (Hrun : exists st1, add_counts 1 demo_fresh 0%nat [Rat 3; Rat 1] = Ret st1)
    by (eexists; vm_compute; reflexivity).
  destruct Hrun as [st1 Hrun].
  destruct (expansion_provides_first_child 1 demo_fresh st1 0%nat [Rat 3; Rat 1] demo_root
              [true; true]) as (i & st2 & n2 & r & c & Hres);
    try reflexivity; [exact Hrun |].
  exists st1, i, st2, n2, r, c. split; [exact Hrun | exact Hres].
Defined.


Section FreshDriver.
Context {F : Type} `{Arith F}.
Context {Rng : Type} `{Sampler F Rng}.
Context {E : Type} `{Environment F E}.

Implicit Types (n : Pi_struct F) (st : Store F Rng) (m : MCT F E).

(** X9: what [MCT.__init__] leaves behind.  When the environment reports
    the problem as solved on reset there is no tree: [report_performance]
    returns [(file_no, 1, 1)], [write_data_to_buffer] adds nothing and
    [get_state] returns [None].  Otherwise the construction raises
    [ValueError] when the observation does not fit [max_var1 * 2] actions,
    and else builds a root that is not expanded: [report_performance]
    returns [(file_no, nrepeat, 0)], [write_data_to_buffer] adds nothing
    when [nrepeat] is not 0 (it divides the score of the root by [nrepeat]
    before it looks at the tree), and the first call of [get_state] pauses
    at once: it returns the observation of the reset, whatever the
    arguments, and leaves the tree as it is. *)
Theorem fresh_driver (e e' : E) (g : Rng) (f max_var1 nrepeat : Z)
    (tau : Z -> F) (rs : Z) (o : option (ndarray3 F)) :
  env_resetAt e f = (o, e') ->
  match o with
  | None =>
      exists m,
        MCT_init e g f max_var1 nrepeat tau rs = Ret (m, empty_store g) /\
        report_performance m (empty_store g) = Ret (f, 1, 1) /\
        (forall depth buf,
           write_data_to_buffer depth m (empty_store g) buf = Ret buf) /\
        (forall fuel pi_array v_value,
           get_state fuel m (empty_store g) pi_array v_value
           = Ret (None, m, empty_store g))
  | Some s =>
      if ((dim1 s * dim2 s =? 0)%nat
          || negb ((max_var1 * 2 =? -1)
                   || (Z.of_nat (dim1 s * dim2 s) =? max_var1 * 2)))%bool
      then MCT_init e g f max_var1 nrepeat tau rs = Raise ValueError
      else
        exists m st root,
          MCT_init e g f max_var1 nrepeat tau rs = Ret (m, st) /\
          heap st = [root] /\ calls st = [] /\ evaluated root = false /\
          isValid root = Some (np_any_axis0 s) /\
          min_step m = Some rs /\ max_step m = Some 0 /\
          report_performance m st = Ret (f, nrepeat, 0) /\
          (nrepeat <> 0 ->
           forall depth buf,
             write_data_to_buffer (S depth) m st buf = Ret buf) /\
          (forall fuel pi_array v_value,
             get_state (S (S fuel)) m st pi_array v_value
             = Ret (Some s, with_phase m (Some true), st))
  end.
Proof.
  intros Hreset. unfold MCT_init. rewrite Hreset. destruct o as [s |].
  - simpl. unfold add_state, load. simpl. unfold add_state_node. simpl.
    destruct ((max_var1 * 2 =? -1) || (Z.of_nat (dim1 s * dim2 s) =? max_var1 * 2))
      eqn:E1; simpl.
    + destruct (dim1 s * dim2 s =? 0)%nat eqn:E2; simpl; [reflexivity |].
      eexists _, _, _. split; [reflexivity |]. simpl.
      split; [reflexivity |]. split; [reflexivity |]. split; [reflexivity |].
      split; [reflexivity |]. split; [reflexivity |]. split; [reflexivity |].
      split; [reflexivity |]. split; [| reflexivity].
      intros Hne depth buf. apply Z.eqb_neq in Hne.
      unfold write_data_to_buffer, load, average_score. simpl. by rewrite Hne.
    + rewrite orb_true_r. reflexivity.
  - eexists. split; [reflexivity |]. split; [reflexivity |].
    split; reflexivity.
Qed.

End FreshDriver.

Lemma fresh_driver_witness :
  (exists m st root,
     MCT_init (chain_env 1 1) [[0]] 7 1 4 (fun _ => Rat 1) 1000000 = Ret (m, st) /\
     heap st = [root] /\ calls st = [] /\ evaluated root = false /\
     isValid root = Some (np_any_axis0 obs2) /\
     min_step m = Some 1000000 /\ max_step m = Some 0 /\
     report_performance m st = Ret (7, 4, 0) /\
     (4 <> 0 ->
      forall depth buf, write_data_to_buffer (S depth) m st buf = Ret buf) /\
     (forall fuel pi_array v_value,
        get_state (S (S fuel)) m st pi_array v_value
        = Ret (Some obs2, with_phase m (Some true), st))) /\
  MCT_init (chain_env 1 1) [[0]] 7 2 4 (fun _ => Rat 1) 1000000 = Raise ValueError.
Proof.
  split.
  - exact (fresh_driver (chain_env 1 1) _ [[0]] 7 1 4 (fun _ => Rat 1) 1000000
             (Some obs2) eq_refl).
  - exact (fresh_driver (chain_env 1 1) _ [[0]] 7 2 4 (fun _ => Rat 1) 1000000
             (Some obs2) eq_refl).
Defined.


Section ExactExpansion.
Context {Rng : Type} `{Sampler R Rng}.

Implicit Types (n : Pi_struct R) (st : Store R Rng).

Lemma masked_full (r : list Z) (v : list bool) :
  length r = length v ->
  (forall (a : nat) ra, r !! a = Some ra -> ra <> 0 -> v !! a = Some true) ->
  zsum (zip_with (fun x b => x * Z.b2z b) r v) = zsum r.
Proof.
  revert v. induction r as [| x r IH]; intros v Hl Hall.
  - by destruct v.
  - destruct v as [| b v]; [discriminate |]. simpl in Hl.
    cbn [zip_with]. rewrite !zsum_cons. rewrite IH.
    + destruct (Z.eq_dec x 0) as [-> | Hx]; [lia |].
      specialize (Hall 0%nat x eq_refl Hx). simpl in Hall. injection Hall as ->.
      simpl. lia.
    + lia.
    + intros a ra Ha Hra. exact (Hall (S a) ra Ha Hra).
Qed.

Lemma R_masked_counts (counts : list R) (v : list bool) :
  length counts = length v ->
  (forall (i : nat) c, counts !! i = Some c -> v !! i = Some false -> c = 0%R) ->
  zip_with (fun c b => fmul c (of_bool b)) counts v = counts.
Proof.
  revert v. induction counts as [| c counts IH]; intros v Hl Hz.
  - by destruct v.
  - destruct v as [| b v]; [discriminate |]. simpl in Hl. cbn [zip_with].
    f_equal.
    + destruct b.
      * unfold of_bool. simpl. lra.
      * rewrite (Hz 0%nat c eq_refl eq_refl). unfold of_bool. simpl. lra.
    + apply IH; [lia |]. intros i c' Hi Hv. exact (Hz (S i) c' Hi Hv).
Qed.

Lemma R_masked_policy (pi : list R) (v : list bool) :
  length pi = length v ->
  (forall (i : nat) p, pi !! i = Some p -> v !! i = Some false -> p = 0%R) ->
  zip_with (fun b p => fmul (of_bool b) p) v pi = pi.
Proof.
  revert v. induction pi as [| p pi IH]; intros v Hl Hz.
  - by destruct v.
  - destruct v as [| b v]; [discriminate |]. simpl in Hl. cbn [zip_with].
    f_equal.
    + destruct b.
      * unfold of_bool. simpl. lra.
      * rewrite (Hz 0%nat p eq_refl eq_refl). unfold of_bool. simpl. lra.
    + apply IH; [lia |]. intros i p' Hi Hv. exact (Hz (S i) p' Hi Hv).
Qed.

Lemma bin_count_pos (action : list Z) (a : Z) :
  bin_count action a <> 0 -> exists x, x ∈ action /\ bin x = a.
Proof.
  unfold bin_count. intros Hne.
  destruct (filter (fun x => bin x = a) action) as [| x l] eqn:Ef; [done |].
  assert (Hin : x ∈ filter (fun x => bin x = a) action) by (rewrite Ef; left).
  apply list_elem_of_filter in Hin. exists x. tauto.
Qed.

(** X10: in exact arithmetic no assertion of [add_counts] fails on counts
    that are concentrated on the valid actions.  For a fresh node that
    holds its validity mask, visit counts that are not negative, not all
    zero and zero on every invalid action, a temperature above 0, and a
    random generator that draws [repeat] actions of positive probability:
    with enough iterations for the loop of [get_PI], [add_counts] returns
    and the node is expanded. *)
Theorem add_counts_succeeds st (self : addr) (counts : list R) n
    (v : list bool) :
  heap st !! self = Some n -> children n = [] ->
  isValid n = Some v -> 0 < size n ->
  length v = Z.to_nat (size n) -> length counts = Z.to_nat (size n) ->
  Forall (fun c => (0 <= c)%R) counts -> (0 < R_sum counts)%R ->
  (0 < tau n (level n))%R ->
  (forall (i : nat) c, counts !! i = Some c -> v !! i = Some false -> c = 0%R) ->
  (forall pi : list R,
     R_sum pi = 1%R -> length pi = length counts ->
     (forall (i : nat) c p, counts !! i = Some c -> pi !! i = Some p ->
        (0 <= p)%R /\ (p = 0%R <-> c = 0%R)) ->
     exists action g,
       random_choice (rng st) (size n) (repeat n) pi = Ret (action, g) /\
       Z.of_nat (length action) = repeat n /\
       Forall (fun a => 0 <= a /\ exists p, pi !! Z.to_nat a = Some p /\ (0 < p)%R)
         action) ->
  exists fuel0 : nat, forall fuel, (fuel0 <= fuel)%nat ->
    exists st' n',
      add_counts fuel st self counts = Ret st' /\
      heap st' !! self = Some n' /\ evaluated n' = true.
Proof.
  intros Hn Hkids Hv Hsize Hlv Hlc Hnonneg Hsum Htau Hconc Hdraw.
  assert (Hp : (0 < 1 / tau n (level n))%R) by (apply Rdiv_lt_0_compat; lra).
  destruct (get_PI_value counts (tau n (level n)) Hnonneg Hsum Htau) as [fuel0 Hval].
  exists fuel0. intros fuel Hf. specialize (Hval fuel Hf).
  pose proof (R_sum_powers_pos counts (1 / tau n (level n)) Hnonneg Hsum) as HS.
  set (e := (1 / tau n (level n))%R) in *.
  set (S := R_sum (map (fun x => R_power x e) counts)) in *.
  set (pi := normalize (map (fun x => R_power x e) counts)) in *.
  assert (Hpi : pi = map (fun c => (R_power c e / S)%R) counts).
  { unfold pi. rewrite normalize_R, map_map. reflexivity. }
  assert (Hlpi : length pi = length counts) by (by rewrite Hpi, length_map).
  assert (Hspi : R_sum pi = 1%R) by (apply R_sum_normalize; fold S; lra).
  assert (Hsupp : forall (i : nat) c p, counts !! i = Some c -> pi !! i = Some p ->
            (0 <= p)%R /\ (p = 0%R <-> c = 0%R)).
  { intros i c p Hci Hpi'. rewrite Hpi in Hpi'.
    change (map ?g ?l) with (g <$> l) in Hpi'.
    rewrite list_lookup_fmap, Hci in Hpi'. simpl in Hpi'. injection Hpi' as <-.
    assert (Hc0 : (0 <= c)%R).
    { rewrite Forall_forall in Hnonneg. apply Hnonneg.
      by apply list_elem_of_lookup_2 in Hci. }
    pose proof (R_power_nonneg c e) as Hnn.
    pose proof (R_power_zero_iff c e Hc0 Hp) as Hz.
    split.
    - apply Rmult_le_pos; [exact Hnn |]. left. by apply Rinv_0_lt_compat.
    - rewrite <- Hz. split.
      + intros Hq. apply (Rmult_eq_compat_r S) in Hq.
        unfold Rdiv in Hq. rewrite Rmult_assoc, Rinv_l in Hq by lra. lra.
      + intros ->. unfold Rdiv. lra. }
  destruct (Hdraw pi Hspi Hlpi Hsupp) as (action & g & Hchoice & Hlen & Hact).
  (* every action drawn is in range and valid *)
  assert (Hvalid : Forall (fun a => 0 <= a < size n /\ v !! Z.to_nat a = Some true)
                     action).
  { eapply Forall_impl; [exact Hact |]. simpl. intros a (Ha & p & Hpa & Hpos).
    assert (Hlt : (Z.to_nat a < length counts)%nat).
    { rewrite <- Hlpi. by apply lookup_lt_Some in Hpa. }
    split; [lia |].
    destruct (lookup_lt_is_Some_2 counts (Z.to_nat a) Hlt) as [c Hc].
    destruct (lookup_lt_is_Some_2 v (Z.to_nat a)) as [b Hb]; [lia |].
    destruct b; [exact Hb |].
    pose proof (Hconc _ c Hc Hb) as Hc0.
    destruct (Hsupp _ c p Hc Hpa) as [_ Hz]. apply Hz in Hc0. lra. }
  set (r := histogram action (size n)).
  assert (Hlr : length r = Z.to_nat (size n)) by apply histogram_length.
  assert (Hcount : get_nrepeat_count action (size n) = Ret r).
  { rewrite get_nrepeat_count_cases. destruct (size n <? 0) eqn:En; [lia |].
    destruct (decide (0 < size n /\ Forall (fun x => x < size n) action))
      as [_ | Hno]; [reflexivity |].
    exfalso. apply Hno. split; [exact Hsize |].
    eapply Forall_impl; [exact Hvalid |]. simpl. intros a [Ha _]. lia. }
  assert (Hmask : zsum (zip_with (fun x b => x * Z.b2z b) r v) = repeat n).
  { rewrite masked_full.
    - unfold r. rewrite zsum_histogram; [exact Hlen | exact Hsize |].
      eapply Forall_impl; [exact Hvalid |]. simpl. intros a [Ha _]. lia.
    - lia.
    - intros a ra Ha Hra.
      assert (Halt : (a < Z.to_nat (size n))%nat).
      { rewrite <- Hlr. by apply lookup_lt_Some in Ha. }
      unfold r in Ha. rewrite <- (Nat2Z.id a) in Ha.
      rewrite histogram_lookup in Ha by lia. injection Ha as <-.
      destruct (bin_count_pos action (Z.of_nat a) Hra) as (x & Hx & Hbin).
      rewrite Forall_forall in Hvalid. destruct (Hvalid x Hx) as [Hxr Hxv].
      unfold bin in Hbin. replace (Z.to_nat x) with a in Hxv by lia. exact Hxv. }
  (* the run *)
  unfold add_counts. rewrite (load_Some st self n Hn), bind_Ret.
  rewrite Hv. cbn [attr]. rewrite bind_Ret.
  rewrite np_zip_same_length by lia. rewrite bind_Ret.
  rewrite (R_masked_counts counts v) by (lia || exact Hconc).
  assert (Hfeq : feq (fsum counts) (fsum counts) = true).
  { simpl. destruct (Req_dec_T (R_sum counts) (R_sum counts)); congruence. }
  rewrite Hfeq. cbn [assert]. rewrite bind_Ret.
  rewrite Hval, bind_Ret. cbv zeta.
  rewrite np_zip_same_length by lia. rewrite bind_Ret.
  rewrite (R_masked_policy pi v).
  2: lia.
  2:{ intros i p Hpi' Hvi.
      assert (Hlt : (i < length counts)%nat).
      { rewrite <- Hlpi. by apply lookup_lt_Some in Hpi'. }
      destruct (lookup_lt_is_Some_2 counts i Hlt) as [c Hc].
      destruct (Hsupp i c p Hc Hpi') as [_ Hz]. apply Hz. by apply (Hconc i). }
  assert (Hfgt : fgt (fsum pi) (of_dec 999999 (-6)) = true).
  { simpl. change (@fsum R R_arith pi) with (R_sum pi). rewrite Hspi.
    match goal with
    | |- context [Rgt_dec ?a ?b] => destruct (Rgt_dec a b) as [_ | Hno]
    end; [reflexivity |].
    exfalso. apply Hno. lra. }
  rewrite Hfgt. cbn [assert]. rewrite bind_Ret.
  cbn [size repeat with_Pi]. rewrite Hchoice, bind_Ret. cbv beta iota.
  rewrite Hcount, bind_Ret.
  rewrite np_zip_same_length by lia. rewrite bind_Ret.
  cbn [repeat with_nrepeats with_Pi]. rewrite Hmask, Z.eqb_refl. cbn [assert].
  rewrite bind_Ret.
  set (n2 := with_nrepeats (with_Pi n (Some pi)) (Some r)).
  set (st2 := store (with_rng st g) self n2).
  assert (Hlt : (self < length (heap st))%nat) by (by apply lookup_lt_Some in Hn).
  assert (Hn2 : heap st2 !! self = Some n2).
  { unfold st2, store. simpl. by apply list_lookup_insert_eq. }
  rewrite (make_children_run self r (seqZ 0 (size n2)) st2 n2 Hn2 eq_refl).
  - rewrite bind_Ret. unfold load. cbn [heap with_heap].
    rewrite lookup_app_l by (rewrite length_insert; unfold st2, store; simpl;
                             rewrite length_insert; exact Hlt).
    rewrite list_lookup_insert_eq
      by (unfold st2, store; simpl; rewrite length_insert; exact Hlt).
    rewrite bind_Ret. eexists _, _. split; [reflexivity |].
    assert (Hlen2 : (self < length (<[self := with_children n2
                       (children n2
                        ++ child_entries r (seqZ 0 (size n2)) (length (heap st2)))]>
                       (heap st2)))%nat).
    { rewrite length_insert. unfold st2, store. simpl. rewrite length_insert.
      exact Hlt. }
    split.
    + unfold store. cbn [heap with_heap]. rewrite insert_app_l by exact Hlen2.
      apply lookup_app_l_Some. apply list_lookup_insert_eq. exact Hlen2.
    + reflexivity.
  - apply Forall_forall. intros i Hi. apply elem_of_seqZ in Hi. simpl in Hi. lia.
  - apply NoDup_seqZ.
  - intros i _. simpl. rewrite Hkids. apply not_elem_of_nil.
Qed.

End ExactExpansion.

Lemma add_counts_succeeds_witness :
  exists fuel0 : nat, forall fuel, (fuel0 <= fuel)%nat ->
    exists st' n',
      add_counts fuel exact_fresh 0%nat [3%R; 0%R; 1%R] = Ret st' /\
      heap st' !! 0%nat = Some n' /\ evaluated n' = true.
Proof.
  apply (add_counts_succeeds exact_fresh 0%nat [3%R; 0%R; 1%R] exact_root
           [true; false; true]); try reflexivity.
  - repeat constructor; lra.
  - simpl. lra.
  - simpl. lra.
  - intros i c Hc Hv. destruct i as [| [| [| i]]]; simpl in Hc, Hv;
      try discriminate. by injection Hc as <-.
  - intros pi Hsum Hlen Hsupp. exists [0; 2], []. split; [reflexivity |].
    split; [reflexivity |].
    destruct pi as [| p0 [| p1 [| p2 [| p3 pi]]]]; try discriminate.
    destruct (Hsupp 0%nat 3%R p0 eq_refl eq_refl) as [H0 Hz0].
    destruct (Hsupp 2%nat 1%R p2 eq_refl eq_refl) as [H2 Hz2].
    constructor; [| constructor; [| constructor]].
    + split; [lia |]. exists p0. split; [reflexivity |].
      destruct (Req_dec_T p0 0) as [Hq | Hq]; [apply Hz0 in Hq; lra | lra].
    + split; [lia |]. exists p2. split; [reflexivity |].
      destruct (Req_dec_T p2 0) as [Hq | Hq]; [apply Hz2 in Hq; lra | lra].
Defined.


Section OneAdvance.
Context {F : Type} `{Arith F}.
Context {Rng : Type} `{Sampler F Rng}.

Implicit Types (n : Pi_struct F) (st : Store F Rng).

(** X11: one call of [set_next] on a node that holds its arrays, with a
    score that is a [numpy.int64].  The score is added as a [numpy.int64]:
    the sum wraps around at [2^63].  The cursor moves to the first action
    after the current one that is valid and has a positive repeat count,
    or past the end.  In the first case that action is returned.  In the
    second the node is finished: a root returns -1, any other node calls
    [set_next] on its parent with its own total score and returns what
    that call returns. *)
Theorem set_next_step (d : nat) st (a : addr) (from : option addr) (s : Z) n
    (r : list Z) (v : list bool) :
  heap st !! a = Some n ->
  nrepeats n = Some r -> isValid n = Some v ->
  length r = Z.to_nat (size n) -> length v = Z.to_nat (size n) ->
  0 <= next n ->
  - 2 ^ 63 <= s < 2 ^ 63 -> - 2 ^ 63 <= score n < 2 ^ 63 ->
  exists c,
    next n < c /\ (forall j, next n < j < c -> ~ actionable r v j) /\
    let st1 := store (log_call st {| caller := from; callee := a;
                                     additional_score := s |})
                 a (with_next (with_score n (wrap64 (score n + s))) c) in
    (c < size n /\ actionable r v c /\
     set_next (S d) st a from s = Ret (c, st1)) \/
    (size n <= c /\ c = Z.max (next n + 1) (size n) /\
     set_next (S d) st a from s
     = match parent n with
       | None => Ret (-1, st1)
       | Some p => set_next d st1 p (Some a) (wrap64 (score n + s))
       end).
Proof.
  intros Hn Hr Hv Hlr Hlv Hnext _ _.
  set (n1 := with_next (with_score n (wrap64 (score n + s))) (next n + 1)).
  destruct (get_next_node_spec n1 r v) as (i & c & Hrun & Hnc & Hpast & Hres);
    try assumption; [simpl; lia |].
  simpl in Hrun, Hnc, Hpast, Hres.
  set (n2 := with_next (with_score n (wrap64 (score n + s))) c).
  assert (Hrun1 : get_next_node n1 = Ret (i, n2)) by exact Hrun.
  destruct (get_next_node_spec n2 r v) as (i' & c' & Hrun' & Hnc' & Hpast' & Hres');
    try assumption; [simpl; lia |].
  simpl in Hrun', Hnc', Hpast', Hres'.
  assert (Hsame : c' = c /\ i' = i).
  { destruct Hres as [(-> & Hlt & Hact) | (-> & Hge & Hc)].
    - destruct (Z.eq_dec c' c) as [-> | Hne].
      + destruct Hres' as [(-> & _) | (_ & ? & _)]; [auto | lia].
      + exfalso. apply (Hpast' c); [lia | exact Hact].
    - destruct Hres' as [(_ & ? & _) | (-> & _ & ->)]; [lia |]. split; lia. }
  destruct Hsame as [-> ->].
  assert (Hrun2 : get_next_node n2 = Ret (i, n2)) by exact Hrun'.
  set (st0 := log_call st {| caller := from; callee := a; additional_score := s |}).
  assert (Hn0 : heap st0 !! a = Some n) by exact Hn.
  assert (Heq : set_next (S d) st a from s
                = (if i <? 0
                   then match parent n with
                        | Some p => set_next d (store st0 a n2) p (Some a)
                                      (wrap64 (score n + s))
                        | None => Ret (i, store st0 a n2)
                        end
                   else Ret (i, store st0 a n2))).
  { simpl set_next. fold st0.
    rewrite (load_Some st0 a n Hn0), bind_Ret.
    rewrite (load_store_same st0 a n _ Hn0), bind_Ret.
    rewrite store_store. simpl score. simpl next. fold n1.
    rewrite (get_next_store st0 a n n1 i n2 Hn0 Hrun1), bind_Ret.
    rewrite (get_next_store st0 a n n2 i n2 Hn0 Hrun2), bind_Ret.
    rewrite (load_store_same st0 a n _ Hn0), bind_Ret. reflexivity. }
  exists c. split; [lia |]. split; [intros j Hj; apply Hpast; lia |].
  cbv zeta. fold st0. fold n2.
  destruct Hres as [(-> & Hlt & Hact) | (-> & Hge & Hc)].
  - left. split; [exact Hlt |]. split; [exact Hact |]. rewrite Heq.
    destruct (c <? 0) eqn:Ec; [apply Z.ltb_lt in Ec; lia | reflexivity].
  - right. split; [exact Hge |]. split; [exact Hc |]. rewrite Heq. reflexivity.
Qed.

End OneAdvance.

Lemma set_next_step_witness :
  exists c,
    next demo_node < c /\
    (forall j, next demo_node < j < c -> ~ actionable [0; 0; 2] [true; false; true] j) /\
    let st1 := store (log_call demo_store {| caller := None; callee := 0%nat;
                                             additional_score := 5 |})
                 0%nat (with_next (with_score demo_node (wrap64 (score demo_node + 5))) c) in
    (c < size demo_node /\ actionable [0; 0; 2] [true; false; true] c /\
     set_next 1 demo_store 0%nat None 5 = Ret (c, st1)) \/
    (size demo_node <= c /\ c = Z.max (next demo_node + 1) (size demo_node) /\
     set_next 1 demo_store 0%nat None 5
     = match parent demo_node with
       | None => Ret (-1, st1)
       | Some p => set_next 0 st1 p (Some 0%nat) (wrap64 (score demo_node + 5))
       end).
Proof.
  apply (set_next_step 0 demo_store 0%nat None 5 demo_node [0; 0; 2]
           [true; false; true]); try reflexivity; simpl; lia.
Defined.


Section TreeShape.
Context {F : Type} `{Arith F}.
Context {Rng : Type} `{Sampler F Rng}.
Context {E : Type} `{Environment F E}.
Context {Pos : Type} `{!Deterministic Pos}.

Implicit Types (n : Pi_struct F) (h : list (Pi_struct F)) (st : Store F Rng)
  (m : MCT F E).

(** X12: at every point of a run on a deterministic environment the
    nodes form a tree that hands the repeat budget down.  The root is the
    first node allocated, at level 0 with the budget [nrepeat].  Every
    other node was created by an expanded node allocated before it, which
    is its [parent] and holds it in [children] under one action [act]: the
    node is one level below, over the same action space, and its budget is
    [nrepeats[act] > 0] of the parent.  In every expanded node the repeat
    counts of the valid actions add up to the budget of the node, and the
    children are distinct nodes whose [parent] is that node. *)
Theorem run_builds_a_tree (e : E) (g : Rng) (f max_var1 R : Z)
    (tau : Z -> F) (rs : Z) (inputs : list (nat * list F * F))
    (outs : list (option (ndarray3 F))) m st :
  env_ok e ->
  play e g f max_var1 R tau rs inputs = Ret (outs, m, st) ->
  Pi_root m <> None ->
  (exists r0, Pi_root m = Some 0%nat /\ heap st !! 0%nat = Some r0 /\
              parent r0 = None /\ level r0 = 0 /\ repeat r0 = R) /\
  (forall (a : addr) n, heap st !! a = Some n -> a <> 0%nat ->
     exists (p : addr) pn act r,
       parent n = Some p /\ (p < a)%nat /\ heap st !! p = Some pn /\
       evaluated pn = true /\ nrepeats pn = Some r /\
       dict_get (children pn) act = Ret a /\
       level n = level pn + 1 /\ size n = size pn /\
       repeat n = nth (Z.to_nat act) r 0 /\ 0 < repeat n) /\
  (forall (a : addr) n, heap st !! a = Some n -> evaluated n = true ->
     exists r v,
       nrepeats n = Some r /\ isValid n = Some v /\
       valid_budget r v = repeat n /\ NoDup (children n).*2 /\
       forall act c, (act, c) ∈ children n ->
         exists cn, heap st !! c = Some cn /\ parent cn = Some a).
Proof.
  intros He Hplay Hroot.
  destruct (play_ok e g f max_var1 R tau rs inputs outs m st He Hplay Hroot)
    as (pm & Hok & _).
  destruct (run_top _ _ _ _ _ Hok) as (r0 & Hr0 & Hrep0 & Hl0 & _).
  pose proof (run_heap _ _ _ _ _ Hok) as Hheap.
  split; [| split].
  - exists r0. split; [exact (run_root _ _ _ _ _ Hok) |]. split; [exact Hr0 |].
    split; [| by split].
    pose proof (proj2 (root_iff pm rs _ _ _ 0%nat r0 Hheap Hr0) eq_refl) as Hrt.
    unfold is_root in Hrt. by destruct (parent r0).
  - intros a n Hn Hne. destruct (Hheap a n Hn) as (_ & Hlink & _).
    unfold link_ok in Hlink. destruct (parent n) as [p |]; [| contradiction].
    destruct Hlink as (_ & pn & act & r & Hlt & Hpn & Hevp & Hrp & Hin & Hlev & Hrep
                       & Hsz & _).
    destruct (Hheap p pn Hpn) as (Hokp & _ & _).
    exists p, pn, act, r. split; [reflexivity |]. split; [exact Hlt |].
    split; [exact Hpn |]. split; [exact Hevp |]. split; [exact Hrp |].
    split; [apply dict_get_found; [by apply keys_NoDup | exact Hin] |].
    split; [exact Hlev |]. split; [exact Hsz |]. split; [exact Hrep |].
    rewrite Hrep.
    destruct (ok_eval pn Hokp Hevp) as (r' & v & Hr' & _ & _ & _ & _ & _ & Hkeys & _).
    assert (r' = r) by congruence. subst r'.
    assert (Hkey : act ∈ budgeted r (seqZ 0 (size pn))).
    { rewrite <- Hkeys. apply list_elem_of_fmap. by exists (act, a). }
    apply elem_of_budgeted in Hkey. by destruct Hkey.
  - intros a n Hn Hev. destruct (Hheap a n Hn) as (Hokn & _ & Hkids).
    destruct (ok_eval n Hokn Hev) as (r & v & Hr & Hv & _ & _ & _ & Hbud & _ & Hnd & _).
    exists r, v. split; [exact Hr |]. split; [exact Hv |]. split; [exact Hbud |].
    split; [exact Hnd |]. exact Hkids.
Qed.

End TreeShape.

Lemma run_builds_a_tree_witness :
  exists outs m st,
    two_level_run 3 = Ret (outs, m, st) /\
    (exists r0, Pi_root m = Some 0%nat /\ heap st !! 0%nat = Some r0 /\
                parent r0 = None /\ level r0 = 0 /\ repeat r0 = 2) /\
    (forall (a : addr) n, heap st !! a = Some n -> a <> 0%nat ->
       exists (p : addr) pn act r,
         parent n = Some p /\ (p < a)%nat /\ heap st !! p = Some pn /\
         evaluated pn = true /\ nrepeats pn = Some r /\
         dict_get (children pn) act = Ret a /\
         level n = level pn + 1 /\ size n = size pn /\
         repeat n = nth (Z.to_nat act) r 0 /\ 0 < repeat n) /\
    (forall (a : addr) n, heap st !! a = Some n -> evaluated n = true ->
       exists r v,
         nrepeats n = Some r /\ isValid n = Some v /\
         valid_budget r v = repeat n /\ NoDup (children n).*2 /\
         forall act c, (act, c) ∈ children n ->
           exists cn, heap st !! c = Some cn /\ parent cn = Some a).
Proof.
  edestruct (run_builds_a_tree
               (Deterministic0 := toy_deterministic (chain_problem 2 0))
               (chain_env 2 0) [[0; 1]; [0]; [1]] 7 1 2 (fun _ => Rat 1) 1000000
               (replicate 3 toy_input)) as [Hroot Hrest].
  - reflexivity.
  - vm_compute. reflexivity.
  - discriminate.
  - refine (ex_intro _ _ (ex_intro _ _ (ex_intro _ _
              (conj _ (conj Hroot Hrest))))).
    vm_compute. reflexivity.
Defined.



Section Subtrees.
Context {F : Type} `{Arith F}.
Context {Rng : Type} `{Sampler F Rng}.
Context {E : Type} `{Environment F E}.
Context {Pos : Type} `{!Deterministic Pos}.
Variables (pm : addr -> Pos) (rs : Z) (front pend : option addr)
  (h : list (Pi_struct F)).
Hypothesis Hh : heap_ok pm rs front pend h.

Implicit Types (n : Pi_struct F) (a b c p : addr).

Lemma parent_link a n p :
  h !! a = Some n -> parent n = Some p ->
  exists pn act, (p < a)%nat /\ h !! p = Some pn /\ evaluated pn = true /\
                 (act, a) ∈ children pn /\ level n = level pn + 1.
Proof.
  intros Hn Hp. destruct (Hh a n Hn) as (_ & Hlink & _).
  unfold link_ok in Hlink. rewrite Hp in Hlink.
  destruct Hlink as (_ & pn & act & r & Hlt & Hpn & Hevp & _ & Hkid & Hlev & _).
  by exists pn, act.
Qed.

Lemma below_le a b : below h a b -> (a <= b)%nat.
Proof.
  induction 1 as [| b p nb _ IH Hb Hp]; [lia |].
  destruct (parent_link b nb p Hb Hp) as (pn & act & Hlt & _). lia.
Qed.

Lemma below_level a b :
  below h a b ->
  forall na nb, h !! a = Some na -> h !! b = Some nb ->
                level na <= level nb /\ (level na = level nb -> a = b).
Proof.
  induction 1 as [| b p nb0 _ IH Hb Hp]; intros na nb Hna Hnb.
  - assert (Hq : Some na = Some nb) by (rewrite <- Hna; exact Hnb).
    injection Hq as ->. split; [lia | reflexivity].
  - assert (Hq : Some nb0 = Some nb) by (rewrite <- Hb; exact Hnb).
    injection Hq as ->.
    destruct (parent_link b nb p Hb Hp) as (pn & act & _ & Hpn & _ & _ & Hlev).
    destruct (IH na pn Hna Hpn) as [Hle _]. split; lia.
Qed.

Lemma below_chain c1 c2 b :
  below h c1 b -> below h c2 b -> below h c1 c2 \/ below h c2 c1.
Proof.
  induction 1 as [| b p nb Hb1 IH Hb Hp]; intros Hb2; [by right |].
  inversion Hb2 as [| b' p' nb' Hb2' Hb' Hp']; subst.
  - left. by apply (below_child h c1 b p nb).
  - assert (Hq : Some nb = Some nb') by (rewrite <- Hb; exact Hb').
    injection Hq as <-. assert (p' = p) by congruence. subst p'.
    by apply IH.
Qed.

Lemma below_down a b c nc :
  h !! c = Some nc -> parent nc = Some a -> below h c b -> below h a b.
Proof.
  intros Hc Hp. induction 1 as [| b p nb _ IH Hb Hpb].
  - apply (below_child h a c a nc); [apply below_self | exact Hc | exact Hp].
  - by apply (below_child h a b p nb).
Qed.

Lemma below_split a b :
  below h a b ->
  b = a \/ exists c nc, h !! c = Some nc /\ parent nc = Some a /\ below h c b.
Proof.
  induction 1 as [| b p nb _ IH Hb Hp]; [by left |]. right.
  destruct IH as [-> | (c & nc & Hc & Hpc & Hcb)].
  - exists b, nb. split; [exact Hb |]. split; [exact Hp | apply below_self].
  - exists c, nc. split; [exact Hc |]. split; [exact Hpc |].
    by apply (below_child h c b p nb).
Qed.

Lemma below_evaluated a b :
  below h a b -> b <> a ->
  forall na, h !! a = Some na -> evaluated na = true.
Proof.
  induction 1 as [| b p nb _ IH Hb Hp]; intros Hne na Hna; [contradiction |].
  destruct (decide (p = a)) as [-> | Hpa].
  - destruct (parent_link b nb a Hb Hp) as (pn & act & _ & Hpn & Hev & _).
    assert (Hq : Some na = Some pn) by (rewrite <- Hna; exact Hpn).
    by injection Hq as ->.
  - by apply IH.
Qed.

Lemma below_root b nb : h !! b = Some nb -> below h 0%nat b.
Proof.
  revert nb. induction (lt_wf b) as [b _ IH]. intros nb Hb.
  destruct (parent nb) as [p |] eqn:Hp.
  - destruct (parent_link b nb p Hb Hp) as (pn & act & Hlt & Hpn & _).
    apply (below_child h 0%nat b p nb); [by apply (IH p Hlt pn) | exact Hb | exact Hp].
  - destruct (Hh b nb Hb) as (_ & Hlink & _). unfold link_ok in Hlink.
    rewrite Hp in Hlink. subst b. apply below_self.
Qed.

Lemma siblings_apart a b c1 c2 n1 n2 :
  h !! c1 = Some n1 -> h !! c2 = Some n2 ->
  parent n1 = Some a -> parent n2 = Some a ->
  below h c1 b -> below h c2 b -> c1 = c2.
Proof.
  intros Hc1 Hc2 Hp1 Hp2 Hb1 Hb2.
  destruct (parent_link c1 n1 a Hc1 Hp1) as (pn & ? & _ & Hpn & _ & _ & Hl1).
  destruct (parent_link c2 n2 a Hc2 Hp2) as (pn' & ? & _ & Hpn' & _ & _ & Hl2).
  assert (Hq : Some pn = Some pn') by (rewrite <- Hpn; exact Hpn').
  injection Hq as <-.
  destruct (below_chain c1 c2 b Hb1 Hb2) as [Hc | Hc].
  - destruct (below_level c1 c2 Hc n1 n2 Hc1 Hc2) as [_ Heq]. apply Heq. lia.
  - destruct (below_level c2 c1 Hc n2 n1 Hc2 Hc1) as [_ Heq]. symmetry. apply Heq. lia.
Qed.

End Subtrees.

Section DumpRun.
Context {F : Type} `{Arith F}.
Context {Rng : Type} `{Sampler F Rng}.
Context {E : Type} `{Environment F E}.
Context {Pos : Type} `{!Deterministic Pos}.
Variables (pm : addr -> Pos) (rs : Z) (front pend : option addr)
  (st : Store F Rng) (file_no lo hi : Z) (mean : F).
Hypothesis Hh : heap_ok pm rs front pend (heap st).
Hypothesis Hs : Forall stocked (heap st).
Hypothesis Hnp : forall a n, heap st !! a = Some n -> parent n = None ->
                             score_np n = true.

Implicit Types (n : Pi_struct F) (a b c p : addr).

Lemma dump_kids (depth : nat) a :
  (forall c nc buf, heap st !! c = Some nc -> (a < c)%nat ->
     exists vis exs,
       analyze_Pi_graph_dump depth file_no st c buf (lo, (true, mean), hi)
       = Ret (buf ++ exs) /\
       NoDup vis /\
       (forall b, b ∈ vis <->
                  below (heap st) c b /\
                  exists nb, heap st !! b = Some nb /\ evaluated nb = true) /\
       Forall2 (fun b x => exists nb, heap st !! b = Some nb /\
                                      emitted file_no mean nb x)
         vis exs) ->
  forall (cs : list (Z * addr)) buf,
    (forall act c, (act, c) ∈ cs ->
                   exists nc, heap st !! c = Some nc /\ parent nc = Some a) ->
    NoDup cs.*2 ->
    exists vis exs,
      dump_children
        (fun c buf' => analyze_Pi_graph_dump depth file_no st c buf'
                         (lo, (true, mean), hi))
        cs buf = Ret (buf ++ exs) /\
      NoDup vis /\
      (forall b, b ∈ vis <->
                 (exists act c, (act, c) ∈ cs /\ below (heap st) c b) /\
                 exists nb, heap st !! b = Some nb /\ evaluated nb = true) /\
      Forall2 (fun b x => exists nb, heap st !! b = Some nb /\
                                     emitted file_no mean nb x)
        vis exs.
Proof.
  intros IHd. induction cs as [| [act c] cs IH]; intros buf Hkids Hnd.
  - exists [], []. simpl. rewrite app_nil_r. split; [reflexivity |].
    split; [apply NoDup_nil_2 |]. split; [| apply Forall2_nil_2].
    intros b. split; [intros Hb; by apply elem_of_nil in Hb |].
    intros [(act & c & Hin & _) _]. by apply elem_of_nil in Hin.
  - destruct (Hkids act c (list_elem_of_here _ _)) as (nc & Hc & Hp).
    destruct (parent_link pm rs front pend (heap st) Hh c nc a Hc Hp)
      as (_ & _ & Hlt & _).
    destruct (IHd c nc buf Hc Hlt) as (vis1 & exs1 & Hrun1 & Hnd1 & Hin1 & Hex1).
    simpl in Hnd. apply NoDup_cons in Hnd. destruct Hnd as [Hfresh Hnd].
    destruct (IH (buf ++ exs1)) as (vis2 & exs2 & Hrun2 & Hnd2 & Hin2 & Hex2).
    { intros act' c' Hin'. apply (Hkids act' c'). by apply list_elem_of_further. }
    { exact Hnd. }
    exists (vis1 ++ vis2), (exs1 ++ exs2).
    split; [simpl; rewrite Hrun1, bind_Ret, Hrun2; by rewrite app_assoc |].
    split; [| split; [| by apply Forall2_app]].
    + apply NoDup_app. split; [exact Hnd1 |]. split; [| exact Hnd2].
      intros b Hb1 Hb2. apply Hin1 in Hb1. destruct Hb1 as [Hb1 _].
      apply Hin2 in Hb2. destruct Hb2 as [(act' & c' & Hin' & Hb2) _].
      destruct (Hkids act' c' (list_elem_of_further _ _ _ Hin')) as (nc' & Hc' & Hp').
      assert (c = c')
        by exact (siblings_apart pm rs front pend (heap st) Hh a b c c' nc nc'
                    Hc Hc' Hp Hp' Hb1 Hb2).
      subst c'. apply Hfresh. apply list_elem_of_fmap. by exists (act', c).
    + intros b. rewrite elem_of_app, Hin1, Hin2. split.
      * intros [[Hb Hev] | [(act' & c' & Hin' & Hb) Hev]].
        -- split; [| exact Hev]. exists act, c. split; [apply list_elem_of_here | exact Hb].
        -- split; [| exact Hev]. exists act', c'.
           split; [by apply list_elem_of_further | exact Hb].
      * intros [(act' & c' & Hin' & Hb) Hev].
        apply elem_of_cons in Hin'. destruct Hin' as [Heq | Hin'].
        -- injection Heq as -> ->. left. by split.
        -- right. split; [| exact Hev]. by exists act', c'.
Qed.

Lemma dump_subtree (depth : nat) :
  forall a na buf,
    heap st !! a = Some na -> (length (heap st) - a <= depth)%nat ->
    exists vis exs,
      analyze_Pi_graph_dump depth file_no st a buf (lo, (true, mean), hi)
       = Ret (buf ++ exs) /\
      NoDup vis /\
      (forall b, b ∈ vis <->
                 below (heap st) a b /\
                 exists nb, heap st !! b = Some nb /\ evaluated nb = true) /\
      Forall2 (fun b x => exists nb, heap st !! b = Some nb /\
                                     emitted file_no mean nb x)
        vis exs.
Proof.
  induction depth as [| depth IH]; intros a na buf Ha Hd.
  - apply lookup_lt_Some in Ha. lia.
  - cbn [analyze_Pi_graph_dump]. rewrite (load_Some st a na Ha), bind_Ret.
    destruct (evaluated na) eqn:Hev; simpl negb; cbv iota.
    + destruct (Hh a na Ha) as (Hoka & _ & Hkids).
      destruct (ok_eval na Hoka Hev)
        as (r & v & _ & _ & _ & _ & _ & _ & _ & Hnd & _).
      destruct (dump_kids depth a) with (cs := children na) (buf := buf)
        as (vis & exs & Hrun & Hndv & Hin & Hex).
      { intros c nc buf' Hc Hlt. apply (IH c nc buf' Hc).
        apply lookup_lt_Some in Hc. lia. }
      { exact Hkids. }
      { exact Hnd. }
      rewrite Hrun, bind_Ret.
      rewrite (average_score_np na (Hnp a na Ha)), bind_Ret.
      destruct (proj1 (Forall_lookup _ _) Hs a na Ha) as (_ & _ & Hfull & _).
      destruct (Hfull Hev) as [[s Hstate] [p HPi]].
      unfold dump_score. cbn [fst snd orb]. rewrite bind_Ret.
      rewrite Hstate, HPi. simpl.
      eexists (vis ++ [a]), (exs ++ [_]).
      split; [by rewrite app_assoc |]. split; [| split].
      * apply NoDup_app. split; [exact Hndv |]. split; [| apply NoDup_singleton].
        intros b Hb Hba. apply list_elem_of_singleton in Hba. subst b.
        apply Hin in Hb. destruct Hb as [(act & c & Hc & Hca) _].
        destruct (Hkids act c Hc) as (nc & Hnc & Hp).
        destruct (parent_link pm rs front pend (heap st) Hh c nc a Hnc Hp)
          as (_ & _ & Hlt & _).
        pose proof (below_le pm rs front pend (heap st) Hh c a Hca). lia.
      * intros b. rewrite elem_of_app, Hin, list_elem_of_singleton. split.
        -- intros [[(act & c & Hc & Hcb) Hevb] | ->].
           ++ split; [| exact Hevb].
              destruct (Hkids act c Hc) as (nc & Hnc & Hp).
              exact (below_down (heap st) a b c nc Hnc Hp Hcb).
           ++ split; [apply below_self | by exists na].
        -- intros [Hab Hevb].
           destruct (below_split (heap st) a b Hab) as [-> | (c & nc & Hnc & Hp & Hcb)];
             [by right | left].
           split; [| exact Hevb].
           destruct (parent_link pm rs front pend (heap st) Hh c nc a Hnc Hp)
             as (pn & act & _ & Hpn & _ & Hkid & _).
           assert (Hq : Some na = Some pn) by (rewrite <- Ha; exact Hpn).
           injection Hq as <-. by exists act, c.
      * apply Forall2_app; [exact Hex |]. constructor; [| constructor].
        exists na. split; [exact Ha |]. unfold emitted. simpl.
        repeat (split; [reflexivity || assumption |]). reflexivity.
    + exists [], []. rewrite app_nil_r. split; [reflexivity |].
      split; [apply NoDup_nil_2 |]. split; [| apply Forall2_nil_2].
      intros b. split; [intros Hb; by apply elem_of_nil in Hb |].
      intros [Hab (nb & Hb & Hevb)]. exfalso.
      destruct (decide (b = a)) as [-> | Hne].
      * assert (Hq : Some na = Some nb) by (rewrite <- Ha; exact Hb).
        injection Hq as <-. congruence.
      * pose proof (below_evaluated pm rs front pend (heap st) Hh a b Hab Hne na Ha).
        congruence.
Qed.

End DumpRun.

Section DumpAfterRun.
Context {F : Type} `{Arith F}.
Context {Rng : Type} `{Sampler F Rng}.
Context {E : Type} `{Environment F E}.
Context {Pos : Type} `{!Deterministic Pos}.

Implicit Types (n : Pi_struct F) (st : Store F Rng) (m : MCT F E).

(** X13: once a run on a deterministic environment is over,
    [write_data_to_buffer] returns, and it adds to the buffer exactly one
    example for every expanded node of the tree and none for a node that
    was never expanded.  The example of an
    expanded node carries the [state] and the policy [Pi] cached in the
    node, its [repeat], and the score
    [tanh((mean - score / repeat) * 3.0 / mean)], [mean] being the score of
    the root divided by [nrepeat].  The recursion of
    [analyze_Pi_graph_dump] is never deeper than the number of nodes. *)
Theorem dump_after_run (e : E) (g : Rng) (f max_var1 R : Z) (tau : Z -> F)
    (rs : Z) (inputs : list (nat * list F * F))
    (outs : list (option (ndarray3 F))) m st
    (depth : nat) (buf : list (example F)) :
  env_ok e ->
  play e g f max_var1 R tau rs inputs = Ret (outs, m, st) ->
  Pi_root m <> None -> phase m = None ->
  (length (heap st) <= depth)%nat ->
  exists (r0 : Pi_struct F) (vis : list addr) (exs : list (example F)),
    heap st !! 0%nat = Some r0 /\
    write_data_to_buffer depth m st buf = Ret (buf ++ exs) /\
    NoDup vis /\
    (forall a, a ∈ vis <-> exists n, heap st !! a = Some n /\ evaluated n = true) /\
    Forall2 (fun a x => exists n, heap st !! a = Some n /\
                                  emitted f (fdiv (of_Z (score r0)) (of_Z R)) n x)
      vis exs.
Proof.
  intros He Hplay Hroot Hph Hdepth.
  pose proof (play_stocked e g f max_var1 R tau rs inputs outs m st Hplay) as Hs.
  destruct (play_ok e g f max_var1 R tau rs inputs outs m st He Hplay Hroot)
    as (pm & Hok & Hfile).
  destruct (run_top _ _ _ _ _ Hok) as (r0 & Hr0 & Hrep0 & _ & Hfin0).
  pose proof (run_heap _ _ _ _ _ Hok) as Hheap.
  destruct (run_min _ _ _ _ _ Hok) as [lo Hlo].
  destruct (run_max _ _ _ _ _ Hok) as [hi Hhi].
  assert (Hnp : forall a n, heap st !! a = Some n -> parent n = None ->
                            score_np n = true).
  { intros a n Hn Hpar. destruct (Hheap a n Hn) as (_ & Hlink & _).
    unfold link_ok in Hlink. rewrite Hpar in Hlink. subst a.
    assert (Hq : Some n = Some r0) by (rewrite <- Hn; exact Hr0).
    injection Hq as ->.
    pose proof (proj2 Hfin0 Hph) as Hf0. apply finished_true in Hf0.
    destruct Hf0 as [Hev0 Hge0].
    destruct (Hheap 0%nat r0 Hr0) as (Hok0 & _ & _).
    destruct (ok_eval r0 Hok0 Hev0) as (r & v & _ & _ & Hsz & _).
    destruct (proj1 (Forall_lookup _ _) Hs 0%nat r0 Hr0) as (_ & _ & _ & Hcur & _).
    by apply Hcur. }
  unfold write_data_to_buffer.
  rewrite (run_root _ _ _ _ _ Hok), Hlo, (load_Some st 0%nat r0 Hr0).
  cbn [attr]. rewrite !bind_Ret.
  rewrite (average_score_np r0 (Hnp 0%nat r0 Hr0)), bind_Ret, Hhi.
  cbn [attr]. rewrite bind_Ret. cbv zeta. rewrite Hrep0, Hfile.
  destruct (dump_subtree pm rs _ None st f lo hi
              (fdiv (of_Z (score r0)) (of_Z R)) Hheap Hs Hnp depth
              0%nat r0 buf Hr0) as (vis & exs & Hrun & Hnd & Hin & Hex); [lia |].
  exists r0, vis, exs. split; [exact Hr0 |]. split; [exact Hrun |].
  split; [exact Hnd |]. split; [| exact Hex].
  intros a. rewrite Hin. split; [by intros [_ Ha] |].
  intros (n & Hn & Hev). split; [| by exists n].
  exact (below_root pm rs _ None (heap st) Hheap a n Hn).
Qed.

End DumpAfterRun.

Lemma dump_after_run_witness :
  exists outs m st,
    two_level_run 4 = Ret (outs, m, st) /\
    exists (r0 : Pi_struct num) (vis : list addr) (exs : list (example num)),
      heap st !! 0%nat = Some r0 /\
      write_data_to_buffer 5 m st [] = Ret ([] ++ exs) /\
      NoDup vis /\
      (forall a, a ∈ vis <-> exists n, heap st !! a = Some n /\ evaluated n = true) /\
      Forall2 (fun a x => exists n, heap st !! a = Some n /\
                                    emitted 7 (fdiv (of_Z (score r0)) (of_Z 2)) n x)
        vis exs.
Proof.
  edestruct (dump_after_run
               (Deterministic0 := toy_deterministic (chain_problem 2 0))
               (chain_env 2 0) [[0; 1]; [0]; [1]] 7 1 2 (fun _ => Rat 1) 1000000
               (replicate 4 toy_input))
    with (depth := 5%nat) (buf := @nil (example num)) as [r0 Hr].
  - reflexivity.
  - vm_compute. reflexivity.
  - discriminate.
  - reflexivity.
  - vm_compute. lia.
  - refine (ex_intro _ _ (ex_intro _ _ (ex_intro _ _
              (conj _ (ex_intro _ r0 Hr))))).
    vm_compute. reflexivity.
Defined.


Section Assertion.
Context {F : Type} `{Arith F}.
Context {Rng : Type} `{Sampler F Rng}.
Context {E : Type} `{Environment F E}.
Context {Pos : Type} `{!Deterministic Pos}.

Implicit Types (n : Pi_struct F) (h : list (Pi_struct F)) (st : Store F Rng)
  (m : MCT F E).

Lemma end_traversal_ext
    (loop1 loop2 : MCT F E -> Store F Rng
                   -> res (option (ndarray3 F) * MCT F E * Store F Rng))
    m st (cur : addr) n (act : Z) :
  phase m <> None ->
  (forall o m' st',
      end_traversal (fun m0 st0 => Ret (None, m0, st0)) m st cur n act
      = Ret (o, m', st') ->
      phase m' <> None -> Pi_current m' = Pi_root m' ->
      loop1 m' st' = loop2 m' st') ->
  end_traversal loop1 m st cur n act = end_traversal loop2 m st cur n act.
Proof.
  intros Hph Hext. revert Hext. unfold end_traversal.
  destruct (attr (min_step m)) as [lo | |]; [| reflexivity | reflexivity].
  rewrite !bind_Ret.
  set (m2 := if level n <? lo then with_min_step m (Some (level n)) else m).
  assert (Hph2 : phase m2 = phase m) by (unfold m2; by destruct (level n <? lo)).
  destruct (attr (max_step m2)) as [hi | |]; [| reflexivity | reflexivity].
  rewrite !bind_Ret.
  set (m3 := if hi <? level n then with_max_step m2 (Some (level n)) else m2).
  assert (Hph3 : phase m3 = phase m)
    by (unfold m3; destruct (hi <? level n); simpl; exact Hph2).
  destruct (attr (nrepeats n)) as [r | |]; [| reflexivity | reflexivity].
  rewrite !bind_Ret.
  destruct (np_get r act) as [ra | |]; [| reflexivity | reflexivity].
  rewrite !bind_Ret.
  match goal with
  | |- context [set_next ?d ?s ?c ?f ?x] =>
      destruct (set_next d s c f x) as [[nxt st4] | |]; [| reflexivity | reflexivity]
  end.
  rewrite !bind_Ret. destruct (nxt <? 0); [reflexivity |].
  match goal with
  | |- context [env_resetAt ?e0 ?f0] => destruct (env_resetAt e0 f0) as [s0 e0']
  end.
  intros Hext. apply (Hext None); [reflexivity | simpl; congruence | reflexivity].
Qed.

Lemma descend_ext
    (loop1 loop2 : MCT F E -> Store F Rng
                   -> res (option (ndarray3 F) * MCT F E * Store F Rng))
    m st n (act : Z) (s : ndarray3 F) :
  (forall (c : addr) st3,
      dict_get (children n) act = Ret c -> add_state st c s = Ret st3 ->
      loop1 (with_Pi_current m (Some c)) st3
      = loop2 (with_Pi_current m (Some c)) st3) ->
  descend loop1 m st n act s = descend loop2 m st n act s.
Proof.
  intros Hext. unfold descend.
  destruct (dict_get (children n) act) as [c | |] eqn:Hc; [| reflexivity | reflexivity].
  rewrite !bind_Ret.
  destruct (add_state st c s) as [st3 | |] eqn:Hadd; [| reflexivity | reflexivity].
  rewrite !bind_Ret. by apply Hext.
Qed.

(** Every node has a positive repeat budget when the root has one. *)
Lemma repeat_positive (pm : addr -> Pos) (rs : Z) (front pend : option addr) h
    (r0 : Pi_struct F) :
  heap_ok pm rs front pend h -> h !! 0%nat = Some r0 -> 0 < repeat r0 ->
  forall (a : addr) n, h !! a = Some n -> 0 < repeat n.
Proof.
  intros Hh Hr0 Hrep a n Hn. destruct (Hh a n Hn) as (_ & Hlink & _).
  unfold link_ok in Hlink. destruct (parent n) as [p |].
  - destruct Hlink as (_ & pn & act & r & _ & Hpn & Hevp & Hrp & Hin & _ & Hrn & _).
    destruct (Hh p pn Hpn) as (Hokp & _ & _).
    destruct (ok_eval pn Hokp Hevp) as (r' & v & Hr' & _ & _ & _ & _ & _ & Hkeys & _).
    assert (r' = r) by congruence. subst r'.
    assert (Hkey : act ∈ budgeted r (seqZ 0 (size pn))).
    { rewrite <- Hkeys. apply list_elem_of_fmap. by exists (act, a). }
    apply elem_of_budgeted in Hkey. rewrite Hrn. by destruct Hkey.
  - subst a. assert (Hq : Some n = Some r0) by (rewrite <- Hn; exact Hr0).
    by injection Hq as ->.
Qed.

(** Between two calls of [get_state] the current node is not expanded. *)
Lemma get_state_many_paused (inputs : list (nat * list F * F)) :
  forall m st (outs : list (option (ndarray3 F))) m' st',
    get_state_many inputs m st = Ret (outs, m', st') ->
    (phase m <> None ->
     exists cur n, Pi_current m = Some cur /\ heap st !! cur = Some n /\
                   evaluated n = false) ->
    phase m' <> None ->
    exists cur n, Pi_current m' = Some cur /\ heap st' !! cur = Some n /\
                  evaluated n = false.
Proof.
  induction inputs as [| [[fuel pi_array] v_value] inputs IH];
    intros m st outs m' st' Hrun Hinit Hph; simpl in Hrun.
  - inversion Hrun; subst. by apply Hinit.
  - inv_bind Hrun. destruct x as [[o m1] st1].
    inv_bind Hrun. destruct x as [[os m2] st2]. inversion Hrun; subst.
    apply (IH _ _ _ _ _ Hstep0); [| exact Hph]. intros Hph1.
    unfold get_state in Hstep. destruct (phase m) eqn:Hpm.
    + destruct (get_state_loop_protocol _ _ _ _ _ _ _ _ Hstep)
        as [(_ & _ & Hcur) | (Hnone & _)]; [exact Hcur | contradiction].
    + inversion Hstep; subst. congruence.
Qed.

End Assertion.

Section AssertionLoop.
Context {F : Type} `{Arith F}.
Context {Rng : Type} `{Sampler F Rng}.
Context {E : Type} `{Environment F E}.
Context {Pos : Type} `{!Deterministic Pos}.

Implicit Types (n : Pi_struct F) (h : list (Pi_struct F)) (st : Store F Rng)
  (m : MCT F E).

(** The query [get_next] of an iteration finds an action. *)
Lemma next_act_found (pm : addr -> Pos) (R rs : Z) (fuel : nat) m st (cur : addr)
    n (pi_array : list F) (v_value : F) m1 st1 (i : Z) st2 :
  1 <= R -> run_ok pm R rs m st -> phase m <> None ->
  Pi_current m = Some cur -> heap st !! cur = Some n ->
  (evaluated n = true -> next n < size n) ->
  expand_current fuel m st cur n pi_array v_value = Ret (Expanded m1, st1) ->
  get_next st1 cur = Ret (i, st2) -> 0 <= i.
Proof.
  intros HR Hok Hph Hcur Hn Hlive Hblock Hget.
  pose proof (run_front pm R rs m st Hok Hph) as Hheap.
  destruct (Hheap cur n Hn) as (Hokn & _ & _).
  unfold expand_current in Hblock. destruct (evaluated n) eqn:Hev; simpl in Hblock.
  - inversion Hblock; subst m1 st1. clear Hblock.
    unfold get_next in Hget. rewrite (load_Some st cur n Hn), bind_Ret in Hget.
    rewrite (get_next_node_normal n Hokn Hev), bind_Ret in Hget.
    inversion Hget; subst i. specialize (Hlive eq_refl).
    apply Z.ltb_lt in Hlive. rewrite Hlive. exact (ok_next n Hokn).
  - inv_bind Hblock. destruct x as [mp | me]; [discriminate |].
    destruct (env_get_visit_count (env me)) as [counts e1].
    inv_bind Hblock. inversion Hblock; subst. clear Hblock.
    destruct (run_top _ _ _ _ _ Hok) as (r0 & Hr0 & Hrep0 & _).
    assert (Hrep : 0 < repeat n).
    { apply (repeat_positive pm rs _ None (heap st) r0 Hheap Hr0) with (a := cur);
        [lia | exact Hn]. }
    destruct (get_next_after_expansion st cur n fuel counts st1 Hokn Hn Hev Hstep0
                Hrep) as (i' & st2' & Hget' & Hi').
    rewrite Hget in Hget'. by inversion Hget'; subst.
Qed.

(** The child the driver moves to is not expanded or not finished. *)
Lemma child_is_live (pm : addr -> Pos) (R rs : Z) (cur : addr) st n2 (c : addr)
    (s : ndarray3 F) st3 n' :
  ready pm R rs cur (next n2) st -> heap st !! cur = Some n2 ->
  dict_get (children n2) (next n2) = Ret c ->
  add_state st c s = Ret st3 ->
  heap st3 !! c = Some n' -> evaluated n' = true -> next n' < size n'.
Proof.
  intros (Hheap & _ & _ & (n2' & Hn2' & Hev2 & _ & _) & _) Hn2 Hc Hadd Hn' Hev'.
  assert (Hq : Some n2 = Some n2') by (rewrite <- Hn2; exact Hn2').
  injection Hq as <-. apply dict_get_elem in Hc.
  destruct (Hheap cur n2 Hn2) as (Hok2 & _ & Hkids).
  destruct (Hkids _ c Hc) as (nc & Hnc & Hpc).
  unfold add_state in Hadd. rewrite (load_Some st c nc Hnc), bind_Ret in Hadd.
  inv_bind Hadd. inversion Hadd; subst st3. clear Hadd.
  apply add_state_node_Ret in Hstep. destruct Hstep as (-> & _).
  unfold store in Hn'. simpl in Hn'.
  rewrite list_lookup_insert_eq in Hn' by (by apply lookup_lt_Some in Hnc).
  injection Hn' as <-. simpl in Hev'. simpl.
  apply finished_false_live; [exact Hev' |].
  destruct (finished nc) eqn:Hfin; [exfalso | reflexivity].
  destruct (Hheap c nc Hnc) as (_ & Hlink & _). unfold link_ok in Hlink.
  rewrite Hpc in Hlink.
  destruct Hlink as (_ & pn & act & r & _ & Hpn & _ & _ & Hin & _ & _ & _ & _ & _
                     & Hfront).
  assert (Hq : Some n2 = Some pn) by (rewrite <- Hn2; exact Hpn).
  injection Hq as <-.
  destruct (Hfront (or_introl Hev')) as (_ & _ & Hcur). rewrite Hfin in Hcur.
  destruct (decide (None = Some c)) as [Hcontra | _]; [discriminate |].
  destruct (ok_eval n2 Hok2 Hev2) as (r' & v & _ & _ & _ & _ & _ & _ & _ & Hnd & _).
  pose proof (snd_unique (children n2) act (next n2) c Hnd Hin Hc). lia.
Qed.

Lemma get_state_loop_unchecked_eq (R rs : Z) (pi_array : list F) (v_value : F)
    (fuel : nat) :
  1 <= R ->
  forall (pm : addr -> Pos) m st,
    run_ok pm R rs m st -> phase m <> None ->
    (forall cur n, Pi_current m = Some cur -> heap st !! cur = Some n ->
                   evaluated n = true -> next n < size n) ->
    get_state_loop fuel m st pi_array v_value
    = get_state_loop_unchecked fuel m st pi_array v_value.
Proof.
  intros HR. induction fuel as [| fuel IH]; intros pm m st Hok Hph Hlive;
    [reflexivity |].
  cbn [get_state_loop get_state_loop_unchecked].
  destruct (attr (Pi_current m)) as [cur | |] eqn:Hcur; [| reflexivity | reflexivity].
  rewrite !bind_Ret. apply attr_Ret_inv in Hcur.
  destruct (load st cur) as [n | |] eqn:Hn; [| reflexivity | reflexivity].
  rewrite !bind_Ret. apply load_Ret_inv in Hn.
  destruct (expand_current fuel m st cur n pi_array v_value) as [[x st1] | |]
    eqn:Hblock; [| reflexivity | reflexivity].
  rewrite !bind_Ret.
  destruct (expand_current_ok pm R rs fuel m st cur n pi_array v_value x st1
              Hok Hph Hcur Hn Hblock) as (m1 & Hsame & Hx).
  pose proof (run_driver_ok pm R rs m st Hok Hph) as Hdrv.
  destruct Hx as [(-> & ->) | (-> & Hready)]; [reflexivity |].
  destruct (get_next st1 cur) as [[next_act st2] | |] eqn:Hget;
    [| reflexivity | reflexivity].
  rewrite !bind_Ret.
  pose proof (next_act_found pm R rs fuel m st cur n pi_array v_value m1 st1
                next_act st2 HR Hok Hph Hcur Hn (Hlive cur n Hcur Hn) Hblock Hget)
    as Hfound.
  replace (0 <=? next_act) with true by (symmetry; by apply Z.leb_le).
  unfold assert. rewrite bind_Ret.
  destruct (Hready next_act st2 eq_refl Hfound) as (pm1 & Hrdy & Hpm1 & Hlen).
  assert (Hlt : (cur < length (heap st))%nat) by (by apply lookup_lt_Some in Hn).
  assert (H0lt : (0 < length (heap st))%nat) by lia.
  pose proof (driver_ok_same pm pm1 rs m m1 Hdrv Hsame (Hpm1 0%nat H0lt)) as Hdrv1.
  destruct Hsame as (Hroot1 & Hcur1 & Hmin1 & Hmax1 & Hres1 & Hfile1 & Hph1 & He1
                     & Hpos1).
  assert (Hposcur : pos (env m1) = pm1 cur).
  { rewrite Hpos1, (Hpm1 cur Hlt). by apply (run_pos _ _ _ _ _ Hok). }
  destruct (step_ok (env m1) next_act He1) as (He2 & Hpos2 & Hout).
  destruct (env_step (env m1) next_act) as [[isDone s] e] eqn:Hstepenv.
  simpl in He2, Hpos2, Hout. inversion Hout; subst isDone s. clear Hout.
  rewrite Hposcur in *. cbv zeta.
  set (m2 := with_mct_state (with_env m1 e)
               (Some (obs_at (nextpos (pm1 cur) next_act)))) in *.
  assert (Hdrv2 : driver_ok pm1 rs m2).
  { destruct Hdrv1 as (? & ? & ? & ? & ? & ? & ?). unfold driver_ok, m2. simpl.
    auto 10. }
  destruct Hrdy as (Hheap2 & Hprop2 & Hacct2 & (n2 & Hn2 & Hev2 & Hnext2 & Hlive2)
                    & Hroot2).
  rewrite (load_Some st2 cur n2 Hn2), !bind_Ret. subst next_act.
  assert (Hrdy : ready pm1 R rs cur (next n2) st2).
  { unfold ready. split; [exact Hheap2 |]. split; [exact Hprop2 |].
    split; [exact Hacct2 |]. split; [exists n2; auto | exact Hroot2]. }
  assert (Hres2 : resign m2 = Some rs) by (by destruct Hdrv2 as (_ & ? & _)).
  assert (Hid : forall pm0 m0 st0 o0 m0' st0',
            run_ok pm0 R rs m0 st0 -> phase m0 <> None ->
            (fun m3 st3 => Ret (None, m3, st3)) m0 st0
            = (Ret (o0, m0', st0')
               : res (option (ndarray3 F) * MCT F E * Store F Rng)) ->
            exists pm', run_ok pm' R rs m0' st0'
                        /\ mct_file_no m0' = mct_file_no m0).
  { intros pm0 m0 st0 o0 m0' st0' Hok0 _ Hq. inversion Hq; subst. by exists pm0. }
  assert (Hover : (if term_at (pm1 cur) (next n2) then Ret true
                   else rs0 ← attr (resign m2); Ret (rs0 <=? level n2))
                  = Ret (term_at (pm1 cur) (next n2) || (rs <=? level n2))).
  { destruct (term_at (pm1 cur) (next n2)); [reflexivity |].
    rewrite Hres2. reflexivity. }
  rewrite Hover, !bind_Ret. clear Hover.
  destruct (term_at (pm1 cur) (next n2) || (rs <=? level n2)) eqn:Hover.
  - apply orb_true_iff in Hover.
    apply end_traversal_ext.
    { by destruct Hdrv2 as (_ & _ & _ & _ & _ & _ & ?). }
    intros o m' st' Hrun' Hph' Hcur'.
    destruct (end_traversal_ok R rs _ pm1 m2 st2 cur n2 o m' st' Hid Hdrv2)
      as (pm' & Hok' & _); try assumption.
    { unfold m2. simpl. congruence. }
    { destruct Hover as [Ht | Hr]; [by left | right; by apply Z.leb_le]. }
    apply (IH pm' m' st' Hok' Hph').
    intros cur' n' Hc' Hn' Hev'.
    destruct (run_root_live pm' R rs m' st' Hok' Hph') as (r0 & Hr0 & _ & _ & Hf0).
    rewrite Hcur', (run_root _ _ _ _ _ Hok') in Hc'. injection Hc' as <-.
    assert (Hq : Some n' = Some r0) by (rewrite <- Hn'; exact Hr0).
    injection Hq as ->. by apply finished_false_live.
  - apply orb_false_iff in Hover. destruct Hover as [Ht Hr]. apply Z.leb_gt in Hr.
    apply descend_ext. intros c st3 Hc Hadd.
    assert (Hrun' : descend (fun m3 st4 => Ret (None, m3, st4)) m2 st2 n2 (next n2)
                      (obs_at (nextpos (pm1 cur) (next n2)))
                    = Ret (None, with_Pi_current m2 (Some c), st3)).
    { unfold descend. rewrite Hc, bind_Ret, Hadd. reflexivity. }
    destruct (descend_ok R rs _ pm1 m2 st2 cur n2 None _ st3 Hid Hdrv2 Hrdy Hn2 Ht
                Hr Hpos2 Hrun') as (pm' & Hok' & _).
    apply (IH pm' _ st3 Hok').
    { simpl. exact Hph1. }
    intros cur' n' Hc' Hn' Hev'. simpl in Hc'. injection Hc' as <-.
    exact (child_is_live pm1 R rs cur st2 n2 c _ st3 n' Hrdy Hn2 Hc Hadd Hn' Hev').
Qed.

End AssertionLoop.

Section AssertionRun.
Context {F : Type} `{Arith F}.
Context {Rng : Type} `{Sampler F Rng}.
Context {E : Type} `{Environment F E}.
Context {Pos : Type} `{!Deterministic Pos}.

Implicit Types (n : Pi_struct F) (st : Store F Rng) (m : MCT F E).

(** X14: in a run with [nrepeat >= 1] on a deterministic environment the
    assertion [next_act >= 0] of [get_state] never fails: whenever the loop
    asks the current node for its next action, [get_next] returns one.
    Every call of [get_state] therefore behaves exactly, in its result and
    in what it raises, as the same call with the assertion left out. *)
Theorem next_act_is_never_negative (e : E) (g : Rng) (f max_var1 R : Z)
    (tau : Z -> F) (rs : Z) (inputs : list (nat * list F * F))
    (outs : list (option (ndarray3 F))) m st
    (fuel : nat) (pi_array : list F) (v_value : F) :
  env_ok e -> 1 <= R ->
  play e g f max_var1 R tau rs inputs = Ret (outs, m, st) ->
  get_state fuel m st pi_array v_value
  = get_state_unchecked fuel m st pi_array v_value.
Proof.
  intros He HR Hplay. unfold get_state, get_state_unchecked.
  destruct (phase m) as [b |] eqn:Hph; [| reflexivity].
  assert (Hphase : phase m <> None) by congruence.
  assert (Hpaused : exists cur n, Pi_current m = Some cur /\
                                  heap st !! cur = Some n /\ evaluated n = false).
  { pose proof Hplay as Hrun. unfold play in Hrun. inv_bind Hrun.
    destruct x as [m0 st0].
    apply (get_state_many_paused inputs m0 st0 outs m st Hrun); [| exact Hphase].
    intros Hph0. unfold MCT_init in Hstep.
    destruct (env_resetAt e f) as [[s |] e1].
    - simpl in Hstep. inv_bind Hstep. inversion Hstep; subst m0 st0. clear Hstep.
      unfold add_state, load in Hstep0. simpl in Hstep0.
      inv_bind Hstep0. inversion Hstep0; subst x. clear Hstep0.
      apply add_state_node_Ret in Hstep. destruct Hstep as (-> & _).
      eexists 0%nat, _. split; [reflexivity |]. split; reflexivity.
    - inversion Hstep; subst. simpl in Hph0. contradiction. }
  assert (Hroot : Pi_root m <> None).
  { intros Hnone. unfold play in Hplay. inv_bind Hplay. destruct x as [m0 st0].
    unfold MCT_init in Hstep. destruct (env_resetAt e f) as [[s |] e1] eqn:Hreset.
    - assert (Hinit : MCT_init e g f max_var1 R tau rs = Ret (m0, st0))
        by (unfold MCT_init; rewrite Hreset; exact Hstep).
      assert (Hroot0 : Pi_root m0 <> None).
      { simpl in Hstep. inv_bind Hstep. inversion Hstep; subst. discriminate. }
      destruct (MCT_init_ok e g f max_var1 R tau rs m0 st0 He Hinit Hroot0)
        as (Hok0 & _).
      destruct (get_state_many_ok R rs inputs _ m0 st0 outs m st Hok0 Hplay)
        as (pm & Hok & _).
      rewrite (run_root _ _ _ _ _ Hok) in Hnone. discriminate.
    - inversion Hstep; subst m0 st0.
      pose proof (fun Hq => get_state_many_done inputs _ _ outs m st Hq Hplay)
        as Hdone.
      destruct (Hdone eq_refl) as [Hm _]. rewrite Hm in Hph. discriminate. }
  destruct (play_ok e g f max_var1 R tau rs inputs outs m st He Hplay Hroot)
    as (pm & Hok & _).
  apply (get_state_loop_unchecked_eq R rs pi_array v_value fuel HR pm m st Hok
           Hphase).
  intros cur n Hcur Hn Hev. destruct Hpaused as (cur' & n' & Hcur' & Hn' & Hev').
  assert (cur' = cur) by congruence. subst cur'.
  assert (Hq : Some n = Some n') by (rewrite <- Hn; exact Hn').
  injection Hq as ->. congruence.
Qed.

End AssertionRun.

Lemma next_act_is_never_negative_witness :
  exists outs m st,
    two_level_run 1 = Ret (outs, m, st) /\
    get_state 10 m st [Rat 1; Rat 1] (Rat 0)
    = get_state_unchecked 10 m st [Rat 1; Rat 1] (Rat 0).
Proof.
  assert (Hrun : exists outs m st, two_level_run 1 = Ret (outs, m, st))
    by (do 3 eexists; vm_compute; reflexivity).
  destruct Hrun as (outs & m & st & Hrun).
  exists outs, m, st. split; [exact Hrun |].
  apply (next_act_is_never_negative
           (Deterministic0 := toy_deterministic (chain_problem 2 0))
           (chain_env 2 0) [[0; 1]; [0]; [1]] 7 1 2 (fun _ => Rat 1) 1000000
           (replicate 1 toy_input) outs m st).
  - reflexivity.
  - lia.
  - exact Hrun.
Defined.
